(** * CNF generators for number-theoretic predicates: a shallow embedding

    This development embeds the constraint generators of [core.cpp]
    (adders, multipliers, division, exponentiation, the primality
    certificate) and the DIMACS finaliser [generate_cnf], and proves
    properties of the clause lists they produce.

    Representation.  The C++ code carries a clause as a string such as
    ["-<a> -<b>  <c> 0 "]: a blank-separated sequence of signed, bracketed
    names closed by [0].  Here the same clause is the list
    [[Neg "a"; Neg "b"; Pos "c"]]: literals in the order in which the
    source concatenates them, the terminator left implicit.  The
    finaliser, which works on the text itself, is embedded on strings.

    Every [static int call_count] of the source is a field of [counters];
    a generator that bumps one is a function in the state monad [M]. *)

From Stdlib Require Import List String Ascii Bool Arith ZArith Lia Znumtheory.
From Stdlib Require Import NArith DecimalString Zpow_facts FMapPositive.
From Stdlib Require ZmodInv.
From Stdlib Require Import Sorted Permutation OrderedTypeEx.
Import ListNotations.

Local Open Scope string_scope.
Local Open Scope list_scope.
Local Open Scope Z_scope.

(* ================================================================== *)
(** * Symbol naming *)

Module Pad.

(** One decimal digit as a character. *)
Definition digit (d : N) : ascii := ascii_of_N (48 + d).

(** [k] decimal digits of [i], most significant first. *)
Fixpoint digits (k : nat) (i : N) : string :=
  match k with
  | O => EmptyString
  | S k' => String (digit ((i / 10 ^ N.of_nat k') mod 10)) (digits k' i)
  end.

(** [std::string Z(int i)]: [setw(10)], [setfill('0')].  A value of fewer
    than ten digits is padded on the left to width ten; a longer one is
    printed in full. *)
Definition Z (i : nat) : string :=
  if (N.of_nat i <? 10 ^ 10)%N then digits 10 (N.of_nat i)
  else NilZero.string_of_uint (N.to_uint (N.of_nat i)).

End Pad.

(** [x # i] is the name of bit [i] of the operand [x]: [x + "_" + Z(i)]. *)
Notation "x # i" := (x ++ "_" ++ Pad.Z i)%string (at level 30, no associativity).

(* ================================================================== *)
(** * Literals, clauses, formulas *)

Inductive literal : Type :=
| Pos (v : string)
| Neg (v : string).

Definition clause := list literal.
Definition cnf := list clause.

Definition lit_var (l : literal) : string :=
  match l with Pos v => v | Neg v => v end.

Definition clause_vars (c : clause) : list string := map lit_var c.
Definition cnf_vars (f : cnf) : list string := flat_map clause_vars f.

(** ** Semantics *)

Definition assignment := string -> bool.

Definition sat_lit (s : assignment) (l : literal) : bool :=
  match l with Pos v => s v | Neg v => negb (s v) end.

Definition sat_clause (s : assignment) (c : clause) : bool :=
  existsb (sat_lit s) c.

Definition sat (s : assignment) (f : cnf) : bool :=
  forallb (sat_clause s) f.

Definition satisfiable (f : cnf) : Prop := exists s, sat s f = true.

(** The unsigned integer denoted by the bits [f 0 .. f (n-1)], LSB first. *)
Fixpoint bval (f : nat -> bool) (n : nat) : Z :=
  match n with
  | O => 0
  | S k => bval f k + Z.b2z (f k) * 2 ^ Z.of_nat k
  end.

(** The value an assignment gives the [n]-bit operand [x]. *)
Definition value (s : assignment) (x : string) (n : nat) : Z :=
  bval (fun i => s (x # i)) n.

(* ================================================================== *)
(** * Call counters and the expansion monad *)

Record counters : Type := mkCounters {
  cnt_Add_NBit : nat;
  cnt_Mul_NBit : nat;
  cnt_LessThan_NBit : nat;
  cnt_DivMod_NBit : nat;
  cnt_Pow_NBit : nat;
  cnt_PowMod_NBit : nat;
  cnt_Or_Condition : nat;
  cnt_Sum_NBit : nat;
  cnt_Product_NBit : nat;
  cnt_FermatTest : nat;
  cnt_FermatTest2 : nat;
  cnt_FermatTest3 : nat;
  cnt_IsPrime : nat;
  cnt_IsComposite : nat
}.

Definition counters0 : counters := mkCounters 0 0 0 0 0 0 0 0 0 0 0 0 0 0.

Definition M (A : Type) : Type := counters -> A * counters.

Definition ret {A} (a : A) : M A := fun st => (a, st).
Definition bind {A B} (m : M A) (k : A -> M B) : M B :=
  fun st => let (a, st') := m st in k a st'.

Notation "x <- m ;; k" := (bind m (fun x => k))
  (at level 61, m at next level, right associativity).

Definition run {A} (m : M A) (st : counters) : A := fst (m st).

(** [++call_count] of each generator kind, returning the new value. *)
Definition tick_Add_NBit : M nat := fun st =>
  let c := S (cnt_Add_NBit st) in
  (c, mkCounters c (cnt_Mul_NBit st) (cnt_LessThan_NBit st) (cnt_DivMod_NBit st)
        (cnt_Pow_NBit st) (cnt_PowMod_NBit st) (cnt_Or_Condition st) (cnt_Sum_NBit st)
        (cnt_Product_NBit st) (cnt_FermatTest st) (cnt_FermatTest2 st)
        (cnt_FermatTest3 st) (cnt_IsPrime st) (cnt_IsComposite st)).

Definition tick_Mul_NBit : M nat := fun st =>
  let c := S (cnt_Mul_NBit st) in
  (c, mkCounters (cnt_Add_NBit st) c (cnt_LessThan_NBit st) (cnt_DivMod_NBit st)
        (cnt_Pow_NBit st) (cnt_PowMod_NBit st) (cnt_Or_Condition st) (cnt_Sum_NBit st)
        (cnt_Product_NBit st) (cnt_FermatTest st) (cnt_FermatTest2 st)
        (cnt_FermatTest3 st) (cnt_IsPrime st) (cnt_IsComposite st)).

Definition tick_LessThan_NBit : M nat := fun st =>
  let c := S (cnt_LessThan_NBit st) in
  (c, mkCounters (cnt_Add_NBit st) (cnt_Mul_NBit st) c (cnt_DivMod_NBit st)
        (cnt_Pow_NBit st) (cnt_PowMod_NBit st) (cnt_Or_Condition st) (cnt_Sum_NBit st)
        (cnt_Product_NBit st) (cnt_FermatTest st) (cnt_FermatTest2 st)
        (cnt_FermatTest3 st) (cnt_IsPrime st) (cnt_IsComposite st)).

Definition tick_DivMod_NBit : M nat := fun st =>
  let c := S (cnt_DivMod_NBit st) in
  (c, mkCounters (cnt_Add_NBit st) (cnt_Mul_NBit st) (cnt_LessThan_NBit st) c
        (cnt_Pow_NBit st) (cnt_PowMod_NBit st) (cnt_Or_Condition st) (cnt_Sum_NBit st)
        (cnt_Product_NBit st) (cnt_FermatTest st) (cnt_FermatTest2 st)
        (cnt_FermatTest3 st) (cnt_IsPrime st) (cnt_IsComposite st)).

Definition tick_Pow_NBit : M nat := fun st =>
  let c := S (cnt_Pow_NBit st) in
  (c, mkCounters (cnt_Add_NBit st) (cnt_Mul_NBit st) (cnt_LessThan_NBit st)
        (cnt_DivMod_NBit st) c (cnt_PowMod_NBit st) (cnt_Or_Condition st)
        (cnt_Sum_NBit st) (cnt_Product_NBit st) (cnt_FermatTest st)
        (cnt_FermatTest2 st) (cnt_FermatTest3 st) (cnt_IsPrime st) (cnt_IsComposite st)).

Definition tick_PowMod_NBit : M nat := fun st =>
  let c := S (cnt_PowMod_NBit st) in
  (c, mkCounters (cnt_Add_NBit st) (cnt_Mul_NBit st) (cnt_LessThan_NBit st)
        (cnt_DivMod_NBit st) (cnt_Pow_NBit st) c (cnt_Or_Condition st)
        (cnt_Sum_NBit st) (cnt_Product_NBit st) (cnt_FermatTest st)
        (cnt_FermatTest2 st) (cnt_FermatTest3 st) (cnt_IsPrime st) (cnt_IsComposite st)).

Definition tick_Or_Condition : M nat := fun st =>
  let c := S (cnt_Or_Condition st) in
  (c, mkCounters (cnt_Add_NBit st) (cnt_Mul_NBit st) (cnt_LessThan_NBit st)
        (cnt_DivMod_NBit st) (cnt_Pow_NBit st) (cnt_PowMod_NBit st) c
        (cnt_Sum_NBit st) (cnt_Product_NBit st) (cnt_FermatTest st)
        (cnt_FermatTest2 st) (cnt_FermatTest3 st) (cnt_IsPrime st) (cnt_IsComposite st)).

Definition tick_Sum_NBit : M nat := fun st =>
  let c := S (cnt_Sum_NBit st) in
  (c, mkCounters (cnt_Add_NBit st) (cnt_Mul_NBit st) (cnt_LessThan_NBit st)
        (cnt_DivMod_NBit st) (cnt_Pow_NBit st) (cnt_PowMod_NBit st)
        (cnt_Or_Condition st) c (cnt_Product_NBit st) (cnt_FermatTest st)
        (cnt_FermatTest2 st) (cnt_FermatTest3 st) (cnt_IsPrime st) (cnt_IsComposite st)).

Definition tick_Product_NBit : M nat := fun st =>
  let c := S (cnt_Product_NBit st) in
  (c, mkCounters (cnt_Add_NBit st) (cnt_Mul_NBit st) (cnt_LessThan_NBit st)
        (cnt_DivMod_NBit st) (cnt_Pow_NBit st) (cnt_PowMod_NBit st)
        (cnt_Or_Condition st) (cnt_Sum_NBit st) c (cnt_FermatTest st)
        (cnt_FermatTest2 st) (cnt_FermatTest3 st) (cnt_IsPrime st) (cnt_IsComposite st)).

Definition tick_FermatTest : M nat := fun st =>
  let c := S (cnt_FermatTest st) in
  (c, mkCounters (cnt_Add_NBit st) (cnt_Mul_NBit st) (cnt_LessThan_NBit st)
        (cnt_DivMod_NBit st) (cnt_Pow_NBit st) (cnt_PowMod_NBit st)
        (cnt_Or_Condition st) (cnt_Sum_NBit st) (cnt_Product_NBit st) c
        (cnt_FermatTest2 st) (cnt_FermatTest3 st) (cnt_IsPrime st) (cnt_IsComposite st)).

Definition tick_FermatTest2 : M nat := fun st =>
  let c := S (cnt_FermatTest2 st) in
  (c, mkCounters (cnt_Add_NBit st) (cnt_Mul_NBit st) (cnt_LessThan_NBit st)
        (cnt_DivMod_NBit st) (cnt_Pow_NBit st) (cnt_PowMod_NBit st)
        (cnt_Or_Condition st) (cnt_Sum_NBit st) (cnt_Product_NBit st)
        (cnt_FermatTest st) c (cnt_FermatTest3 st) (cnt_IsPrime st) (cnt_IsComposite st)).

Definition tick_FermatTest3 : M nat := fun st =>
  let c := S (cnt_FermatTest3 st) in
  (c, mkCounters (cnt_Add_NBit st) (cnt_Mul_NBit st) (cnt_LessThan_NBit st)
        (cnt_DivMod_NBit st) (cnt_Pow_NBit st) (cnt_PowMod_NBit st)
        (cnt_Or_Condition st) (cnt_Sum_NBit st) (cnt_Product_NBit st)
        (cnt_FermatTest st) (cnt_FermatTest2 st) c (cnt_IsPrime st) (cnt_IsComposite st)).

Definition tick_IsPrime : M nat := fun st =>
  let c := S (cnt_IsPrime st) in
  (c, mkCounters (cnt_Add_NBit st) (cnt_Mul_NBit st) (cnt_LessThan_NBit st)
        (cnt_DivMod_NBit st) (cnt_Pow_NBit st) (cnt_PowMod_NBit st)
        (cnt_Or_Condition st) (cnt_Sum_NBit st) (cnt_Product_NBit st)
        (cnt_FermatTest st) (cnt_FermatTest2 st) (cnt_FermatTest3 st) c
        (cnt_IsComposite st)).

Definition tick_IsComposite : M nat := fun st =>
  let c := S (cnt_IsComposite st) in
  (c, mkCounters (cnt_Add_NBit st) (cnt_Mul_NBit st) (cnt_LessThan_NBit st)
        (cnt_DivMod_NBit st) (cnt_Pow_NBit st) (cnt_PowMod_NBit st)
        (cnt_Or_Condition st) (cnt_Sum_NBit st) (cnt_Product_NBit st)
        (cnt_FermatTest st) (cnt_FermatTest2 st) (cnt_FermatTest3 st)
        (cnt_IsPrime st) c).

(** A [for (int i = 0; i < n; i++)] loop whose body appends clauses and
    may bump counters: bodies run in index order, clauses are
    concatenated in that order. *)
Fixpoint for_from (body : nat -> M cnf) (i k : nat) : M cnf :=
  match k with
  | O => ret []
  | S k' => c <- body i ;; cs <- for_from body (S i) k' ;; ret (c ++ cs)
  end.

Definition for_ (n : nat) (body : nat -> M cnf) : M cnf := for_from body 0 n.

(** The same loop for a body that touches no counter. *)
Definition for_pure (n : nat) (body : nat -> cnf) : cnf :=
  flat_map body (seq 0 n).

(* ================================================================== *)
(** * Constants *)

(** [Input_Equals_Number(input, value, n)]: one unit clause per bit.
    The source takes the number as an [int] and tests
    [((value >> i) & 1) == 1]: for [i < 32] that is bit [i] of the
    number, as here.  A width over 32 makes the source shift the [int]
    by 32 or more, which C++ leaves undefined; there the definition goes
    on with the bits of the number, and stands for no behaviour of the
    source.  Where a generator or a front end emits a pin of its own,
    the theorems keep its width to 32 bits at most; where a pin is the
    hypothesis that an operand holds a number, it pins the operand to
    that number at any width. *)
Definition Input_Equals_Number (input : string) (v : Z) (n : nat) : cnf :=
  for_pure n (fun i =>
    if Z.eqb (Z.land (Z.shiftr v (Z.of_nat i)) 1) 1
    then [[Pos (input # i)]]
    else [[Neg (input # i)]]).

(** [Input_Not_Equals_Number(input, value, n)]: a single clause, some bit
    differs.  The same test on the same [int], with the same limit of 32
    bits. *)
Definition Input_Not_Equals_Number (input : string) (v : Z) (n : nat) : clause :=
  map (fun i =>
    if Z.eqb (Z.land (Z.shiftr v (Z.of_nat i)) 1) 1
    then Neg (input # i)
    else Pos (input # i)) (seq 0 n).

(* ================================================================== *)
(** * One-bit adder *)

Definition CarryOut_Equal_POPCNT_GREATER_THAN_2
  (in_a in_b carry_in carry_out : string) : cnf :=
  [ [Neg in_a; Neg in_b; Neg carry_in; Pos carry_out];
    [Neg in_a; Neg in_b; Pos carry_in; Pos carry_out];
    [Neg in_a; Pos in_b; Neg carry_in; Pos carry_out];
    [Neg in_a; Pos in_b; Pos carry_in; Neg carry_out];
    [Pos in_a; Neg in_b; Neg carry_in; Pos carry_out];
    [Pos in_a; Neg in_b; Pos carry_in; Neg carry_out];
    [Pos in_a; Pos in_b; Neg carry_in; Neg carry_out];
    [Pos in_a; Pos in_b; Pos carry_in; Neg carry_out] ].

Definition Result_Equal_A_XOR_B_XOR_CarryIn
  (in_a in_b carry_in result : string) : cnf :=
  [ [Neg in_a; Neg in_b; Neg carry_in; Pos result];
    [Neg in_a; Neg in_b; Pos carry_in; Neg result];
    [Neg in_a; Pos in_b; Neg carry_in; Neg result];
    [Neg in_a; Pos in_b; Pos carry_in; Pos result];
    [Pos in_a; Neg in_b; Neg carry_in; Neg result];
    [Pos in_a; Neg in_b; Pos carry_in; Pos result];
    [Pos in_a; Pos in_b; Neg carry_in; Pos result];
    [Pos in_a; Pos in_b; Pos carry_in; Neg result] ].

Definition Add_1Bit (in_a in_b carry_in result carry_out : string) : cnf :=
  CarryOut_Equal_POPCNT_GREATER_THAN_2 in_a in_b carry_in carry_out
  ++ Result_Equal_A_XOR_B_XOR_CarryIn in_a in_b carry_in result.

(* ================================================================== *)
(** * N-bit adder *)

Definition AddNBit_carry (c i : nat) : string :=
  ("AddNBit_" ++ Pad.Z c ++ "_carry_out_" ++ Pad.Z i)%string.

Definition Add_NBit_body (in_a in_b result over_flow : string) (n c : nat) : cnf :=
  [[Neg (AddNBit_carry c 0)]]
  ++ for_pure n (fun i =>
       Add_1Bit (in_a # i) (in_b # i) (AddNBit_carry c i)
                (result # i) (AddNBit_carry c (i + 1)))
  ++ [ [Neg over_flow; Pos (AddNBit_carry c n)];
       [Pos over_flow; Neg (AddNBit_carry c n)] ].

Definition Add_NBit (in_a in_b result over_flow : string) (n : nat) : M cnf :=
  c <- tick_Add_NBit ;;
  ret (Add_NBit_body in_a in_b result over_flow n c).


(** A [for (int i = lo; i < hi; ++i)] loop with a counter-free body. *)
Definition for_range (lo hi : nat) (body : nat -> cnf) : cnf :=
  flat_map body (seq lo (hi - lo)).

(* ================================================================== *)
(** * Shift-and-add multiplier *)

(** [Mul_NBit_1Bit_Shift(in_a, in_b, result, shift, n)]: the partial
    product [(in_a * in_b) << shift] over [2n] bits; [in_b] is one bit. *)
Definition Mul_NBit_1Bit_Shift (in_a in_b result : string) (shift n : nat) : cnf :=
  for_pure shift (fun i => [[Neg (result # i)]])
  ++ for_pure n (fun i =>
       [ [Pos (result # (i + shift)); Neg (in_a # i); Neg in_b];
         [Neg (result # (i + shift)); Neg (in_a # i); Pos in_b];
         [Neg (result # (i + shift)); Pos (in_a # i); Neg in_b];
         [Neg (result # (i + shift)); Pos (in_a # i); Pos in_b] ])
  ++ for_range (shift + n) (n * 2) (fun i => [[Neg (result # i)]]).

Definition Mul_NBit_Accum1 (c i : nat) : string :=
  ("Mul_NBit_Accum1_" ++ Pad.Z c ++ "_" ++ Pad.Z i)%string.
Definition Mul_NBit_Accum2 (c i : nat) : string :=
  ("Mul_NBit_Accum2_" ++ Pad.Z c ++ "_" ++ Pad.Z i)%string.
Definition Mul_NBit_CarryOut (c i : nat) : string :=
  ("Mul_NBit_CarryOut_" ++ Pad.Z c ++ "_" ++ Pad.Z i)%string.

Definition Mul_NBit (in_a in_b result over_flow : string) (n : nat) : M cnf :=
  c <- tick_Mul_NBit ;;
  let partial :=
    for_pure n (fun i =>
      Mul_NBit_1Bit_Shift in_a (in_b # i) (Mul_NBit_Accum1 c i) i n) in
  let init :=
    for_pure (n * 2) (fun i => [[Neg (Mul_NBit_Accum2 c 0 # i)]]) in
  adds <- for_ n (fun i =>
            Add_NBit (Mul_NBit_Accum1 c i) (Mul_NBit_Accum2 c i)
                     (Mul_NBit_Accum2 c (i + 1)) (Mul_NBit_CarryOut c i) (n * 2)) ;;
  let connect :=
    for_pure n (fun i =>
      [ [Neg (result # i); Pos (Mul_NBit_Accum2 c n # i)];
        [Pos (result # i); Neg (Mul_NBit_Accum2 c n # i)] ]) in
  let overflow_clause : clause :=
    Neg over_flow :: map (fun i => Pos (Mul_NBit_Accum2 c n # (i + n))) (seq 0 n) in
  let upper :=
    for_pure n (fun i =>
      [[Pos over_flow; Neg (Mul_NBit_Accum2 c n # (i + n))]]) in
  ret (partial ++ init ++ adds ++ connect ++ [overflow_clause] ++ upper).

(** [Mul_NBit_1Bit(in_a, in_b, result, n)]: bitwise AND with one bit. *)
Definition Mul_NBit_1Bit (in_a in_b result : string) (n : nat) : cnf :=
  for_pure n (fun i =>
    [ [Pos (result # i); Neg (in_a # i); Neg in_b];
      [Neg (result # i); Neg (in_a # i); Pos in_b];
      [Neg (result # i); Pos (in_a # i); Neg in_b];
      [Neg (result # i); Pos (in_a # i); Pos in_b] ]).

(* ================================================================== *)
(** * One-bit gates *)

Definition And_1Bit (in_a in_b result : string) : cnf :=
  [ [Pos in_a; Pos in_b; Neg result];
    [Pos in_a; Neg in_b; Neg result];
    [Neg in_a; Pos in_b; Neg result];
    [Neg in_a; Neg in_b; Pos result] ].

Definition LessThan_1Bit (in_a in_b result : string) : cnf :=
  [ [Pos in_a; Pos in_b; Neg result];
    [Pos in_a; Neg in_b; Pos result];
    [Neg in_a; Pos in_b; Neg result];
    [Neg in_a; Neg in_b; Neg result] ].

Definition Equals_1Bit (in_a in_b result : string) : cnf :=
  [ [Pos in_a; Pos in_b; Pos result];
    [Pos in_a; Neg in_b; Neg result];
    [Neg in_a; Pos in_b; Neg result];
    [Neg in_a; Neg in_b; Pos result] ].

Definition If_Cond_A_Else_B_1Bit (in_a in_b cond result : string) : cnf :=
  [ [Neg cond; Neg in_a; Pos result];
    [Neg cond; Pos in_a; Neg result];
    [Pos cond; Neg in_b; Pos result];
    [Pos cond; Pos in_b; Neg result] ].

Definition Or_1Bit (in_a in_b result : string) : cnf :=
  [ [Neg in_a; Neg in_b; Pos result];
    [Neg in_a; Pos in_b; Pos result];
    [Pos in_a; Neg in_b; Pos result];
    [Pos in_a; Pos in_b; Neg result] ].

(* ================================================================== *)
(** * N-bit comparison, selection, reduction *)

Definition Equals_NBit (in_a in_b : string) (n : nat) : cnf :=
  for_pure n (fun i =>
    [ [Neg (in_a # i); Pos (in_b # i)];
      [Pos (in_a # i); Neg (in_b # i)] ]).

Definition LessThan_NBit_Equals (c i : nat) : string :=
  ("LessThan_NBit_Equals_" ++ Pad.Z c ++ "_" ++ Pad.Z i)%string.
Definition LessThan_NBit_Less (c i : nat) : string :=
  ("LessThan_NBit_Less_" ++ Pad.Z c ++ "_" ++ Pad.Z i)%string.
Definition LessThan_NBit_EqualAccum (c i : nat) : string :=
  ("LessThan_NBit_EqualAccum_" ++ Pad.Z c ++ "_" ++ Pad.Z i)%string.
Definition LessThan_NBit_Result (c i : nat) : string :=
  ("LessThan_NBit_Result_" ++ Pad.Z c ++ "_" ++ Pad.Z i)%string.

Definition LessThan_NBit_body (in_a in_b : string) (n c : nat) : cnf :=
  for_pure n (fun i =>
    Equals_1Bit (in_a # i) (in_b # i) (LessThan_NBit_Equals c i))
  ++ for_pure n (fun i =>
    LessThan_1Bit (in_a # i) (in_b # i) (LessThan_NBit_Less c i))
  ++ [[Pos (LessThan_NBit_EqualAccum c n)]]
  ++ for_pure n (fun i =>
    And_1Bit (LessThan_NBit_EqualAccum c (i + 1)) (LessThan_NBit_Equals c i)
             (LessThan_NBit_EqualAccum c i))
  ++ for_pure n (fun i =>
    And_1Bit (LessThan_NBit_EqualAccum c (i + 1)) (LessThan_NBit_Less c i)
             (LessThan_NBit_Result c i))
  ++ [ map (fun i => Pos (LessThan_NBit_Result c i)) (seq 0 n) ].

Definition LessThan_NBit (in_a in_b : string) (n : nat) : M cnf :=
  c <- tick_LessThan_NBit ;;
  ret (LessThan_NBit_body in_a in_b n c).

Definition If_Cond_A_Else_B_NBit (in_a in_b cond result : string) (n : nat) : cnf :=
  for_pure n (fun i =>
    If_Cond_A_Else_B_1Bit (in_a # i) (in_b # i) cond (result # i)).

Definition Or_NBit_To_1Bit (in_a result : string) (n : nat) : cnf :=
  (Neg result :: map (fun i => Pos (in_a # i)) (seq 0 n))
  :: for_pure n (fun i => [[Pos result; Neg (in_a # i)]]).

(* ================================================================== *)
(** * Division with remainder *)

Definition DivMod_NBit_Accum (c : nat) : string :=
  ("DivMod_NBit_Accum_" ++ Pad.Z c)%string.
Definition DivMode_NBit_MulOverflow (c : nat) : string :=
  ("DivMode_NBit_MulOverflow_" ++ Pad.Z c)%string.
Definition DivMode_NBit_AddOverflow (c : nat) : string :=
  ("DivMode_NBit_AddOverflow_" ++ Pad.Z c)%string.

Definition DivMod_NBit (in_a in_b div mod_ : string) (n : nat) : M cnf :=
  c <- tick_DivMod_NBit ;;
  mul_clauses <- Mul_NBit in_b div (DivMod_NBit_Accum c)
                          (DivMode_NBit_MulOverflow c) n ;;
  add_clauses <- Add_NBit (DivMod_NBit_Accum c) mod_ in_a
                          (DivMode_NBit_AddOverflow c) n ;;
  less_than_clauses <- LessThan_NBit mod_ in_b n ;;
  ret (mul_clauses ++ add_clauses
       ++ [[Neg (DivMode_NBit_MulOverflow c)]]
       ++ [[Neg (DivMode_NBit_AddOverflow c)]]
       ++ less_than_clauses).

(* ================================================================== *)
(** * Exponentiation by repeated squaring *)

Definition One_NBit (n : nat) : string := ("One_NBit_" ++ Pad.Z n)%string.
Definition Zero_1Bit : string := ("Zero_1Bit_" ++ Pad.Z 1)%string.

Definition Pow_NBit_Temp1 (c i : nat) : string :=
  ("Pow_NBit_Temp1_" ++ Pad.Z c ++ "_" ++ Pad.Z i)%string.
Definition Pow_NBit_Temp1Overflow (c i : nat) : string :=
  ("Pow_NBit_Temp1Overflow_" ++ Pad.Z c ++ "_" ++ Pad.Z i)%string.
Definition Pow_NBit_Temp2 (c i : nat) : string :=
  ("Pow_NBit_Temp2_" ++ Pad.Z c ++ "_" ++ Pad.Z i)%string.
Definition Pow_NBit_PowAccum (c i : nat) : string :=
  ("Pow_NBit_PowAccum_" ++ Pad.Z c ++ "_" ++ Pad.Z i)%string.
Definition Pow_NBit_PowAccumOverflow (c : nat) : string :=
  ("Pow_NBit_PowAccumOverflow_" ++ Pad.Z c)%string.
Definition Pow_NBit_PowAccumOverflowAccum (c i : nat) : string :=
  ("Pow_NBit_PowAccumOverflowAccum_" ++ Pad.Z c ++ "_" ++ Pad.Z i)%string.
Definition Pow_NBit_OverflowTemp (c : nat) : string :=
  ("Pow_NBit_OverflowTemp_" ++ Pad.Z c)%string.
Definition Pow_NBit_PowAccumOverflow_OR (c : nat) : string :=
  ("Pow_NBit_PowAccumOverflow_OR_" ++ Pad.Z c)%string.
Definition Pow_NBit_OverflowTemp_OR (c : nat) : string :=
  ("Pow_NBit_OverflowTemp_OR_" ++ Pad.Z c)%string.

(** [Pow_NBit].  It pins its first accumulator to 1 over [n] bits: the
    list is the one of the source for [n <= 32], where that pin shifts
    its [int] by less than 32. *)
Definition Pow_NBit (in_a in_b result over_flow : string) (n : nat) : M cnf :=
  c <- tick_Pow_NBit ;;
  let equals_clauses := Equals_NBit (Pow_NBit_Temp1 c 0) in_a n in
  squares <- for_ n (fun i =>
               Mul_NBit (Pow_NBit_Temp1 c i) (Pow_NBit_Temp1 c i)
                        (Pow_NBit_Temp1 c (i + 1))
                        (Pow_NBit_Temp1Overflow c i) n) ;;
  let selects :=
    for_pure n (fun i =>
      If_Cond_A_Else_B_NBit (Pow_NBit_Temp1 c i) (One_NBit n) (in_b # i)
                            (Pow_NBit_Temp2 c i) n) in
  let input_clauses := Input_Equals_Number (Pow_NBit_PowAccum c 0) 1 n in
  accums <- for_ n (fun i =>
              Mul_NBit (Pow_NBit_Temp2 c i) (Pow_NBit_PowAccum c i)
                       (Pow_NBit_PowAccum c (i + 1))
                       (Pow_NBit_PowAccumOverflow c # i) n) ;;
  let result_clauses := Equals_NBit result (Pow_NBit_PowAccum c n) n in
  let overflow_init := [[Neg (Pow_NBit_PowAccumOverflowAccum c 0)]] in
  let overflow_ors :=
    for_pure n (fun i =>
      Or_1Bit (Pow_NBit_PowAccumOverflowAccum c i) (Pow_NBit_Temp1Overflow c i)
              (Pow_NBit_PowAccumOverflowAccum c (i + 1))) in
  let overflow_temps :=
    for_pure n (fun i =>
      If_Cond_A_Else_B_1Bit (Pow_NBit_PowAccumOverflowAccum c (i + 1)) Zero_1Bit
                            (in_b # (i + 1)) (Pow_NBit_OverflowTemp c # i)) in
  let or_clauses :=
    Or_NBit_To_1Bit (Pow_NBit_PowAccumOverflow c)
                    (Pow_NBit_PowAccumOverflow_OR c) n in
  let or_temp_clauses :=
    Or_NBit_To_1Bit (Pow_NBit_OverflowTemp c) (Pow_NBit_OverflowTemp_OR c) n in
  let final_or_clauses :=
    Or_1Bit (Pow_NBit_PowAccumOverflow_OR c) (Pow_NBit_OverflowTemp_OR c)
            over_flow in
  ret (equals_clauses ++ squares ++ selects ++ input_clauses ++ accums
       ++ result_clauses ++ overflow_init ++ overflow_ors ++ overflow_temps
       ++ or_clauses ++ or_temp_clauses ++ final_or_clauses).

(* ================================================================== *)
(** * Modular exponentiation on doubled width *)

Definition DoubleSize_Assign (in_a result : string) (n : nat) : cnf :=
  Equals_NBit in_a result n
  ++ for_range n (n * 2) (fun i => [[Neg (result # i)]]).

Definition PowMod_NBit_Base_DoubleSize (c : nat) : string :=
  ("PowMod_NBit_Base_DoubleSize_" ++ Pad.Z c)%string.
Definition PowMod_NBit_Exp_DoubleSize (c : nat) : string :=
  ("PowMod_NBit_Exp_DoubleSize_" ++ Pad.Z c)%string.
Definition PowMod_NBit_Mod_DoubleSize (c : nat) : string :=
  ("PowMod_NBit_Mod_DoubleSize_" ++ Pad.Z c)%string.
Definition PowMod_NBit_PartialResult (c i : nat) : string :=
  ("PowMod_NBit_PartialResult_" ++ Pad.Z c ++ "_" ++ Pad.Z i)%string.
Definition PowMod_NBit_CurrentPow (c i : nat) : string :=
  ("PowMod_NBit_CurrentPow_" ++ Pad.Z c ++ "_" ++ Pad.Z i)%string.
Definition PowMod_NBit_BitFactor (c i : nat) : string :=
  ("PowMod_NBit_BitFactor_" ++ Pad.Z c ++ "_" ++ Pad.Z i)%string.
Definition PowMod_NBit_Multipled (c i : nat) : string :=
  ("PowMod_NBit_Multipled_" ++ Pad.Z c ++ "_" ++ Pad.Z i)%string.
Definition PowMod_NBit_MultipledOverflow (c i : nat) : string :=
  ("PowMod_NBit_MultipledOverflow_" ++ Pad.Z c ++ "_" ++ Pad.Z i)%string.
Definition PowMod_NBit_Div1 (c i : nat) : string :=
  ("PowMod_NBit_Div1_" ++ Pad.Z c ++ "_" ++ Pad.Z i)%string.
Definition PowMod_NBit_SquareBase (c i : nat) : string :=
  ("PowMod_NBit_SquareBase_" ++ Pad.Z c ++ "_" ++ Pad.Z i)%string.
Definition PowMod_NBit_SquareBaseOverflow (c i : nat) : string :=
  ("PowMod_NBit_SquareBaseOverflow_" ++ Pad.Z c ++ "_" ++ Pad.Z i)%string.
Definition PowMod_NBit_Div2 (c i : nat) : string :=
  ("PowMod_NBit_Div2_" ++ Pad.Z c ++ "_" ++ Pad.Z i)%string.

(** One iteration of the loop over the exponent bits. *)
Definition PowMod_NBit_step (n c i : nat) : M cnf :=
  let bit_factor_clauses :=
    If_Cond_A_Else_B_NBit (PowMod_NBit_CurrentPow c i) (One_NBit (n * 2))
                          (PowMod_NBit_Exp_DoubleSize c # i)
                          (PowMod_NBit_BitFactor c i) (n * 2) in
  multipled_clauses <-
    Mul_NBit (PowMod_NBit_PartialResult c i) (PowMod_NBit_BitFactor c i)
             (PowMod_NBit_Multipled c i) (PowMod_NBit_MultipledOverflow c i)
             (n * 2) ;;
  divmod_clauses <-
    DivMod_NBit (PowMod_NBit_Multipled c i) (PowMod_NBit_Mod_DoubleSize c)
                (PowMod_NBit_Div1 c i) (PowMod_NBit_PartialResult c (i + 1))
                (n * 2) ;;
  square_clauses <-
    Mul_NBit (PowMod_NBit_CurrentPow c i) (PowMod_NBit_CurrentPow c i)
             (PowMod_NBit_SquareBase c i) (PowMod_NBit_SquareBaseOverflow c i)
             (n * 2) ;;
  current_pow_next_clauses <-
    DivMod_NBit (PowMod_NBit_SquareBase c i) (PowMod_NBit_Mod_DoubleSize c)
                (PowMod_NBit_Div2 c i) (PowMod_NBit_CurrentPow c (i + 1))
                (n * 2) ;;
  ret (bit_factor_clauses ++ multipled_clauses ++ divmod_clauses
       ++ square_clauses ++ current_pow_next_clauses).

(** [PowMod_NBit].  It pins its first partial result to 1 over [2n]
    bits: the list is the one of the source for [n <= 16]; from 17 bits
    on the source shifts an [int] by 32 or more in that pin. *)
Definition PowMod_NBit (base exp mod_ result : string) (n : nat) : M cnf :=
  c <- tick_PowMod_NBit ;;
  let base_double_clauses :=
    DoubleSize_Assign base (PowMod_NBit_Base_DoubleSize c) n in
  let exp_double_clauses :=
    DoubleSize_Assign exp (PowMod_NBit_Exp_DoubleSize c) n in
  let mod_double_clauses :=
    DoubleSize_Assign mod_ (PowMod_NBit_Mod_DoubleSize c) n in
  let init_clauses :=
    Input_Equals_Number (PowMod_NBit_PartialResult c 0) 1 (n * 2) in
  let current_pow_clauses :=
    Equals_NBit (PowMod_NBit_CurrentPow c 0) (PowMod_NBit_Base_DoubleSize c)
                (n * 2) in
  steps <- for_ n (PowMod_NBit_step n c) ;;
  let result_clauses :=
    Equals_NBit result (PowMod_NBit_PartialResult c n) n in
  ret (base_double_clauses ++ exp_double_clauses ++ mod_double_clauses
       ++ init_clauses ++ current_pow_clauses ++ steps ++ result_clauses).

(* ================================================================== *)
(** * Combinators on clause lists *)

(** [AddLiteralToCondition(literal, condition)]: the literal is put in
    front of every clause. *)
Definition AddLiteralToCondition (l : literal) (condition : cnf) : cnf :=
  map (fun cl => l :: cl) condition.

Definition Or_Condition_literal (c : nat) : string :=
  ("Or_Condition_" ++ Pad.Z c)%string.

Definition Or_Condition (condition1 condition2 : cnf) : M cnf :=
  c <- tick_Or_Condition ;;
  let or_literal := Or_Condition_literal c in
  ret (AddLiteralToCondition (Pos or_literal) condition1
       ++ AddLiteralToCondition (Neg or_literal) condition2).

Definition And_Condition (condition1 condition2 : cnf) : cnf :=
  condition1 ++ condition2.

(* ================================================================== *)
(** * N-ary sum and product *)

Definition Sum_NBit_Accum (c i : nat) : string :=
  ("Sum_NBit_Accum_" ++ Pad.Z c ++ "_" ++ Pad.Z i)%string.
Definition Sum_NBit_Overflow (c : nat) : string :=
  ("Sum_NBit_Overflow_" ++ Pad.Z c)%string.

Definition Sum_NBit (input output overflow : string) (data_count bits : nat) : M cnf :=
  c <- tick_Sum_NBit ;;
  let init_clauses := Input_Equals_Number (Sum_NBit_Accum c 0) 0 bits in
  adds <- for_ data_count (fun i =>
            Add_NBit (input # i) (Sum_NBit_Accum c i) (Sum_NBit_Accum c (i + 1))
                     (Sum_NBit_Overflow c # i) bits) ;;
  let equals_clauses :=
    Equals_NBit output (Sum_NBit_Accum c data_count) bits in
  let or_clauses := Or_NBit_To_1Bit (Sum_NBit_Overflow c) overflow data_count in
  ret (init_clauses ++ adds ++ equals_clauses ++ or_clauses).

Definition Product_NBit_Accum (c i : nat) : string :=
  ("Product_NBit_Accum_" ++ Pad.Z c ++ "_" ++ Pad.Z i)%string.
Definition Product_NBit_Overflow (c : nat) : string :=
  ("Product_NBit_Overflow_" ++ Pad.Z c)%string.

(** [Product_NBit].  It pins its first accumulator to 1 over [bits]
    bits: the list is the one of the source for [bits <= 32]. *)
Definition Product_NBit (input output overflow : string) (data_count bits : nat)
  : M cnf :=
  c <- tick_Product_NBit ;;
  let init_clauses := Input_Equals_Number (Product_NBit_Accum c 0) 1 bits in
  muls <- for_ data_count (fun i =>
            Mul_NBit (input # i) (Product_NBit_Accum c i)
                     (Product_NBit_Accum c (i + 1))
                     (Product_NBit_Overflow c # i) bits) ;;
  let equals_clauses :=
    Equals_NBit output (Product_NBit_Accum c data_count) bits in
  let or_clauses :=
    Or_NBit_To_1Bit (Product_NBit_Overflow c) overflow data_count in
  ret (init_clauses ++ muls ++ equals_clauses ++ or_clauses).

(* ================================================================== *)
(** * Fermat tests *)

Definition FermatTest_result (c : nat) : string := ("FermatTest_" ++ Pad.Z c)%string.
Definition FermatTest3_result (c : nat) : string := ("FermatTest3_" ++ Pad.Z c)%string.
Definition FermatTest2_Prime_Minus1 (c : nat) : string :=
  ("FermatTest2_Prime_Minus1_" ++ Pad.Z c)%string.
Definition FermatTest2_Prime_Minus1_Overflow (c : nat) : string :=
  ("FermatTest2_Prime_Minus1_Overflow_" ++ Pad.Z c)%string.

Definition FermatTest (generator pow mod_ : string) (n : nat) : M cnf :=
  c <- tick_FermatTest ;;
  let gen_not_zero_clause := Input_Not_Equals_Number generator 0 n in
  let gen_not_one_clause := Input_Not_Equals_Number generator 1 n in
  powmod_clauses <- PowMod_NBit generator pow mod_ (FermatTest_result c) n ;;
  let result_equals_one_clauses :=
    Input_Equals_Number (FermatTest_result c) 1 n in
  ret ([gen_not_zero_clause] ++ [gen_not_one_clause] ++ powmod_clauses
       ++ result_equals_one_clauses).

Definition FermatTest2 (generator prime : string) (n : nat) : M cnf :=
  c <- tick_FermatTest2 ;;
  add_clauses <- Add_NBit (FermatTest2_Prime_Minus1 c) (One_NBit n) prime
                          (FermatTest2_Prime_Minus1_Overflow c) n ;;
  fermat_clauses <- FermatTest generator (FermatTest2_Prime_Minus1 c) prime n ;;
  ret (add_clauses ++ [[Neg (FermatTest2_Prime_Minus1_Overflow c)]]
       ++ fermat_clauses).

Definition FermatTest3 (generator pow mod_ : string) (n : nat) : M cnf :=
  c <- tick_FermatTest3 ;;
  let gen_not_zero_clause := Input_Not_Equals_Number generator 0 n in
  let gen_not_one_clause := Input_Not_Equals_Number generator 1 n in
  powmod_clauses <- PowMod_NBit generator pow mod_ (FermatTest3_result c) n ;;
  let result_not_one_clause :=
    Input_Not_Equals_Number (FermatTest3_result c) 1 n in
  ret ([gen_not_zero_clause] ++ [gen_not_one_clause] ++ powmod_clauses
       ++ [result_not_one_clause]).

(* ================================================================== *)
(** * Primality certificate *)

(** The order in which the two argument expressions of one call are
    evaluated, which C++ leaves to the compiler.  It matters only where
    both arguments bump the same counter. *)
Inductive arg_order : Type := LeftToRight | RightToLeft.

Definition eval_args {A B} (o : arg_order) (ma : M A) (mb : M B) : M (A * B) :=
  match o with
  | LeftToRight => a <- ma ;; b <- mb ;; ret (a, b)
  | RightToLeft => b <- mb ;; a <- ma ;; ret (a, b)
  end.

Definition IsPrime_Prime (c i : nat) : string :=
  ("IsPrime_Prime_" ++ Pad.Z c ++ "_" ++ Pad.Z i)%string.
Definition IsPrime_Pow_row (c i : nat) : string :=
  ("IsPrime_Pow_" ++ Pad.Z c ++ "_" ++ Pad.Z i)%string.
Definition IsPrime_Pow (c i j : nat) : string := IsPrime_Pow_row c i # j.
Definition IsPrime_PowTemp_row (c i : nat) : string :=
  ("IsPrime_PowTemp_" ++ Pad.Z c ++ "_" ++ Pad.Z i)%string.
Definition IsPrime_PowTemp (c i j : nat) : string := IsPrime_PowTemp_row c i # j.
Definition IsPrime_PowTemp_Overflow (c i j : nat) : string :=
  ("IsPrime_PowTemp_Overflow_" ++ Pad.Z c ++ "_" ++ Pad.Z i ++ "_" ++ Pad.Z j)%string.
Definition IsPrime_Product (c i : nat) : string :=
  ("IsPrime_Product_" ++ Pad.Z c ++ "_" ++ Pad.Z i)%string.
Definition IsPrime_Product_Overflow (c i : nat) : string :=
  ("IsPrime_Product_Overflow_" ++ Pad.Z c ++ "_" ++ Pad.Z i)%string.
Definition IsPrime_Product_Plus1 (c i : nat) : string :=
  ("IsPrime_Product_Plus1_" ++ Pad.Z c ++ "_" ++ Pad.Z i)%string.
Definition IsPrime_Product_Plus1_Overflow (c i : nat) : string :=
  ("IsPrime_Product_Plus1_Overflow_" ++ Pad.Z c ++ "_" ++ Pad.Z i)%string.
Definition IsPrime_SumPow (c i : nat) : string :=
  ("IsPrime_SumPow_" ++ Pad.Z c ++ "_" ++ Pad.Z i)%string.
Definition IsPrime_SumPow_Overflow (c i : nat) : string :=
  ("IsPrime_SumPow_Overflow_" ++ Pad.Z c ++ "_" ++ Pad.Z i)%string.
Definition IsPrime_Prime_Minus1 (c i : nat) : string :=
  ("IsPrime_Prime_Minus1_" ++ Pad.Z c ++ "_" ++ Pad.Z i)%string.
Definition IsPrime_Prime_Minus1_Overflow (c i : nat) : string :=
  ("IsPrime_Prime_Minus1_Overflow_" ++ Pad.Z c ++ "_" ++ Pad.Z i)%string.
Definition IsPrime_Div (c i j : nat) : string :=
  ("IsPrime_Div_" ++ Pad.Z c ++ "_" ++ Pad.Z i ++ "_" ++ Pad.Z j)%string.
Definition IsPrime_Mod (c i j : nat) : string :=
  ("IsPrime_Mod_" ++ Pad.Z c ++ "_" ++ Pad.Z i ++ "_" ++ Pad.Z j)%string.
Definition IsPrime_Generator (c i : nat) : string :=
  ("IsPrime_Generator_" ++ Pad.Z c ++ "_" ++ Pad.Z i)%string.

(** Body of the loop "prime[i] == 2 or prime[i] == 3 or
    (1 < sumpow[i] and product_plus1[i] == prime[i])". *)
Definition IsPrime_base_or_factored (n c i : nat) : M cnf :=
  let prime_equals_2 := Input_Equals_Number (IsPrime_Prime c i) 2 n in
  let prime_equals_3 := Input_Equals_Number (IsPrime_Prime c i) 3 n in
  less_than_clauses <- LessThan_NBit (One_NBit n) (IsPrime_SumPow c i) n ;;
  let equals_clauses :=
    Equals_NBit (IsPrime_Product_Plus1 c i) (IsPrime_Prime c i) n in
  inner <- Or_Condition prime_equals_2 prime_equals_3 ;;
  Or_Condition inner (And_Condition less_than_clauses equals_clauses).

(** Body of the loop over [i], [j] of the per-factor Fermat conditions. *)
Definition IsPrime_factor_test (o : arg_order) (n c i j : nat) : M cnf :=
  fermat_clauses <- FermatTest3 (IsPrime_Generator c i) (IsPrime_Div c i j)
                                (IsPrime_Prime c i) n ;;
  let pow_zero := Input_Equals_Number (IsPrime_Pow c i j) 0 n in
  let prime_equals_2 := Input_Equals_Number (IsPrime_Prime c i) 2 n in
  let prime_equals_3 := Input_Equals_Number (IsPrime_Prime c i) 3 n in
  inners <- eval_args o (Or_Condition fermat_clauses pow_zero)
                        (Or_Condition prime_equals_2 prime_equals_3) ;;
  Or_Condition (fst inners) (snd inners).

(** Body of the loop over [i] of the full Fermat condition. *)
Definition IsPrime_full_test (n c i : nat) : M cnf :=
  fermat_clauses <- FermatTest2 (IsPrime_Generator c i) (IsPrime_Prime c i) n ;;
  let prime_equals_2 := Input_Equals_Number (IsPrime_Prime c i) 2 n in
  let prime_equals_3 := Input_Equals_Number (IsPrime_Prime c i) 3 n in
  inner <- Or_Condition prime_equals_2 prime_equals_3 ;;
  Or_Condition fermat_clauses inner.

(** [IsPrime(target, n, num_prime)]; a [num_prime] of [-1] stands for [n].
    Through its Fermat tests it holds the pin of [PowMod_NBit], of [2n]
    bits: the list is the one of the source for [n <= 16]. *)
Definition IsPrime (o : arg_order) (target : string) (n : nat) (num_prime : Z)
  : M cnf :=
  let num_prime := if Z.eqb num_prime (-1) then n else Z.to_nat num_prime in
  c <- tick_IsPrime ;;
  let not_zero :=
    map (fun i => Input_Not_Equals_Number (IsPrime_Prime c i) 0 n)
        (seq 0 num_prime) in
  let not_one :=
    map (fun i => Input_Not_Equals_Number (IsPrime_Prime c i) 1 n)
        (seq 0 num_prime) in
  pows <- for_ num_prime (fun i => for_ num_prime (fun j =>
            Pow_NBit (IsPrime_Prime c j) (IsPrime_Pow c i j) (IsPrime_PowTemp c i j)
                     (IsPrime_PowTemp_Overflow c i j) n)) ;;
  let pows_no_overflow :=
    for_pure num_prime (fun i => for_pure num_prime (fun j =>
      [[Neg (IsPrime_PowTemp_Overflow c i j)]])) in
  products <- for_ num_prime (fun i =>
            Product_NBit (IsPrime_PowTemp_row c i) (IsPrime_Product c i)
                         (IsPrime_Product_Overflow c i) num_prime n) ;;
  let products_no_overflow :=
    for_pure num_prime (fun i => [[Neg (IsPrime_Product_Overflow c i)]]) in
  plus1 <- for_ num_prime (fun i =>
            Add_NBit (IsPrime_Product c i) (One_NBit n) (IsPrime_Product_Plus1 c i)
                     (IsPrime_Product_Plus1_Overflow c i) n) ;;
  let plus1_no_overflow :=
    for_pure num_prime (fun i => [[Neg (IsPrime_Product_Plus1_Overflow c i)]]) in
  sums <- for_ num_prime (fun i =>
            Sum_NBit (IsPrime_Pow_row c i) (IsPrime_SumPow c i)
                     (IsPrime_SumPow_Overflow c i) num_prime n) ;;
  let sums_no_overflow :=
    for_pure num_prime (fun i => [[Neg (IsPrime_SumPow_Overflow c i)]]) in
  base_or_factored <- for_ num_prime (IsPrime_base_or_factored n c) ;;
  minus1 <- for_ num_prime (fun i =>
            Add_NBit (IsPrime_Prime_Minus1 c i) (One_NBit n) (IsPrime_Prime c i)
                     (IsPrime_Prime_Minus1_Overflow c i) n) ;;
  let minus1_no_overflow :=
    for_pure num_prime (fun i => [[Neg (IsPrime_Prime_Minus1_Overflow c i)]]) in
  divmods <- for_ num_prime (fun i => for_ num_prime (fun j =>
            DivMod_NBit (IsPrime_Prime_Minus1 c i) (IsPrime_Prime c j)
                        (IsPrime_Div c i j) (IsPrime_Mod c i j) n)) ;;
  factor_tests <- for_ num_prime (fun i => for_ num_prime (fun j =>
            IsPrime_factor_test o n c i j)) ;;
  full_tests <- for_ num_prime (IsPrime_full_test n c) ;;
  let target_clauses := Equals_NBit target (IsPrime_Prime c 0) n in
  ret (not_zero ++ not_one ++ pows ++ pows_no_overflow ++ products
       ++ products_no_overflow ++ plus1 ++ plus1_no_overflow ++ sums
       ++ sums_no_overflow ++ base_or_factored ++ minus1 ++ minus1_no_overflow
       ++ divmods ++ factor_tests ++ full_tests ++ target_clauses).

(* ================================================================== *)
(** * Compositeness *)

Definition IsComposite_fact1 (c : nat) : string :=
  ("IsComposite_fact1_" ++ Pad.Z c)%string.
Definition IsComposite_fact2 (c : nat) : string :=
  ("IsComposite_fact2_" ++ Pad.Z c)%string.
Definition IsComposite_Overflow (c : nat) : string :=
  ("IsComposite_Overflow_" ++ Pad.Z c)%string.

(** [IsComposite].  The clauses that keep the factors off 0 and 1 go
    over [n] bits of an [int]: the list is the one of the source for
    [n <= 32]. *)
Definition IsComposite (target : string) (n : nat) : M cnf :=
  c <- tick_IsComposite ;;
  mul_clauses <- Mul_NBit (IsComposite_fact1 c) (IsComposite_fact2 c) target
                          (IsComposite_Overflow c) n ;;
  ret (mul_clauses
       ++ [Input_Not_Equals_Number (IsComposite_fact1 c) 0 n]
       ++ [Input_Not_Equals_Number (IsComposite_fact2 c) 0 n]
       ++ [Input_Not_Equals_Number (IsComposite_fact1 c) 1 n]
       ++ [Input_Not_Equals_Number (IsComposite_fact2 c) 1 n]
       ++ [[Neg (IsComposite_Overflow c)]]).

(** The clause list the front-end [is_prime] hands to the finaliser for the
    number [p] at bit width [n]: the certificate, the target pinned to
    [p], and the well-known constants. *)
Definition is_prime_conditions (o : arg_order) (p : Z) (n : nat) : M cnf :=
  is_prime_clauses <- IsPrime o "target" n (Z.of_nat n) ;;
  ret (is_prime_clauses
       ++ Input_Equals_Number "target" p n
       ++ Input_Equals_Number (One_NBit n) 1 n
       ++ Input_Equals_Number (One_NBit (n * 2)) 1 (n * 2)
       ++ [[Neg Zero_1Bit]]).

(* ================================================================== *)
(** * Arithmetic used in the statements *)

(** The sum and the product of [f 0 .. f (k-1)]. *)
Fixpoint zsum (f : nat -> Z) (k : nat) : Z :=
  match k with O => 0 | S k' => zsum f k' + f k' end.

Fixpoint zprod (f : nat -> Z) (k : nat) : Z :=
  match k with O => 1 | S k' => zprod f k' * f k' end.

(** An assignment changed at one variable. *)
Definition upd (s : assignment) (v : string) (b : bool) : assignment :=
  fun x => if String.eqb x v then b else s x.

(** [g^k = 1] modulo [P], and the least positive such [k]. *)
Definition power_is_one (P g k : Z) : Prop := g ^ k mod P = 1.

Definition least_one (P g d : Z) : Prop :=
  0 < d /\ power_is_one P g d /\
  forall k, 0 < k < d -> ~ power_is_one P g k.

(* ================================================================== *)
(** * Finding models by unit propagation

    The generators emit circuits: once the inputs (and the few wires that
    are guessed rather than computed, such as quotients) are fixed, every
    other wire follows by unit propagation.  [solve] does just that; it is
    used to exhibit concrete satisfying assignments. *)

Definition pos_of_ascii (a : ascii) (p : positive) : positive :=
  let bit (b : bool) (q : positive) := if b then xI q else xO q in
  match a with
  | Ascii b0 b1 b2 b3 b4 b5 b6 b7 =>
      bit b0 (bit b1 (bit b2 (bit b3 (bit b4 (bit b5 (bit b6 (bit b7 p)))))))
  end.

Fixpoint pos_of_string (s : string) : positive :=
  match s with
  | EmptyString => xH
  | String a r => pos_of_ascii a (pos_of_string r)
  end.

Definition partial := PositiveMap.t bool.

Definition lookup (m : partial) (x : string) : option bool :=
  PositiveMap.find (pos_of_string x) m.

Definition assign (x : string) (b : bool) (m : partial) : partial :=
  PositiveMap.add (pos_of_string x) b m.

(** The literal a clause forces, if all its others are false. *)
Fixpoint unit_of (m : partial) (c : clause) (pending : option literal)
  : option literal :=
  match c with
  | [] => pending
  | l :: c' =>
      match lookup m (lit_var l) with
      | Some b =>
          if (match l with Pos _ => b | Neg _ => negb b end) then None
          else unit_of m c' pending
      | None =>
          match pending with
          | None => unit_of m c' (Some l)
          | Some _ => None
          end
      end
  end.

Definition propagate (m : partial) (f : cnf) : partial :=
  fold_left (fun m c =>
    match unit_of m c None with
    | Some (Pos v) => assign v true m
    | Some (Neg v) => assign v false m
    | None => m
    end) f m.

Fixpoint rounds (k : nat) (m : partial) (f : cnf) : partial :=
  match k with
  | O => m
  | S k' => rounds k' (propagate m f) f
  end.

Definition pin_value (x : string) (v : Z) (n : nat) : list (string * bool) :=
  map (fun i => (x # i, Z.testbit v (Z.of_nat i))) (seq 0 n).

Definition solve (pins : list (string * bool)) (f : cnf) (k : nat) : assignment :=
  let m0 := fold_left (fun m p => assign (fst p) (snd p) m) pins
                      (PositiveMap.empty bool) in
  let m := rounds k m0 f in
  fun x => match lookup m x with Some b => b | None => false end.

(* ================================================================== *)
(** * Concrete instances *)

(** The adder instance of the front-end [add_cnf 5 3]. *)
Definition add_5_3 : cnf :=
  fst (Add_NBit "input1" "input2" "result" "overflow" 4 counters0).

Definition add_5_3_model : assignment :=
  solve (pin_value "input1" 5 4 ++ pin_value "input2" 3 4) add_5_3 1.


(** The quotients and remainders along a [PowMod_NBit] expansion with call
    id [c]: the wires that are guessed, not propagated. *)
Fixpoint PowMod_trace (k i c n : nat) (e m pr cp : Z) : list (string * bool) :=
  match k with
  | O => []
  | S k' =>
      let bf := if Z.testbit e (Z.of_nat i) then cp else 1 in
      let mult := pr * bf in
      let sq := cp * cp in
      pin_value (PowMod_NBit_Div1 c i) (mult / m) (n * 2)
      ++ pin_value (PowMod_NBit_PartialResult c (i + 1)) (mult mod m) (n * 2)
      ++ pin_value (PowMod_NBit_Div2 c i) (sq / m) (n * 2)
      ++ pin_value (PowMod_NBit_CurrentPow c (i + 1)) (sq mod m) (n * 2)
      ++ PowMod_trace k' (S i) c n e m (mult mod m) (sq mod m)
  end.

(** [2^3 mod 3] at width 2. *)
Definition powmod_2_3_3 : cnf :=
  fst (PowMod_NBit "base" "exp" "mod" "result" 2 counters0).

Definition powmod_2_3_3_model : assignment :=
  solve (pin_value "base" 2 2 ++ pin_value "exp" 3 2 ++ pin_value "mod" 3 2
         ++ pin_value (One_NBit 4) 1 4 ++ [(Zero_1Bit, false)]
         ++ PowMod_trace 2 0 1 2 3 3 1 2)
        powmod_2_3_3 8.

(** [is_prime 3] at width 2: both candidate slots hold base primes. *)
Definition is_prime_3 : cnf :=
  fst (is_prime_conditions LeftToRight 3 2 counters0).

Definition is_prime_3_pins : list (string * bool) :=
  pin_value "target" 3 2 ++ pin_value (One_NBit 2) 1 2
  ++ pin_value (One_NBit 4) 1 4 ++ [(Zero_1Bit, false)]
  ++ pin_value (IsPrime_Prime 1 0) 3 2 ++ pin_value (IsPrime_Prime 1 1) 2 2
  ++ pin_value (IsPrime_Prime_Minus1 1 0) 2 2
  ++ pin_value (IsPrime_Prime_Minus1 1 1) 1 2
  ++ flat_map (fun i => flat_map (fun j =>
       pin_value (IsPrime_Pow 1 i j) 0 2
       ++ pin_value (IsPrime_Div 1 i j)
            ((if Nat.eqb i 0 then 2 else 1) / (if Nat.eqb j 0 then 3 else 2)) 2
       ++ pin_value (IsPrime_Mod 1 i j)
            ((if Nat.eqb i 0 then 2 else 1) mod (if Nat.eqb j 0 then 3 else 2)) 2)
       (seq 0 2)) (seq 0 2)
  ++ map (fun k => (Or_Condition_literal k, true)) [7; 10; 13; 16; 18; 20]%nat.

Definition is_prime_3_model : assignment := solve is_prime_3_pins is_prime_3 8.

(* ================================================================== *)
(** * The finaliser [generate_cnf]

    The finaliser works on the clause text.  Its effects are modelled on a
    [world]: the lines sent to [std::cerr] and [std::cout], the files
    written (as lists of lines, each followed by a newline in the
    source), and which paths refuse to open.  An integer modulo by zero,
    undefined behaviour that ends the process, is the outcome [Trapped]. *)

Record world : Type := mkWorld {
  w_cerr : list string;
  w_cout : list string;
  w_files : list (string * list string);
  w_cannot_open : string -> bool
}.

Inductive outcome (A : Type) : Type :=
| Returned (a : A) (w : world)
| Trapped (w : world).
Arguments Returned {A} a w.
Arguments Trapped {A} w.

Definition IO (A : Type) : Type := world -> outcome A.

Definition io_ret {A} (a : A) : IO A := fun w => Returned a w.
Definition io_bind {A B} (m : IO A) (k : A -> IO B) : IO B :=
  fun w => match m w with
           | Returned a w' => k a w'
           | Trapped w' => Trapped w'
           end.
Definition io_trap {A} : IO A := fun w => Trapped w.

Notation "x <~ m ;; k" := (io_bind m (fun x => k))
  (at level 61, m at next level, right associativity).
Notation "m ;;; k" := (io_bind m (fun _ => k))
  (at level 61, right associativity).

Definition cerr (line : string) : IO unit := fun w =>
  Returned tt (mkWorld (w_cerr w ++ [line]) (w_cout w) (w_files w) (w_cannot_open w)).
Definition cout (line : string) : IO unit := fun w =>
  Returned tt (mkWorld (w_cerr w) (w_cout w ++ [line]) (w_files w) (w_cannot_open w)).

(** [std::ofstream file(path)] on a path that opens: the file is created
    or truncated. *)
Definition open_file (path : string) : IO unit := fun w =>
  Returned tt (mkWorld (w_cerr w) (w_cout w) ((path, []) :: w_files w)
                       (w_cannot_open w)).

(** [file << line << "\n"] on the file opened last. *)
Definition put_line (line : string) : IO unit := fun w =>
  Returned tt (mkWorld (w_cerr w) (w_cout w)
                 (match w_files w with
                  | [] => []
                  | (path, lines) :: rest => (path, lines ++ [line]) :: rest
                  end)
                 (w_cannot_open w)).

Fixpoint put_lines (lines : list string) : IO unit :=
  match lines with
  | [] => io_ret tt
  | l :: rest => put_line l ;;; put_lines rest
  end.

(** Decimal text of a number, as [operator<<] and [std::to_string] print it. *)
Definition dec (n : N) : string := NilZero.string_of_uint (N.to_uint n).

(** ** Scanning for [<[a-zA-Z0-9_]+>] *)

Definition is_name_char (c : ascii) : bool :=
  let k := N_of_ascii c in
  ((97 <=? k) && (k <=? 122) || (65 <=? k) && (k <=? 90)
   || (48 <=? k) && (k <=? 57) || (k =? 95))%N.

(** All matches of the pattern, left to right, as [std::sregex_iterator]
    yields them.  [cur] holds the name characters read since an open
    bracket, if the scan is inside a candidate. *)
Fixpoint scan_literals (cur : option string) (s : string) : list string :=
  match s with
  | EmptyString => []
  | String c r =>
      if Ascii.eqb c "<" then scan_literals (Some EmptyString) r
      else match cur with
           | None => scan_literals None r
           | Some acc =>
               if is_name_char c
               then scan_literals (Some (acc ++ String c EmptyString)%string) r
               else if Ascii.eqb c ">" && negb (String.eqb acc EmptyString)
               then ("<" ++ acc ++ ">")%string :: scan_literals None r
               else scan_literals None r
           end
  end.

Definition find_literals (clause_text : string) : list string :=
  scan_literals None clause_text.

(** ** [std::set<std::string>] and [std::map<std::string,int>] as sorted lists *)

Fixpoint set_insert (x : string) (l : list string) : list string :=
  match l with
  | [] => [x]
  | y :: l' =>
      match String.compare x y with
      | Lt => x :: l
      | Eq => l
      | Gt => y :: set_insert x l'
      end
  end.

Definition set_insert_all (xs : list string) (l : list string) : list string :=
  fold_left (fun acc x => set_insert x acc) xs l.

Fixpoint map_insert (k : string) (v : N) (m : list (string * N))
  : list (string * N) :=
  match m with
  | [] => [(k, v)]
  | (k', v') :: m' =>
      match String.compare k k' with
      | Lt => (k, v) :: m
      | Eq => (k, v) :: m'
      | Gt => (k', v') :: map_insert k v m'
      end
  end.

Fixpoint map_find (k : string) (m : list (string * N)) : N :=
  match m with
  | [] => 0%N
  | (k', v) :: m' => if String.eqb k k' then v else map_find k m'
  end.

(** ** The sort key *)

(** [a[1] >= 'A' && a[1] <= 'Z']: the character after the bracket. *)
Definition starts_upper (a : string) : bool :=
  match a with
  | String _ (String c _) => ((65 <=? N_of_ascii c) && (N_of_ascii c <=? 90))%N
  | _ => false
  end.

Definition literal_less (a b : string) : bool :=
  let a_upper := starts_upper a in
  let b_upper := starts_upper b in
  if a_upper && b_upper then String.ltb a b
  else if negb a_upper && negb b_upper then String.ltb a b
  else if a_upper && negb b_upper then false
  else true.

(** [std::sort] with [literal_less].  On the distinct strings of a set
    the comparator is a strict total order, so every sorting algorithm
    returns the same list; insertion sort stands for it. *)
Fixpoint sort_insert (x : string) (l : list string) : list string :=
  match l with
  | [] => [x]
  | y :: l' => if literal_less x y then x :: l else y :: sort_insert x l'
  end.

Definition sort_literals (l : list string) : list string :=
  fold_right sort_insert [] l.

(** [literal_map[literals[i]] = i + 1]. *)
Fixpoint number_from (i : N) (literals : list string) (m : list (string * N))
  : list (string * N) :=
  match literals with
  | [] => m
  | x :: rest => number_from (i + 1) rest (map_insert x (i + 1)%N m)
  end.

(** ** Replacing names by numbers *)

(** [while ((pos = clause.find(literal, pos)) != npos) { replace; pos +=
    length of the number }]: a left-to-right pass; [skip] counts the
    characters of a match still to be dropped. *)
Fixpoint replace_from (literal number : string) (skip : nat) (s : string) : string :=
  match s with
  | EmptyString => EmptyString
  | String c r =>
      match skip with
      | S k => replace_from literal number k r
      | O =>
          if String.prefix literal s
          then (number ++ replace_from literal number (String.length literal - 1) r)%string
          else String c (replace_from literal number O r)
      end
  end.

Definition replace_all (literal number : string) (s : string) : string :=
  replace_from literal number 0 s.

Definition replace_clause (literal_map : list (string * N)) (clause_text : string)
  : string :=
  let clause_literals := set_insert_all (find_literals clause_text) [] in
  fold_left (fun text literal =>
               replace_all literal (dec (map_find literal literal_map)) text)
            clause_literals clause_text.

(** ** The progress loops *)

(** [if ((i % (size / 20)) == 0) cerr << (5 * i / (size / 20)) << "%..."]. *)
Definition progress (size i : N) : IO unit :=
  let d := (size / 20)%N in
  if (d =? 0)%N then io_trap
  else if (i mod d =? 0)%N then cerr (dec (5 * i / d) ++ "%...")%string
  else io_ret tt.

Fixpoint gather_literals (size i : N) (clauses : list string) (acc : list string)
  : IO (list string) :=
  match clauses with
  | [] => io_ret acc
  | clause_text :: rest =>
      progress size i ;;;
      gather_literals size (i + 1) rest
                      (set_insert_all (find_literals clause_text) acc)
  end.

Fixpoint replace_clauses (size i : N) (literal_map : list (string * N))
    (clauses : list string) : IO (list string) :=
  match clauses with
  | [] => io_ret []
  | clause_text :: rest =>
      progress size i ;;;
      tl <~ replace_clauses size (i + 1) literal_map rest ;;
      io_ret (replace_clause literal_map clause_text :: tl)
  end.

Fixpoint write_clauses (size i : N) (replaced : list string) : IO unit :=
  match replaced with
  | [] => io_ret tt
  | line :: rest =>
      progress size i ;;; put_line line ;;; write_clauses size (i + 1) rest
  end.

(** ** [generate_cnf] *)

Definition cv_line (kv : string * N) : string :=
  ("cv " ++ fst kv ++ " " ++ dec (snd kv))%string.

Definition header_line (variables clauses : nat) : string :=
  ("p cnf " ++ dec (N.of_nat variables) ++ " " ++ dec (N.of_nat clauses))%string.

Definition generate_cnf (conditions : list string) (file_path : string) : IO unit :=
  let expanded_conditions := conditions in
  let size := N.of_nat (List.length expanded_conditions) in
  cerr "expand : 1" ;;;
  cerr "gather literals..." ;;;
  literals_set <~ gather_literals size 0 expanded_conditions [] ;;
  cerr "sorting literals..." ;;;
  let literals := sort_literals literals_set in
  cerr "mapping symbol to integer..." ;;;
  let literal_map := number_from 0 literals [] in
  cerr "replacing symbol to integer..." ;;;
  replaced <~ replace_clauses size 0 literal_map expanded_conditions ;;
  cerr "writing cnf to file..." ;;;
  fun w =>
    if w_cannot_open w file_path
    then cerr ("Error: Could not open file " ++ file_path ++ " for writing")%string w
    else
      (open_file file_path ;;;
       put_lines ["c"; "c"; "c"] ;;;
       put_lines (map cv_line literal_map) ;;;
       put_line (header_line (List.length literal_map) (List.length replaced)) ;;;
       write_clauses (N.of_nat (List.length replaced)) 0 replaced ;;;
       cerr ("CNF file generated successfully: " ++ file_path)%string) w.

(** The end of [main] in [add_cnf.cpp], from the call of the finaliser
    on: report and return 0. *)
Definition add_cnf_finish (num1 num2 : N) (conditions : list string) : IO Z :=
  let filename := ("add_" ++ dec num1 ++ "_" ++ dec num2 ++ ".cnf")%string in
  generate_cnf conditions filename ;;;
  cout ("CNF file generated: " ++ filename)%string ;;;
  cout ("Expected result: " ++ dec (num1 + num2))%string ;;;
  io_ret 0.

Definition world0 (cannot_open : string -> bool) : world :=
  mkWorld [] [] [] cannot_open.

(** The lines of an emitted file, top to bottom. *)
Definition cnf_file (literal_map : list (string * N)) (replaced : list string)
  : list string :=
  ["c"; "c"; "c"] ++ map cv_line literal_map
  ++ [header_line (List.length literal_map) (List.length replaced)]
  ++ replaced.

(** The names interned for a clause list and their numbering. *)
Definition interned_names (conditions : list string) : list string :=
  set_insert_all (flat_map find_literals conditions) [].

Definition numbering (conditions : list string) : list (string * N) :=
  number_from 0 (sort_literals (interned_names conditions)) [].

(** Two worlds that differ at most in what went to [std::cerr]. *)
Definition same_but_cerr (w w' : world) : Prop :=
  w_cout w' = w_cout w /\ w_files w' = w_files w /\
  w_cannot_open w' = w_cannot_open w.

(** ** Vocabulary for the properties of the emitted file *)

(** The number [generate_cnf] gives a bracketed name. *)
Definition id_of (conditions : list string) (x : string) : N :=
  map_find x (numbering conditions).


(** Strict lexicographic order on strings, by character code. *)
Definition slt (a b : string) : Prop := String.compare a b = Lt.













(* ================================================================== *)
(** * Generated names and who owns them

    Every internal wire of a generator is named [p ++ Z(c) ++ rest] for a
    string literal [p] of the source and the value [c] of that
    generator's call counter.  [names] lists the literals of [core.cpp]
    with the counter each is paired with. *)

Inductive kind : Type :=
| KAdd | KMul | KLessThan | KDivMod | KPow | KPowMod | KOr | KSum
| KProduct | KFermat | KFermat2 | KFermat3 | KIsPrime | KIsComposite.

Definition cnt (k : kind) (st : counters) : nat :=
  match k with
  | KAdd => cnt_Add_NBit st
  | KMul => cnt_Mul_NBit st
  | KLessThan => cnt_LessThan_NBit st
  | KDivMod => cnt_DivMod_NBit st
  | KPow => cnt_Pow_NBit st
  | KPowMod => cnt_PowMod_NBit st
  | KOr => cnt_Or_Condition st
  | KSum => cnt_Sum_NBit st
  | KProduct => cnt_Product_NBit st
  | KFermat => cnt_FermatTest st
  | KFermat2 => cnt_FermatTest2 st
  | KFermat3 => cnt_FermatTest3 st
  | KIsPrime => cnt_IsPrime st
  | KIsComposite => cnt_IsComposite st
  end.

Definition kind_code (k : kind) : nat :=
  match k with
  | KAdd => 0 | KMul => 1 | KLessThan => 2 | KDivMod => 3 | KPow => 4
  | KPowMod => 5 | KOr => 6 | KSum => 7 | KProduct => 8 | KFermat => 9
  | KFermat2 => 10 | KFermat3 => 11 | KIsPrime => 12 | KIsComposite => 13
  end%nat.

Definition names : list (kind * string) :=
  [ (KAdd, "AddNBit_");
    (KMul, "Mul_NBit_Accum1_"); (KMul, "Mul_NBit_Accum2_");
    (KMul, "Mul_NBit_CarryOut_");
    (KLessThan, "LessThan_NBit_Equals_"); (KLessThan, "LessThan_NBit_Less_");
    (KLessThan, "LessThan_NBit_EqualAccum_"); (KLessThan, "LessThan_NBit_Result_");
    (KDivMod, "DivMod_NBit_Accum_"); (KDivMod, "DivMode_NBit_MulOverflow_");
    (KDivMod, "DivMode_NBit_AddOverflow_");
    (KPow, "Pow_NBit_Temp1_"); (KPow, "Pow_NBit_Temp1Overflow_");
    (KPow, "Pow_NBit_Temp2_"); (KPow, "Pow_NBit_PowAccum_");
    (KPow, "Pow_NBit_PowAccumOverflow_");
    (KPow, "Pow_NBit_PowAccumOverflowAccum_"); (KPow, "Pow_NBit_OverflowTemp_");
    (KPow, "Pow_NBit_PowAccumOverflow_OR_"); (KPow, "Pow_NBit_OverflowTemp_OR_");
    (KPowMod, "PowMod_NBit_Base_DoubleSize_"); (KPowMod, "PowMod_NBit_Exp_DoubleSize_");
    (KPowMod, "PowMod_NBit_Mod_DoubleSize_"); (KPowMod, "PowMod_NBit_PartialResult_");
    (KPowMod, "PowMod_NBit_CurrentPow_"); (KPowMod, "PowMod_NBit_BitFactor_");
    (KPowMod, "PowMod_NBit_Multipled_"); (KPowMod, "PowMod_NBit_MultipledOverflow_");
    (KPowMod, "PowMod_NBit_Div1_"); (KPowMod, "PowMod_NBit_SquareBase_");
    (KPowMod, "PowMod_NBit_SquareBaseOverflow_"); (KPowMod, "PowMod_NBit_Div2_");
    (KOr, "Or_Condition_");
    (KSum, "Sum_NBit_Accum_"); (KSum, "Sum_NBit_Overflow_");
    (KProduct, "Product_NBit_Accum_"); (KProduct, "Product_NBit_Overflow_");
    (KFermat, "FermatTest_");
    (KFermat2, "FermatTest2_Prime_Minus1_");
    (KFermat2, "FermatTest2_Prime_Minus1_Overflow_");
    (KFermat3, "FermatTest3_");
    (KIsPrime, "IsPrime_Prime_"); (KIsPrime, "IsPrime_Pow_");
    (KIsPrime, "IsPrime_PowTemp_"); (KIsPrime, "IsPrime_PowTemp_Overflow_");
    (KIsPrime, "IsPrime_Product_"); (KIsPrime, "IsPrime_Product_Overflow_");
    (KIsPrime, "IsPrime_Product_Plus1_");
    (KIsPrime, "IsPrime_Product_Plus1_Overflow_");
    (KIsPrime, "IsPrime_SumPow_"); (KIsPrime, "IsPrime_SumPow_Overflow_");
    (KIsPrime, "IsPrime_Prime_Minus1_"); (KIsPrime, "IsPrime_Prime_Minus1_Overflow_");
    (KIsPrime, "IsPrime_Div_"); (KIsPrime, "IsPrime_Mod_");
    (KIsPrime, "IsPrime_Generator_");
    (KIsComposite, "IsComposite_fact1_"); (KIsComposite, "IsComposite_fact2_");
    (KIsComposite, "IsComposite_Overflow_") ]%string.

Definition is_digit (c : ascii) : bool :=
  ((48 <=? N_of_ascii c) && (N_of_ascii c <=? 57))%N.

Definition is_lower (c : ascii) : bool :=
  ((97 <=? N_of_ascii c) && (N_of_ascii c <=? 122))%N.

Definition is_upper (c : ascii) : bool :=
  ((65 <=? N_of_ascii c) && (N_of_ascii c <=? 90))%N.

(** [apart p q]: no string [p ++ d..] equals a string [q ++ e..] when [d]
    and [e] are digits: the two literals differ at some position, or one
    continues the other with a character that is not a digit. *)
Fixpoint apart (p q : string) : bool :=
  match p, q with
  | EmptyString, EmptyString => false
  | EmptyString, String b _ => negb (is_digit b)
  | String a _, EmptyString => negb (is_digit a)
  | String a p', String b q' => if Ascii.eqb a b then apart p' q' else true
  end.

(** [differ p q]: the two literals differ at a position both have. *)
Fixpoint differ (p q : string) : bool :=
  match p, q with
  | String a p', String b q' => if Ascii.eqb a b then differ p' q' else true
  | _, _ => false
  end.

Definition names_apart : bool :=
  forallb (fun a =>
    forallb (fun b =>
      (Nat.eqb (kind_code (fst a)) (kind_code (fst b)) && String.eqb (snd a) (snd b))
      || apart (snd a) (snd b)) names) names.

Definition names_upper : bool :=
  forallb (fun a => match snd a with
                    | String c _ => is_upper c
                    | EmptyString => false
                    end) names.

(** An [int] index or call count as the code prints it: ten digits. *)
Definition small (i : nat) : Prop := (N.of_nat i < 10 ^ 10)%N.

Definition small_counters (st : counters) : Prop := forall k, small (cnt k st).

Definition le_counters (st st' : counters) : Prop :=
  forall k, (cnt k st <= cnt k st')%nat.

(** [owned st st' x]: [x] is a name made with a call count drawn after
    [st] and no later than [st']. *)
Definition owned (st st' : counters) (x : string) : Prop :=
  exists k p c suf,
    In (k, p) names /\ (cnt k st < c <= cnt k st')%nat /\
    x = (p ++ Pad.Z c ++ suf)%string.

(** [old st x]: however [x] is read as a generated name, its call count
    is one already drawn at [st]. *)
Definition old (st : counters) (x : string) : Prop :=
  forall k p c suf,
    In (k, p) names -> small c -> x = (p ++ Pad.Z c ++ suf)%string ->
    (c <= cnt k st)%nat.

(** [stable st x]: [x] and every name that extends it are old: what an
    operand of a generator called at [st] must be. *)
Definition stable (st : counters) (x : string) : Prop :=
  forall rest, old st (x ++ rest)%string.

(** A name chosen by the user of the library: a lowercase initial. *)
Definition user_name (x : string) : bool :=
  match x with
  | String c _ => is_lower c
  | EmptyString => false
  end.

(** Two assignments that agree off a set of names. *)
Definition agree_off (P : string -> Prop) (s s' : assignment) : Prop :=
  forall x, ~ P x -> s' x = s x.

(** Writing the wires [name 0 .. name (m-1)]. *)
Definition set_fam (name : nat -> string) (m : nat) (v : nat -> bool)
  (s : assignment) : assignment :=
  fun y =>
    match find (fun k => String.eqb y (name k)) (seq 0 m) with
    | Some k => v k
    | None => s y
    end.

(** Writing the [n]-bit operand [x] with the bits of [v]. *)
Definition set_bits (x : string) (n : nat) (v : Z) (s : assignment) : assignment :=
  set_fam (fun i => x # i) n (fun i => Z.testbit v (Z.of_nat i)) s.

(** Writing the operands [row 0 .. row (m-1)]. *)
Fixpoint set_rows (row : nat -> string) (m n : nat) (v : nat -> Z)
  (s : assignment) : assignment :=
  match m with
  | O => s
  | S m' => set_bits (row m') n (v m') (set_rows row m' n v s)
  end.

(** Two assignments that agree on the names old at [st]. *)
Definition agree_old (st : counters) (s s' : assignment) : Prop :=
  forall x, old st x -> s' x = s x.

(** A property of every variable of a formula. *)
Definition all_vars (P : string -> Prop) (f : cnf) : Prop :=
  forall x, In x (cnf_vars f) -> P x.

(** What the model construction needs of a generator called at [st]:
    counters only grow; every variable of its clauses is old afterwards;
    and an assignment that gives its operands values related as [pre]
    demands has a satisfying variant that differs only on names made
    during the call. *)
Definition run_ok (m : M cnf) (st : counters) (pre : assignment -> Prop) : Prop :=
  le_counters st (snd (m st)) /\
  (small_counters (snd (m st)) ->
   all_vars (old (snd (m st))) (fst (m st)) /\
   forall s, pre s ->
     exists s', agree_off (owned st (snd (m st))) s s' /\
                sat s' (fst (m st)) = true).

Definition maj (a b c : bool) : bool := (a && b) || (a && c) || (b && c).

(** The carry into bit [i] of the ripple addition of [f] and [g]. *)
Fixpoint carry_bit (f g : nat -> bool) (i : nat) : bool :=
  match i with
  | O => false
  | S j => maj (f j) (g j) (carry_bit f g j)
  end.

Definition is_name (p : string) : bool :=
  existsb (fun a => String.eqb (snd a) p) names.

(** [holds st s X]: the clauses [X] speak of old names only and [s]
    satisfies them. *)
Definition holds (st : counters) (s : assignment) (X : cnf) : Prop :=
  all_vars (old st) X /\ sat s X = true.

(** [writes k c s s']: [s'] differs from [s] only on names made by a
    generator of kind [k] with call count [c]. *)
Definition writes (k : kind) (c : nat) (s s' : assignment) : Prop :=
  forall y,
    (forall p suf, In (k, p) names -> y <> (p ++ Pad.Z c ++ suf)%string) ->
    s' y = s y.

(** [made k c x]: [x] is a name made by kind [k] with call count [c]. *)
Definition made (k : kind) (c : nat) (x : string) : Prop :=
  exists p suf, In (k, p) names /\ x = (p ++ Pad.Z c ++ suf)%string.

(* ================================================================== *)
(** * The values a modular exponentiation computes *)

(** The running square and the running product of [PowMod_NBit] after
    [k] steps, for base [B], exponent bits [g] and modulus [M]. *)
Fixpoint pm_cp (B M : Z) (k : nat) : Z :=
  match k with
  | O => B
  | S j => (pm_cp B M j * pm_cp B M j) mod M
  end.

Fixpoint pm_pr (g : nat -> bool) (B M : Z) (k : nat) : Z :=
  match k with
  | O => 1
  | S j => (pm_pr g B M j * (if g j then pm_cp B M j else 1)) mod M
  end.

(** What step [i] of [PowMod_NBit] number [c] asks of the wires of that
    call: each is the value its gate computes from the others. *)
Definition PowMod_step_pre (n c i : nat) (s : assignment) : Prop :=
  let w := (n * 2)%nat in
  let M := value s (PowMod_NBit_Mod_DoubleSize c) w in
  let pr := value s (PowMod_NBit_PartialResult c i) w in
  let cp := value s (PowMod_NBit_CurrentPow c i) w in
  let bf := value s (PowMod_NBit_BitFactor c i) w in
  let mu := value s (PowMod_NBit_Multipled c i) w in
  let sq := value s (PowMod_NBit_SquareBase c i) w in
  bf = (if s (PowMod_NBit_Exp_DoubleSize c # i) then cp
        else value s (One_NBit w) w) /\
  mu = (pr * bf) mod 2 ^ Z.of_nat w /\
  s (PowMod_NBit_MultipledOverflow c i) = negb (pr * bf / 2 ^ Z.of_nat w =? 0) /\
  mu = M * value s (PowMod_NBit_Div1 c i) w
       + value s (PowMod_NBit_PartialResult c (i + 1)) w /\
  value s (PowMod_NBit_PartialResult c (i + 1)) w < M /\
  sq = (cp * cp) mod 2 ^ Z.of_nat w /\
  s (PowMod_NBit_SquareBaseOverflow c i) = negb (cp * cp / 2 ^ Z.of_nat w =? 0) /\
  sq = M * value s (PowMod_NBit_Div2 c i) w
       + value s (PowMod_NBit_CurrentPow c (i + 1)) w /\
  value s (PowMod_NBit_CurrentPow c (i + 1)) w < M.

(* ================================================================== *)
(** * The certificate a model of [IsPrime] carries *)

(** Writing the operands [cell i j] for [i < m], [j < k]. *)
Fixpoint set_grid (cell : nat -> nat -> string) (m k n : nat)
  (v : nat -> nat -> Z) (s : assignment) : assignment :=
  match m with
  | O => s
  | S m' => set_rows (cell m') k n (v m') (set_grid cell m' k n v s)
  end.

(** Clearing the wires [name i j] for [i < m], [j < k]. *)
Fixpoint clear_grid (name : nat -> nat -> string) (m k : nat)
  (s : assignment) : assignment :=
  match m with
  | O => s
  | S m' => set_fam (name m') k (fun _ => false) (clear_grid name m' k s)
  end.

(** The candidate primes [P i], the exponents [E i j] of [P j] in
    [P i - 1], and the generators [G i]. *)
Record certificate : Type := mkCertificate {
  cert_P : nat -> Z;
  cert_E : nat -> nat -> Z;
  cert_G : nat -> Z
}.

Definition cert_power (C : certificate) (i j : nat) : Z :=
  cert_P C j ^ cert_E C i j.

Definition cert_product (C : certificate) (n i : nat) : Z :=
  zprod (cert_power C i) n.

Definition cert_sum (C : certificate) (n i : nat) : Z :=
  zsum (cert_E C i) n.

Definition cert_base (C : certificate) (i : nat) : Prop :=
  cert_P C i = 2 \/ cert_P C i = 3.

(** What [IsPrime] with [n] slots of [n] bits asks of the numbers. *)
Definition cert_ok (n : nat) (C : certificate) : Prop :=
  (forall i, (i < n)%nat ->
     2 <= cert_P C i < 2 ^ Z.of_nat n /\
     0 <= cert_G C i < 2 ^ Z.of_nat n /\
     cert_product C n i + 1 < 2 ^ Z.of_nat n /\
     cert_sum C n i < 2 ^ Z.of_nat n /\
     (cert_base C i \/
      (1 < cert_sum C n i /\ cert_product C n i + 1 = cert_P C i)) /\
     ((cert_G C i <> 0 /\ cert_G C i <> 1 /\
       cert_G C i ^ (cert_P C i - 1) mod cert_P C i = 1) \/ cert_base C i)) /\
  (forall i j, (i < n)%nat -> (j < n)%nat ->
     0 <= cert_E C i j < 2 ^ Z.of_nat n /\
     cert_power C i j < 2 ^ Z.of_nat n /\
     ((cert_G C i <> 0 /\ cert_G C i <> 1 /\
       cert_G C i ^ ((cert_P C i - 1) / cert_P C j) mod cert_P C i <> 1) \/
      cert_E C i j = 0 \/ cert_base C i)).

(** The wires of call [c] of [IsPrime] written with a certificate. *)
Definition IsPrime_model (c n : nat) (C : certificate) (s : assignment)
  : assignment :=
  set_rows (IsPrime_Generator c) n n (cert_G C)
  (set_grid (IsPrime_Mod c) n n n
     (fun i j => (cert_P C i - 1) mod cert_P C j)
  (set_grid (IsPrime_Div c) n n n
     (fun i j => (cert_P C i - 1) / cert_P C j)
  (set_fam (IsPrime_Prime_Minus1_Overflow c) n (fun _ => false)
  (set_rows (IsPrime_Prime_Minus1 c) n n (fun i => cert_P C i - 1)
  (set_fam (IsPrime_SumPow_Overflow c) n (fun _ => false)
  (set_rows (IsPrime_SumPow c) n n (cert_sum C n)
  (set_fam (IsPrime_Product_Plus1_Overflow c) n (fun _ => false)
  (set_rows (IsPrime_Product_Plus1 c) n n (fun i => cert_product C n i + 1)
  (set_fam (IsPrime_Product_Overflow c) n (fun _ => false)
  (set_rows (IsPrime_Product c) n n (cert_product C n)
  (clear_grid (IsPrime_PowTemp_Overflow c) n n
  (set_grid (IsPrime_PowTemp c) n n n (cert_power C)
  (set_grid (IsPrime_Pow c) n n (S n) (cert_E C)
  (set_rows (IsPrime_Prime c) n n (cert_P C) s)))))))))))))).

(** The constants and the target as the front end pins them. *)
Definition base_model (p : Z) (n : nat) : assignment :=
  set_bits "target" n p
  (set_bits (One_NBit n) n 1
  (set_bits (One_NBit (n * 2)) (n * 2) 1 (fun _ => false))).

(** What the wires of call [c] say when they carry the certificate. *)
Definition model_facts (c n : nat) (C : certificate) (s : assignment) : Prop :=
  (value s (One_NBit n) n = 1 /\
   value s (One_NBit (n * 2)) (n * 2) = 1 /\
   s Zero_1Bit = false) /\
  (forall i, (i < n)%nat ->
     value s (IsPrime_Prime c i) n = cert_P C i /\
     value s (IsPrime_Generator c i) n = cert_G C i /\
     value s (IsPrime_Product c i) n = cert_product C n i /\
     s (IsPrime_Product_Overflow c i) = false /\
     value s (IsPrime_Product_Plus1 c i) n = cert_product C n i + 1 /\
     s (IsPrime_Product_Plus1_Overflow c i) = false /\
     value s (IsPrime_SumPow c i) n = cert_sum C n i /\
     s (IsPrime_SumPow_Overflow c i) = false /\
     value s (IsPrime_Prime_Minus1 c i) n = cert_P C i - 1 /\
     s (IsPrime_Prime_Minus1_Overflow c i) = false) /\
  (forall i j, (i < n)%nat -> (j < n)%nat ->
     value s (IsPrime_Pow c i j) n = cert_E C i j /\
     s (IsPrime_Pow c i j # n) = false /\
     value s (IsPrime_PowTemp c i j) n = cert_power C i j /\
     s (IsPrime_PowTemp_Overflow c i j) = false /\
     value s (IsPrime_Div c i j) n = (cert_P C i - 1) / cert_P C j /\
     value s (IsPrime_Mod c i j) n = (cert_P C i - 1) mod cert_P C j).

(* ================================================================== *)
(** * Arithmetic for finding a certificate *)

(** A polynomial as the list of its coefficients, constant term first. *)
Fixpoint peval (l : list Z) (x : Z) : Z :=
  match l with
  | [] => 0
  | a :: l' => a + x * peval l' x
  end.

(** The quotient of [l] by [x - r]. *)
Fixpoint pquot (l : list Z) (r : Z) : list Z :=
  match l with
  | [] => []
  | a :: l' =>
      match l' with
      | [] => []
      | _ :: _ => peval l' r :: pquot l' r
      end
  end.

(** The polynomial [x ^ d - 1] for [d = S k]. *)
Definition xd_minus_1 (k : nat) : list Z := (-1) :: repeat 0 k ++ [1].

(** The numbers [1 .. k]. *)
Definition upto (k : nat) : list Z := map Z.of_nat (seq 1 k).

(** One more at index [j0]. *)
Definition bump (e : nat -> Z) (j0 : nat) : nat -> Z :=
  fun j => if Nat.eqb j j0 then e j + 1 else e j.

(** A list of odd primes that holds, for each member [x], the odd prime
    factors of [x - 1]. *)
Definition odd_closed (L : list Z) : Prop :=
  (forall x, In x L -> Z.prime x /\ x <> 2) /\
  (forall x r, In x L -> Z.prime r -> r <> 2 -> (r | x - 1) -> In r L).

(* ================================================================== *)
(** * The front ends

    Each [main] parses its arguments with [std::stoi] after a digits-only
    check, so its numbers are non-negative [int]s; it computes a bit
    width, builds a clause list and hands it to [generate_cnf].  The
    definitions below are the clause lists, with the numbers in [Z].

    [is_prime], [prime_factoring_cnf] and [prime_and_composite_tautology]
    pin [One_NBit_<2 len>] over [2 len] bits: the lists are those of the
    programs for a width of 16 bits at most (a target below [2 ^ 16]),
    where that pin shifts its [int] by less than 32. *)

(** [int len = 0; { int t = v; while (t > 0) { ++len; t >>= 1; } }].
    An [int] has 31 value bits: a fuel of 32 lets the loop run out. *)
Fixpoint bit_len_loop (fuel : nat) (t : Z) (len : nat) : nat :=
  match fuel with
  | O => len
  | S fuel' =>
      if 0 <? t then bit_len_loop fuel' (Z.shiftr t 1) (S len) else len
  end.

Definition bit_len (v : Z) : nat := bit_len_loop 32 v 0.

(** [add_cnf.cpp]: the clause list handed to the finaliser. *)
Definition add_cnf_conditions (num1 num2 : Z) : M cnf :=
  let sum := num1 + num2 in
  let max_value := Z.max num1 num2 in
  let len := bit_len max_value in
  let result_len := bit_len sum in
  let final_len := Nat.max (len + 1) result_len in
  add_clauses <- Add_NBit "input1" "input2" "result" "overflow" final_len ;;
  ret (add_clauses
       ++ Input_Equals_Number "input1" num1 final_len
       ++ Input_Equals_Number "input2" num2 final_len
       ++ [[Neg "overflow"]]
       ++ Input_Equals_Number (One_NBit final_len) 1 final_len
       ++ [[Neg Zero_1Bit]]).

(** [is_prime.cpp]: the width is at least 2. *)
Definition is_prime_width (target : Z) : nat :=
  let len := bit_len target in
  if (len <? 2)%nat then 2%nat else len.

Definition is_prime_main_conditions (o : arg_order) (target : Z) : M cnf :=
  is_prime_conditions o target (is_prime_width target).

(** [prime_factoring_cnf.cpp]. *)
Definition prime_factoring_conditions (target : Z) : M cnf :=
  let len := bit_len target in
  mul_clauses <- Mul_NBit "factor1" "factor2" "target" "overflow" len ;;
  ret (mul_clauses
       ++ [Input_Not_Equals_Number "factor1" target len]
       ++ [Input_Not_Equals_Number "factor2" target len]
       ++ Input_Equals_Number "target" target len
       ++ [[Neg "overflow"]]
       ++ Input_Equals_Number (One_NBit len) 1 len
       ++ Input_Equals_Number (One_NBit (len * 2)) 1 (len * 2)
       ++ [[Neg Zero_1Bit]]).

(** [prime_and_composite_tautology.cpp]. *)
Definition tautology_conditions (o : arg_order) (bit_width : nat) : M cnf :=
  is_prime <- IsPrime o "target" bit_width (Z.of_nat bit_width) ;;
  is_composite <- IsComposite "target" bit_width ;;
  ret (is_prime ++ is_composite
       ++ Input_Equals_Number (One_NBit bit_width) 1 bit_width
       ++ Input_Equals_Number (One_NBit (bit_width * 2)) 1 (bit_width * 2)
       ++ [[Neg Zero_1Bit]]).
(** * Basic facts on satisfaction *)

Arguments String.append : simpl never.

Lemma sat_app s f g : sat s (f ++ g) = sat s f && sat s g.
Proof. unfold sat. apply forallb_app. Qed.

Lemma sat_app_true s f g :
  sat s (f ++ g) = true <-> sat s f = true /\ sat s g = true.
Proof. rewrite sat_app. apply andb_true_iff. Qed.

Lemma sat_cons_true s c f :
  sat s (c :: f) = true <-> sat_clause s c = true /\ sat s f = true.
Proof. simpl. apply andb_true_iff. Qed.

Lemma sat_forall s f :
  sat s f = true <-> (forall c, In c f -> sat_clause s c = true).
Proof. unfold sat. apply forallb_forall. Qed.

Lemma sat_flat_map {A} s (body : A -> cnf) l :
  sat s (flat_map body l) = true <-> (forall x, In x l -> sat s (body x) = true).
Proof.
  induction l as [|x l IH]; simpl.
  - split; [intros _ y [] | reflexivity].
  - rewrite sat_app_true, IH. split.
    + intros [Hx Hl] y [<-|Hy]; auto.
    + intros H. split; [apply H; now left | intros y Hy; apply H; now right].
Qed.

Lemma sat_for_pure s n body :
  sat s (for_pure n body) = true <->
  (forall i, (i < n)%nat -> sat s (body i) = true).
Proof.
  unfold for_pure. rewrite sat_flat_map. split; intros H i Hi.
  - apply H. apply in_seq. lia.
  - apply H. apply in_seq in Hi. lia.
Qed.

Lemma sat_for_from s body : forall k i st,
  sat s (fst (for_from body i k st)) = true ->
  forall j, (i <= j < i + k)%nat -> exists st', sat s (fst (body j st')) = true.
Proof.
  induction k as [|k IH]; intros i st H j Hj; [lia|].
  simpl in H. unfold bind in H.
  destruct (body i st) as [c st1] eqn:E1.
  destruct (for_from body (S i) k st1) as [cs st2] eqn:E2.
  simpl in H. apply sat_app_true in H. destruct H as [Hc Hcs].
  destruct (Nat.eq_dec j i) as [->|Hne].
  - exists st. now rewrite E1.
  - apply (IH (S i) st1); [now rewrite E2 | lia].
Qed.

Lemma sat_for s n body st :
  sat s (fst (for_ n body st)) = true ->
  forall j, (j < n)%nat -> exists st', sat s (fst (body j st')) = true.
Proof. intros H j Hj. apply (sat_for_from s body n 0%nat st H). lia. Qed.

(** * Bit vectors as numbers *)

Lemma pow2_pos (k : nat) : 0 < 2 ^ Z.of_nat k.
Proof. apply Z.pow_pos_nonneg; lia. Qed.

Lemma pow2_S (k : nat) : 2 ^ Z.of_nat (S k) = 2 * 2 ^ Z.of_nat k.
Proof. rewrite Nat2Z.inj_succ, Z.pow_succ_r; lia. Qed.

Lemma pow2_add (a b : nat) : 2 ^ Z.of_nat (a + b) = 2 ^ Z.of_nat a * 2 ^ Z.of_nat b.
Proof. rewrite Nat2Z.inj_add, Z.pow_add_r; lia. Qed.

Lemma b2z_range b : 0 <= Z.b2z b <= 1.
Proof. destruct b; simpl; lia. Qed.

Lemma bval_range f n : 0 <= bval f n < 2 ^ Z.of_nat n.
Proof.
  induction n as [|n IH]; simpl bval.
  - simpl. lia.
  - rewrite pow2_S. pose proof (b2z_range (f n)). pose proof (pow2_pos n). nia.
Qed.

Lemma value_range s x n : 0 <= value s x n < 2 ^ Z.of_nat n.
Proof. apply bval_range. Qed.

Lemma value_S s x k :
  value s x (S k) = value s x k + Z.b2z (s (x # k)) * 2 ^ Z.of_nat k.
Proof. reflexivity. Qed.

Lemma bval_ext f g n :
  (forall i, (i < n)%nat -> f i = g i) -> bval f n = bval g n.
Proof.
  induction n as [|n IH]; intros H; simpl; [reflexivity|].
  rewrite IH, H by (intros; try apply H; lia). reflexivity.
Qed.

Lemma bval_testbit v n :
  bval (fun i => Z.testbit v (Z.of_nat i)) n = v mod 2 ^ Z.of_nat n.
Proof.
  induction n as [|n IH]; simpl bval.
  - simpl. now rewrite Z.mod_1_r.
  - rewrite IH, pow2_S, Z.testbit_spec' by lia.
    rewrite (Z.mul_comm 2), Z.rem_mul_r by (pose proof (pow2_pos n); lia).
    lia.
Qed.

Lemma bit_of_value (v : Z) (i : nat) :
  Z.eqb (Z.land (Z.shiftr v (Z.of_nat i)) 1) 1 = Z.testbit v (Z.of_nat i).
Proof.
  rewrite Z.land_ones with (n := 1) by lia.
  rewrite <- Z.bit0_mod, Z.shiftr_spec by lia. rewrite Z.add_0_l.
  destruct (Z.testbit v (Z.of_nat i)); reflexivity.
Qed.

Lemma Input_Equals_Number_bits s x v n :
  sat s (Input_Equals_Number x v n) = true <->
  (forall i, (i < n)%nat -> s (x # i) = Z.testbit v (Z.of_nat i)).
Proof.
  unfold Input_Equals_Number. rewrite sat_for_pure.
  split; intros H i Hi; specialize (H i Hi); rewrite bit_of_value in *;
    destruct (Z.testbit v (Z.of_nat i)); unfold sat, sat_clause, sat_lit in *;
    cbn [forallb existsb] in *; destruct (s (x # i)); simpl in *; congruence.
Qed.

Lemma Input_Equals_Number_value s x v n :
  0 <= v < 2 ^ Z.of_nat n ->
  sat s (Input_Equals_Number x v n) = true -> value s x n = v.
Proof.
  intros Hv H. rewrite Input_Equals_Number_bits in H.
  unfold value. rewrite (bval_ext _ (fun i => Z.testbit v (Z.of_nat i))) by exact H.
  rewrite bval_testbit. apply Z.mod_small. exact Hv.
Qed.

(** * The ripple-carry adder *)

Lemma Add_1Bit_sound s a b c r co :
  sat s (Add_1Bit a b c r co) = true ->
  Z.b2z (s a) + Z.b2z (s b) + Z.b2z (s c) = Z.b2z (s r) + 2 * Z.b2z (s co).
Proof.
  unfold Add_1Bit, CarryOut_Equal_POPCNT_GREATER_THAN_2,
    Result_Equal_A_XOR_B_XOR_CarryIn. simpl.
  destruct (s a), (s b), (s c), (s r), (s co); simpl; intros H;
    try discriminate; reflexivity.
Qed.

Lemma Add_NBit_body_sound s a b r ov n c :
  sat s (Add_NBit_body a b r ov n c) = true ->
  value s a n + value s b n = value s r n + 2 ^ Z.of_nat n * Z.b2z (s ov).
Proof.
  unfold Add_NBit_body. rewrite !sat_app_true. intros (H0 & Hloop & Hov).
  rewrite sat_for_pure in Hloop.
  assert (Hc : forall k, (k <= n)%nat ->
            value s a k + value s b k
            = value s r k + 2 ^ Z.of_nat k * Z.b2z (s (AddNBit_carry c k))).
  { induction k as [|k IH]; intros Hk.
    - simpl in H0. unfold value. simpl bval.
      destruct (s (AddNBit_carry c 0)); simpl in *; [discriminate|lia].
    - specialize (IH ltac:(lia)). specialize (Hloop k ltac:(lia)).
      apply Add_1Bit_sound in Hloop. rewrite Nat.add_1_r in Hloop.
      rewrite !value_S, pow2_S. nia. }
  rewrite (Hc n) by lia. f_equal. f_equal.
  simpl in Hov.
  destruct (s ov), (s (AddNBit_carry c n)); simpl in *; congruence.
Qed.

Lemma Add_NBit_sound s a b r ov n st :
  sat s (fst (Add_NBit a b r ov n st)) = true ->
  value s a n + value s b n = value s r n + 2 ^ Z.of_nat n * Z.b2z (s ov).
Proof. apply Add_NBit_body_sound. Qed.

(** C5. Adder correctness: with the bits of [a] and [b] pinned to their
    integer values, every satisfying assignment of [Add_NBit(a, b, r, ov, n)]
    has [r = (a + b) mod 2^n] and [ov = floor((a + b) / 2^n)]. *)
Theorem Add_NBit_correct (n : nat) (a b : Z) (in_a in_b result over_flow : string)
    (st : counters) (s : assignment) :
  0 <= a < 2 ^ Z.of_nat n ->
  0 <= b < 2 ^ Z.of_nat n ->
  sat s (fst (Add_NBit in_a in_b result over_flow n st)) = true ->
  sat s (Input_Equals_Number in_a a n) = true ->
  sat s (Input_Equals_Number in_b b n) = true ->
  value s result n = (a + b) mod 2 ^ Z.of_nat n /\
  Z.b2z (s over_flow) = (a + b) / 2 ^ Z.of_nat n.
Proof.
  intros Ha Hb Hadd Hpa Hpb.
  apply Add_NBit_sound in Hadd.
  rewrite (Input_Equals_Number_value s in_a a n Ha Hpa) in Hadd.
  rewrite (Input_Equals_Number_value s in_b b n Hb Hpb) in Hadd.
  pose proof (value_range s result n) as Hr.
  pose proof (b2z_range (s over_flow)) as Ho.
  split.
  - apply Z.mod_unique_pos with (q := Z.b2z (s over_flow)); lia.
  - apply Z.div_unique_pos with (r := value s result n); lia.
Qed.

(** * Gates *)

Ltac gate_cases :=
  unfold sat, sat_clause, sat_lit; cbn [forallb existsb];
  repeat match goal with
         | |- context [?s ?x] =>
             match type of s with assignment => destruct (s x) end
         end;
  cbn; intros; try discriminate; try reflexivity.

Lemma And_1Bit_sound s a b r :
  sat s (And_1Bit a b r) = true -> s r = s a && s b.
Proof. unfold And_1Bit. gate_cases. Qed.

Lemma LessThan_1Bit_sound s a b r :
  sat s (LessThan_1Bit a b r) = true -> s r = negb (s a) && s b.
Proof. unfold LessThan_1Bit. gate_cases. Qed.

Lemma Equals_1Bit_sound s a b r :
  sat s (Equals_1Bit a b r) = true -> s r = Bool.eqb (s a) (s b).
Proof. unfold Equals_1Bit. gate_cases. Qed.

Lemma If_Cond_A_Else_B_1Bit_sound s a b c r :
  sat s (If_Cond_A_Else_B_1Bit a b c r) = true ->
  s r = if s c then s a else s b.
Proof. unfold If_Cond_A_Else_B_1Bit. gate_cases. Qed.

Lemma Or_1Bit_sound s a b r :
  sat s (Or_1Bit a b r) = true -> s r = s a || s b.
Proof. unfold Or_1Bit. gate_cases. Qed.

Lemma and_gate_sound s a b r :
  sat s [ [Pos r; Neg a; Neg b]; [Neg r; Neg a; Pos b];
          [Neg r; Pos a; Neg b]; [Neg r; Pos a; Pos b] ] = true ->
  s r = s a && s b.
Proof. gate_cases. Qed.

Lemma iff_gate_sound s a b :
  sat s [ [Neg a; Pos b]; [Pos a; Neg b] ] = true -> s a = s b.
Proof. gate_cases. Qed.

Lemma unit_neg_sound s a : sat s [[Neg a]] = true -> s a = false.
Proof. gate_cases. Qed.

Lemma unit_pos_sound s a : sat s [[Pos a]] = true -> s a = true.
Proof. gate_cases. Qed.

(** * More on bit vectors *)

Lemma bval_app f a b :
  bval f (a + b) = bval f a + 2 ^ Z.of_nat a * bval (fun i => f (a + i)%nat) b.
Proof.
  induction b as [|b IH].
  - rewrite Nat.add_0_r. simpl. lia.
  - rewrite Nat.add_succ_r. simpl bval. rewrite IH, pow2_add. lia.
Qed.

Lemma bval_zero f n : (forall i, (i < n)%nat -> f i = false) -> bval f n = 0.
Proof.
  induction n as [|n IH]; intros H; simpl; [reflexivity|].
  rewrite IH, H by (intros; try apply H; lia). simpl. lia.
Qed.

Lemma bval_zero_inv f n :
  bval f n = 0 -> forall i, (i < n)%nat -> f i = false.
Proof.
  induction n as [|n IH]; intros H i Hi; [lia|].
  simpl in H. pose proof (bval_range f n). pose proof (pow2_pos n).
  pose proof (b2z_range (f n)).
  assert (bval f n = 0) by nia.
  assert (Z.b2z (f n) = 0) by nia.
  destruct (Nat.eq_dec i n) as [->|]; [destruct (f n); simpl in *; [lia|reflexivity]|].
  apply IH; [assumption|lia].
Qed.

Lemma bval_and g c n :
  bval (fun i => g i && c) n = Z.b2z c * bval g n.
Proof.
  induction n as [|n IH]; cbn [bval]; [lia|].
  rewrite IH. destruct c, (g n); cbn [Z.b2z andb]; lia.
Qed.

Lemma bval_mux (c : bool) f g n :
  bval (fun i => if c then f i else g i) n = if c then bval f n else bval g n.
Proof. destruct c; reflexivity. Qed.

Lemma for_range_sat s lo hi body :
  sat s (for_range lo hi body) = true <->
  (forall i, (lo <= i < hi)%nat -> sat s (body i) = true).
Proof.
  unfold for_range. rewrite sat_flat_map. split; intros H i Hi.
  - apply H. apply in_seq. lia.
  - apply H. apply in_seq in Hi. lia.
Qed.

Lemma Equals_NBit_bits s a b n :
  sat s (Equals_NBit a b n) = true ->
  forall i, (i < n)%nat -> s (a # i) = s (b # i).
Proof.
  unfold Equals_NBit. rewrite sat_for_pure. intros H i Hi.
  apply iff_gate_sound. auto.
Qed.

Lemma Equals_NBit_sound s a b n :
  sat s (Equals_NBit a b n) = true -> value s a n = value s b n.
Proof.
  intros H. apply bval_ext. intros i Hi. eapply Equals_NBit_bits; eauto.
Qed.

(** A positive clause holds iff one of its variables is true. *)
Lemma sat_clause_pos s (name : nat -> string) l :
  sat_clause s (map (fun i => Pos (name i)) l) = true <->
  exists i, In i l /\ s (name i) = true.
Proof.
  unfold sat_clause. rewrite existsb_exists. split.
  - intros (x & Hx & Hs). apply in_map_iff in Hx. destruct Hx as (i & <- & Hi).
    exists i. auto.
  - intros (i & Hi & Hs). exists (Pos (name i)). split; [|exact Hs].
    apply in_map_iff. eauto.
Qed.

(** A result wire tied to the disjunction of a family of wires. *)
Lemma or_reduce_sound s (name : nat -> string) r n :
  sat_clause s (Neg r :: map (fun i => Pos (name i)) (seq 0 n)) = true ->
  (forall i, (i < n)%nat -> sat s [[Pos r; Neg (name i)]] = true) ->
  s r = negb (bval (fun i => s (name i)) n =? 0).
Proof.
  intros Hbig Hall.
  destruct (Z.eqb_spec (bval (fun i => s (name i)) n) 0) as [Hz|Hnz];
    cbn [negb].
  - pose proof (bval_zero_inv _ _ Hz) as Hbits. cbv beta in Hbits.
    change (sat_clause s (Neg r :: map (fun i => Pos (name i)) (seq 0 n)))
      with (sat_lit s (Neg r) || sat_clause s (map (fun i => Pos (name i)) (seq 0 n)))
      in Hbig.
    apply orb_true_iff in Hbig. destruct Hbig as [Hr|Hex].
    + cbn [sat_lit] in Hr. now destruct (s r).
    + apply (sat_clause_pos s name) in Hex.
      destruct Hex as (i & Hi & Hs). apply in_seq in Hi.
      rewrite Hbits in Hs by lia. discriminate.
  - destruct (s r) eqn:Hr; [reflexivity|]. exfalso. apply Hnz.
    apply bval_zero. intros i Hi. specialize (Hall i Hi).
    revert Hall. unfold sat, sat_clause, sat_lit. cbn [forallb existsb].
    rewrite Hr. destruct (s (name i)); cbn; [discriminate|reflexivity].
Qed.

(** [Or_NBit_To_1Bit]: the result is true iff the operand is nonzero. *)
Lemma Or_NBit_To_1Bit_sound s a r n :
  sat s (Or_NBit_To_1Bit a r n) = true ->
  s r = negb (value s a n =? 0).
Proof.
  unfold Or_NBit_To_1Bit. rewrite sat_cons_true, sat_for_pure.
  intros [Hbig Hall]. apply (or_reduce_sound s (fun i => a # i)); assumption.
Qed.

Lemma sat_for_eq s n body st cs st' :
  for_ n body st = (cs, st') -> sat s cs = true ->
  forall j, (j < n)%nat -> exists st'', sat s (fst (body j st'')) = true.
Proof. intros E H. apply (sat_for s n body st). now rewrite E. Qed.

(** * The multiplier *)

Lemma Mul_NBit_1Bit_Shift_sound s a b r shift n :
  (shift <= n)%nat ->
  sat s (Mul_NBit_1Bit_Shift a b r shift n) = true ->
  value s r (n * 2) = value s a n * Z.b2z (s b) * 2 ^ Z.of_nat shift.
Proof.
  intros Hs. unfold Mul_NBit_1Bit_Shift.
  rewrite !sat_app_true, !sat_for_pure, for_range_sat.
  intros (Hlow & Hmid & Hhigh).
  replace (n * 2)%nat with (shift + (n + (n - shift)))%nat by lia.
  unfold value. rewrite bval_app, bval_app.
  rewrite (bval_zero _ shift).
  2:{ intros i Hi. apply unit_neg_sound. auto. }
  rewrite (bval_zero _ (n - shift)).
  2:{ intros i Hi. apply unit_neg_sound. apply Hhigh. lia. }
  rewrite (bval_ext _ (fun i => s (a # i) && s b) n).
  2:{ intros i Hi. specialize (Hmid i Hi). apply and_gate_sound in Hmid.
      rewrite Nat.add_comm. exact Hmid. }
  rewrite bval_and. lia.
Qed.

Ltac run_monad H :=
  repeat (unfold bind, ret in H;
          match type of H with
          | context [let (_, _) := ?m ?st in _] =>
              let E := fresh "E" in destruct (m st) as [? ?] eqn:E
          end);
  cbn [fst snd] in H.

Lemma Mul_NBit_sound s a b r ov n st :
  sat s (fst (Mul_NBit a b r ov n st)) = true ->
  exists h, 0 <= h /\
    value s a n * value s b n = value s r n + 2 ^ Z.of_nat n * h /\
    s ov = negb (h =? 0).
Proof.
  unfold Mul_NBit. intros H.
  unfold bind at 1 in H. destruct (tick_Mul_NBit st) as [c st1].
  run_monad H.
  rewrite !sat_app_true in H.
  destruct H as (Hpart & Hinit & Hadds & Hconn & Hovc & Hup).
  rewrite sat_for_pure in Hpart, Hinit, Hconn, Hup.
  pose proof (sat_for_eq _ _ _ _ _ _ E Hadds) as Hadd. cbv beta in Hadd.
  clear E Hadds.
  assert (Hacc : forall k, (k <= n)%nat ->
            value s (Mul_NBit_Accum2 c k) (n * 2)
            = value s a n * bval (fun i => s (b # i)) k).
  { induction k as [|k IH]; intros Hk.
    - simpl bval. rewrite Z.mul_0_r. apply bval_zero.
      intros i Hi. apply unit_neg_sound. auto.
    - specialize (IH ltac:(lia)).
      destruct (Hadd k ltac:(lia)) as [st' Hk'].
      apply Add_NBit_sound in Hk'. rewrite Nat.add_1_r in Hk'.
      rewrite IH in Hk'.
      rewrite (Mul_NBit_1Bit_Shift_sound s a (b # k) _ k n) in Hk'
        by (try lia; apply Hpart; lia).
      pose proof (value_range s (Mul_NBit_Accum2 c (S k)) (n * 2)) as Hr.
      pose proof (value_range s a n) as Ha.
      pose proof (bval_range (fun i => s (b # i)) (S k)) as Hb.
      pose proof (b2z_range (s (Mul_NBit_CarryOut c k))) as Hc.
      simpl bval in *.
      assert (Hlt : value s a n * (bval (fun i => s (b # i)) k
                       + Z.b2z (s (b # k)) * 2 ^ Z.of_nat k)
                    < 2 ^ Z.of_nat (n * 2)).
      { rewrite Nat.mul_comm. simpl Nat.mul. rewrite Nat.add_0_r, pow2_add.
        assert (2 ^ Z.of_nat (S k) <= 2 ^ Z.of_nat n)
          by (apply Z.pow_le_mono_r; lia).
        pose proof (pow2_pos n). nia. }
      assert (Z.b2z (s (Mul_NBit_CarryOut c k)) = 0) by nia.
      nia. }
  specialize (Hacc n (le_n n)). fold (value s b n) in Hacc.
  replace (n * 2)%nat with (n + n)%nat in Hacc by lia.
  unfold value at 1 in Hacc. rewrite bval_app in Hacc.
  exists (bval (fun i => s (Mul_NBit_Accum2 c n # (i + n))) n).
  split; [apply bval_range|]. split.
  - rewrite <- Hacc. f_equal.
    + apply bval_ext. intros i Hi.
      specialize (Hconn i Hi). apply iff_gate_sound in Hconn. now rewrite Hconn.
    + f_equal. apply bval_ext. intros i Hi. now rewrite Nat.add_comm.
  - apply (or_reduce_sound s (fun i => Mul_NBit_Accum2 c n # (i + n))).
    + rewrite sat_cons_true in Hovc. apply Hovc.
    + exact Hup.
Qed.

(** * Comparison *)

Lemma bval_inj f g n :
  bval f n = bval g n -> forall i, (i < n)%nat -> f i = g i.
Proof.
  induction n as [|n IH]; intros H i Hi; [lia|].
  cbn [bval] in H.
  pose proof (bval_range f n). pose proof (bval_range g n).
  assert (Hb : f n = g n).
  { destruct (f n), (g n); cbn [Z.b2z] in H; try reflexivity; lia. }
  rewrite Hb in H.
  destruct (Nat.eq_dec i n) as [->|]; [exact Hb|].
  apply IH; lia.
Qed.

Lemma bval_lt_at f g n i :
  (i < n)%nat -> f i = false -> g i = true ->
  (forall j, (i < j < n)%nat -> f j = g j) ->
  bval f n < bval g n.
Proof.
  intros Hi Hf Hg Hhigh.
  replace n with (S i + (n - S i))%nat by lia.
  rewrite !bval_app.
  rewrite (bval_ext (fun k => f (S i + k)%nat) (fun k => g (S i + k)%nat))
    by (intros k Hk; apply Hhigh; lia).
  cbn [bval]. rewrite Hf, Hg. cbn [Z.b2z].
  pose proof (bval_range f i). pose proof (bval_range g i). lia.
Qed.

Lemma LessThan_NBit_body_sound s a b n c :
  sat s (LessThan_NBit_body a b n c) = true -> value s a n < value s b n.
Proof.
  unfold LessThan_NBit_body. rewrite !sat_app_true, !sat_for_pure.
  intros (Heq & Hlt & Htop & Hacc & Hres & Hany).
  apply unit_pos_sound in Htop.
  assert (Hpre : forall d k, (k + d = n)%nat ->
            s (LessThan_NBit_EqualAccum c k) = true ->
            forall j, (k <= j < n)%nat -> s (a # j) = s (b # j)).
  { induction d as [|d IH]; intros k Hk Hk1 j Hj; [lia|].
    specialize (Hacc k ltac:(lia)). apply And_1Bit_sound in Hacc.
    rewrite Hk1, Nat.add_1_r in Hacc. symmetry in Hacc.
    apply andb_true_iff in Hacc. destruct Hacc as [Hn He].
    destruct (Nat.eq_dec j k) as [->|].
    - specialize (Heq k ltac:(lia)). apply Equals_1Bit_sound in Heq.
      rewrite He in Heq. symmetry in Heq. now apply eqb_prop in Heq.
    - apply (IH (S k)); [lia|exact Hn|lia]. }
  rewrite sat_cons_true in Hany. destruct Hany as [Hany _].
  apply (sat_clause_pos s (LessThan_NBit_Result c)) in Hany.
  destruct Hany as (i & Hi & Hr). apply in_seq in Hi.
  specialize (Hres i ltac:(lia)). apply And_1Bit_sound in Hres.
  rewrite Hr, Nat.add_1_r in Hres. symmetry in Hres.
  apply andb_true_iff in Hres. destruct Hres as [Hn Hl].
  specialize (Hlt i ltac:(lia)). apply LessThan_1Bit_sound in Hlt.
  rewrite Hl in Hlt. symmetry in Hlt. apply andb_true_iff in Hlt.
  destruct Hlt as [Hai Hbi]. apply negb_true_iff in Hai.
  apply (bval_lt_at _ _ n i); [lia|exact Hai|exact Hbi|].
  intros j Hj. apply (Hpre (n - S i)%nat (S i)); [lia|exact Hn|lia].
Qed.

Lemma LessThan_NBit_sound s a b n st :
  sat s (fst (LessThan_NBit a b n st)) = true -> value s a n < value s b n.
Proof. apply LessThan_NBit_body_sound. Qed.

(** * Division *)

Lemma DivMod_NBit_sound s a b q r n st :
  sat s (fst (DivMod_NBit a b q r n st)) = true ->
  value s a n = value s b n * value s q n + value s r n /\
  value s r n < value s b n.
Proof.
  unfold DivMod_NBit. intros H.
  unfold bind at 1 in H. destruct (tick_DivMod_NBit st) as [c st1].
  run_monad H.
  rewrite !sat_app_true in H.
  destruct H as (Hmul & Hadd & Hmo & Hao & Hlt).
  apply unit_neg_sound in Hmo, Hao.
  assert (Hmul' : sat s (fst (Mul_NBit b q (DivMod_NBit_Accum c)
                      (DivMode_NBit_MulOverflow c) n st1)) = true)
    by now rewrite E.
  assert (Hadd' : sat s (fst (Add_NBit (DivMod_NBit_Accum c) r a
                      (DivMode_NBit_AddOverflow c) n c1)) = true)
    by now rewrite E0.
  assert (Hlt' : sat s (fst (LessThan_NBit r b n c3)) = true)
    by now rewrite E1.
  apply Mul_NBit_sound in Hmul'. destruct Hmul' as (h & Hh & Hprod & Hov).
  rewrite Hmo in Hov. symmetry in Hov. apply negb_false_iff in Hov.
  apply Z.eqb_eq in Hov. subst h.
  apply Add_NBit_sound in Hadd'. rewrite Hao in Hadd'. cbn [Z.b2z] in Hadd'.
  apply LessThan_NBit_sound in Hlt'.
  split; [lia|exact Hlt'].
Qed.

Lemma DivMod_NBit_div_mod s a b q r n st :
  sat s (fst (DivMod_NBit a b q r n st)) = true ->
  value s q n = value s a n / value s b n /\
  value s r n = value s a n mod value s b n.
Proof.
  intros H. apply DivMod_NBit_sound in H. destruct H as [Heq Hlt].
  pose proof (value_range s r n). pose proof (value_range s b n).
  split.
  - apply Z.div_unique_pos with (r := value s r n); lia.
  - apply Z.mod_unique_pos with (q := value s q n); lia.
Qed.

(** * Modular exponentiation *)

Lemma DoubleSize_Assign_bits s a r n :
  sat s (DoubleSize_Assign a r n) = true ->
  forall i, (i < n)%nat -> s (r # i) = s (a # i).
Proof.
  unfold DoubleSize_Assign. rewrite sat_app_true. intros [He _] i Hi.
  symmetry. eapply Equals_NBit_bits; eauto.
Qed.

Lemma DoubleSize_Assign_sound s a r n :
  sat s (DoubleSize_Assign a r n) = true ->
  value s r (n * 2) = value s a n.
Proof.
  intros H. pose proof (DoubleSize_Assign_bits _ _ _ _ H) as Hlow.
  unfold DoubleSize_Assign in H. rewrite sat_app_true, for_range_sat in H.
  destruct H as [_ Hhigh].
  replace (n * 2)%nat with (n + n)%nat by lia.
  unfold value. rewrite bval_app.
  rewrite (bval_zero (fun i => s (r # (n + i))) n)
    by (intros i Hi; apply unit_neg_sound, Hhigh; lia).
  rewrite (bval_ext _ (fun i => s (a # i)) n) by exact Hlow. lia.
Qed.

Lemma If_Cond_A_Else_B_NBit_sound s a b c r n :
  sat s (If_Cond_A_Else_B_NBit a b c r n) = true ->
  value s r n = if s c then value s a n else value s b n.
Proof.
  unfold If_Cond_A_Else_B_NBit. rewrite sat_for_pure. intros H.
  unfold value. rewrite <- bval_mux. apply bval_ext. intros i Hi.
  apply If_Cond_A_Else_B_1Bit_sound. auto.
Qed.

Lemma value_low s x n :
  value s x (n * 2) < 2 ^ Z.of_nat n -> value s x n = value s x (n * 2).
Proof.
  replace (n * 2)%nat with (n + n)%nat by lia.
  unfold value. rewrite bval_app. cbv beta. intros H.
  pose proof (bval_range (fun i => s (x # i)) n).
  pose proof (bval_range (fun i => s (x # (n + i))) n).
  pose proof (pow2_pos n).
  assert (bval (fun i => s (x # (n + i))) n = 0) by nia. lia.
Qed.

Lemma small_quot q h x r :
  0 < q -> 0 <= h -> 0 <= r -> x = r + q * h -> x < q -> h = 0.
Proof.
  intros Hq Hh Hr Hx Hlt. destruct (Z.eq_dec h 0) as [|Hne]; [assumption|].
  assert (q * 1 <= q * h) by (apply Z.mul_le_mono_nonneg_l; lia). lia.
Qed.

Lemma Mul_NBit_exact s a b r ov n st :
  sat s (fst (Mul_NBit a b r ov n st)) = true ->
  value s a n * value s b n < 2 ^ Z.of_nat n ->
  value s r n = value s a n * value s b n.
Proof.
  intros H Hlt. apply Mul_NBit_sound in H. destruct H as (h & Hh & Hp & _).
  pose proof (value_range s r n). pose proof (pow2_pos n).
  assert (h = 0) by (eapply small_quot; [| |  | exact Hp | exact Hlt]; lia).
  subst h. lia.
Qed.

Lemma Mul_NBit_no_overflow s a b r ov n st :
  sat s (fst (Mul_NBit a b r ov n st)) = true ->
  s ov = false ->
  value s r n = value s a n * value s b n.
Proof.
  intros H Hov. apply Mul_NBit_sound in H. destruct H as (h & Hh & Hp & Ho).
  rewrite Hov in Ho. symmetry in Ho. apply negb_false_iff, Z.eqb_eq in Ho. lia.
Qed.

Lemma PowMod_NBit_step_sound s n c i st :
  sat s (fst (PowMod_NBit_step n c i st)) = true ->
  value s (One_NBit (n * 2)) (n * 2) = 1 ->
  value s (PowMod_NBit_PartialResult c i) (n * 2) < 2 ^ Z.of_nat n ->
  value s (PowMod_NBit_CurrentPow c i) (n * 2) < 2 ^ Z.of_nat n ->
  let m := value s (PowMod_NBit_Mod_DoubleSize c) (n * 2) in
  let pr := value s (PowMod_NBit_PartialResult c i) (n * 2) in
  let cp := value s (PowMod_NBit_CurrentPow c i) (n * 2) in
  0 < m /\
  value s (PowMod_NBit_PartialResult c (i + 1)) (n * 2)
    = (pr * (if s (PowMod_NBit_Exp_DoubleSize c # i) then cp else 1)) mod m /\
  value s (PowMod_NBit_CurrentPow c (i + 1)) (n * 2) = (cp * cp) mod m.
Proof.
  unfold PowMod_NBit_step. intros H Hone Hpr Hcp.
  unfold bind at 1 in H.
  destruct (Mul_NBit (PowMod_NBit_PartialResult c i) (PowMod_NBit_BitFactor c i)
              (PowMod_NBit_Multipled c i) (PowMod_NBit_MultipledOverflow c i)
              (n * 2) st) as [mul1 st1] eqn:Emul1.
  unfold bind at 1 in H.
  destruct (DivMod_NBit (PowMod_NBit_Multipled c i) (PowMod_NBit_Mod_DoubleSize c)
              (PowMod_NBit_Div1 c i) (PowMod_NBit_PartialResult c (i + 1))
              (n * 2) st1) as [dm1 st2] eqn:Edm1.
  unfold bind at 1 in H.
  destruct (Mul_NBit (PowMod_NBit_CurrentPow c i) (PowMod_NBit_CurrentPow c i)
              (PowMod_NBit_SquareBase c i) (PowMod_NBit_SquareBaseOverflow c i)
              (n * 2) st2) as [mul2 st3] eqn:Emul2.
  unfold bind at 1 in H.
  destruct (DivMod_NBit (PowMod_NBit_SquareBase c i) (PowMod_NBit_Mod_DoubleSize c)
              (PowMod_NBit_Div2 c i) (PowMod_NBit_CurrentPow c (i + 1))
              (n * 2) st3) as [dm2 st4] eqn:Edm2.
  unfold ret in H. cbn [fst] in H. rewrite !sat_app_true in H.
  destruct H as (Hbf & Hmul1 & Hdm1 & Hmul2 & Hdm2).
  apply If_Cond_A_Else_B_NBit_sound in Hbf. rewrite Hone in Hbf.
  assert (Hm1 : sat s (fst (Mul_NBit (PowMod_NBit_PartialResult c i)
              (PowMod_NBit_BitFactor c i) (PowMod_NBit_Multipled c i)
              (PowMod_NBit_MultipledOverflow c i) (n * 2) st)) = true)
    by now rewrite Emul1.
  assert (Hd1 : sat s (fst (DivMod_NBit (PowMod_NBit_Multipled c i)
              (PowMod_NBit_Mod_DoubleSize c) (PowMod_NBit_Div1 c i)
              (PowMod_NBit_PartialResult c (i + 1)) (n * 2) st1)) = true)
    by now rewrite Edm1.
  assert (Hm2 : sat s (fst (Mul_NBit (PowMod_NBit_CurrentPow c i)
              (PowMod_NBit_CurrentPow c i) (PowMod_NBit_SquareBase c i)
              (PowMod_NBit_SquareBaseOverflow c i) (n * 2) st2)) = true)
    by now rewrite Emul2.
  assert (Hd2 : sat s (fst (DivMod_NBit (PowMod_NBit_SquareBase c i)
              (PowMod_NBit_Mod_DoubleSize c) (PowMod_NBit_Div2 c i)
              (PowMod_NBit_CurrentPow c (i + 1)) (n * 2) st3)) = true)
    by now rewrite Edm2.
  pose proof (value_range s (PowMod_NBit_PartialResult c i) (n * 2)) as Rpr.
  pose proof (value_range s (PowMod_NBit_CurrentPow c i) (n * 2)) as Rcp.
  assert (Hpow : 2 ^ Z.of_nat (n * 2) = 2 ^ Z.of_nat n * 2 ^ Z.of_nat n).
  { replace (n * 2)%nat with (n + n)%nat by lia. apply pow2_add. }
  pose proof (pow2_pos n) as Hpos.
  assert (Hbfr : 0 <= value s (PowMod_NBit_BitFactor c i) (n * 2) < 2 ^ Z.of_nat n).
  { rewrite Hbf. destruct (s (PowMod_NBit_Exp_DoubleSize c # i)); [lia|].
    destruct n; [cbn in Hone; lia|]. rewrite pow2_S. pose proof (pow2_pos n). lia. }
  apply Mul_NBit_exact in Hm1; [|rewrite Hpow; nia].
  apply Mul_NBit_exact in Hm2; [|rewrite Hpow; nia].
  pose proof (DivMod_NBit_sound _ _ _ _ _ _ _ Hd1) as [_ Hlt].
  pose proof (value_range s (PowMod_NBit_PartialResult c (i + 1)) (n * 2)) as Rpr1.
  apply DivMod_NBit_div_mod in Hd1, Hd2.
  destruct Hd1 as [_ Hd1]. destruct Hd2 as [_ Hd2].
  rewrite Hm1, Hbf in Hd1. rewrite Hm2 in Hd2.
  repeat split; [lia|exact Hd1|exact Hd2].
Qed.

Lemma pow_two_pow_succ (b : Z) (k : nat) :
  b ^ (2 ^ Z.of_nat (S k)) = b ^ (2 ^ Z.of_nat k) * b ^ (2 ^ Z.of_nat k).
Proof.
  rewrite pow2_S. pose proof (pow2_pos k).
  replace (2 * 2 ^ Z.of_nat k) with (2 ^ Z.of_nat k + 2 ^ Z.of_nat k) by lia.
  apply Z.pow_add_r; lia.
Qed.

Lemma PowMod_NBit_sound s base exp mod_ result n st :
  sat s (fst (PowMod_NBit base exp mod_ result n st)) = true ->
  value s (One_NBit (n * 2)) (n * 2) = 1 ->
  (0 < n)%nat ->
  0 < value s mod_ n /\
  value s result n = (value s base n ^ value s exp n) mod value s mod_ n.
Proof.
  unfold PowMod_NBit. intros H Hone Hn.
  unfold bind at 1 in H. destruct (tick_PowMod_NBit st) as [c st1].
  unfold bind at 1 in H.
  destruct (for_ n (PowMod_NBit_step n c) st1) as [steps st2] eqn:Esteps.
  unfold ret in H. cbn [fst] in H. rewrite !sat_app_true in H.
  destruct H as (Hb & He & Hm & Hinit & Hcp0 & Hsteps & Hres).
  pose proof (sat_for_eq _ _ _ _ _ _ Esteps Hsteps) as Hstep.
  pose proof (DoubleSize_Assign_bits _ _ _ _ He) as Hebits.
  apply DoubleSize_Assign_sound in Hb, Hm.
  apply Equals_NBit_sound in Hcp0, Hres. rewrite Hb in Hcp0.
  assert (Hpow : 2 ^ Z.of_nat (n * 2) = 2 ^ Z.of_nat n * 2 ^ Z.of_nat n).
  { replace (n * 2)%nat with (n + n)%nat by lia. apply pow2_add. }
  pose proof (pow2_pos n) as Hpos.
  assert (H2n : 2 <= 2 ^ Z.of_nat n).
  { destruct n; [lia|]. rewrite pow2_S. pose proof (pow2_pos n). lia. }
  apply Input_Equals_Number_value in Hinit; [|nia].
  set (b := value s base n) in *.
  set (m := value s mod_ n) in *.
  pose proof (value_range s base n) as Rb. fold b in Rb.
  pose proof (value_range s mod_ n) as Rm. fold m in Rm.
  assert (Hinv : forall k, (k <= n)%nat ->
    let pr := value s (PowMod_NBit_PartialResult c k) (n * 2) in
    let cp := value s (PowMod_NBit_CurrentPow c k) (n * 2) in
    0 <= pr < 2 ^ Z.of_nat n /\ 0 <= cp < 2 ^ Z.of_nat n /\
    pr mod m = (b ^ bval (fun i => s (exp # i)) k) mod m /\
    cp mod m = (b ^ (2 ^ Z.of_nat k)) mod m /\
    ((0 < k)%nat -> 0 < m /\ pr < m)).
  { induction k as [|k IH]; intros Hk.
    - cbv zeta. rewrite Hinit, Hcp0. cbn [bval Z.of_nat].
      rewrite Z.pow_0_r, Z.pow_1_r.
      repeat split; try lia.
    - specialize (IH ltac:(lia)). cbv zeta in IH.
      destruct IH as (Rpr & Rcp & Ipr & Icp & _).
      destruct (Hstep k ltac:(lia)) as [st' Hst].
      apply PowMod_NBit_step_sound in Hst; [|exact Hone|lia|lia].
      cbv zeta in Hst. rewrite Hm in Hst.
      destruct Hst as (Hmpos & Hpr1 & Hcp1).
      rewrite Nat.add_1_r in Hpr1, Hcp1.
      cbv zeta. rewrite Hpr1, Hcp1.
      pose proof (Z.mod_pos_bound
        (value s (PowMod_NBit_PartialResult c k) (n * 2)
         * (if s (PowMod_NBit_Exp_DoubleSize c # k)
            then value s (PowMod_NBit_CurrentPow c k) (n * 2) else 1)) m Hmpos).
      pose proof (Z.mod_pos_bound
        (value s (PowMod_NBit_CurrentPow c k) (n * 2)
         * value s (PowMod_NBit_CurrentPow c k) (n * 2)) m Hmpos).
      repeat split; try lia.
      + rewrite Z.mod_mod by lia. cbn [bval].
        rewrite Hebits by lia.
        rewrite Z.mul_mod, Ipr by lia.
        destruct (s (exp # k)); cbn [Z.b2z].
        * rewrite Icp, <- Z.mul_mod by lia.
          rewrite Z.mul_1_l, Z.pow_add_r;
            [reflexivity|apply bval_range|pose proof (pow2_pos k); lia].
        * rewrite <- Z.mul_mod by lia.
          now rewrite Z.mul_1_r, Z.mul_0_l, Z.add_0_r.
      + rewrite Z.mod_mod by lia.
        rewrite Z.mul_mod, Icp, <- Z.mul_mod by lia.
        now rewrite pow_two_pow_succ. }
  specialize (Hinv n (le_n n)). cbv zeta in Hinv.
  destruct Hinv as (Rpr & _ & Ipr & _ & Hlast).
  destruct (Hlast Hn) as [Hmpos Hlt].
  split; [exact Hmpos|].
  rewrite Hres, value_low by lia.
  rewrite <- (Z.mod_small _ m) by lia. exact Ipr.
Qed.

(** * Exponentiation *)

Lemma Pow_NBit_sound s a e r ov n st :
  sat s (fst (Pow_NBit a e r ov n st)) = true ->
  value s (One_NBit n) n = 1 ->
  s Zero_1Bit = false ->
  s ov = false ->
  value s r n = value s a n ^ value s e n.
Proof.
  unfold Pow_NBit. intros H Hone Hzero Hov.
  unfold bind at 1 in H. destruct (tick_Pow_NBit st) as [c st1].
  unfold bind at 1 in H.
  match type of H with context [let (_, _) := ?m st1 in _] =>
    destruct (m st1) as [squares st2] eqn:Esq end.
  unfold bind at 1 in H.
  match type of H with context [let (_, _) := ?m st2 in _] =>
    destruct (m st2) as [accums st3] eqn:Eacc end.
  unfold ret in H. cbn [fst] in H. rewrite !sat_app_true in H.
  destruct H as (Heq & Hsq & Hsel & Hin & Hacc & Hres & Hoi & Hoo & Hot
                 & Hor1 & Hor2 & Hfin).
  pose proof (sat_for_eq _ _ _ _ _ _ Esq Hsq) as Hsquare.
  pose proof (sat_for_eq _ _ _ _ _ _ Eacc Hacc) as Haccum.
  cbv beta in Hsquare, Haccum. clear Esq Eacc Hsq Hacc.
  rewrite sat_for_pure in Hsel, Hoo, Hot.
  apply Equals_NBit_sound in Heq, Hres.
  apply unit_neg_sound in Hoi.
  apply Or_1Bit_sound in Hfin. rewrite Hov in Hfin. symmetry in Hfin.
  apply orb_false_iff in Hfin. destruct Hfin as [Hf1 Hf2].
  apply Or_NBit_To_1Bit_sound in Hor1, Hor2.
  rewrite Hf1 in Hor1. rewrite Hf2 in Hor2.
  symmetry in Hor1, Hor2. apply negb_false_iff, Z.eqb_eq in Hor1, Hor2.
  pose proof (bval_zero_inv _ _ Hor1) as Haov.
  pose proof (bval_zero_inv _ _ Hor2) as Hotv.
  cbv beta in Haov, Hotv. clear Hor1 Hor2.
  assert (Hn : (0 < n)%nat).
  { destruct n; [cbn in Hone; lia|lia]. }
  assert (H1n : 1 < 2 ^ Z.of_nat n).
  { destruct n; [lia|]. rewrite pow2_S. pose proof (pow2_pos n). lia. }
  apply Input_Equals_Number_value in Hin; [|lia].
  set (va := value s a n) in *.
  assert (HA : forall i, (i <= n)%nat ->
            s (Pow_NBit_PowAccumOverflowAccum c i) = false ->
            value s (Pow_NBit_Temp1 c i) n = va ^ (2 ^ Z.of_nat i)).
  { induction i as [|i IH]; intros Hi Hoa.
    - cbn [Z.of_nat]. rewrite Z.pow_0_r, Z.pow_1_r. exact Heq.
    - specialize (Hoo i ltac:(lia)). apply Or_1Bit_sound in Hoo.
      rewrite Nat.add_1_r, Hoa in Hoo. symmetry in Hoo.
      apply orb_false_iff in Hoo. destruct Hoo as [Hoa' Hto].
      destruct (Hsquare i ltac:(lia)) as [st' Hm].
      apply Mul_NBit_no_overflow in Hm; [|exact Hto].
      rewrite Nat.add_1_r in Hm. rewrite Hm, IH by (assumption || lia).
      now rewrite pow_two_pow_succ. }
  assert (HB : forall i, (i < n)%nat -> s (e # i) = true ->
            value s (Pow_NBit_Temp1 c i) n = va ^ (2 ^ Z.of_nat i)).
  { intros [|i] Hi Hei.
    - apply HA; [lia|exact Hoi].
    - apply HA; [lia|].
      specialize (Hot i ltac:(lia)). apply If_Cond_A_Else_B_1Bit_sound in Hot.
      rewrite Nat.add_1_r, Hei, Hotv in Hot by lia. now symmetry. }
  assert (HC : forall k, (k <= n)%nat ->
            value s (Pow_NBit_PowAccum c k) n = va ^ bval (fun i => s (e # i)) k).
  { induction k as [|k IH]; intros Hk.
    - cbn [bval]. rewrite Z.pow_0_r. exact Hin.
    - destruct (Haccum k ltac:(lia)) as [st' Hm].
      apply Mul_NBit_no_overflow in Hm; [|apply Haov; lia].
      rewrite Nat.add_1_r in Hm. rewrite Hm, IH by lia.
      specialize (Hsel k ltac:(lia)). apply If_Cond_A_Else_B_NBit_sound in Hsel.
      rewrite Hsel. cbn [bval].
      pose proof (bval_range (fun i => s (e # i)) k).
      destruct (s (e # k)) eqn:Hek; cbn [Z.b2z].
      + rewrite HB by (assumption || lia).
        rewrite Z.mul_1_l, Z.pow_add_r by (pose proof (pow2_pos k); lia). lia.
      + rewrite Hone, Z.mul_0_l, Z.add_0_r. lia. }
  rewrite Hres. apply (HC n). lia.
Qed.

(** * N-ary sum and product *)

Lemma Sum_NBit_sound s input output overflow k bits st :
  sat s (fst (Sum_NBit input output overflow k bits st)) = true ->
  s overflow = false ->
  value s output bits = zsum (fun i => value s (input # i) bits) k.
Proof.
  unfold Sum_NBit. intros H Hov.
  unfold bind at 1 in H. destruct (tick_Sum_NBit st) as [c st1].
  unfold bind at 1 in H.
  match type of H with context [let (_, _) := ?m st1 in _] =>
    destruct (m st1) as [adds st2] eqn:Eadd end.
  unfold ret in H. cbn [fst] in H. rewrite !sat_app_true in H.
  destruct H as (Hinit & Hadds & Heq & Hor).
  pose proof (sat_for_eq _ _ _ _ _ _ Eadd Hadds) as Hadd. cbv beta in Hadd.
  apply Equals_NBit_sound in Heq.
  apply Or_NBit_To_1Bit_sound in Hor. rewrite Hov in Hor. symmetry in Hor.
  apply negb_false_iff, Z.eqb_eq in Hor.
  pose proof (bval_zero_inv _ _ Hor) as Hovs. cbv beta in Hovs.
  apply Input_Equals_Number_value in Hinit; [|pose proof (pow2_pos bits); lia].
  rewrite Heq.
  assert (Hacc : forall j, (j <= k)%nat ->
            value s (Sum_NBit_Accum c j) bits
            = zsum (fun i => value s (input # i) bits) j).
  { induction j as [|j IH]; intros Hj; [exact Hinit|].
    destruct (Hadd j ltac:(lia)) as [st' Ha]. apply Add_NBit_sound in Ha.
    rewrite Hovs, Nat.add_1_r in Ha by lia. cbn [Z.b2z zsum] in *.
    rewrite <- IH by lia. lia. }
  apply Hacc. lia.
Qed.

Lemma Product_NBit_sound s input output overflow k bits st :
  sat s (fst (Product_NBit input output overflow k bits st)) = true ->
  (0 < bits)%nat ->
  s overflow = false ->
  value s output bits = zprod (fun i => value s (input # i) bits) k.
Proof.
  unfold Product_NBit. intros H Hbits Hov.
  unfold bind at 1 in H. destruct (tick_Product_NBit st) as [c st1].
  unfold bind at 1 in H.
  match type of H with context [let (_, _) := ?m st1 in _] =>
    destruct (m st1) as [muls st2] eqn:Emul end.
  unfold ret in H. cbn [fst] in H. rewrite !sat_app_true in H.
  destruct H as (Hinit & Hmuls & Heq & Hor).
  pose proof (sat_for_eq _ _ _ _ _ _ Emul Hmuls) as Hmul. cbv beta in Hmul.
  apply Equals_NBit_sound in Heq.
  apply Or_NBit_To_1Bit_sound in Hor. rewrite Hov in Hor. symmetry in Hor.
  apply negb_false_iff, Z.eqb_eq in Hor.
  pose proof (bval_zero_inv _ _ Hor) as Hovs. cbv beta in Hovs.
  assert (H1 : 1 < 2 ^ Z.of_nat bits).
  { destruct bits; [lia|]. rewrite pow2_S. pose proof (pow2_pos bits). lia. }
  apply Input_Equals_Number_value in Hinit; [|lia].
  rewrite Heq.
  assert (Hacc : forall j, (j <= k)%nat ->
            value s (Product_NBit_Accum c j) bits
            = zprod (fun i => value s (input # i) bits) j).
  { induction j as [|j IH]; intros Hj; [exact Hinit|].
    destruct (Hmul j ltac:(lia)) as [st' Hm].
    apply Mul_NBit_no_overflow in Hm; [|apply Hovs; lia].
    rewrite Nat.add_1_r in Hm. cbn [zprod]. rewrite <- IH by lia. lia. }
  apply Hacc. lia.
Qed.

(** * Constants and disjunction *)

Lemma Input_Not_Equals_Number_sound s x v n :
  sat_clause s (Input_Not_Equals_Number x v n) = true -> value s x n <> v.
Proof.
  unfold Input_Not_Equals_Number, sat_clause. rewrite existsb_exists.
  intros (l & Hl & Hs) Hv. apply in_map_iff in Hl.
  destruct Hl as (i & <- & Hi). apply in_seq in Hi.
  assert (Hbit : s (x # i) = Z.testbit v (Z.of_nat i)).
  { apply (bval_inj (fun i => s (x # i))
                    (fun i => Z.testbit v (Z.of_nat i)) n); [|lia].
    rewrite bval_testbit. fold (value s x n). rewrite Hv.
    symmetry. apply Z.mod_small. rewrite <- Hv. apply value_range. }
  rewrite bit_of_value in Hs. rewrite <- Hbit in Hs.
  destruct (s (x # i)) eqn:E; cbn [sat_lit] in Hs; rewrite E in Hs; discriminate.
Qed.

Lemma AddLiteralToCondition_sat s l f :
  sat s (AddLiteralToCondition l f) = sat_lit s l || sat s f.
Proof.
  unfold AddLiteralToCondition. induction f as [|c f IH]; cbn [map sat forallb].
  - now rewrite orb_true_r.
  - fold (sat s (map (fun cl => l :: cl) f)). rewrite IH.
    fold (sat s f). cbn [sat_clause existsb].
    fold (sat_clause s c).
    destruct (sat_lit s l); reflexivity.
Qed.

Lemma Or_Condition_sound s f g st :
  sat s (fst (Or_Condition f g st)) = true ->
  sat s f = true \/ sat s g = true.
Proof.
  unfold Or_Condition, bind, ret. cbn [tick_Or_Condition fst].
  rewrite sat_app_true, !AddLiteralToCondition_sat. cbn [sat_lit].
  destruct (s (Or_Condition_literal (S (cnt_Or_Condition st))));
    cbn [negb orb]; intros [H1 H2]; auto.
Qed.

(** * Fermat tests *)

Lemma one_lt_pow2 n : (0 < n)%nat -> 1 < 2 ^ Z.of_nat n.
Proof.
  intros H. destruct n; [lia|]. rewrite pow2_S. pose proof (pow2_pos n). lia.
Qed.

Lemma FermatTest_sound s g e m n st :
  sat s (fst (FermatTest g e m n st)) = true ->
  value s (One_NBit (n * 2)) (n * 2) = 1 ->
  (0 < n)%nat ->
  value s g n <> 0 /\ value s g n <> 1 /\ 0 < value s m n /\
  (value s g n ^ value s e n) mod value s m n = 1.
Proof.
  unfold FermatTest. intros H Hone Hn.
  unfold bind at 1 in H. destruct (tick_FermatTest st) as [c st1].
  unfold bind at 1 in H.
  match type of H with context [let (_, _) := ?m st1 in _] =>
    destruct (m st1) as [pm st2] eqn:Epm end.
  unfold ret in H. cbn [fst] in H. rewrite !sat_app_true in H.
  destruct H as (H0 & H1 & Hpm & Hres).
  rewrite sat_cons_true in H0, H1.
  destruct H0 as [H0 _]. destruct H1 as [H1 _].
  apply Input_Not_Equals_Number_sound in H0, H1.
  assert (Hpm' : sat s (fst (PowMod_NBit g e m (FermatTest_result c) n st1)) = true)
    by now rewrite Epm.
  apply PowMod_NBit_sound in Hpm'; [|exact Hone|exact Hn].
  apply Input_Equals_Number_value in Hres; [|pose proof (one_lt_pow2 n Hn); lia].
  destruct Hpm' as [Hm Hp]. rewrite Hres in Hp. auto.
Qed.

Lemma FermatTest3_sound s g e m n st :
  sat s (fst (FermatTest3 g e m n st)) = true ->
  value s (One_NBit (n * 2)) (n * 2) = 1 ->
  (0 < n)%nat ->
  value s g n <> 0 /\ value s g n <> 1 /\ 0 < value s m n /\
  (value s g n ^ value s e n) mod value s m n <> 1.
Proof.
  unfold FermatTest3. intros H Hone Hn.
  unfold bind at 1 in H. destruct (tick_FermatTest3 st) as [c st1].
  unfold bind at 1 in H.
  match type of H with context [let (_, _) := ?m st1 in _] =>
    destruct (m st1) as [pm st2] eqn:Epm end.
  unfold ret in H. cbn [fst] in H. rewrite !sat_app_true in H.
  destruct H as (H0 & H1 & Hpm & Hres).
  rewrite sat_cons_true in H0, H1, Hres.
  destruct H0 as [H0 _]. destruct H1 as [H1 _]. destruct Hres as [Hres _].
  apply Input_Not_Equals_Number_sound in H0, H1, Hres.
  assert (Hpm' : sat s (fst (PowMod_NBit g e m (FermatTest3_result c) n st1)) = true)
    by now rewrite Epm.
  apply PowMod_NBit_sound in Hpm'; [|exact Hone|exact Hn].
  destruct Hpm' as [Hm Hp]. rewrite Hp in Hres. auto.
Qed.

Lemma FermatTest2_sound s g p n st :
  sat s (fst (FermatTest2 g p n st)) = true ->
  value s (One_NBit (n * 2)) (n * 2) = 1 ->
  value s (One_NBit n) n = 1 ->
  (0 < n)%nat ->
  value s g n <> 0 /\ value s g n <> 1 /\ 0 < value s p n /\
  (value s g n ^ (value s p n - 1)) mod value s p n = 1.
Proof.
  unfold FermatTest2. intros H Hone2 Hone Hn.
  unfold bind at 1 in H. destruct (tick_FermatTest2 st) as [c st1].
  unfold bind at 1 in H.
  match type of H with context [let (_, _) := ?m st1 in _] =>
    destruct (m st1) as [add st2] eqn:Eadd end.
  unfold bind at 1 in H.
  match type of H with context [let (_, _) := ?m st2 in _] =>
    destruct (m st2) as [fer st3] eqn:Efer end.
  unfold ret in H. cbn [fst] in H. rewrite !sat_app_true in H.
  destruct H as (Hadd & Hno & Hfer).
  apply unit_neg_sound in Hno.
  assert (Hadd' : sat s (fst (Add_NBit (FermatTest2_Prime_Minus1 c) (One_NBit n) p
                      (FermatTest2_Prime_Minus1_Overflow c) n st1)) = true)
    by now rewrite Eadd.
  assert (Hfer' : sat s (fst (FermatTest g (FermatTest2_Prime_Minus1 c) p n st2))
                  = true) by now rewrite Efer.
  apply Add_NBit_sound in Hadd'. rewrite Hno, Hone in Hadd'.
  cbn [Z.b2z] in Hadd'.
  apply FermatTest_sound in Hfer'; [|exact Hone2|exact Hn].
  replace (value s p n - 1) with (value s (FermatTest2_Prime_Minus1 c) n) by lia.
  exact Hfer'.
Qed.

(** * Number theory: the Lucas primality criterion *)

Lemma bounded_divisor_dec n : forall k : nat,
  (exists m, 1 < m < Z.of_nat k /\ (m | n)) \/
  (forall m, 1 < m < Z.of_nat k -> ~ (m | n)).
Proof.
  induction k as [|k IH].
  - right. intros m Hm. lia.
  - destruct IH as [(m & Hm & Hd)|Hno].
    + left. exists m. split; [lia|exact Hd].
    + destruct (Z.BoolSpec_divide (Z.of_nat k) n) as [Hd|Hnd].
      * destruct (Z_lt_dec 1 (Z.of_nat k)) as [Hk|Hk].
        -- left. exists (Z.of_nat k). split; [lia|exact Hd].
        -- right. intros m Hm. lia.
      * right. intros m Hm.
        destruct (Z.eq_dec m (Z.of_nat k)) as [->|Hne]; [exact Hnd|].
        apply Hno. lia.
Qed.

Lemma prime_or_divisor n :
  1 < n -> Z.prime n \/ exists m, 1 < m < n /\ (m | n).
Proof.
  intros Hn. destruct (bounded_divisor_dec n (Z.to_nat n)) as [(m & Hm & Hd)|Hno].
  - right. exists m. split; [lia|exact Hd].
  - left. split; [exact Hn|]. intros m Hm. apply Hno. lia.
Qed.

Lemma prime_factor_exists : forall n, 1 < n -> exists q, Z.prime q /\ (q | n).
Proof.
  intros n. pattern n. apply (well_founded_ind (Z.lt_wf 0)). clear n.
  intros n IH Hn.
  destruct (prime_or_divisor n Hn) as [Hp|(m & Hm & Hd)].
  - exists n. split; [exact Hp|apply Z.divide_refl].
  - destruct (IH m ltac:(lia) ltac:(lia)) as (q & Hq & Hqm).
    exists q. split; [exact Hq|]. eapply Z.divide_trans; eauto.
Qed.

Section Order.

Variables P g : Z.
Hypothesis HP : 1 < P.

Local Abbreviation is1 := (power_is_one P g).

Lemma pow_mod_add a b :
  0 <= a -> 0 <= b -> is1 a -> g ^ (a + b) mod P = g ^ b mod P.
Proof.
  intros Ha Hb H1. unfold power_is_one in H1.
  rewrite Z.pow_add_r, Z.mul_mod, H1, Z.mul_1_l, Z.mod_mod by lia. reflexivity.
Qed.

Lemma is1_mul a k : 0 <= a -> 0 <= k -> is1 a -> is1 (a * k).
Proof.
  intros Ha Hk H1. unfold power_is_one in *.
  rewrite Z.pow_mul_r, Zpower_mod, H1, Z.pow_1_l by lia.
  apply Z.mod_1_l. lia.
Qed.

Local Abbreviation least_one := (least_one P g).

Lemma least_one_exists m : 0 < m -> is1 m -> exists d, d <= m /\ least_one d.
Proof.
  intros Hm H1.
  assert (Hb : forall n : nat,
            (exists d, d <= Z.of_nat n /\ least_one d) \/
            (forall k, 0 < k <= Z.of_nat n -> ~ is1 k)).
  { induction n as [|n IH].
    - right. intros k Hk. lia.
    - destruct IH as [(d & Hd & Hl)|Hno].
      + left. exists d. split; [lia|exact Hl].
      + destruct (Z.eq_dec (g ^ Z.of_nat (S n) mod P) 1) as [He|Hne].
        * left. exists (Z.of_nat (S n)). split; [lia|].
          split; [lia|]. split; [exact He|]. intros k Hk. apply Hno. lia.
        * right. intros k Hk.
          destruct (Z.eq_dec k (Z.of_nat (S n))) as [->|]; [exact Hne|].
          apply Hno. lia. }
  destruct (Hb (Z.to_nat m)) as [(d & Hd & Hl)|Hno].
  - exists d. split; [lia|exact Hl].
  - exfalso. apply (Hno m); [lia|exact H1].
Qed.

Lemma least_one_divides d m : least_one d -> 0 <= m -> is1 m -> (d | m).
Proof.
  intros (Hd & H1 & Hmin) Hm Hm1.
  apply Z.mod_divide; [lia|].
  pose proof (Z.mod_pos_bound m d Hd) as Hr.
  destruct (Z.eq_dec (m mod d) 0) as [|Hne]; [assumption|].
  exfalso. apply (Hmin (m mod d)); [lia|].
  unfold power_is_one. rewrite <- (pow_mod_add (d * (m / d)) (m mod d)).
  - rewrite <- Z.div_mod by lia. exact Hm1.
  - apply Z.mul_nonneg_nonneg; [lia|]. apply Z.div_pos; lia.
  - lia.
  - apply is1_mul; [lia| |exact H1]. apply Z.div_pos; lia.
Qed.

Lemma least_one_inj d i j :
  least_one d -> 0 <= i -> i < j -> j < d ->
  g ^ i mod P <> g ^ j mod P.
Proof.
  intros (Hd & H1 & Hmin) Hi Hij Hj Heq.
  apply (Hmin (j - i)); [lia|]. unfold power_is_one.
  rewrite <- (pow_mod_add d (j - i)) by (lia || exact H1).
  replace (d + (j - i)) with ((d - i) + j) by lia.
  rewrite Z.pow_add_r, Z.mul_mod, <- Heq, <- Z.mul_mod, <- Z.pow_add_r by lia.
  replace (d - i + i) with d by lia. exact H1.
Qed.

Lemma least_one_nonzero d k :
  least_one d -> 0 <= k < d -> g ^ k mod P <> 0.
Proof.
  intros (Hd & H1 & Hmin) Hk Hz. unfold power_is_one in H1.
  replace d with (k + (d - k)) in H1 by lia.
  rewrite Z.pow_add_r, Z.mul_mod, Hz, Z.mul_0_l, Z.mod_0_l in H1 by lia.
  discriminate.
Qed.

End Order.

Lemma NoDup_map_on {A B} (f : A -> B) (l : list A) :
  NoDup l -> (forall x y, In x l -> In y l -> f x = f y -> x = y) ->
  NoDup (map f l).
Proof.
  induction 1 as [|x l Hx Hl IH]; intros Hinj; cbn [map]; constructor.
  - intros Hin. apply in_map_iff in Hin. destruct Hin as (y & Hy & Hyl).
    assert (y = x) by (apply Hinj; [now right|now left|exact Hy]).
    subst y. contradiction.
  - apply IH. intros a b Ha Hb. apply Hinj; now right.
Qed.

(** If [g] has order [P - 1] modulo [P], then [P] is prime. *)
Theorem lucas_criterion (P g : Z) :
  1 < P ->
  g ^ (P - 1) mod P = 1 ->
  (forall q, Z.prime q -> (q | P - 1) -> g ^ ((P - 1) / q) mod P <> 1) ->
  Z.prime P.
Proof.
  intros HP Hfull Hpart.
  destruct (least_one_exists P g (P - 1) ltac:(lia) Hfull) as (d & Hdle & Hd).
  pose proof (least_one_divides P g HP d (P - 1) Hd ltac:(lia) Hfull) as Hdiv.
  assert (Hdeq : d = P - 1).
  { destruct (Z.eq_dec d (P - 1)) as [|Hne]; [assumption|exfalso].
    destruct Hdiv as [k Hk]. destruct Hd as (Hd0 & Hd1 & Hmin).
    assert (1 < k) by nia.
    destruct (prime_factor_exists k ltac:(lia)) as (q & Hq & [k' Hk']).
    pose proof (Z.prime_ge_2 q Hq) as Hq2.
    apply (Hpart q Hq).
    - exists (k' * d). subst k. lia.
    - replace ((P - 1) / q) with (d * k').
      + apply is1_mul; [lia|lia|nia|exact Hd1].
      + apply Z.div_unique_exact; [lia|]. subst k. rewrite Hk. ring. }
  subst d. split; [exact HP|]. intros x Hx Hxd.
  set (N := Z.to_nat (P - 1)).
  set (L := map (fun k => g ^ Z.of_nat k mod P) (seq 0 N)).
  set (L' := map Z.of_nat (seq 1 N)).
  assert (HL : NoDup L).
  { apply NoDup_map_on; [apply seq_NoDup|].
    intros i j Hi Hj Heq. apply in_seq in Hi, Hj.
    destruct (Nat.lt_trichotomy i j) as [Hlt|[->|Hgt]]; [exfalso| reflexivity |exfalso].
    - apply (least_one_inj P g HP (P - 1) (Z.of_nat i) (Z.of_nat j) Hd); lia || exact Heq.
    - apply (least_one_inj P g HP (P - 1) (Z.of_nat j) (Z.of_nat i) Hd);
        lia || (symmetry; exact Heq). }
  assert (Hincl : incl L L').
  { intros y Hy. apply in_map_iff in Hy. destruct Hy as (k & <- & Hk).
    apply in_seq in Hk.
    pose proof (Z.mod_pos_bound (g ^ Z.of_nat k) P ltac:(lia)) as Hb.
    pose proof (least_one_nonzero P g HP (P - 1) (Z.of_nat k) Hd ltac:(lia)) as Hnz.
    apply in_map_iff. exists (Z.to_nat (g ^ Z.of_nat k mod P)).
    split; [lia|]. apply in_seq. lia. }
  assert (Hback : incl L' L).
  { apply NoDup_length_incl; [exact HL| |exact Hincl].
    unfold L, L'. rewrite !length_map, !length_seq. lia. }
  assert (Hin : In x L).
  { apply Hback. apply in_map_iff. exists (Z.to_nat x). split; [lia|].
    apply in_seq. lia. }
  apply in_map_iff in Hin. destruct Hin as (k & Hk & Hkin).
  apply in_seq in Hkin.
  (* x is a unit modulo P, yet divides P *)
  destruct Hd as (_ & Hd1 & _). unfold power_is_one in Hd1.
  replace (P - 1) with (Z.of_nat k + (P - 1 - Z.of_nat k)) in Hd1 by lia.
  rewrite Z.pow_add_r, Z.mul_mod, Hk in Hd1 by lia.
  destruct Hxd as [c Hc].
  assert (Hdx : (x | (x * (g ^ (P - 1 - Z.of_nat k) mod P)) mod P)).
  { rewrite Z.mod_eq by lia. apply Z.divide_sub_r.
    - apply Z.divide_factor_l.
    - apply Z.divide_mul_l. exists c. exact Hc. }
  rewrite Hd1 in Hdx. apply Z.divide_1_r in Hdx. lia.
Qed.

(** * The primality certificate *)

Lemma prime_divides_zprod q f : Z.prime q ->
  forall k, (q | zprod f k) -> exists j, (j < k)%nat /\ (q | f j).
Proof.
  intros Hq. induction k as [|k IH]; cbn [zprod]; intros Hd.
  - apply Z.divide_1_r in Hd. pose proof (Z.prime_ge_2 q Hq). lia.
  - apply Z.divide_prime_mul in Hd; [|exact Hq]. destruct Hd as [Hd|Hd].
    + destruct (IH Hd) as (j & Hj & Hjd). exists j. split; [lia|exact Hjd].
    + exists k. split; [lia|exact Hd].
Qed.

Lemma divides_zprod f k j : (j < k)%nat -> (f j | zprod f k).
Proof.
  induction k as [|k IH]; intros Hj; [lia|]. cbn [zprod].
  destruct (Nat.eq_dec j k) as [->|].
  - apply Z.divide_factor_r.
  - apply Z.divide_mul_l. apply IH. lia.
Qed.

Lemma zprod_pos f k : (forall j, (j < k)%nat -> 0 < f j) -> 0 < zprod f k.
Proof.
  induction k as [|k IH]; intros H; cbn [zprod]; [lia|].
  apply Z.mul_pos_pos; [apply IH; intros; apply H; lia|apply H; lia].
Qed.

(** The arithmetic content of a flattened Pratt certificate: every slot
    is 2, 3, or one more than a product of powers of slots, with a
    generator of full order. *)
Lemma pratt_core (np : nat) (P : nat -> Z) (E : nat -> nat -> Z) (G : nat -> Z) :
  (forall i, (i < np)%nat -> 2 <= P i) ->
  (forall i j, 0 <= E i j) ->
  (forall i, (i < np)%nat ->
     P i = 2 \/ P i = 3 \/
     (P i = zprod (fun j => P j ^ E i j) np + 1 /\
      G i ^ (P i - 1) mod P i = 1 /\
      forall j, (j < np)%nat -> E i j <> 0 ->
                G i ^ ((P i - 1) / P j) mod P i <> 1)) ->
  forall i, (i < np)%nat -> Z.prime (P i).
Proof.
  intros Hge HE Hcert.
  assert (Hwf : forall v i, (i < np)%nat -> P i = v -> Z.prime v).
  { intros v. pattern v. apply (well_founded_ind (Z.lt_wf 0)). clear v.
    intros v IH i Hi Hv.
    destruct (Hcert i Hi) as [H2|[H3|(Hprod & Hfull & Hpart)]].
    - rewrite <- Hv, H2. apply Z.prime_2.
    - rewrite <- Hv, H3. apply Z.prime_3.
    - rewrite <- Hv. apply (lucas_criterion (P i) (G i)).
      + specialize (Hge i Hi). lia.
      + exact Hfull.
      + intros q Hq Hqd.
        replace (P i - 1) with (zprod (fun j => P j ^ E i j) np) in Hqd by lia.
        apply prime_divides_zprod in Hqd; [|exact Hq].
        destruct Hqd as (j & Hj & Hqj).
        assert (Hne : E i j <> 0).
        { intros Hz. rewrite Hz, Z.pow_0_r in Hqj. apply Z.divide_1_r in Hqj.
          pose proof (Z.prime_ge_2 q Hq). lia. }
        assert (Hpj : Z.prime (P j)).
        { apply (IH (P j)) with (i := j); [|exact Hj|reflexivity].
          assert (Hdj : (P j | P i - 1)).
          { rewrite Hprod. replace (zprod (fun j => P j ^ E i j) np + 1 - 1)
              with (zprod (fun j => P j ^ E i j) np) by lia.
            eapply Z.divide_trans;
              [|apply (divides_zprod (fun j => P j ^ E i j) np j Hj)].
            apply Z.divide_pow_same_r. specialize (HE i j). lia. }
          apply Z.divide_pos_le in Hdj; [|specialize (Hge i Hi); lia].
          specialize (Hge j Hj). lia. }
        apply Z.divide_prime_pp in Hqj; [|exact Hq|exact Hpj|apply HE].
        subst q. apply Hpart; assumption. }
  intros i Hi. apply (Hwf (P i) i Hi eq_refl).
Qed.

Lemma IsPrime_base_or_factored_sound s n c i st :
  sat s (fst (IsPrime_base_or_factored n c i st)) = true ->
  (2 <= n)%nat ->
  value s (IsPrime_Prime c i) n = 2 \/ value s (IsPrime_Prime c i) n = 3 \/
  (value s (One_NBit n) n < value s (IsPrime_SumPow c i) n /\
   value s (IsPrime_Product_Plus1 c i) n = value s (IsPrime_Prime c i) n).
Proof.
  unfold IsPrime_base_or_factored. intros H Hn.
  assert (H4 : 4 <= 2 ^ Z.of_nat n).
  { destruct n as [|[|n]]; try lia. rewrite !pow2_S. pose proof (pow2_pos n). lia. }
  unfold bind at 1 in H.
  match type of H with context [let (_, _) := ?m st in _] =>
    destruct (m st) as [lt st1] eqn:Elt end.
  unfold bind at 1 in H.
  match type of H with context [let (_, _) := ?m st1 in _] =>
    destruct (m st1) as [inner st2] eqn:Einner end.
  apply Or_Condition_sound in H. destruct H as [H|H].
  - assert (H' : sat s (fst (Or_Condition
                (Input_Equals_Number (IsPrime_Prime c i) 2 n)
                (Input_Equals_Number (IsPrime_Prime c i) 3 n) st1)) = true)
      by now rewrite Einner.
    apply Or_Condition_sound in H'. destruct H' as [H'|H'];
      apply Input_Equals_Number_value in H'; auto; lia.
  - right. right. unfold And_Condition in H. rewrite sat_app_true in H.
    destruct H as [Hlt Heq]. split.
    + apply (LessThan_NBit_sound s _ _ n st). now rewrite Elt.
    + now apply Equals_NBit_sound.
Qed.

Lemma IsPrime_factor_test_sound s o n c i j st :
  sat s (fst (IsPrime_factor_test o n c i j st)) = true ->
  value s (One_NBit (n * 2)) (n * 2) = 1 ->
  (2 <= n)%nat ->
  (value s (IsPrime_Generator c i) n
     ^ value s (IsPrime_Div c i j) n mod value s (IsPrime_Prime c i) n <> 1) \/
  value s (IsPrime_Pow c i j) n = 0 \/
  value s (IsPrime_Prime c i) n = 2 \/ value s (IsPrime_Prime c i) n = 3.
Proof.
  unfold IsPrime_factor_test. intros H Hone Hn.
  assert (H4 : 4 <= 2 ^ Z.of_nat n).
  { destruct n as [|[|n]]; try lia. rewrite !pow2_S. pose proof (pow2_pos n). lia. }
  unfold bind at 1 in H.
  match type of H with context [let (_, _) := ?m st in _] =>
    destruct (m st) as [fer st1] eqn:Efer end.
  unfold bind at 1 in H.
  match type of H with context [let (_, _) := ?m st1 in _] =>
    destruct (m st1) as [[in1 in2] st2] eqn:Eargs end.
  cbn [fst snd] in H.
  apply Or_Condition_sound in H.
  assert (Hin : (exists st', in1 = fst (Or_Condition fer
                   (Input_Equals_Number (IsPrime_Pow c i j) 0 n) st')) /\
                (exists st', in2 = fst (Or_Condition
                   (Input_Equals_Number (IsPrime_Prime c i) 2 n)
                   (Input_Equals_Number (IsPrime_Prime c i) 3 n) st'))).
  { unfold eval_args in Eargs. destruct o.
    - unfold bind at 1 in Eargs.
      match type of Eargs with context [let (_, _) := ?m st1 in _] =>
        destruct (m st1) as [x1 sx] eqn:E1 end.
      unfold bind at 1 in Eargs.
      match type of Eargs with context [let (_, _) := ?m sx in _] =>
        destruct (m sx) as [x2 sy] eqn:E2 end.
      unfold ret in Eargs. injection Eargs as <- <- _.
      split; [exists st1; now rewrite E1|exists sx; now rewrite E2].
    - unfold bind at 1 in Eargs.
      match type of Eargs with context [let (_, _) := ?m st1 in _] =>
        destruct (m st1) as [x2 sx] eqn:E2 end.
      unfold bind at 1 in Eargs.
      match type of Eargs with context [let (_, _) := ?m sx in _] =>
        destruct (m sx) as [x1 sy] eqn:E1 end.
      unfold ret in Eargs. injection Eargs as <- <- _.
      split; [exists sx; now rewrite E1|exists st1; now rewrite E2]. }
  destruct Hin as [[sa ->] [sb ->]].
  destruct H as [H|H]; apply Or_Condition_sound in H; destruct H as [H|H].
  - left.
    assert (H' : sat s (fst (FermatTest3 (IsPrime_Generator c i) (IsPrime_Div c i j)
                    (IsPrime_Prime c i) n st)) = true) by now rewrite Efer.
    apply FermatTest3_sound in H'; [|exact Hone|lia]. apply H'.
  - right. left. apply Input_Equals_Number_value in H; [exact H|lia].
  - right. right. left. apply Input_Equals_Number_value in H; [exact H|lia].
  - right. right. right. apply Input_Equals_Number_value in H; [exact H|lia].
Qed.

Lemma IsPrime_full_test_sound s n c i st :
  sat s (fst (IsPrime_full_test n c i st)) = true ->
  value s (One_NBit (n * 2)) (n * 2) = 1 ->
  value s (One_NBit n) n = 1 ->
  (2 <= n)%nat ->
  (value s (IsPrime_Generator c i) n
     ^ (value s (IsPrime_Prime c i) n - 1) mod value s (IsPrime_Prime c i) n = 1) \/
  value s (IsPrime_Prime c i) n = 2 \/ value s (IsPrime_Prime c i) n = 3.
Proof.
  unfold IsPrime_full_test. intros H Hone2 Hone Hn.
  assert (H4 : 4 <= 2 ^ Z.of_nat n).
  { destruct n as [|[|n]]; try lia. rewrite !pow2_S. pose proof (pow2_pos n). lia. }
  unfold bind at 1 in H.
  match type of H with context [let (_, _) := ?m st in _] =>
    destruct (m st) as [fer st1] eqn:Efer end.
  unfold bind at 1 in H.
  match type of H with context [let (_, _) := ?m st1 in _] =>
    destruct (m st1) as [inner st2] eqn:Einner end.
  apply Or_Condition_sound in H. destruct H as [H|H].
  - left.
    assert (H' : sat s (fst (FermatTest2 (IsPrime_Generator c i)
                    (IsPrime_Prime c i) n st)) = true) by now rewrite Efer.
    apply FermatTest2_sound in H'; [|exact Hone2|exact Hone|lia]. apply H'.
  - right.
    assert (H' : sat s (fst (Or_Condition
                (Input_Equals_Number (IsPrime_Prime c i) 2 n)
                (Input_Equals_Number (IsPrime_Prime c i) 3 n) st1)) = true)
      by now rewrite Einner.
    apply Or_Condition_sound in H'. destruct H' as [H'|H'];
      apply Input_Equals_Number_value in H'; auto; lia.
Qed.

Ltac step_bind H x E :=
  unfold bind at 1 in H;
  match type of H with
  | context [let (_, _) := ?m ?st in _] =>
      let st' := fresh "st" in destruct (m st) as [x st'] eqn:E
  end.

Lemma sat_map_clauses s (f : nat -> clause) k :
  sat s (map f (seq 0 k)) = true ->
  forall i, (i < k)%nat -> sat_clause s (f i) = true.
Proof.
  rewrite sat_forall. intros H i Hi. apply H. apply in_map. apply in_seq. lia.
Qed.

Lemma sat_for_for s n m body st cs st' :
  for_ n (fun i => for_ m (body i)) st = (cs, st') -> sat s cs = true ->
  forall i j, (i < n)%nat -> (j < m)%nat ->
  exists st'', sat s (fst (body i j st'')) = true.
Proof.
  intros E H i j Hi Hj.
  destruct (sat_for_eq _ _ _ _ _ _ E H i Hi) as [st1 H1].
  exact (sat_for s m (body i) st1 H1 j Hj).
Qed.

Lemma zprod_ext f g k :
  (forall j, (j < k)%nat -> f j = g j) -> zprod f k = zprod g k.
Proof.
  induction k as [|k IH]; intros H; cbn [zprod]; [reflexivity|].
  rewrite IH, H by (intros; try apply H; lia). reflexivity.
Qed.

Lemma IsPrime_sound s o target n st :
  sat s (fst (IsPrime o target n (Z.of_nat n) st)) = true ->
  (2 <= n)%nat ->
  value s (One_NBit n) n = 1 ->
  value s (One_NBit (n * 2)) (n * 2) = 1 ->
  s Zero_1Bit = false ->
  Z.prime (value s target n).
Proof.
  unfold IsPrime. intros H Hn Hone Hone2 Hzero.
  replace (if Z.of_nat n =? -1 then n else Z.to_nat (Z.of_nat n)) with n in H
    by (destruct (Z.eqb_spec (Z.of_nat n) (-1)); [lia|now rewrite Nat2Z.id]).
  unfold bind at 1 in H. destruct (tick_IsPrime st) as [c st0].
  step_bind H pows Epows.
  step_bind H products Eproducts.
  step_bind H plus1 Eplus1.
  step_bind H sums Esums.
  step_bind H bof Ebof.
  step_bind H minus1 Eminus1.
  step_bind H divmods Edivmods.
  step_bind H ftests Eftests.
  step_bind H fulls Efulls.
  unfold ret in H. cbn [fst] in H. rewrite !sat_app_true in H.
  destruct H as (Hnz & Hno & Hpows & Hpno & Hprod & Hprno & Hpl & Hplno & Hsum
                 & Hsumno & Hbof & Hm1 & Hm1no & Hdm & Hft & Hfull & Htarget).
  pose proof (sat_map_clauses _ _ _ Hnz) as Hnz'.
  pose proof (sat_map_clauses _ _ _ Hno) as Hno'.
  pose proof (sat_for_for _ _ _ _ _ _ _ Epows Hpows) as Hpows'.
  pose proof (sat_for_eq _ _ _ _ _ _ Eproducts Hprod) as Hprod'.
  pose proof (sat_for_eq _ _ _ _ _ _ Eplus1 Hpl) as Hpl'.
  pose proof (sat_for_eq _ _ _ _ _ _ Ebof Hbof) as Hbof'.
  pose proof (sat_for_eq _ _ _ _ _ _ Eminus1 Hm1) as Hm1'.
  pose proof (sat_for_for _ _ _ _ _ _ _ Edivmods Hdm) as Hdm'.
  pose proof (sat_for_for _ _ _ _ _ _ _ Eftests Hft) as Hft'.
  pose proof (sat_for_eq _ _ _ _ _ _ Efulls Hfull) as Hfull'.
  cbv beta in *.
  clear Epows Eproducts Eplus1 Esums Ebof Eminus1 Edivmods Eftests Efulls
        Hpows Hprod Hpl Hsum Hbof Hm1 Hdm Hft Hfull Hnz Hno Hsumno.
  rewrite sat_for_pure in Hpno, Hprno, Hplno, Hm1no.
  apply Equals_NBit_sound in Htarget. rewrite Htarget.
  set (P := fun i => value s (IsPrime_Prime c i) n).
  set (E := fun i j => value s (IsPrime_Pow c i j) n).
  set (G := fun i => value s (IsPrime_Generator c i) n).
  change (Z.prime (P 0%nat)).
  apply (pratt_core n P E G); [| |intros i Hi|lia].
  - intros i Hi. specialize (Hnz' i Hi). specialize (Hno' i Hi).
    apply Input_Not_Equals_Number_sound in Hnz', Hno'.
    pose proof (value_range s (IsPrime_Prime c i) n). unfold P. lia.
  - intros i j. apply value_range.
  - destruct (Z.eq_dec (P i) 2) as [H2|H2]; [now left|].
    destruct (Z.eq_dec (P i) 3) as [H3|H3]; [now right; left|].
    right. right. unfold P in H2, H3.
    destruct (Hbof' i Hi) as [stb Hb].
    apply IsPrime_base_or_factored_sound in Hb; [|exact Hn].
    destruct Hb as [Hb|[Hb|[_ Hb]]]; [contradiction|contradiction|].
    destruct (Hfull' i Hi) as [stf Hf].
    apply IsPrime_full_test_sound in Hf; [|exact Hone2|exact Hone|exact Hn].
    destruct Hf as [Hf|[Hf|Hf]]; [|contradiction|contradiction].
    split; [|split; [exact Hf|]].
    + (* the product *)
      destruct (Hpl' i Hi) as [stp Hp]. apply Add_NBit_sound in Hp.
      specialize (Hplno i Hi). apply unit_neg_sound in Hplno.
      rewrite Hplno, Hone in Hp. cbn [Z.b2z] in Hp.
      destruct (Hprod' i Hi) as [stq Hq].
      apply Product_NBit_sound in Hq;
        [|lia|apply unit_neg_sound; apply Hprno; exact Hi].
      unfold P at 1. rewrite <- Hb.
      replace (zprod (fun j => P j ^ E i j) n)
        with (value s (IsPrime_Product c i) n); [lia|].
      rewrite Hq. apply zprod_ext. intros j Hj.
      destruct (Hpows' i j Hi Hj) as [stw Hw].
      apply Pow_NBit_sound in Hw; [exact Hw|exact Hone|exact Hzero|].
      apply unit_neg_sound.
      specialize (Hpno i Hi). rewrite sat_for_pure in Hpno. apply Hpno. exact Hj.
    + (* the factor tests *)
      intros j Hj Hne.
      destruct (Hft' i j Hi Hj) as [stt Ht].
      apply IsPrime_factor_test_sound in Ht; [|exact Hone2|exact Hn].
      destruct Ht as [Ht|[Ht|[Ht|Ht]]]; try contradiction.
      destruct (Hm1' i Hi) as [stm Hm]. apply Add_NBit_sound in Hm.
      specialize (Hm1no i Hi). apply unit_neg_sound in Hm1no.
      rewrite Hm1no, Hone in Hm. cbn [Z.b2z] in Hm.
      destruct (Hdm' i j Hi Hj) as [std Hd].
      apply DivMod_NBit_div_mod in Hd. destruct Hd as [Hd _].
      replace (value s (IsPrime_Prime_Minus1 c i) n) with (P i - 1) in Hd
        by (unfold P; lia).
      rewrite Hd in Ht. exact Ht.
Qed.

(** IsPrime soundness at the widths from 2 to 16, where every pin of
    the list shifts its [int] by less than 32: if the clause list handed
    to the finaliser for the number [p] (the expansion of
    [IsPrime("target", n, n)], the target pinned to [p], and the constants
    [One_NBit_<n> = 1], [One_NBit_<2n> = 1], [Zero_1Bit_<1> = false]) is
    satisfiable, then [p] is prime. *)
Theorem IsPrime_soundness (o : arg_order) (n : nat) (p : Z) (st : counters) :
  (2 <= n <= 16)%nat ->
  0 <= p < 2 ^ Z.of_nat n ->
  satisfiable (fst (is_prime_conditions o p n st)) ->
  Z.prime p.
Proof.
  intros [Hn Hn16] Hp [s Hs]. unfold is_prime_conditions in Hs.
  step_bind Hs cs E. unfold ret in Hs. cbn [fst] in Hs.
  rewrite !sat_app_true in Hs. destruct Hs as (Hcs & Ht & H1 & H2 & Hz).
  assert (H4 : 4 <= 2 ^ Z.of_nat n).
  { destruct n as [|[|n]]; try lia. rewrite !pow2_S. pose proof (pow2_pos n). lia. }
  apply Input_Equals_Number_value in Ht; [|exact Hp].
  apply Input_Equals_Number_value in H1; [|lia].
  apply Input_Equals_Number_value in H2;
    [|pose proof (one_lt_pow2 (n * 2) ltac:(lia)); lia].
  apply unit_neg_sound in Hz.
  rewrite <- Ht. apply (IsPrime_sound s o "target" n st); try assumption.
  now rewrite E.
Qed.

(** Modular exponentiation at a width of at most 16 bits, where the pin
    of the first partial result shifts its [int] by less than 32: with
    the bits of [b], [e], [m] pinned ([m >= 2]) and the constants
    [One_NBit_<2n> = 1], [Zero_1Bit_<1> = false] asserted, every
    satisfying assignment of [PowMod_NBit(b, e, m, r, n)] has
    [r = b^e mod m]. *)
Theorem PowMod_NBit_correct (n : nat) (b e m : Z)
    (base exp mod_ result : string) (st : counters) (s : assignment) :
  (n <= 16)%nat ->
  0 <= b < 2 ^ Z.of_nat n ->
  0 <= e < 2 ^ Z.of_nat n ->
  2 <= m < 2 ^ Z.of_nat n ->
  sat s (fst (PowMod_NBit base exp mod_ result n st)) = true ->
  sat s (Input_Equals_Number base b n) = true ->
  sat s (Input_Equals_Number exp e n) = true ->
  sat s (Input_Equals_Number mod_ m n) = true ->
  sat s (Input_Equals_Number (One_NBit (n * 2)) 1 (n * 2)) = true ->
  sat s [[Neg Zero_1Bit]] = true ->
  value s result n = b ^ e mod m.
Proof.
  intros _ Hb He Hm Hpm Hpb Hpe Hpm' Hone _.
  assert (Hn : (0 < n)%nat).
  { destruct n; [cbn in Hm; lia|lia]. }
  apply Input_Equals_Number_value in Hpb; [|exact Hb].
  apply Input_Equals_Number_value in Hpe; [|exact He].
  apply Input_Equals_Number_value in Hpm'; [|lia].
  apply Input_Equals_Number_value in Hone;
    [|pose proof (one_lt_pow2 (n * 2) ltac:(lia)); lia].
  apply PowMod_NBit_sound in Hpm; [|exact Hone|exact Hn].
  destruct Hpm as [_ Hr]. now rewrite Hr, Hpb, Hpe, Hpm'.
Qed.

(** * Tseitin disjunction *)

Lemma sat_lit_upd_other s v b l :
  lit_var l <> v -> sat_lit (upd s v b) l = sat_lit s l.
Proof.
  intros Hne. unfold upd. destruct l as [x|x]; cbn [sat_lit lit_var] in *;
    destruct (String.eqb_spec x v); congruence.
Qed.

Lemma sat_upd_fresh s v b f :
  ~ In v (cnf_vars f) -> sat (upd s v b) f = sat s f.
Proof.
  unfold cnf_vars. induction f as [|c f IH]; intros Hnin; [reflexivity|].
  cbn [flat_map] in Hnin. rewrite in_app_iff in Hnin.
  cbn [sat forallb]. fold (sat (upd s v b) f) (sat s f).
  rewrite IH by tauto. f_equal.
  assert (Hc : ~ In v (clause_vars c)) by tauto. clear Hnin IH.
  unfold sat_clause, clause_vars in *.
  induction c as [|l c IHc]; [reflexivity|].
  cbn [existsb map In] in *. rewrite IHc by tauto.
  rewrite sat_lit_upd_other; [reflexivity|]. tauto.
Qed.

Lemma upd_same s v b : upd s v b v = b.
Proof. unfold upd. now rewrite String.eqb_refl. Qed.

Lemma Or_Condition_complete_l s f g st :
  ~ In (Or_Condition_literal (S (cnt_Or_Condition st))) (cnf_vars f) ->
  sat s f = true ->
  sat (upd s (Or_Condition_literal (S (cnt_Or_Condition st))) false)
      (fst (Or_Condition f g st)) = true.
Proof.
  intros Hf Hs. unfold Or_Condition, bind, ret. cbn [tick_Or_Condition fst].
  rewrite sat_app_true, !AddLiteralToCondition_sat. cbn [sat_lit].
  rewrite upd_same. cbn [negb orb].
  rewrite sat_upd_fresh by exact Hf. auto.
Qed.

Lemma Or_Condition_complete_r s f g st :
  ~ In (Or_Condition_literal (S (cnt_Or_Condition st))) (cnf_vars g) ->
  sat s g = true ->
  sat (upd s (Or_Condition_literal (S (cnt_Or_Condition st))) true)
      (fst (Or_Condition f g st)) = true.
Proof.
  intros Hg Hs. unfold Or_Condition, bind, ret. cbn [tick_Or_Condition fst].
  rewrite sat_app_true, !AddLiteralToCondition_sat. cbn [sat_lit].
  rewrite upd_same. cbn [negb orb].
  rewrite sat_upd_fresh by exact Hg. auto.
Qed.

(** C6. Or_Condition is a Tseitin disjunction: when neither clause list
    mentions the freshly allocated selector, the expansion is satisfiable
    iff one of the two lists is. *)
Theorem Or_Condition_equisatisfiable (C1 C2 : cnf) (st : counters) :
  ~ In (Or_Condition_literal (S (cnt_Or_Condition st))) (cnf_vars C1) ->
  ~ In (Or_Condition_literal (S (cnt_Or_Condition st))) (cnf_vars C2) ->
  (satisfiable (fst (Or_Condition C1 C2 st)) <-> satisfiable C1 \/ satisfiable C2).
Proof.
  intros H1 H2. split.
  - intros [s Hs]. apply Or_Condition_sound in Hs.
    destruct Hs as [Hs|Hs]; [left|right]; exists s; exact Hs.
  - intros [[s Hs]|[s Hs]].
    + eexists. apply Or_Condition_complete_l; eassumption.
    + eexists. apply Or_Condition_complete_r; eassumption.
Qed.

(** * Concrete instances *)

Lemma Add_NBit_correct_witness :
  value add_5_3_model "result" 4 = (5 + 3) mod 2 ^ Z.of_nat 4 /\
  Z.b2z (add_5_3_model "overflow") = (5 + 3) / 2 ^ Z.of_nat 4.
Proof.
  apply (Add_NBit_correct 4 5 3 "input1" "input2" "result" "overflow"
           counters0 add_5_3_model).
  - vm_compute. split; [discriminate|reflexivity].
  - vm_compute. split; [discriminate|reflexivity].
  - vm_compute. reflexivity.
  - vm_compute. reflexivity.
  - vm_compute. reflexivity.
Defined.

Lemma PowMod_NBit_correct_witness :
  value powmod_2_3_3_model "result" 2 = 2 ^ 3 mod 3.
Proof.
  apply (PowMod_NBit_correct 2 2 3 3 "base" "exp" "mod" "result" counters0
           powmod_2_3_3_model).
  - lia.
  - cbn. lia.
  - cbn. lia.
  - cbn. lia.
  - vm_compute. reflexivity.
  - vm_compute. reflexivity.
  - vm_compute. reflexivity.
  - vm_compute. reflexivity.
  - vm_compute. reflexivity.
  - vm_compute. reflexivity.
Defined.

Lemma IsPrime_soundness_witness : Z.prime 3.
Proof.
  apply (IsPrime_soundness LeftToRight 2 3 counters0).
  - lia.
  - cbn. lia.
  - exists is_prime_3_model. vm_compute. reflexivity.
Defined.

Lemma Or_Condition_equisatisfiable_witness :
  satisfiable (fst (Or_Condition [[Pos "a"]; [Neg "b"]] [[Pos "b"]] counters0))
  <-> satisfiable [[Pos "a"]; [Neg "b"]] \/ satisfiable [[Pos "b"]].
Proof.
  apply (Or_Condition_equisatisfiable [[Pos "a"]; [Neg "b"]] [[Pos "b"]] counters0).
  - cbn. intros [H|[H|[]]]; discriminate.
  - cbn. intros [H|[]]; discriminate.
Defined.


(** * Width consistency *)

Lemma cnf_vars_app f g : cnf_vars (f ++ g) = cnf_vars f ++ cnf_vars g.
Proof. unfold cnf_vars. apply flat_map_app. Qed.

Lemma in_cnf_vars_for_pure x n body i :
  (i < n)%nat -> In x (cnf_vars (body i)) -> In x (cnf_vars (for_pure n body)).
Proof.
  intros Hi Hx. unfold cnf_vars, for_pure in *.
  apply in_flat_map in Hx. destruct Hx as (c & Hc & Hxc).
  apply in_flat_map. exists c. split; [|exact Hxc].
  apply in_flat_map. exists i. split; [apply in_seq; lia|exact Hc].
Qed.

(** C9 (fails on the code). [Pow_NBit] at width [n >= 1] mentions bit
    [n] of its exponent operand: the last iteration of the overflow-temp
    loop selects on [in_b_(i+1)] with [i = n - 1]. *)
Theorem Pow_NBit_reads_exponent_bit_n (in_a in_b result over_flow : string)
    (n : nat) (st : counters) :
  (0 < n)%nat ->
  In (in_b # n) (cnf_vars (fst (Pow_NBit in_a in_b result over_flow n st))).
Proof.
  intros Hn. unfold Pow_NBit.
  unfold bind at 1. destruct (tick_Pow_NBit st) as [c st1].
  unfold bind at 1.
  match goal with |- context [let (_, _) := ?m st1 in _] =>
    destruct (m st1) as [squares st2] end.
  unfold bind at 1.
  match goal with |- context [let (_, _) := ?m st2 in _] =>
    destruct (m st2) as [accums st3] end.
  unfold ret. cbn [fst]. rewrite !cnf_vars_app, !in_app_iff.
  do 8 right. left.
  apply in_cnf_vars_for_pure with (i := (n - 1)%nat); [lia|].
  replace (n - 1 + 1)%nat with n by lia.
  unfold If_Cond_A_Else_B_1Bit, cnf_vars. cbn [flat_map clause_vars map lit_var app In].
  left. reflexivity.
Qed.

Lemma Pow_NBit_reads_exponent_bit_n_witness :
  In "b_0000000002"%string
     (cnf_vars (fst (Pow_NBit "a" "b" "r" "ov" 2 counters0))).
Proof.
  apply (Pow_NBit_reads_exponent_bit_n "a" "b" "r" "ov" 2 counters0). lia.
Defined.

(** * The finaliser: control flow *)

Lemma same_but_cerr_refl w : same_but_cerr w w.
Proof. now repeat split. Qed.

Lemma same_but_cerr_trans w1 w2 w3 :
  same_but_cerr w1 w2 -> same_but_cerr w2 w3 -> same_but_cerr w1 w3.
Proof. unfold same_but_cerr. intros (?&?&?) (?&?&?). repeat split; congruence. Qed.

Lemma cerr_spec line w :
  exists w', cerr line w = Returned tt w' /\ same_but_cerr w w' /\
             w_cerr w' = w_cerr w ++ [line].
Proof. eexists. split; [reflexivity|]. now repeat split. Qed.

Lemma progress_ok size i w :
  (size / 20 <> 0)%N ->
  exists w', progress size i w = Returned tt w' /\ same_but_cerr w w'.
Proof.
  intros Hd. unfold progress.
  destruct (N.eqb_spec (size / 20) 0) as [|_]; [contradiction|].
  destruct (i mod (size / 20) =? 0)%N.
  - destruct (cerr_spec (dec (5 * i / (size / 20)) ++ "%...")%string w)
      as (w' & E & Hs & _). eauto.
  - exists w. split; [reflexivity|apply same_but_cerr_refl].
Qed.

Lemma progress_trap size i w :
  (size / 20 = 0)%N -> progress size i w = Trapped w.
Proof. intros Hd. unfold progress. now rewrite Hd. Qed.

Lemma gather_literals_ok size : forall clauses i acc w,
  clauses = [] \/ (size / 20 <> 0)%N ->
  exists w', gather_literals size i clauses acc w
             = Returned (set_insert_all (flat_map find_literals clauses) acc) w'
             /\ same_but_cerr w w'.
Proof.
  induction clauses as [|c rest IH]; intros i acc w Hok.
  - exists w. split; [reflexivity|apply same_but_cerr_refl].
  - destruct Hok as [|Hd]; [discriminate|].
    cbn [gather_literals]. unfold io_bind at 1.
    destruct (progress_ok size i w Hd) as (w1 & -> & H1).
    destruct (IH (i + 1)%N (set_insert_all (find_literals c) acc) w1 (or_intror Hd))
      as (w2 & E & H2).
    exists w2. split; [|eapply same_but_cerr_trans; eauto].
    rewrite E. cbn [flat_map]. unfold set_insert_all. now rewrite fold_left_app.
Qed.

Lemma replace_clauses_ok size m : forall clauses i w,
  clauses = [] \/ (size / 20 <> 0)%N ->
  exists w', replace_clauses size i m clauses w
             = Returned (map (replace_clause m) clauses) w'
             /\ same_but_cerr w w'.
Proof.
  induction clauses as [|c rest IH]; intros i w Hok.
  - exists w. split; [reflexivity|apply same_but_cerr_refl].
  - destruct Hok as [|Hd]; [discriminate|].
    cbn [replace_clauses]. unfold io_bind at 1.
    destruct (progress_ok size i w Hd) as (w1 & -> & H1).
    unfold io_bind at 1.
    destruct (IH (i + 1)%N w1 (or_intror Hd)) as (w2 & -> & H2).
    exists w2. split; [reflexivity|eapply same_but_cerr_trans; eauto].
Qed.

Lemma put_line_spec line path written rest w :
  w_files w = (path, written) :: rest ->
  exists w', put_line line w = Returned tt w' /\
             w_files w' = (path, written ++ [line]) :: rest /\
             w_cout w' = w_cout w /\ w_cannot_open w' = w_cannot_open w.
Proof.
  intros Hf. eexists. split; [reflexivity|]. cbn. rewrite Hf. auto.
Qed.

Lemma put_lines_spec : forall lines path written rest w,
  w_files w = (path, written) :: rest ->
  exists w', put_lines lines w = Returned tt w' /\
             w_files w' = (path, written ++ lines) :: rest /\
             w_cout w' = w_cout w /\ w_cannot_open w' = w_cannot_open w.
Proof.
  induction lines as [|l lines IH]; intros path written rest w Hf.
  - exists w. rewrite app_nil_r. auto.
  - cbn [put_lines]. unfold io_bind at 1.
    destruct (put_line_spec l path written rest w Hf) as (w1 & -> & Hf1 & Hc1 & Ho1).
    destruct (IH path (written ++ [l]) rest w1 Hf1) as (w2 & E & Hf2 & Hc2 & Ho2).
    exists w2. rewrite E, Hf2, <- app_assoc. repeat split; congruence.
Qed.

Lemma write_clauses_ok size : forall replaced i path written rest w,
  replaced = [] \/ (size / 20 <> 0)%N ->
  w_files w = (path, written) :: rest ->
  exists w', write_clauses size i replaced w = Returned tt w' /\
             w_files w' = (path, written ++ replaced) :: rest /\
             w_cout w' = w_cout w /\ w_cannot_open w' = w_cannot_open w.
Proof.
  induction replaced as [|l replaced IH]; intros i path written rest w Hok Hf.
  - exists w. rewrite app_nil_r. auto.
  - destruct Hok as [|Hd]; [discriminate|].
    cbn [write_clauses]. unfold io_bind at 1.
    destruct (progress_ok size i w Hd) as (w1 & -> & (Hc1 & Hf1 & Ho1)).
    unfold io_bind at 1. rewrite <- Hf1 in Hf.
    destruct (put_line_spec l path written rest w1 Hf) as (w2 & -> & Hf2 & Hc2 & Ho2).
    destruct (IH (i + 1)%N path (written ++ [l]) rest w2 (or_intror Hd) Hf2)
      as (w3 & E & Hf3 & Hc3 & Ho3).
    exists w3. rewrite E, Hf3, <- app_assoc. repeat split; congruence.
Qed.

Lemma divisor_nonzero (l : list string) :
  (N.of_nat (List.length l) / 20 <> 0)%N <-> (20 <= List.length l)%nat.
Proof.
  split.
  - intros H. destruct (le_lt_dec 20 (List.length l)) as [|Hlt]; [assumption|].
    exfalso. apply H. apply N.div_small. lia.
  - intros H Hz. apply N.div_small_iff in Hz; lia.
Qed.

(** What a run does when the progress divisor is harmless. *)
Lemma generate_cnf_returns conditions path w :
  conditions = [] \/ (20 <= List.length conditions)%nat ->
  exists w',
    generate_cnf conditions path w = Returned tt w' /\
    w_cout w' = w_cout w /\ w_cannot_open w' = w_cannot_open w /\
    (if w_cannot_open w path
     then w_files w' = w_files w /\
          exists log, w_cerr w'
            = log ++ [("Error: Could not open file " ++ path ++ " for writing")%string]
     else w_files w'
          = (path, cnf_file (numbering conditions)
                            (map (replace_clause (numbering conditions)) conditions))
            :: w_files w).
Proof.
  intros Hok.
  assert (Hok' : conditions = [] \/ (N.of_nat (List.length conditions) / 20 <> 0)%N).
  { destruct Hok; [now left|right; now apply divisor_nonzero]. }
  unfold generate_cnf.
  unfold io_bind at 1. destruct (cerr_spec "expand : 1" w) as (w1 & -> & S1 & _).
  unfold io_bind at 1.
  destruct (cerr_spec "gather literals..." w1) as (w2 & -> & S2 & _).
  unfold io_bind at 1.
  destruct (gather_literals_ok (N.of_nat (List.length conditions)) conditions 0 [] w2 Hok')
    as (w3 & -> & S3).
  unfold io_bind at 1.
  destruct (cerr_spec "sorting literals..." w3) as (w4 & -> & S4 & _).
  unfold io_bind at 1.
  destruct (cerr_spec "mapping symbol to integer..." w4) as (w5 & -> & S5 & _).
  unfold io_bind at 1.
  destruct (cerr_spec "replacing symbol to integer..." w5) as (w6 & -> & S6 & _).
  unfold io_bind at 1.
  fold (interned_names conditions). fold (numbering conditions).
  destruct (replace_clauses_ok (N.of_nat (List.length conditions))
              (numbering conditions) conditions 0 w6 Hok') as (w7 & -> & S7).
  unfold io_bind at 1.
  destruct (cerr_spec "writing cnf to file..." w7) as (w8 & -> & S8 & _).
  assert (S : same_but_cerr w w8).
  { repeat (eapply same_but_cerr_trans; [eassumption|]). apply same_but_cerr_refl. }
  destruct S as (Sc & Sf & So). rewrite So.
  destruct (w_cannot_open w path) eqn:Hopen.
  - destruct (cerr_spec ("Error: Could not open file " ++ path ++ " for writing")%string w8)
      as (w9 & -> & (Sc9 & Sf9 & So9) & Hlog).
    exists w9. repeat split; try congruence. eauto.
  - unfold io_bind at 1. unfold open_file at 1.
    set (w9 := mkWorld (w_cerr w8) (w_cout w8) ((path, []) :: w_files w8)
                       (w_cannot_open w8)).
    assert (Hf9 : w_files w9 = (path, []) :: w_files w8) by reflexivity.
    unfold io_bind at 1.
    destruct (put_lines_spec ["c"; "c"; "c"] path [] (w_files w8) w9 Hf9)
      as (w10 & -> & Hf10 & Hc10 & Ho10).
    unfold io_bind at 1.
    destruct (put_lines_spec (map cv_line (numbering conditions)) path _ _ w10 Hf10)
      as (w11 & -> & Hf11 & Hc11 & Ho11).
    unfold io_bind at 1.
    destruct (put_line_spec
                (header_line (List.length (numbering conditions))
                   (List.length (map (replace_clause (numbering conditions)) conditions)))
                path _ _ w11 Hf11) as (w12 & -> & Hf12 & Hc12 & Ho12).
    unfold io_bind at 1.
    edestruct (write_clauses_ok
                (N.of_nat (List.length (map (replace_clause (numbering conditions)) conditions)))
                (map (replace_clause (numbering conditions)) conditions) 0 path)
      as (w13 & -> & Hf13 & Hc13 & Ho13); [|exact Hf12|].
    { rewrite length_map. destruct Hok' as [->|]; [now left|now right]. }
    destruct (cerr_spec ("CNF file generated successfully: " ++ path)%string w13)
      as (w14 & -> & (Sc14 & Sf14 & So14) & _).
    exists w14. repeat split; try (cbn in *; congruence).
    rewrite Sf14, Hf13, Sf. unfold cnf_file. cbn [app]. rewrite <- !app_assoc.
    reflexivity.
Qed.

Lemma generate_cnf_traps conditions path w :
  conditions <> [] -> (List.length conditions < 20)%nat ->
  exists w', generate_cnf conditions path w = Trapped w'.
Proof.
  intros Hne Hlt. unfold generate_cnf.
  unfold io_bind at 1. destruct (cerr_spec "expand : 1" w) as (w1 & -> & S1 & _).
  unfold io_bind at 1.
  destruct (cerr_spec "gather literals..." w1) as (w2 & -> & S2 & _).
  unfold io_bind at 1.
  destruct conditions as [|c rest]; [contradiction|].
  cbn [gather_literals]. unfold io_bind at 1.
  rewrite progress_trap by (apply N.div_small; lia). eauto.
Qed.

(** C10 as stated fails on the empty clause list: no iteration of a
    progress loop runs, so no modulo is evaluated and the file is
    written, although the list has fewer than 20 clauses. *)
Lemma generate_cnf_empty_input_no_trap :
  ~ ((exists w', generate_cnf [] "out.cnf" (world0 (fun _ => false)) = Returned tt w')
     <-> (20 <= List.length (@nil string))%nat).
Proof.
  intros [H _].
  assert (Hr : exists w', generate_cnf [] "out.cnf" (world0 (fun _ => false))
                          = Returned tt w')
    by (eexists; vm_compute; reflexivity).
  specialize (H Hr). cbn in H. lia.
Qed.

(** C10 (amended). The divisor [size / 20] of the progress reports is
    nonzero iff the input has at least 20 clauses; [generate_cnf] gets
    through without a modulo by zero iff the input is empty or has at
    least 20 clauses. *)
Theorem generate_cnf_trap_free_iff (conditions : list string) (path : string)
    (w : world) :
  ((N.of_nat (List.length conditions) / 20 <> 0)%N
   <-> (20 <= List.length conditions)%nat) /\
  ((exists w', generate_cnf conditions path w = Returned tt w')
   <-> conditions = [] \/ (20 <= List.length conditions)%nat).
Proof.
  split; [apply divisor_nonzero|]. split.
  - intros [w' Hr].
    destruct conditions as [|c rest]; [now left|right].
    destruct (le_lt_dec 20 (List.length (c :: rest))) as [|Hlt]; [assumption|].
    destruct (generate_cnf_traps (c :: rest) path w ltac:(discriminate) Hlt)
      as [w'' Ht].
    congruence.
  - intros Hok. destruct (generate_cnf_returns conditions path w Hok)
      as (w' & Hr & _). eauto.
Qed.

(** C8 as stated fails: with an output path that cannot be opened, the
    end of [add_cnf]'s [main] still announces the file and returns 0; no
    file exists afterwards. *)
Lemma open_failure_not_surfaced :
  exists w',
    add_cnf_finish 5 3 (repeat "-<overflow> 0 "%string 20) (world0 (fun _ => true))
    = Returned 0 w' /\
    w_files w' = [] /\
    w_cout w' = ["CNF file generated: add_5_3.cnf"; "Expected result: 8"]%string.
Proof. eexists. vm_compute. repeat split. Qed.

(** C8 (amended). When the output path cannot be opened (and the progress
    loops do not trap), [generate_cnf] prints its diagnostic to the error
    stream, writes nothing, and returns normally; the caller is told
    nothing: the end of [add_cnf]'s [main] goes on to report the file as
    generated and returns 0. *)
Theorem generate_cnf_open_failure (num1 num2 : N) (conditions : list string)
    (w : world) :
  let path := ("add_" ++ dec num1 ++ "_" ++ dec num2 ++ ".cnf")%string in
  w_cannot_open w path = true ->
  conditions = [] \/ (20 <= List.length conditions)%nat ->
  (exists w', generate_cnf conditions path w = Returned tt w' /\
              w_files w' = w_files w /\
              exists log, w_cerr w'
                = log ++ [("Error: Could not open file " ++ path ++ " for writing")%string])
  /\
  (exists w', add_cnf_finish num1 num2 conditions w = Returned 0 w' /\
              w_files w' = w_files w /\
              w_cout w' = w_cout w
                ++ [("CNF file generated: " ++ path)%string;
                    ("Expected result: " ++ dec (num1 + num2))%string]).
Proof.
  intros path Hopen Hok.
  destruct (generate_cnf_returns conditions path w Hok) as (w' & Hr & Hc & Ho & Hf).
  rewrite Hopen in Hf. destruct Hf as [Hf Hlog]. split.
  - exists w'. auto.
  - unfold add_cnf_finish. fold path. unfold io_bind at 1. rewrite Hr.
    eexists. split; [reflexivity|]. cbn. rewrite Hc, <- app_assoc. auto.
Qed.

Lemma generate_cnf_open_failure_witness :
  (exists w', generate_cnf (repeat "-<overflow> 0 "%string 20) "add_5_3.cnf"
                (world0 (fun _ => true)) = Returned tt w' /\
              w_files w' = [] /\
              exists log, w_cerr w'
                = log ++ ["Error: Could not open file add_5_3.cnf for writing"%string])
  /\
  (exists w', add_cnf_finish 5 3 (repeat "-<overflow> 0 "%string 20)
                (world0 (fun _ => true)) = Returned 0 w' /\
              w_files w' = [] /\
              w_cout w' = [] ++ ["CNF file generated: add_5_3.cnf";
                                 "Expected result: 8"]%string).
Proof.
  apply (generate_cnf_open_failure 5 3 (repeat "-<overflow> 0 "%string 20)
           (world0 (fun _ => true))).
  - reflexivity.
  - right. cbn. lia.
Defined.

(** * The finaliser: interning *)

Lemma slt_trans a b c : slt a b -> slt b c -> slt a c.
Proof.
  unfold slt. intros H1 H2.
  apply String_as_OT.cmp_lt in H1, H2. apply String_as_OT.cmp_lt.
  eapply String_as_OT.lt_trans; eauto.
Qed.

Lemma compare_refl a : String.compare a a = Eq.
Proof.
  induction a as [|c a IH]; [reflexivity|]. cbn [String.compare].
  unfold Ascii.compare. now rewrite N.compare_refl.
Qed.

Lemma slt_irrefl a : ~ slt a a.
Proof. unfold slt. rewrite compare_refl. discriminate. Qed.

Lemma compare_Gt_slt a b : String.compare a b = Gt -> slt b a.
Proof.
  unfold slt. intros H. rewrite String.compare_antisym, H. reflexivity.
Qed.


Lemma set_insert_in x y l : In x (set_insert y l) <-> x = y \/ In x l.
Proof.
  induction l as [|z l IH]; cbn [set_insert].
  - cbn. intuition.
  - destruct (String.compare y z) eqn:E.
    + apply String.compare_eq_iff in E. subst z. cbn. intuition.
    + cbn. intuition.
    + cbn [In]. rewrite IH. intuition.
Qed.

Lemma set_insert_sorted y l :
  StronglySorted slt l -> StronglySorted slt (set_insert y l).
Proof.
  induction 1 as [|z l Hl IH Hz]; cbn [set_insert].
  - repeat constructor.
  - destruct (String.compare y z) eqn:E.
    + now constructor.
    + constructor; [now constructor|]. constructor; [exact E|].
      rewrite Forall_forall in *. intros x Hx. eapply slt_trans; [exact E|auto].
    + constructor; [exact IH|]. rewrite Forall_forall in *.
      intros x Hx. apply set_insert_in in Hx. destruct Hx as [->|Hx]; auto.
      now apply compare_Gt_slt.
Qed.


Lemma set_insert_all_sorted xs : forall l,
  StronglySorted slt l -> StronglySorted slt (set_insert_all xs l).
Proof.
  unfold set_insert_all. induction xs as [|y xs IH]; intros l Hl; cbn [fold_left].
  - exact Hl.
  - apply IH. now apply set_insert_sorted.
Qed.

Lemma sorted_NoDup l : StronglySorted slt l -> NoDup l.
Proof.
  induction 1 as [|z l Hl IH Hz]; constructor; [|exact IH].
  intros Hin. rewrite Forall_forall in Hz. apply (slt_irrefl z). auto.
Qed.


Lemma interned_names_sorted conditions :
  StronglySorted slt (interned_names conditions).
Proof. apply set_insert_all_sorted. constructor. Qed.


(** ** The numbering map *)



Lemma map_find_insert x k v m :
  map_find x (map_insert k v m)
  = if String.eqb x k then v else map_find x m.
Proof.
  induction m as [|[k' v'] m IH]; cbn [map_insert map_find].
  - reflexivity.
  - destruct (String.compare k k') eqn:E; cbn [map_find].
    + apply String.compare_eq_iff in E. subst k'.
      destruct (String.eqb x k); reflexivity.
    + reflexivity.
    + rewrite IH. destruct (String.eqb_spec x k') as [->|];
        destruct (String.eqb_spec k' k) as [->|]; try reflexivity.
      exfalso. apply (slt_irrefl k). now apply compare_Gt_slt.
Qed.

Lemma number_from_other x lits : forall i m,
  ~ In x lits -> map_find x (number_from i lits m) = map_find x m.
Proof.
  induction lits as [|y lits IH]; intros i m Hnin; cbn [number_from].
  - reflexivity.
  - rewrite IH by (intros H; apply Hnin; now right).
    rewrite map_find_insert.
    destruct (String.eqb_spec x y) as [->|]; [|reflexivity].
    exfalso. apply Hnin. now left.
Qed.

Lemma number_from_values lits : forall i m,
  NoDup lits ->
  map (fun x => map_find x (number_from i lits m)) lits
  = map (fun j => (i + N.of_nat j)%N) (seq 1 (List.length lits)).
Proof.
  induction lits as [|y lits IH]; intros i m Hnd; [reflexivity|].
  inversion Hnd as [|? ? Hy Hnd']; subst.
  cbn [number_from map List.length seq]. f_equal.
  - rewrite number_from_other by exact Hy. rewrite map_find_insert.
    rewrite String.eqb_refl. lia.
  - rewrite IH by exact Hnd'. rewrite <- (seq_shift (List.length lits) 1), map_map.
    apply map_ext. intros j. lia.
Qed.


(** ** The sort *)






Lemma sort_insert_perm x l : Permutation (x :: l) (sort_insert x l).
Proof.
  induction l as [|y l IH]; cbn [sort_insert]; [reflexivity|].
  destruct (literal_less x y); [reflexivity|].
  rewrite perm_swap. now constructor.
Qed.

Lemma sort_literals_perm l : Permutation l (sort_literals l).
Proof.
  induction l as [|x l IH]; cbn; [constructor|].
  rewrite <- sort_insert_perm. now constructor.
Qed.




(** ** The numbering of a clause list *)

Section Numbering.

Variable conditions : list string.

Local Abbreviation names := (interned_names conditions).
Local Abbreviation sorted := (sort_literals (interned_names conditions)).

Lemma names_NoDup : NoDup names.
Proof. apply sorted_NoDup, interned_names_sorted. Qed.

Lemma sorted_NoDup_names : NoDup sorted.
Proof.
  eapply Permutation_NoDup; [apply sort_literals_perm|apply names_NoDup].
Qed.

Lemma sorted_length : List.length sorted = List.length names.
Proof. symmetry. apply Permutation_length, sort_literals_perm. Qed.




Lemma ids_in_sorted_order :
  map (id_of conditions) sorted = map N.of_nat (seq 1 (List.length names)).
Proof.
  unfold id_of, numbering.
  rewrite (number_from_values sorted 0 []) by apply sorted_NoDup_names.
  rewrite sorted_length. apply map_ext. intros j. lia.
Qed.

Lemma id_of_nth i :
  (i < List.length names)%nat ->
  id_of conditions (nth i sorted EmptyString) = N.of_nat (S i).
Proof.
  intros Hi.
  pose proof (f_equal (fun l => nth i l 0%N) ids_in_sorted_order) as H.
  cbv beta in H.
  rewrite (nth_indep _ 0%N (id_of conditions EmptyString)) in H
    by (rewrite length_map, sorted_length; exact Hi).
  rewrite map_nth in H. rewrite H.
  rewrite (nth_indep _ 0%N (N.of_nat 0)) by (rewrite length_map, length_seq; exact Hi).
  rewrite map_nth, seq_nth by exact Hi. reflexivity.
Qed.

Lemma name_position x :
  In x names ->
  exists i, (i < List.length names)%nat /\ nth i sorted EmptyString = x.
Proof.
  intros Hx.
  assert (Hs : In x sorted)
    by (eapply Permutation_in; [apply sort_literals_perm|exact Hx]).
  destruct (In_nth _ _ EmptyString Hs) as (i & Hi & E).
  exists i. rewrite <- sorted_length. auto.
Qed.

Lemma id_of_range x :
  In x names -> (1 <= id_of conditions x <= N.of_nat (List.length names))%N.
Proof.
  intros Hx. destruct (name_position x Hx) as (i & Hi & <-).
  rewrite id_of_nth by exact Hi. lia.
Qed.


End Numbering.

(** * The finaliser: clause text *)

Lemma append_cons c s r : (String c s ++ r)%string = String c (s ++ r)%string.
Proof. reflexivity. Qed.

Lemma append_nil_l r : (EmptyString ++ r)%string = r.
Proof. reflexivity. Qed.

Lemma append_nil_r s : (s ++ EmptyString)%string = s.
Proof. induction s as [|c s IH]; [reflexivity|]. now rewrite append_cons, IH. Qed.

Lemma append_assoc s t r : ((s ++ t) ++ r)%string = (s ++ (t ++ r))%string.
Proof. induction s as [|c s IH]; [reflexivity|]. now rewrite !append_cons, IH. Qed.

Lemma length_append s t :
  String.length (s ++ t) = (String.length s + String.length t)%nat.
Proof.
  induction s as [|c s IH]; [reflexivity|].
  rewrite append_cons. cbn [String.length]. now rewrite IH.
Qed.


Lemma name_char_not_close c : is_name_char c = true -> Ascii.eqb c ">" = false.
Proof.
  intros H. destruct (Ascii.eqb_spec c ">") as [->|]; [|reflexivity].
  vm_compute in H. discriminate.
Qed.




(** ** Scanning a text cut into pieces *)





(** ** Replacing one name in a text cut into pieces *)








(** ** Replacing every name of a clause *)













(* ================================================================== *)
(** * Generated names are told apart *)

Lemma digits_length k i : String.length (Pad.digits k i) = k.
Proof. induction k as [|k IH]; cbn [Pad.digits String.length]; congruence. Qed.

Lemma N_of_digit d : (d < 10)%N -> N_of_ascii (Pad.digit d) = (48 + d)%N.
Proof. intros H. unfold Pad.digit. apply N_ascii_embedding. lia. Qed.

Lemma digit_is_digit d : (d < 10)%N -> is_digit (Pad.digit d) = true.
Proof.
  intros H. unfold is_digit. rewrite (N_of_digit d H).
  apply andb_true_iff. split; apply N.leb_le; lia.
Qed.

Lemma digit_inj d e :
  (d < 10)%N -> (e < 10)%N -> Pad.digit d = Pad.digit e -> d = e.
Proof.
  intros Hd He H. apply (f_equal N_of_ascii) in H.
  rewrite (N_of_digit d Hd), (N_of_digit e He) in H. lia.
Qed.

Lemma digits_inj k : forall i j,
  Pad.digits k i = Pad.digits k j ->
  (i mod 10 ^ N.of_nat k = j mod 10 ^ N.of_nat k)%N.
Proof.
  induction k as [|k IH]; intros i j H.
  - cbn. now rewrite !N.mod_1_r.
  - cbn [Pad.digits] in H. injection H as Hd Hr.
    apply digit_inj in Hd; try (apply N.mod_lt; discriminate).
    specialize (IH i j Hr).
    rewrite Nat2N.inj_succ, N.pow_succ_r'.
    rewrite (N.mul_comm 10).
    rewrite !N.Div0.mod_mul_r. now rewrite IH, Hd.
Qed.

Lemma Z_small i : small i -> Pad.Z i = Pad.digits 10 (N.of_nat i).
Proof.
  intros H. unfold Pad.Z. apply N.ltb_lt in H. now rewrite H.
Qed.

Lemma Z_length i : small i -> String.length (Pad.Z i) = 10%nat.
Proof. intros H. rewrite (Z_small i H). apply digits_length. Qed.

Lemma Z_inj i j : small i -> small j -> Pad.Z i = Pad.Z j -> i = j.
Proof.
  intros Hi Hj H. rewrite (Z_small i Hi), (Z_small j Hj) in H.
  apply digits_inj in H. change (N.of_nat 10) with 10%N in H.
  rewrite !N.mod_small in H by assumption. now apply Nat2N.inj.
Qed.

Lemma Z_head i :
  small i -> exists d r, Pad.Z i = String d r /\ is_digit d = true.
Proof.
  intros H. rewrite (Z_small i H).
  change (Pad.digits 10 (N.of_nat i))
    with (String (Pad.digit ((N.of_nat i / 10 ^ N.of_nat 9) mod 10))
                 (Pad.digits 9 (N.of_nat i))).
  eexists _, _. split; [reflexivity|].
  apply digit_is_digit, N.mod_lt. discriminate.
Qed.

Lemma small_le i j : (i <= j)%nat -> small j -> small i.
Proof. unfold small. lia. Qed.

Lemma append_inj_length a : forall b s t,
  String.length a = String.length b ->
  (a ++ s)%string = (b ++ t)%string -> a = b /\ s = t.
Proof.
  induction a as [|x a IH]; intros [|y b] s t Hl H; try discriminate Hl.
  - now split.
  - rewrite !append_cons in H. injection H as -> H.
    injection Hl as Hl. destruct (IH b s t Hl H) as [-> ->]. now split.
Qed.

Lemma append_inv_head p s t : (p ++ s)%string = (p ++ t)%string -> s = t.
Proof. intros H. now apply (append_inj_length p p s t eq_refl). Qed.

Lemma Z_split c c' s t :
  small c -> small c' ->
  (Pad.Z c ++ s)%string = (Pad.Z c' ++ t)%string -> c = c' /\ s = t.
Proof.
  intros Hc Hc' H.
  apply append_inj_length in H; [|now rewrite !Z_length].
  destruct H as [H ->]. split; [now apply Z_inj|reflexivity].
Qed.

Lemma bit_name_inj x y i j :
  small i -> small j -> x # i = y # j -> x = y /\ i = j.
Proof.
  intros Hi Hj H.
  assert (Hl : String.length x = String.length y).
  { apply (f_equal String.length) in H.
    rewrite !length_append, !Z_length in H by assumption. lia. }
  apply append_inj_length in H; [|exact Hl].
  destruct H as [-> H]. split; [reflexivity|].
  apply append_inv_head in H. now apply Z_inj.
Qed.

Lemma bit_name_neq x y i j :
  small i -> small j -> x <> y -> x # i <> y # j.
Proof. intros Hi Hj Hn H. now destruct (bit_name_inj x y i j Hi Hj H). Qed.

Lemma apart_spec p : forall q,
  apart p q = true ->
  forall d e s t, is_digit d = true -> is_digit e = true ->
  (p ++ String d s)%string <> (q ++ String e t)%string.
Proof.
  induction p as [|a p IH]; intros [|b q] H d e s t Hd He E;
    cbn [apart] in H.
  - discriminate.
  - rewrite append_nil_l, append_cons in E. injection E as -> _.
    now rewrite Hd in H.
  - rewrite append_nil_l, append_cons in E. injection E as -> _.
    now rewrite He in H.
  - rewrite !append_cons in E. injection E as -> E.
    rewrite Ascii.eqb_refl in H. exact (IH q H d e s t Hd He E).
Qed.

Lemma differ_spec p : forall q s t,
  differ p q = true -> (p ++ s)%string <> (q ++ t)%string.
Proof.
  induction p as [|a p IH]; intros [|b q] s t H E; cbn [differ] in H;
    try discriminate.
  rewrite !append_cons in E. injection E as -> E.
  rewrite Ascii.eqb_refl in H. exact (IH q s t H E).
Qed.

Lemma kind_code_inj k k' : kind_code k = kind_code k' -> k = k'.
Proof. destruct k, k'; cbn; intros H; try reflexivity; discriminate. Qed.

Lemma names_apart_ok : names_apart = true.
Proof. vm_compute. reflexivity. Qed.

Lemma names_upper_ok : names_upper = true.
Proof. vm_compute. reflexivity. Qed.

(** A generated name is read in one way only. *)
Lemma decomp_unique k p c s k' q c' t :
  In (k, p) names -> In (k', q) names -> small c -> small c' ->
  (p ++ Pad.Z c ++ s)%string = (q ++ Pad.Z c' ++ t)%string ->
  k = k' /\ p = q /\ c = c' /\ s = t.
Proof.
  intros Hp Hq Hc Hc' E.
  pose proof names_apart_ok as H. unfold names_apart in H.
  rewrite forallb_forall in H. specialize (H _ Hp).
  rewrite forallb_forall in H. specialize (H _ Hq).
  cbn [fst snd] in H. apply orb_true_iff in H. destruct H as [H|H].
  - apply andb_true_iff in H. destruct H as [Hk Hs].
    apply Nat.eqb_eq, kind_code_inj in Hk. apply String.eqb_eq in Hs.
    subst q k'. apply append_inv_head in E.
    destruct (Z_split c c' s t Hc Hc' E) as [-> ->]. now repeat split.
  - exfalso.
    destruct (Z_head c Hc) as (d & r & Ed & Hd).
    destruct (Z_head c' Hc') as (e & r' & Ee & He).
    rewrite Ed, Ee, !append_cons in E.
    exact (apart_spec p q H d e _ _ Hd He E).
Qed.

(* ================================================================== *)
(** * Old and fresh names *)

Lemma le_counters_refl st : le_counters st st.
Proof. intros k. lia. Qed.

Lemma le_counters_trans a b c :
  le_counters a b -> le_counters b c -> le_counters a c.
Proof. intros H1 H2 k. specialize (H1 k). specialize (H2 k). lia. Qed.

Lemma small_counters_le st st' :
  le_counters st st' -> small_counters st' -> small_counters st.
Proof. intros H Hs k. exact (small_le _ _ (H k) (Hs k)). Qed.

Lemma old_mono st st' x : le_counters st st' -> old st x -> old st' x.
Proof.
  intros Hle H k p c suf Hin Hc E. specialize (H k p c suf Hin Hc E).
  specialize (Hle k). lia.
Qed.

Lemma stable_mono st st' x : le_counters st st' -> stable st x -> stable st' x.
Proof. intros Hle H rest. exact (old_mono _ _ _ Hle (H rest)). Qed.

Lemma stable_old st x : stable st x -> old st x.
Proof. intros H. specialize (H EmptyString). now rewrite append_nil_r in H. Qed.

Lemma stable_app st x r : stable st x -> stable st (x ++ r)%string.
Proof. intros H rest. rewrite append_assoc. apply H. Qed.

Lemma stable_bit st x i : stable st x -> old st (x # i).
Proof. intros H. apply H. Qed.

Lemma stable_own k p c suf st :
  In (k, p) names -> small c -> (c <= cnt k st)%nat ->
  stable st (p ++ Pad.Z c ++ suf)%string.
Proof.
  intros Hin Hc Hle rest k' q c' t Hin' Hc' E.
  rewrite !append_assoc in E.
  destruct (decomp_unique k p c _ k' q c' t Hin Hin' Hc Hc' E)
    as (<- & _ & <- & _).
  exact Hle.
Qed.

Lemma stable_user st x : user_name x = true -> stable st x.
Proof.
  intros Hu rest k p c suf Hin Hc E. exfalso.
  pose proof names_upper_ok as H. unfold names_upper in H.
  rewrite forallb_forall in H. specialize (H _ Hin). cbn [snd] in H.
  destruct x as [|a x]; [discriminate Hu|]. destruct p as [|b p]; [discriminate H|].
  rewrite !append_cons in E. injection E as -> _.
  cbn [user_name] in Hu. unfold is_lower in Hu. unfold is_upper in H.
  apply andb_true_iff in Hu. apply andb_true_iff in H.
  destruct Hu as [Hu _]. destruct H as [_ H].
  apply N.leb_le in Hu. apply N.leb_le in H. lia.
Qed.

Lemma stable_differ st q r :
  forallb (fun a => differ q (snd a)) names = true ->
  stable st (q ++ r)%string.
Proof.
  intros H rest k p c suf Hin Hc E. exfalso.
  rewrite forallb_forall in H. specialize (H _ Hin). cbn [snd] in H.
  rewrite append_assoc in E. exact (differ_spec q p _ _ H E).
Qed.

Lemma stable_One_NBit st n : stable st (One_NBit n).
Proof. apply stable_differ. vm_compute. reflexivity. Qed.

Lemma old_Zero_1Bit st : old st Zero_1Bit.
Proof.
  apply stable_old. unfold Zero_1Bit. apply stable_differ.
  vm_compute. reflexivity.
Qed.

Lemma owned_old st st' x :
  small_counters st' -> owned st st' x -> old st x -> False.
Proof.
  intros Hs (k & p & c & suf & Hin & Hc & E) Ho.
  assert (small c) by (apply (small_le c (cnt k st')); [lia|apply Hs]).
  specialize (Ho k p c suf Hin H E). lia.
Qed.

Lemma owned_weaken a b c d x :
  le_counters a b -> le_counters c d -> owned b c x -> owned a d x.
Proof.
  intros H1 H2 (k & p & i & suf & Hin & Hc & E).
  exists k, p, i, suf. specialize (H1 k). specialize (H2 k).
  repeat split; try assumption; lia.
Qed.

Lemma owned_own k p c suf st st' :
  In (k, p) names -> (cnt k st < c <= cnt k st')%nat ->
  owned st st' (p ++ Pad.Z c ++ suf)%string.
Proof. intros Hin Hc. now exists k, p, c, suf. Qed.

(* ================================================================== *)
(** * Assignments that agree on the old names *)

Lemma agree_off_old st st' s s' :
  small_counters st' -> agree_off (owned st st') s s' -> agree_old st s s'.
Proof.
  intros Hs H x Ho. apply H. intros Hx. exact (owned_old st st' x Hs Hx Ho).
Qed.

Lemma agree_off_refl P s : agree_off P s s.
Proof. intros x _. reflexivity. Qed.

Lemma agree_off_trans (P Q R : string -> Prop) s1 s2 s3 :
  (forall x, P x -> R x) -> (forall x, Q x -> R x) ->
  agree_off P s1 s2 -> agree_off Q s2 s3 -> agree_off R s1 s3.
Proof.
  intros HP HQ H1 H2 x Hx. rewrite H2, H1; auto.
Qed.

Lemma agree_off_owned_trans a b c s1 s2 s3 :
  le_counters a b -> le_counters b c ->
  agree_off (owned a b) s1 s2 -> agree_off (owned b c) s2 s3 ->
  agree_off (owned a c) s1 s3.
Proof.
  intros Hab Hbc. apply agree_off_trans; intros x Hx.
  - exact (owned_weaken a a b c x (le_counters_refl a) Hbc Hx).
  - exact (owned_weaken a b c c x Hab (le_counters_refl c) Hx).
Qed.

Lemma agree_old_refl st s : agree_old st s s.
Proof. intros x _. reflexivity. Qed.

Lemma agree_old_trans st s1 s2 s3 :
  agree_old st s1 s2 -> agree_old st s2 s3 -> agree_old st s1 s3.
Proof. intros H1 H2 x Hx. rewrite H2, H1; auto. Qed.

Lemma agree_old_mono st st' s s' :
  le_counters st st' -> agree_old st' s s' -> agree_old st s s'.
Proof. intros Hle H x Hx. apply H. exact (old_mono _ _ _ Hle Hx). Qed.

Lemma value_agree st s s' x n :
  stable st x -> agree_old st s s' -> value s' x n = value s x n.
Proof.
  intros Hx H. unfold value. apply bval_ext. intros i _.
  apply H. apply stable_bit. exact Hx.
Qed.

(** ** Properties of every variable of a formula *)

Lemma all_vars_nil P : all_vars P [].
Proof. intros x []. Qed.

Lemma all_vars_app P f g : all_vars P f -> all_vars P g -> all_vars P (f ++ g).
Proof.
  intros Hf Hg x Hx. unfold cnf_vars in Hx. rewrite flat_map_app in Hx.
  apply in_app_or in Hx. destruct Hx; [now apply Hf|now apply Hg].
Qed.

Lemma all_vars_app_inv P f g :
  all_vars P (f ++ g) -> all_vars P f /\ all_vars P g.
Proof.
  intros H. split; intros x Hx; apply H; unfold cnf_vars;
    rewrite flat_map_app; apply in_or_app; [now left|now right].
Qed.

Lemma all_vars_cons P c f :
  (forall l, In l c -> P (lit_var l)) -> all_vars P f -> all_vars P (c :: f).
Proof.
  intros Hc Hf x Hx. cbn [cnf_vars flat_map] in Hx.
  apply in_app_or in Hx. destruct Hx as [Hx|Hx]; [|now apply Hf].
  unfold clause_vars in Hx. apply in_map_iff in Hx.
  destruct Hx as (l & <- & Hl). now apply Hc.
Qed.

Lemma all_vars_flat_map {A} P (body : A -> cnf) l :
  (forall a, In a l -> all_vars P (body a)) -> all_vars P (flat_map body l).
Proof.
  induction l as [|a l IH]; intros H; cbn [flat_map].
  - apply all_vars_nil.
  - apply all_vars_app; [apply H; now left|].
    apply IH. intros b Hb. apply H. now right.
Qed.

Lemma all_vars_for_pure P n body :
  (forall i, (i < n)%nat -> all_vars P (body i)) -> all_vars P (for_pure n body).
Proof.
  intros H. unfold for_pure. apply all_vars_flat_map.
  intros i Hi. apply in_seq in Hi. apply H. lia.
Qed.

Lemma all_vars_for_range P lo hi body :
  (forall i, (lo <= i < hi)%nat -> all_vars P (body i)) ->
  all_vars P (for_range lo hi body).
Proof.
  intros H. unfold for_range. apply all_vars_flat_map.
  intros i Hi. apply in_seq in Hi. apply H. lia.
Qed.

Lemma all_vars_impl (P Q : string -> Prop) f :
  (forall x, P x -> Q x) -> all_vars P f -> all_vars Q f.
Proof. intros H Hf x Hx. apply H, Hf, Hx. Qed.

Lemma sat_clause_agree s s' c :
  (forall l, In l c -> s' (lit_var l) = s (lit_var l)) ->
  sat_clause s' c = sat_clause s c.
Proof.
  induction c as [|l c IH]; intros H; [reflexivity|].
  cbn [sat_clause existsb]. f_equal.
  - assert (E : s' (lit_var l) = s (lit_var l)) by (apply H; now left).
    destruct l; cbn [sat_lit lit_var] in *; now rewrite E.
  - apply IH. intros l' Hl'. apply H. now right.
Qed.

Lemma sat_agree s s' f :
  all_vars (fun x => s' x = s x) f -> sat s' f = sat s f.
Proof.
  induction f as [|c f IH]; intros H; [reflexivity|].
  cbn [sat forallb]. f_equal.
  - apply sat_clause_agree. intros l Hl. apply H.
    cbn [cnf_vars flat_map]. apply in_or_app. left.
    unfold clause_vars. now apply in_map.
  - apply IH. intros x Hx. apply H.
    cbn [cnf_vars flat_map]. apply in_or_app. now right.
Qed.

Lemma sat_agree_old st s s' f :
  all_vars (old st) f -> agree_old st s s' -> sat s' f = sat s f.
Proof.
  intros Hf H. apply sat_agree. intros x Hx. apply H, Hf, Hx.
Qed.

(* ================================================================== *)
(** * Writing wires *)

Lemma set_fam_get name m v s k :
  (forall j, (j < m)%nat -> name j = name k -> j = k) ->
  (k < m)%nat -> set_fam name m v s (name k) = v k.
Proof.
  intros Hinj Hk. unfold set_fam.
  destruct (find _ (seq 0 m)) as [j|] eqn:E.
  - apply find_some in E. destruct E as [Hj E].
    apply in_seq in Hj. apply String.eqb_eq in E.
    symmetry in E. apply Hinj in E; [now subst|lia].
  - assert (In k (seq 0 m)) as Hin by (apply in_seq; lia).
    pose proof (find_none _ _ E k Hin) as F. cbv beta in F.
    now rewrite String.eqb_refl in F.
Qed.

Lemma set_fam_other name m v s y :
  (forall k, (k < m)%nat -> y <> name k) -> set_fam name m v s y = s y.
Proof.
  intros H. unfold set_fam.
  destruct (find _ (seq 0 m)) as [j|] eqn:E; [|reflexivity].
  apply find_some in E. destruct E as [Hj E].
  apply in_seq in Hj. apply String.eqb_eq in E.
  exfalso. apply (H j); [lia|exact E].
Qed.

Lemma set_bits_get x n v s i :
  small n -> (i < n)%nat ->
  set_bits x n v s (x # i) = Z.testbit v (Z.of_nat i).
Proof.
  intros Hn Hi. unfold set_bits.
  apply (set_fam_get (fun i => x # i) n
           (fun i => Z.testbit v (Z.of_nat i)) s i); [|exact Hi].
  intros j Hj E. apply bit_name_inj in E.
  - tauto.
  - apply (small_le j n); [lia|exact Hn].
  - apply (small_le i n); [lia|exact Hn].
Qed.

Lemma set_bits_other x n v s y :
  (forall i, (i < n)%nat -> y <> x # i) -> set_bits x n v s y = s y.
Proof. intros H. unfold set_bits. now apply set_fam_other. Qed.

Lemma value_set_bits x n v s :
  small n -> value (set_bits x n v s) x n = v mod 2 ^ Z.of_nat n.
Proof.
  intros Hn. unfold value.
  rewrite (bval_ext _ (fun i => Z.testbit v (Z.of_nat i)) n).
  - apply bval_testbit.
  - intros i Hi. now apply set_bits_get.
Qed.

(* ================================================================== *)
(** * Models: loops and the adder *)

Lemma in_names_b k p :
  existsb (fun a => Nat.eqb (kind_code (fst a)) (kind_code k)
                    && String.eqb (snd a) p) names = true ->
  In (k, p) names.
Proof.
  intros H. apply existsb_exists in H. destruct H as ([k' q] & Hin & H).
  cbn [fst snd] in H. apply andb_true_iff in H. destruct H as [Hk Hq].
  apply Nat.eqb_eq, kind_code_inj in Hk. apply String.eqb_eq in Hq.
  now subst.
Qed.

Ltac in_names := apply in_names_b; vm_compute; reflexivity.

Lemma old_not_own st y k p c suf :
  old st y -> In (k, p) names -> small c -> (cnt k st < c)%nat ->
  y <> (p ++ Pad.Z c ++ suf)%string.
Proof. intros Ho Hin Hc Hlt E. specialize (Ho k p c suf Hin Hc E). lia. Qed.

Lemma own_neq k p c s k' q c' t :
  In (k, p) names -> In (k', q) names -> small c -> small c' ->
  p <> q \/ c <> c' \/ s <> t ->
  (p ++ Pad.Z c ++ s)%string <> (q ++ Pad.Z c' ++ t)%string.
Proof.
  intros Hp Hq Hc Hc' Hn E.
  destruct (decomp_unique k p c s k' q c' t Hp Hq Hc Hc' E) as (_ & ? & ? & ?).
  tauto.
Qed.

Lemma run_ok_grows m st pre : run_ok m st pre -> le_counters st (snd (m st)).
Proof. now intros [H _]. Qed.

Lemma for_from_grows body :
  (forall j st, le_counters st (snd (body j st))) ->
  forall k i st, le_counters st (snd (for_from body i k st)).
Proof.
  intros Hb. induction k as [|k IH]; intros i st.
  - apply le_counters_refl.
  - cbn [for_from]. unfold bind.
    pose proof (Hb i st) as H1.
    destruct (body i st) as [c st1]. cbn [snd] in H1.
    pose proof (IH (S i) st1) as H2.
    destruct (for_from body (S i) k st1) as [cs st2]. cbn [snd] in *.
    exact (le_counters_trans _ _ _ H1 H2).
Qed.

(** A loop of calls has a model when each call has one and what each
    call asks of its operands is a matter of old names only. *)
Lemma for_from_ok body (pre : nat -> assignment -> Prop) :
  forall k i st,
  (forall j st1, (i <= j < i + k)%nat -> le_counters st st1 ->
     run_ok (body j) st1 (pre j)) ->
  (forall j s1 s2, pre j s1 -> agree_old st s1 s2 -> pre j s2) ->
  run_ok (for_from body i k) st
         (fun s => forall j, (i <= j < i + k)%nat -> pre j s).
Proof.
  induction k as [|k IH]; intros i st Hb Hpre.
  - split; [apply le_counters_refl|]. intros _. split.
    + apply all_vars_nil.
    + intros s _. exists s. split; [apply agree_off_refl|reflexivity].
  - pose proof (Hb i st ltac:(lia) (le_counters_refl st)) as (Hg1 & H1).
    assert (IH' : forall st1, le_counters st st1 ->
              run_ok (for_from body (S i) k) st1
                (fun s => forall j, (S i <= j < S i + k)%nat -> pre j s)).
    { intros st1 Hle. apply IH.
      - intros j st2 Hj Hle2. apply Hb; [lia|].
        exact (le_counters_trans _ _ _ Hle Hle2).
      - intros j s1 s2 Hp Ha. apply (Hpre j s1 s2 Hp).
        exact (agree_old_mono _ _ _ _ Hle Ha). }
    unfold run_ok. cbn [for_from]. unfold bind.
    destruct (body i st) as [c st1]. cbn [fst snd] in Hg1, H1.
    specialize (IH' st1 Hg1). destruct IH' as (Hg2 & H2).
    destruct (for_from body (S i) k st1) as [cs st2]. cbn [fst snd] in *.
    split; [exact (le_counters_trans _ _ _ Hg1 Hg2)|].
    intros Hs. specialize (H2 Hs). destruct H2 as (Hv2 & Hm2).
    assert (Hs1 : small_counters st1) by exact (small_counters_le _ _ Hg2 Hs).
    specialize (H1 Hs1). destruct H1 as (Hv1 & Hm1).
    split.
    + apply all_vars_app; [|exact Hv2].
      apply (all_vars_impl (old st1)); [|exact Hv1].
      intros x. apply old_mono. exact Hg2.
    + intros s Hp.
      destruct (Hm1 s (Hp i ltac:(lia))) as (s1 & Ha1 & Hsat1).
      assert (Ho1 : agree_old st s s1) by exact (agree_off_old _ _ _ _ Hs1 Ha1).
      destruct (Hm2 s1) as (s2 & Ha2 & Hsat2).
      { intros j Hj. apply (Hpre j s s1); [apply Hp; lia|exact Ho1]. }
      exists s2. split.
      * exact (agree_off_owned_trans _ _ _ _ _ _ Hg1 Hg2 Ha1 Ha2).
      * apply sat_app_true. split; [|exact Hsat2].
        rewrite (sat_agree_old st1 s1 s2 c Hv1); [exact Hsat1|].
        exact (agree_off_old _ _ _ _ Hs Ha2).
Qed.

Lemma for_ok n body (pre : nat -> assignment -> Prop) st :
  (forall j st1, (j < n)%nat -> le_counters st st1 ->
     run_ok (body j) st1 (pre j)) ->
  (forall j s1 s2, pre j s1 -> agree_old st s1 s2 -> pre j s2) ->
  run_ok (for_ n body) st (fun s => forall j, (j < n)%nat -> pre j s).
Proof.
  intros Hb Hpre.
  destruct (for_from_ok body pre n 0 st) as (Hg & H).
  - intros j st1 Hj. apply Hb. lia.
  - exact Hpre.
  - split; [exact Hg|]. intros Hs. destruct (H Hs) as (Hv & Hm).
    split; [exact Hv|]. intros s Hp. apply Hm. intros j Hj. apply Hp. lia.
Qed.

(** ** Gates hold of the values they define *)

Ltac vars_cases :=
  let x := fresh "x" in
  let Hx := fresh "Hx" in
  intros x Hx; cbn in Hx;
  repeat (destruct Hx as [<-|Hx]; [assumption|]); destruct Hx.

Lemma Add_1Bit_complete (s : assignment) a b c r co :
  s co = maj (s a) (s b) (s c) -> s r = xorb (xorb (s a) (s b)) (s c) ->
  sat s (Add_1Bit a b c r co) = true.
Proof.
  unfold Add_1Bit, CarryOut_Equal_POPCNT_GREATER_THAN_2,
    Result_Equal_A_XOR_B_XOR_CarryIn, maj. cbn [app]. gate_cases.
Qed.

Lemma Add_1Bit_vars (P : string -> Prop) a b c r co :
  P a -> P b -> P c -> P r -> P co -> all_vars P (Add_1Bit a b c r co).
Proof. intros. vars_cases. Qed.

Lemma And_1Bit_complete (s : assignment) a b r :
  s r = s a && s b -> sat s (And_1Bit a b r) = true.
Proof. unfold And_1Bit. gate_cases. Qed.

Lemma LessThan_1Bit_complete (s : assignment) a b r :
  s r = negb (s a) && s b -> sat s (LessThan_1Bit a b r) = true.
Proof. unfold LessThan_1Bit. gate_cases. Qed.

Lemma Equals_1Bit_complete (s : assignment) a b r :
  s r = Bool.eqb (s a) (s b) -> sat s (Equals_1Bit a b r) = true.
Proof. unfold Equals_1Bit. gate_cases. Qed.

Lemma If_Cond_A_Else_B_1Bit_complete (s : assignment) a b c r :
  s r = (if s c then s a else s b) ->
  sat s (If_Cond_A_Else_B_1Bit a b c r) = true.
Proof. unfold If_Cond_A_Else_B_1Bit. gate_cases. Qed.

Lemma Or_1Bit_complete (s : assignment) a b r :
  s r = s a || s b -> sat s (Or_1Bit a b r) = true.
Proof. unfold Or_1Bit. gate_cases. Qed.

Lemma And_1Bit_vars (P : string -> Prop) a b r :
  P a -> P b -> P r -> all_vars P (And_1Bit a b r).
Proof. intros. vars_cases. Qed.

Lemma LessThan_1Bit_vars (P : string -> Prop) a b r :
  P a -> P b -> P r -> all_vars P (LessThan_1Bit a b r).
Proof. intros. vars_cases. Qed.

Lemma Equals_1Bit_vars (P : string -> Prop) a b r :
  P a -> P b -> P r -> all_vars P (Equals_1Bit a b r).
Proof. intros. vars_cases. Qed.

Lemma Or_1Bit_vars (P : string -> Prop) a b r :
  P a -> P b -> P r -> all_vars P (Or_1Bit a b r).
Proof. intros. vars_cases. Qed.

Lemma If_Cond_A_Else_B_1Bit_vars (P : string -> Prop) a b c r :
  P a -> P b -> P c -> P r -> all_vars P (If_Cond_A_Else_B_1Bit a b c r).
Proof. intros. vars_cases. Qed.

(** ** The ripple adder on bits *)

Lemma ripple_sum f g n :
  bval (fun i => xorb (xorb (f i) (g i)) (carry_bit f g i)) n
  + 2 ^ Z.of_nat n * Z.b2z (carry_bit f g n)
  = bval f n + bval g n.
Proof.
  induction n as [|n IH]; [reflexivity|].
  cbn [bval carry_bit]. rewrite pow2_S.
  pose proof (pow2_pos n).
  unfold maj.
  destruct (f n), (g n), (carry_bit f g n); cbn [xorb andb orb Z.b2z] in *; lia.
Qed.

Lemma ripple_bits f g r n :
  bval r n = (bval f n + bval g n) mod 2 ^ Z.of_nat n ->
  forall i, (i < n)%nat -> r i = xorb (xorb (f i) (g i)) (carry_bit f g i).
Proof.
  intros H. apply bval_inj. rewrite H.
  pose proof (ripple_sum f g n) as R.
  pose proof (bval_range (fun i => xorb (xorb (f i) (g i)) (carry_bit f g i)) n).
  pose proof (pow2_pos n).
  symmetry. apply (Z.mod_unique_pos _ _ (Z.b2z (carry_bit f g n))); lia.
Qed.

Lemma ripple_carry f g n :
  Z.b2z (carry_bit f g n) = (bval f n + bval g n) / 2 ^ Z.of_nat n.
Proof.
  pose proof (ripple_sum f g n) as R.
  pose proof (bval_range (fun i => xorb (xorb (f i) (g i)) (carry_bit f g i)) n).
  pose proof (pow2_pos n).
  apply (Z.div_unique_pos _ _ _
           (bval (fun i => xorb (xorb (f i) (g i)) (carry_bit f g i)) n)); lia.
Qed.

(** ** The adder *)

Lemma tick_Add_NBit_le st : le_counters st (snd (tick_Add_NBit st)).
Proof. intros k. destruct k; cbn; lia. Qed.

Lemma AddNBit_carry_inj c i j :
  small i -> small j -> AddNBit_carry c i = AddNBit_carry c j -> i = j.
Proof.
  intros Hi Hj H. unfold AddNBit_carry in H.
  do 3 apply append_inv_head in H. now apply Z_inj.
Qed.

Lemma Add_NBit_ok a b r ov n st :
  stable st a -> stable st b -> stable st r -> old st ov -> small (S n) ->
  run_ok (Add_NBit a b r ov n) st
    (fun s => value s r n = (value s a n + value s b n) mod 2 ^ Z.of_nat n /\
              Z.b2z (s ov) = (value s a n + value s b n) / 2 ^ Z.of_nat n).
Proof.
  intros Ha Hb Hr Hov Hn.
  unfold run_ok.
  change (Add_NBit a b r ov n st)
    with (Add_NBit_body a b r ov n (S (cnt KAdd st)), snd (tick_Add_NBit st)).
  cbn [fst snd].
  pose proof (tick_Add_NBit_le st) as Hle.
  set (st' := snd (tick_Add_NBit st)) in *.
  set (c := S (cnt KAdd st)).
  split; [exact Hle|]. intros Hs.
  assert (Hc : small c) by exact (Hs KAdd).
  assert (Hcarry : forall i, stable st' (AddNBit_carry c i)).
  { intros i. unfold AddNBit_carry. apply (stable_own KAdd); [in_names|exact Hc|].
    subst c st'. cbn. lia. }
  assert (Hold : forall x, old st x -> old st' x)
    by (intros x; apply old_mono; exact Hle).
  split.
  - unfold Add_NBit_body.
    apply all_vars_app; [|apply all_vars_app].
    + apply all_vars_cons; [|apply all_vars_nil].
      intros l [<-|[]]. apply stable_old, Hcarry.
    + apply all_vars_for_pure. intros i Hi.
      apply Add_1Bit_vars; try (apply Hold, stable_bit; assumption);
        apply stable_old, Hcarry.
    + pose proof (stable_old _ _ (Hcarry n)). pose proof (Hold ov Hov).
      vars_cases.
  - intros s (Hval & Hovv).
    set (f := fun i => s (a # i)). set (g := fun i => s (b # i)).
    set (s' := set_fam (AddNBit_carry c) (S n) (carry_bit f g) s).
    assert (Hget : forall i, (i <= n)%nat ->
              s' (AddNBit_carry c i) = carry_bit f g i).
    { intros i Hi. apply set_fam_get; [|lia].
      intros j Hj. apply AddNBit_carry_inj; apply (small_le _ (S n)); lia || assumption. }
    assert (Hoth : forall y, old st y -> s' y = s y).
    { intros y Hy. apply set_fam_other. intros k _. unfold AddNBit_carry.
      apply (old_not_own st y KAdd); [exact Hy|in_names|exact Hc|].
      subst c. cbn. lia. }
    exists s'. split.
    + intros x Hx. apply set_fam_other. intros k _ ->. apply Hx.
      unfold AddNBit_carry. apply (owned_own KAdd); [in_names|].
      subst c st'. cbn. lia.
    + unfold Add_NBit_body. rewrite !sat_app_true. repeat split.
      * cbn [sat forallb sat_clause existsb sat_lit].
        rewrite (Hget 0%nat) by lia. reflexivity.
      * apply sat_for_pure. intros i Hi.
        apply Add_1Bit_complete.
        -- rewrite Nat.add_1_r, !Hget by lia.
           rewrite !Hoth by (apply stable_bit; assumption). reflexivity.
        -- rewrite Hget by lia.
           rewrite !Hoth by (apply stable_bit; assumption).
           exact (ripple_bits f g (fun i => s (r # i)) n Hval i Hi).
      * cbn [sat forallb sat_clause existsb sat_lit].
        rewrite (Hget n) by lia. rewrite (Hoth ov Hov).
        assert (E : Z.b2z (s ov) = Z.b2z (carry_bit f g n)).
        { rewrite Hovv. symmetry. apply ripple_carry. }
        destruct (s ov), (carry_bit f g n); cbn in *; congruence.
Qed.

(* ================================================================== *)
(** * Models: the multiplier *)

Lemma testbit_bval f n i :
  (i < n)%nat -> Z.testbit (bval f n) (Z.of_nat i) = f i.
Proof.
  intros Hi.
  apply (bval_inj (fun i => Z.testbit (bval f n) (Z.of_nat i)) f n); [|exact Hi].
  rewrite bval_testbit. apply Z.mod_small, bval_range.
Qed.

Lemma testbit_high v (m i : nat) :
  0 <= v < 2 ^ Z.of_nat m -> (m <= i)%nat -> Z.testbit v (Z.of_nat i) = false.
Proof.
  intros Hv Hi. apply Z.testbit_false; [lia|].
  rewrite Z.div_small; [reflexivity|]. split; [lia|].
  apply (Z.lt_le_trans _ (2 ^ Z.of_nat m)); [lia|].
  apply Z.pow_le_mono_r; lia.
Qed.

Lemma value_bits s x n v :
  value s x n = v mod 2 ^ Z.of_nat n ->
  forall i, (i < n)%nat -> s (x # i) = Z.testbit v (Z.of_nat i).
Proof.
  intros H. apply (bval_inj (fun i => s (x # i))).
  rewrite bval_testbit. exact H.
Qed.

Lemma bits_value s x n v :
  (forall i, (i < n)%nat -> s (x # i) = Z.testbit v (Z.of_nat i)) ->
  value s x n = v mod 2 ^ Z.of_nat n.
Proof.
  intros H. unfold value. rewrite <- bval_testbit. now apply bval_ext.
Qed.

Lemma bval_mod f n k :
  (k <= n)%nat -> bval f n mod 2 ^ Z.of_nat k = bval f k.
Proof.
  intros Hk. replace n with (k + (n - k))%nat by lia.
  rewrite bval_app. rewrite Z.mul_comm, Z.mod_add by (pose proof (pow2_pos k); lia).
  apply Z.mod_small, bval_range.
Qed.

Lemma or_reduce_complete (s : assignment) (name : nat -> string) r n :
  s r = negb (bval (fun i => s (name i)) n =? 0) ->
  sat_clause s (Neg r :: map (fun i => Pos (name i)) (seq 0 n)) = true /\
  (forall i, (i < n)%nat -> sat s [[Pos r; Neg (name i)]] = true).
Proof.
  intros H.
  destruct (Z.eqb_spec (bval (fun i => s (name i)) n) 0) as [Hz|Hnz];
    cbn [negb] in H.
  - split.
    + cbn [sat_clause existsb sat_lit]. now rewrite H.
    + intros i Hi. pose proof (bval_zero_inv _ _ Hz i Hi) as Hb. cbv beta in Hb.
      cbn [sat forallb sat_clause existsb sat_lit]. now rewrite H, Hb.
  - split.
    + change (sat_clause s (Neg r :: map (fun i => Pos (name i)) (seq 0 n)))
        with (sat_lit s (Neg r)
              || sat_clause s (map (fun i => Pos (name i)) (seq 0 n))).
      apply orb_true_iff. right. apply (sat_clause_pos s name).
      destruct (existsb (fun i => s (name i)) (seq 0 n)) eqn:E.
      * apply existsb_exists in E. exact E.
      * exfalso. apply Hnz. apply bval_zero. intros i Hi.
        destruct (s (name i)) eqn:Hb; [|reflexivity].
        assert (existsb (fun i => s (name i)) (seq 0 n) = true).
        { apply existsb_exists. exists i. split; [apply in_seq; lia|exact Hb]. }
        congruence.
    + intros i Hi. cbn [sat forallb sat_clause existsb sat_lit]. now rewrite H.
Qed.

Lemma set_rows_other row m n v s y :
  (forall k i, (k < m)%nat -> (i < n)%nat -> y <> row k # i) ->
  set_rows row m n v s y = s y.
Proof.
  induction m as [|m IH]; intros H; [reflexivity|].
  cbn [set_rows]. rewrite set_bits_other.
  - apply IH. intros k i Hk Hi. apply H; lia.
  - intros i Hi. apply H; lia.
Qed.

Lemma set_rows_get row m n v s k i :
  (forall j, (j < m)%nat -> row j = row k -> j = k) ->
  small n -> (k < m)%nat -> (i < n)%nat ->
  set_rows row m n v s (row k # i) = Z.testbit (v k) (Z.of_nat i).
Proof.
  intros Hinj Hn. induction m as [|m IH]; intros Hk Hi; [lia|].
  cbn [set_rows]. destruct (Nat.eq_dec k m) as [->|Hne].
  - now apply set_bits_get.
  - rewrite set_bits_other.
    + apply IH; [|lia|exact Hi]. intros j Hj. apply Hinj. lia.
    + intros j Hj E. apply bit_name_inj in E.
      * destruct E as [E _]. symmetry in E. apply Hinj in E; lia.
      * apply (small_le i n); [lia|exact Hn].
      * apply (small_le j n); [lia|exact Hn].
Qed.

Lemma Mul_NBit_1Bit_Shift_vars (P : string -> Prop) a b r shift n :
  (forall i, (i < n)%nat -> P (a # i)) -> P b ->
  (forall i, (i < n * 2)%nat -> P (r # i)) -> (shift <= n)%nat ->
  all_vars P (Mul_NBit_1Bit_Shift a b r shift n).
Proof.
  intros Ha Hb Hr Hs. unfold Mul_NBit_1Bit_Shift.
  apply all_vars_app; [|apply all_vars_app].
  - apply all_vars_for_pure. intros i Hi.
    pose proof (Hr i ltac:(lia)). vars_cases.
  - apply all_vars_for_pure. intros i Hi.
    pose proof (Hr (i + shift)%nat ltac:(lia)). pose proof (Ha i Hi). vars_cases.
  - apply all_vars_for_range. intros i Hi.
    pose proof (Hr i ltac:(lia)). vars_cases.
Qed.

Lemma Mul_NBit_1Bit_Shift_complete (s : assignment) a b r shift n :
  (forall i, (i < shift)%nat -> s (r # i) = false) ->
  (forall i, (i < n)%nat -> s (r # (i + shift)) = s (a # i) && s b) ->
  (forall i, (shift + n <= i < n * 2)%nat -> s (r # i) = false) ->
  sat s (Mul_NBit_1Bit_Shift a b r shift n) = true.
Proof.
  intros H1 H2 H3. unfold Mul_NBit_1Bit_Shift. rewrite !sat_app_true.
  repeat split.
  - apply sat_for_pure. intros i Hi.
    cbn [sat forallb sat_clause existsb sat_lit]. now rewrite H1.
  - apply sat_for_pure. intros i Hi. specialize (H2 i Hi). revert H2.
    gate_cases.
  - apply for_range_sat. intros i Hi.
    cbn [sat forallb sat_clause existsb sat_lit]. now rewrite H3.
Qed.

Lemma tick_Mul_NBit_le st : le_counters st (snd (tick_Mul_NBit st)).
Proof. intros k. destruct k; cbn; lia. Qed.

Lemma Mul_row_inj (p : string) c j k :
  small j -> small k ->
  (p ++ Pad.Z c ++ "_" ++ Pad.Z j)%string = (p ++ Pad.Z c ++ "_" ++ Pad.Z k)%string ->
  j = k.
Proof.
  intros Hj Hk H. do 3 apply append_inv_head in H. now apply Z_inj.
Qed.

Ltac unfold_names :=
  unfold AddNBit_carry, Mul_NBit_Accum1, Mul_NBit_Accum2, Mul_NBit_CarryOut,
    LessThan_NBit_Equals, LessThan_NBit_Less, LessThan_NBit_EqualAccum,
    LessThan_NBit_Result, DivMod_NBit_Accum, DivMode_NBit_MulOverflow,
    DivMode_NBit_AddOverflow in *.

(** The products the multiplier accumulates. *)
Lemma partial_product_step g n va k :
  (k < n)%nat ->
  va * (bval g n mod 2 ^ Z.of_nat (k + 1))
  = va * Z.b2z (g k) * 2 ^ Z.of_nat k + va * (bval g n mod 2 ^ Z.of_nat k).
Proof.
  intros Hk. rewrite !bval_mod by lia. rewrite Nat.add_1_r. cbn [bval]. lia.
Qed.

Lemma partial_product_bound va vb n k :
  0 <= va < 2 ^ Z.of_nat n -> 0 <= vb < 2 ^ Z.of_nat n ->
  0 <= va * (vb mod 2 ^ Z.of_nat k) < 2 ^ Z.of_nat (n * 2).
Proof.
  intros Ha Hb. pose proof (pow2_pos k).
  pose proof (Z.mod_pos_bound vb (2 ^ Z.of_nat k) ltac:(lia)).
  assert (vb mod 2 ^ Z.of_nat k <= vb) by (apply Z.mod_le; lia).
  replace (n * 2)%nat with (n + n)%nat by lia. rewrite pow2_add. nia.
Qed.

Lemma Mul_NBit_run a b r ov n st :
  Mul_NBit a b r ov n st =
  ((for_pure n (fun i =>
      Mul_NBit_1Bit_Shift a (b # i) (Mul_NBit_Accum1 (S (cnt KMul st)) i) i n)
    ++ for_pure (n * 2) (fun i => [[Neg (Mul_NBit_Accum2 (S (cnt KMul st)) 0 # i)]]))
   ++ fst (for_ n (fun i =>
             Add_NBit (Mul_NBit_Accum1 (S (cnt KMul st)) i)
                      (Mul_NBit_Accum2 (S (cnt KMul st)) i)
                      (Mul_NBit_Accum2 (S (cnt KMul st)) (i + 1))
                      (Mul_NBit_CarryOut (S (cnt KMul st)) i) (n * 2))
           (snd (tick_Mul_NBit st)))
   ++ (for_pure n (fun i =>
         [[Neg (r # i); Pos (Mul_NBit_Accum2 (S (cnt KMul st)) n # i)];
          [Pos (r # i); Neg (Mul_NBit_Accum2 (S (cnt KMul st)) n # i)]])
       ++ [Neg ov :: map (fun i => Pos (Mul_NBit_Accum2 (S (cnt KMul st)) n # (i + n)))
                         (seq 0 n)]
       ++ for_pure n (fun i =>
            [[Pos ov; Neg (Mul_NBit_Accum2 (S (cnt KMul st)) n # (i + n))]])),
   snd (for_ n (fun i =>
             Add_NBit (Mul_NBit_Accum1 (S (cnt KMul st)) i)
                      (Mul_NBit_Accum2 (S (cnt KMul st)) i)
                      (Mul_NBit_Accum2 (S (cnt KMul st)) (i + 1))
                      (Mul_NBit_CarryOut (S (cnt KMul st)) i) (n * 2))
           (snd (tick_Mul_NBit st)))).
Proof.
  unfold Mul_NBit, bind, ret, tick_Mul_NBit. cbn [fst snd cnt].
  cbv beta iota zeta.
  match goal with |- context [for_ n ?b ?t] => destruct (for_ n b t) as [adds st2] end.
  cbn [fst snd]. now rewrite <- app_assoc.
Qed.

Lemma Mul_NBit_ok a b r ov n st :
  stable st a -> stable st b -> stable st r -> old st ov -> small (n * 2 + 1) ->
  run_ok (Mul_NBit a b r ov n) st
    (fun s => value s r n = (value s a n * value s b n) mod 2 ^ Z.of_nat n /\
              s ov = negb ((value s a n * value s b n) / 2 ^ Z.of_nat n =? 0)).
Proof.
  intros Ha Hb Hr Hov Hn.
  pose proof (tick_Mul_NBit_le st) as Hle1.
  unfold run_ok. rewrite Mul_NBit_run. cbn [fst snd].
  set (c := S (cnt KMul st)). set (st1 := snd (tick_Mul_NBit st)) in *.
  assert (Hc1 : cnt KMul st1 = c) by reflexivity.
  set (body := fun i => Add_NBit (Mul_NBit_Accum1 c i) (Mul_NBit_Accum2 c i)
                 (Mul_NBit_Accum2 c (i + 1)) (Mul_NBit_CarryOut c i) (n * 2)).
  set (pre := fun (j : nat) (s : assignment) =>
     value s (Mul_NBit_Accum2 c (j + 1)) (n * 2)
     = (value s (Mul_NBit_Accum1 c j) (n * 2) + value s (Mul_NBit_Accum2 c j) (n * 2))
       mod 2 ^ Z.of_nat (n * 2) /\
     Z.b2z (s (Mul_NBit_CarryOut c j))
     = (value s (Mul_NBit_Accum1 c j) (n * 2) + value s (Mul_NBit_Accum2 c j) (n * 2))
       / 2 ^ Z.of_nat (n * 2)).
  (* what is known once the counters are known to be small *)
  assert (Hloop : small c -> run_ok (for_ n body) st1 (fun s => forall j, (j < n)%nat -> pre j s)).
  { intros Hc. apply for_ok.
    - intros j st2 Hj Hle. subst body. cbv beta.
      apply Add_NBit_ok; try (apply (small_le _ (n * 2 + 1)); [lia|exact Hn]).
      + apply (stable_mono st1); [exact Hle|]. unfold_names.
        apply (stable_own KMul); [in_names|exact Hc|lia].
      + apply (stable_mono st1); [exact Hle|]. unfold_names.
        apply (stable_own KMul); [in_names|exact Hc|lia].
      + apply (stable_mono st1); [exact Hle|]. unfold_names.
        apply (stable_own KMul); [in_names|exact Hc|lia].
      + apply (old_mono st1); [exact Hle|]. apply stable_old. unfold_names.
        apply (stable_own KMul); [in_names|exact Hc|lia].
    - intros j s1 s2 (P1 & P2) Hag. unfold pre.
      assert (S1 : forall k, stable st1 (Mul_NBit_Accum1 c k)).
      { intros k. unfold_names. apply (stable_own KMul); [in_names|exact Hc|lia]. }
      assert (S2 : forall k, stable st1 (Mul_NBit_Accum2 c k)).
      { intros k. unfold_names. apply (stable_own KMul); [in_names|exact Hc|lia]. }
      assert (S3 : old st1 (Mul_NBit_CarryOut c j)).
      { apply stable_old. unfold_names.
        apply (stable_own KMul); [in_names|exact Hc|lia]. }
      rewrite !(value_agree st1 s1 s2) by (apply S1 || apply S2 || exact Hag).
      rewrite (Hag _ S3). now split. }
  destruct (for_ n body st1) as [adds st2] eqn:Eloop. cbn [fst snd].
  assert (Hle2 : small c -> le_counters st1 st2).
  { intros Hc. destruct (Hloop Hc) as [H _]. now rewrite Eloop in H. }
  assert (Hle2' : le_counters st1 st2).
  { pose proof (for_from_grows body) as G.
    specialize (G (fun j st => tick_Add_NBit_le st) n 0%nat st1).
    unfold for_ in Eloop. now rewrite Eloop in G. }
  split; [exact (le_counters_trans _ _ _ Hle1 Hle2')|].
  intros Hs.
  assert (Hc : small c).
  { apply (small_le c (cnt KMul st2)); [|apply Hs].
    rewrite <- Hc1. apply Hle2'. }
  destruct (Hloop Hc) as (_ & Hl). rewrite Eloop in Hl. cbn [fst snd] in Hl.
  destruct (Hl Hs) as (Hvadds & Hmadds). clear Hl Hloop Hle2.
  assert (Hsm : forall i, (i <= n * 2)%nat -> small i).
  { intros i Hi. apply (small_le i (n * 2 + 1)); [lia|exact Hn]. }
  assert (S1 : forall k, stable st1 (Mul_NBit_Accum1 c k)).
  { intros k. unfold_names. apply (stable_own KMul); [in_names|exact Hc|lia]. }
  assert (S2 : forall k, stable st1 (Mul_NBit_Accum2 c k)).
  { intros k. unfold_names. apply (stable_own KMul); [in_names|exact Hc|lia]. }
  assert (S3 : forall k, old st1 (Mul_NBit_CarryOut c k)).
  { intros k. apply stable_old. unfold_names.
    apply (stable_own KMul); [in_names|exact Hc|lia]. }
  assert (Hold : forall x, old st x -> old st1 x)
    by (intros x; apply old_mono; exact Hle1).
  assert (Hpure : all_vars (old st1)
     (for_pure n (fun i =>
        Mul_NBit_1Bit_Shift a (b # i) (Mul_NBit_Accum1 c i) i n)
      ++ for_pure (n * 2) (fun i => [[Neg (Mul_NBit_Accum2 c 0 # i)]]))
     /\ all_vars (old st1)
     (for_pure n (fun i =>
        [[Neg (r # i); Pos (Mul_NBit_Accum2 c n # i)];
         [Pos (r # i); Neg (Mul_NBit_Accum2 c n # i)]])
      ++ [Neg ov :: map (fun i => Pos (Mul_NBit_Accum2 c n # (i + n))) (seq 0 n)]
      ++ for_pure n (fun i => [[Pos ov; Neg (Mul_NBit_Accum2 c n # (i + n))]]))).
  { split.
    - apply all_vars_app.
      + apply all_vars_for_pure. intros i Hi.
        apply Mul_NBit_1Bit_Shift_vars; try lia.
        * intros j Hj. apply Hold, stable_bit, Ha.
        * apply Hold, stable_bit, Hb.
        * intros j Hj. apply stable_bit, S1.
      + apply all_vars_for_pure. intros i Hi.
        pose proof (stable_bit _ _ i (S2 0%nat)). vars_cases.
    - apply all_vars_app; [|apply all_vars_app].
      + apply all_vars_for_pure. intros i Hi.
        pose proof (stable_bit _ _ i (S2 n)).
        pose proof (Hold _ (stable_bit _ _ i Hr)). vars_cases.
      + apply all_vars_cons; [|apply all_vars_nil].
        intros l [<-|Hl]; [exact (Hold _ Hov)|].
        apply in_map_iff in Hl. destruct Hl as (i & <- & _).
        apply stable_bit, S2.
      + apply all_vars_for_pure. intros i Hi.
        pose proof (stable_bit _ _ (i + n) (S2 n)).
        pose proof (Hold _ Hov). vars_cases. }
  destruct Hpure as (Hv1 & Hv2).
  assert (Hold2 : forall x, old st1 x -> old st2 x)
    by (intros x; apply old_mono; exact Hle2').
  split.
  { apply all_vars_app; [|apply all_vars_app].
    - exact (all_vars_impl _ _ _ Hold2 Hv1).
    - exact Hvadds.
    - exact (all_vars_impl _ _ _ Hold2 Hv2). }
  intros s (Hval & Hovv).
  set (f := fun i => s (a # i)) in *. set (g := fun i => s (b # i)) in *.
  change (value s a n) with (bval f n) in *.
  change (value s b n) with (bval g n) in *.
  pose proof (bval_range f n) as Hfa. pose proof (bval_range g n) as Hgb.
  set (v1 := fun k => bval f n * Z.b2z (g k) * 2 ^ Z.of_nat k).
  set (v2 := fun k => bval f n * (bval g n mod 2 ^ Z.of_nat k)).
  set (s1 := set_rows (Mul_NBit_Accum1 c) n (n * 2) v1
               (set_rows (Mul_NBit_Accum2 c) (S n) (n * 2) v2
                  (set_fam (Mul_NBit_CarryOut c) n (fun _ => false) s))).
  assert (N12 : forall k i k' i',
            Mul_NBit_Accum2 c k # i <> Mul_NBit_Accum1 c k' # i').
  { intros k i k' i'. unfold_names. rewrite !append_assoc.
    apply (own_neq KMul _ _ _ KMul); [in_names|in_names|exact Hc|exact Hc|].
    left. discriminate. }
  assert (N31 : forall k k' i', Mul_NBit_CarryOut c k <> Mul_NBit_Accum1 c k' # i').
  { intros k k' i'. unfold_names. rewrite !append_assoc.
    apply (own_neq KMul _ _ _ KMul); [in_names|in_names|exact Hc|exact Hc|].
    left. discriminate. }
  assert (N32 : forall k k' i', Mul_NBit_CarryOut c k <> Mul_NBit_Accum2 c k' # i').
  { intros k k' i'. unfold_names. rewrite !append_assoc.
    apply (own_neq KMul _ _ _ KMul); [in_names|in_names|exact Hc|exact Hc|].
    left. discriminate. }
  assert (R1 : forall k i, (k < n)%nat -> (i < n * 2)%nat ->
            s1 (Mul_NBit_Accum1 c k # i) = Z.testbit (v1 k) (Z.of_nat i)).
  { intros k i Hk Hi. unfold s1. apply set_rows_get; try assumption.
    - intros j Hj. unfold_names. apply Mul_row_inj; apply Hsm; lia.
    - apply Hsm. lia. }
  assert (R2 : forall k i, (k <= n)%nat -> (i < n * 2)%nat ->
            s1 (Mul_NBit_Accum2 c k # i) = Z.testbit (v2 k) (Z.of_nat i)).
  { intros k i Hk Hi. unfold s1. rewrite set_rows_other by (intros; apply N12).
    apply set_rows_get; try assumption; try lia.
    - intros j Hj. unfold_names. apply Mul_row_inj; apply Hsm; lia.
    - apply Hsm. lia. }
  assert (R3 : forall k, (k < n)%nat -> s1 (Mul_NBit_CarryOut c k) = false).
  { intros k Hk. unfold s1. rewrite set_rows_other by (intros; apply N31).
    rewrite set_rows_other by (intros; apply N32).
    apply (set_fam_get (Mul_NBit_CarryOut c) n (fun _ => false)); [|exact Hk].
    intros j Hj. unfold_names. apply Mul_row_inj; apply Hsm; lia. }
  assert (Hfresh : forall y,
            (forall suf, y <> ("Mul_NBit_Accum1_" ++ Pad.Z c ++ suf)%string) ->
            (forall suf, y <> ("Mul_NBit_Accum2_" ++ Pad.Z c ++ suf)%string) ->
            (forall suf, y <> ("Mul_NBit_CarryOut_" ++ Pad.Z c ++ suf)%string) ->
            s1 y = s y).
  { intros y F1 F2 F3. unfold s1.
    rewrite set_rows_other
      by (intros; unfold_names; rewrite !append_assoc; apply F1).
    rewrite set_rows_other
      by (intros; unfold_names; rewrite !append_assoc; apply F2).
    apply set_fam_other. intros; unfold_names; apply F3. }
  assert (R4 : forall y, old st y -> s1 y = s y).
  { intros y Hy. apply Hfresh; intros suf;
      apply (old_not_own st y KMul); try assumption; try in_names;
      fold c; lia. }
  assert (Hoff1 : agree_off (owned st st1) s s1).
  { intros y Hy. apply Hfresh; intros suf ->; apply Hy;
      apply (owned_own KMul); try in_names; rewrite Hc1; fold c; lia. }
  (* values in [s1] *)
  assert (B2 : forall k, (k <= n)%nat -> 0 <= v2 k < 2 ^ Z.of_nat (n * 2)).
  { intros k Hk. apply partial_product_bound; assumption. }
  assert (E12 : forall k, (k < n)%nat -> v1 k + v2 k = v2 (k + 1)%nat).
  { intros k Hk. unfold v1, v2. symmetry. now apply partial_product_step. }
  assert (B1 : forall k, (k < n)%nat -> 0 <= v1 k < 2 ^ Z.of_nat (n * 2)).
  { intros k Hk. pose proof (B2 k ltac:(lia)). pose proof (B2 (k + 1)%nat ltac:(lia)).
    pose proof (E12 k Hk). pose proof (pow2_pos k). pose proof (b2z_range (g k)).
    split; [unfold v1; nia|lia]. }
  assert (V1 : forall k, (k < n)%nat -> value s1 (Mul_NBit_Accum1 c k) (n * 2) = v1 k).
  { intros k Hk. rewrite (bits_value s1 _ (n * 2) (v1 k)).
    - apply Z.mod_small, B1, Hk.
    - intros i Hi. now apply R1. }
  assert (V2 : forall k, (k <= n)%nat -> value s1 (Mul_NBit_Accum2 c k) (n * 2) = v2 k).
  { intros k Hk. rewrite (bits_value s1 _ (n * 2) (v2 k)).
    - apply Z.mod_small, B2, Hk.
    - intros i Hi. now apply R2. }
  destruct (Hmadds s1) as (s2 & Hoff2 & Hsat2).
  { intros j Hj. unfold pre.
    rewrite V1, !V2, R3 by lia. rewrite E12 by lia.
    pose proof (B2 (j + 1)%nat ltac:(lia)).
    rewrite Z.mod_small, Z.div_small by lia. now split. }
  exists s2. split.
  { exact (agree_off_owned_trans _ _ _ _ _ _ Hle1 Hle2' Hoff1 Hoff2). }
  assert (Hag : agree_old st1 s1 s2) by exact (agree_off_old _ _ _ _ Hs Hoff2).
  apply sat_app_true. split; [|apply sat_app_true; split].
  - rewrite (sat_agree_old st1 s1 s2 _ Hv1 Hag).
    apply sat_app_true. split.
    + apply sat_for_pure. intros k Hk.
      apply Mul_NBit_1Bit_Shift_complete.
      * intros i Hi. rewrite R1 by lia. unfold v1.
        apply Z.mul_pow2_bits_low. lia.
      * intros i Hi. rewrite R1 by lia. rewrite !R4 by (apply stable_bit; assumption).
        unfold v1. rewrite Z.mul_pow2_bits by lia.
        replace (Z.of_nat (i + k) - Z.of_nat k) with (Z.of_nat i) by lia.
        fold (f i). fold (g k).
        destruct (g k); cbn [Z.b2z].
        -- rewrite Z.mul_1_r, testbit_bval by exact Hi. now rewrite andb_true_r.
        -- rewrite Z.mul_0_r, Z.bits_0. now rewrite andb_false_r.
      * intros i Hi. rewrite R1 by lia.
        apply (testbit_high _ (k + n)); [|lia].
        unfold v1. rewrite pow2_add. pose proof (pow2_pos k).
        destruct (g k); cbn [Z.b2z]; nia.
    + apply sat_for_pure. intros i Hi.
      cbn [sat forallb sat_clause existsb sat_lit]. rewrite R2 by lia.
      unfold v2. cbn [Z.of_nat Z.pow]. rewrite Z.mod_1_r, Z.mul_0_r, Z.bits_0.
      reflexivity.
  - exact Hsat2.
  - rewrite (sat_agree_old st1 s1 s2 _ Hv2 Hag).
    assert (En : v2 n = bval f n * bval g n).
    { unfold v2. now rewrite Z.mod_small by exact Hgb. }
    rewrite !sat_app_true. repeat split.
    + apply sat_for_pure. intros i Hi.
      assert (E : s1 (r # i) = s1 (Mul_NBit_Accum2 c n # i)).
      { rewrite R2 by lia. rewrite R4 by (apply stable_bit; exact Hr).
        rewrite En. now apply (value_bits s r n). }
      revert E. gate_cases.
    + pose proof (or_reduce_complete s1
                    (fun i => Mul_NBit_Accum2 c n # (i + n)) ov n) as (O1 & _).
      * rewrite (R4 ov Hov), Hovv. f_equal. f_equal. symmetry.
        rewrite (bval_ext _ (fun i => Z.testbit (bval f n * bval g n / 2 ^ Z.of_nat n)
                                        (Z.of_nat i)) n).
        -- rewrite bval_testbit. apply Z.mod_small.
           pose proof (pow2_pos n). split; [apply Z.div_pos; nia|].
           apply Z.div_lt_upper_bound; nia.
        -- intros i Hi. rewrite R2 by lia. rewrite En.
           rewrite Z.div_pow2_bits by lia. f_equal. lia.
      * cbn [sat forallb]. now rewrite O1.
    + pose proof (or_reduce_complete s1
                    (fun i => Mul_NBit_Accum2 c n # (i + n)) ov n) as (_ & O2).
      * rewrite (R4 ov Hov), Hovv. f_equal. f_equal. symmetry.
        rewrite (bval_ext _ (fun i => Z.testbit (bval f n * bval g n / 2 ^ Z.of_nat n)
                                        (Z.of_nat i)) n).
        -- rewrite bval_testbit. apply Z.mod_small.
           pose proof (pow2_pos n). split; [apply Z.div_pos; nia|].
           apply Z.div_lt_upper_bound; nia.
        -- intros i Hi. rewrite R2 by lia. rewrite En.
           rewrite Z.div_pow2_bits by lia. f_equal. lia.
      * apply sat_for_pure. exact O2.
Qed.

(* ================================================================== *)
(** * Models: comparison and division *)

Lemma is_name_in p : is_name p = true -> exists k, In (k, p) names.
Proof.
  intros H. apply existsb_exists in H. destruct H as ([k q] & Hin & H).
  cbn [snd] in H. apply String.eqb_eq in H. subst q. now exists k.
Qed.

Lemma own_neq_b p c s q c' t :
  is_name p = true -> is_name q = true -> small c -> small c' ->
  String.eqb p q = false ->
  (p ++ Pad.Z c ++ s)%string <> (q ++ Pad.Z c' ++ t)%string.
Proof.
  intros Hp Hq Hc Hc' Hn.
  destruct (is_name_in p Hp) as (k & Hk). destruct (is_name_in q Hq) as (k' & Hk').
  apply (own_neq k p c s k' q c' t Hk Hk' Hc Hc'). left.
  now apply String.eqb_neq.
Qed.

Ltac fam_neq :=
  unfold_names; rewrite ?append_assoc;
  apply own_neq_b;
  [vm_compute; reflexivity | vm_compute; reflexivity
   | assumption | assumption | vm_compute; reflexivity].

(** Where two numbers differ, the larger has the highest differing bit. *)
Lemma bval_lt_witness f g n :
  bval f n < bval g n ->
  exists i, (i < n)%nat /\ f i = false /\ g i = true /\
            forall j, (i < j < n)%nat -> f j = g j.
Proof.
  induction n as [|n IH]; intros H; [cbn in H; lia|].
  cbn [bval] in H.
  pose proof (bval_range f n). pose proof (bval_range g n).
  destruct (f n) eqn:Ef, (g n) eqn:Eg; cbn [Z.b2z] in H.
  - destruct IH as (i & Hi & Hf & Hg & Hj); [lia|].
    exists i. split; [lia|]. split; [exact Hf|]. split; [exact Hg|].
    intros j Hj'. destruct (Nat.eq_dec j n) as [->|]; [congruence|apply Hj; lia].
  - lia.
  - exists n. split; [lia|]. split; [exact Ef|]. split; [exact Eg|].
    intros j Hj. lia.
  - destruct IH as (i & Hi & Hf & Hg & Hj); [lia|].
    exists i. split; [lia|]. split; [exact Hf|]. split; [exact Hg|].
    intros j Hj'. destruct (Nat.eq_dec j n) as [->|]; [congruence|apply Hj; lia].
Qed.

Lemma tick_LessThan_NBit_le st : le_counters st (snd (tick_LessThan_NBit st)).
Proof. intros k. destruct k; cbn; lia. Qed.

Lemma LessThan_NBit_ok a b n st :
  stable st a -> stable st b -> small (S n) ->
  run_ok (LessThan_NBit a b n) st (fun s => value s a n < value s b n).
Proof.
  intros Ha Hb Hn.
  unfold run_ok.
  change (LessThan_NBit a b n st)
    with (LessThan_NBit_body a b n (S (cnt KLessThan st)),
          snd (tick_LessThan_NBit st)).
  cbn [fst snd].
  pose proof (tick_LessThan_NBit_le st) as Hle.
  set (st' := snd (tick_LessThan_NBit st)) in *.
  set (c := S (cnt KLessThan st)).
  split; [exact Hle|]. intros Hs.
  assert (Hc : small c) by exact (Hs KLessThan).
  assert (Hsm : forall i, (i <= n)%nat -> small i).
  { intros i Hi. apply (small_le i (S n)); [lia|exact Hn]. }
  assert (S1 : forall i, old st' (LessThan_NBit_Equals c i)).
  { intros i. apply stable_old. unfold_names.
    apply (stable_own KLessThan); [in_names|exact Hc|subst c st'; cbn; lia]. }
  assert (S2 : forall i, old st' (LessThan_NBit_Less c i)).
  { intros i. apply stable_old. unfold_names.
    apply (stable_own KLessThan); [in_names|exact Hc|subst c st'; cbn; lia]. }
  assert (S3 : forall i, old st' (LessThan_NBit_EqualAccum c i)).
  { intros i. apply stable_old. unfold_names.
    apply (stable_own KLessThan); [in_names|exact Hc|subst c st'; cbn; lia]. }
  assert (S4 : forall i, old st' (LessThan_NBit_Result c i)).
  { intros i. apply stable_old. unfold_names.
    apply (stable_own KLessThan); [in_names|exact Hc|subst c st'; cbn; lia]. }
  assert (Hold : forall x, old st x -> old st' x)
    by (intros x; apply old_mono; exact Hle).
  split.
  - unfold LessThan_NBit_body.
    repeat apply all_vars_app.
    + apply all_vars_for_pure. intros i Hi.
      apply Equals_1Bit_vars;
        [apply Hold, stable_bit, Ha|apply Hold, stable_bit, Hb|apply S1].
    + apply all_vars_for_pure. intros i Hi.
      apply LessThan_1Bit_vars;
        [apply Hold, stable_bit, Ha|apply Hold, stable_bit, Hb|apply S2].
    + pose proof (S3 n). vars_cases.
    + apply all_vars_for_pure. intros i Hi.
      apply And_1Bit_vars; [apply S3|apply S1|apply S3].
    + apply all_vars_for_pure. intros i Hi.
      apply And_1Bit_vars; [apply S3|apply S2|apply S4].
    + apply all_vars_cons; [|apply all_vars_nil].
      intros l Hl. apply in_map_iff in Hl. destruct Hl as (i & <- & _). apply S4.
  - intros s Hlt.
    set (f := fun i => s (a # i)) in *. set (g := fun i => s (b # i)) in *.
    change (value s a n) with (bval f n) in Hlt.
    change (value s b n) with (bval g n) in Hlt.
    set (eq_ := fun i => Bool.eqb (f i) (g i)).
    set (lt_ := fun i => negb (f i) && g i).
    set (ea := fun i => forallb eq_ (seq i (n - i))).
    set (rs := fun i => ea (i + 1)%nat && lt_ i).
    set (s1 := set_fam (LessThan_NBit_Equals c) n eq_
                 (set_fam (LessThan_NBit_Less c) n lt_
                    (set_fam (LessThan_NBit_EqualAccum c) (S n) ea
                       (set_fam (LessThan_NBit_Result c) n rs s)))).
    assert (Hinj : forall (p : string) j k, (j <= n)%nat -> (k <= n)%nat ->
              (p ++ Pad.Z c ++ "_" ++ Pad.Z j)%string
              = (p ++ Pad.Z c ++ "_" ++ Pad.Z k)%string -> j = k).
    { intros p j k Hj Hk. apply Mul_row_inj; apply Hsm; lia. }
    assert (R1 : forall i, (i < n)%nat -> s1 (LessThan_NBit_Equals c i) = eq_ i).
    { intros i Hi. unfold s1. apply set_fam_get; [|exact Hi].
      intros j Hj. unfold_names. apply Hinj; lia. }
    assert (R2 : forall i, (i < n)%nat -> s1 (LessThan_NBit_Less c i) = lt_ i).
    { intros i Hi. unfold s1. rewrite set_fam_other by (intros; fam_neq).
      apply set_fam_get; [|exact Hi].
      intros j Hj. unfold_names. apply Hinj; lia. }
    assert (R3 : forall i, (i <= n)%nat -> s1 (LessThan_NBit_EqualAccum c i) = ea i).
    { intros i Hi. unfold s1. do 2 rewrite set_fam_other by (intros; fam_neq).
      apply set_fam_get; [|lia].
      intros j Hj. unfold_names. apply Hinj; lia. }
    assert (R4 : forall i, (i < n)%nat -> s1 (LessThan_NBit_Result c i) = rs i).
    { intros i Hi. unfold s1. do 3 rewrite set_fam_other by (intros; fam_neq).
      apply set_fam_get; [|lia].
      intros j Hj. unfold_names. apply Hinj; lia. }
    assert (Hfresh : forall y,
              (forall p suf, In (KLessThan, p) names ->
                             y <> (p ++ Pad.Z c ++ suf)%string) ->
              s1 y = s y).
    { intros y F. unfold s1.
      do 4 (rewrite set_fam_other
              by (intros; unfold_names; apply F; in_names)).
      reflexivity. }
    assert (R5 : forall y, old st y -> s1 y = s y).
    { intros y Hy. apply Hfresh. intros p suf Hp.
      apply (old_not_own st y KLessThan); try assumption. fold c. lia. }
    exists s1. split.
    + intros y Hy. apply Hfresh. intros p suf Hp ->. apply Hy.
      apply (owned_own KLessThan); [exact Hp|]. subst c st'. cbn. lia.
    + assert (Eea : forall i, (i < n)%nat -> ea i = ea (i + 1)%nat && eq_ i).
      { intros i Hi. unfold ea.
        replace (n - i)%nat with (S (n - (i + 1))) by lia.
        cbn [seq forallb]. rewrite Nat.add_1_r. apply andb_comm. }
      unfold LessThan_NBit_body. rewrite !sat_app_true. repeat split.
      * apply sat_for_pure. intros i Hi. apply Equals_1Bit_complete.
        rewrite R1 by lia. rewrite !R5 by (apply stable_bit; assumption).
        reflexivity.
      * apply sat_for_pure. intros i Hi. apply LessThan_1Bit_complete.
        rewrite R2 by lia. rewrite !R5 by (apply stable_bit; assumption).
        reflexivity.
      * cbn [sat forallb sat_clause existsb sat_lit]. rewrite R3 by lia.
        unfold ea. rewrite Nat.sub_diag. reflexivity.
      * apply sat_for_pure. intros i Hi. apply And_1Bit_complete.
        rewrite !R3, R1 by lia. now apply Eea.
      * apply sat_for_pure. intros i Hi. apply And_1Bit_complete.
        rewrite R4, R3, R2 by lia. reflexivity.
      * cbn [sat forallb]. rewrite andb_true_r.
        apply (sat_clause_pos s1 (LessThan_NBit_Result c)).
        destruct (bval_lt_witness f g n Hlt) as (i & Hi & Hf & Hg & Hj).
        exists i. split; [apply in_seq; lia|]. rewrite R4 by lia.
        unfold rs, lt_. rewrite Hf, Hg. cbn [negb andb]. rewrite andb_true_r.
        unfold ea. apply forallb_forall. intros j Hin. apply in_seq in Hin.
        unfold eq_. rewrite Hj by lia. apply Bool.eqb_reflx.
Qed.

Lemma tick_DivMod_NBit_le st : le_counters st (snd (tick_DivMod_NBit st)).
Proof. intros k. destruct k; cbn; lia. Qed.

Lemma upd_other s v b x : x <> v -> upd s v b x = s x.
Proof.
  intros H. unfold upd. destruct (String.eqb_spec x v); [contradiction|reflexivity].
Qed.

Lemma DivMod_NBit_run a b q r n st :
  DivMod_NBit a b q r n st =
  let c := S (cnt KDivMod st) in
  let st1 := snd (tick_DivMod_NBit st) in
  let m1 := Mul_NBit b q (DivMod_NBit_Accum c) (DivMode_NBit_MulOverflow c) n st1 in
  let m2 := Add_NBit (DivMod_NBit_Accum c) r a (DivMode_NBit_AddOverflow c) n (snd m1) in
  let m3 := LessThan_NBit r b n (snd m2) in
  (fst m1 ++ fst m2 ++ [[Neg (DivMode_NBit_MulOverflow c)]]
     ++ [[Neg (DivMode_NBit_AddOverflow c)]] ++ fst m3, snd m3).
Proof.
  unfold DivMod_NBit, bind, ret, tick_DivMod_NBit. cbv zeta. cbn [fst snd cnt].
  repeat (match goal with
          | |- context [let (_, _) := ?m in _] => destruct m as [? ?]
          end; cbn [fst snd]).
  reflexivity.
Qed.

Lemma Add_NBit_grows a b r ov n st : le_counters st (snd (Add_NBit a b r ov n st)).
Proof. apply tick_Add_NBit_le. Qed.

Lemma Mul_NBit_grows a b r ov n st : le_counters st (snd (Mul_NBit a b r ov n st)).
Proof.
  rewrite Mul_NBit_run. cbn [snd].
  apply (le_counters_trans _ _ _ (tick_Mul_NBit_le st)).
  apply for_from_grows. intros j st1. apply Add_NBit_grows.
Qed.

Lemma LessThan_NBit_grows a b n st : le_counters st (snd (LessThan_NBit a b n st)).
Proof. apply tick_LessThan_NBit_le. Qed.

Lemma DivMod_NBit_grows a b q r n st :
  le_counters st (snd (DivMod_NBit a b q r n st)).
Proof.
  rewrite DivMod_NBit_run. cbv zeta. cbn [snd].
  apply (le_counters_trans _ _ _ (tick_DivMod_NBit_le st)).
  eapply le_counters_trans; [apply Mul_NBit_grows|].
  eapply le_counters_trans; [apply Add_NBit_grows|].
  apply LessThan_NBit_grows.
Qed.

Lemma own_neq_0 p c q c' t :
  is_name p = true -> is_name q = true -> small c -> small c' ->
  String.eqb p q = false ->
  (p ++ Pad.Z c)%string <> (q ++ Pad.Z c' ++ t)%string.
Proof.
  intros Hp Hq Hc Hc' Hn. rewrite <- (append_nil_r (Pad.Z c)).
  now apply own_neq_b.
Qed.

Lemma own_neq_00 p c q c' :
  is_name p = true -> is_name q = true -> small c -> small c' ->
  String.eqb p q = false ->
  (p ++ Pad.Z c)%string <> (q ++ Pad.Z c')%string.
Proof.
  intros Hp Hq Hc Hc' Hn. rewrite <- (append_nil_r (Pad.Z c')).
  now apply own_neq_0.
Qed.

Lemma stable_own_0 k p c st :
  In (k, p) names -> small c -> (c <= cnt k st)%nat ->
  stable st (p ++ Pad.Z c)%string.
Proof.
  intros. rewrite <- (append_nil_r (Pad.Z c)). now apply (stable_own k).
Qed.

Lemma owned_own_0 k p c st st' :
  In (k, p) names -> (cnt k st < c <= cnt k st')%nat ->
  owned st st' (p ++ Pad.Z c)%string.
Proof.
  intros. rewrite <- (append_nil_r (Pad.Z c)). now apply (owned_own k).
Qed.

Lemma old_not_own_0 st y k p c :
  old st y -> In (k, p) names -> small c -> (cnt k st < c)%nat ->
  y <> (p ++ Pad.Z c)%string.
Proof.
  intros. rewrite <- (append_nil_r (Pad.Z c)). now apply (old_not_own st y k).
Qed.

Lemma DivMod_NBit_ok a b q r n st :
  stable st a -> stable st b -> stable st q -> stable st r ->
  small (n * 2 + 1) ->
  run_ok (DivMod_NBit a b q r n) st
    (fun s => value s a n = value s b n * value s q n + value s r n /\
              value s r n < value s b n).
Proof.
  intros Ha Hb Hq Hr Hn.
  unfold run_ok. rewrite DivMod_NBit_run. cbv zeta. cbn [fst snd].
  set (c := S (cnt KDivMod st)).
  pose proof (tick_DivMod_NBit_le st) as Hle1.
  set (st1 := snd (tick_DivMod_NBit st)) in *.
  assert (Hc1 : cnt KDivMod st1 = c) by reflexivity.
  pose proof (Mul_NBit_grows b q (DivMod_NBit_Accum c)
                (DivMode_NBit_MulOverflow c) n st1) as Hle2.
  set (m1 := Mul_NBit b q (DivMod_NBit_Accum c) (DivMode_NBit_MulOverflow c) n st1) in *.
  pose proof (Add_NBit_grows (DivMod_NBit_Accum c) r a
                (DivMode_NBit_AddOverflow c) n (snd m1)) as Hle3.
  set (m2 := Add_NBit (DivMod_NBit_Accum c) r a (DivMode_NBit_AddOverflow c) n (snd m1)) in *.
  pose proof (LessThan_NBit_grows r b n (snd m2)) as Hle4.
  set (m3 := LessThan_NBit r b n (snd m2)) in *.
  assert (Hle12 : le_counters st (snd m1)) by exact (le_counters_trans _ _ _ Hle1 Hle2).
  assert (Hle13 : le_counters st (snd m2)) by exact (le_counters_trans _ _ _ Hle12 Hle3).
  split; [exact (le_counters_trans _ _ _ Hle13 Hle4)|].
  intros Hs4.
  assert (Hs3 : small_counters (snd m2)) by exact (small_counters_le _ _ Hle4 Hs4).
  assert (Hs2 : small_counters (snd m1)) by exact (small_counters_le _ _ Hle3 Hs3).
  assert (Hs1 : small_counters st1) by exact (small_counters_le _ _ Hle2 Hs2).
  assert (Hc : small c) by (rewrite <- Hc1; apply Hs1).
  assert (Hsn : small (S n)) by (apply (small_le _ (n * 2 + 1)); [lia|exact Hn]).
  assert (SA : stable st1 (DivMod_NBit_Accum c)).
  { unfold_names. apply (stable_own_0 KDivMod); [in_names|exact Hc|lia]. }
  assert (OM : old st1 (DivMode_NBit_MulOverflow c)).
  { apply stable_old. unfold_names.
    apply (stable_own_0 KDivMod); [in_names|exact Hc|lia]. }
  assert (OA : old st1 (DivMode_NBit_AddOverflow c)).
  { apply stable_old. unfold_names.
    apply (stable_own_0 KDivMod); [in_names|exact Hc|lia]. }
  assert (St1 : forall x, stable st x -> stable st1 x)
    by (intros x; apply stable_mono; exact Hle1).
  assert (St2 : forall x, stable st1 x -> stable (snd m1) x)
    by (intros x; apply stable_mono; exact Hle2).
  assert (St3 : forall x, stable (snd m1) x -> stable (snd m2) x)
    by (intros x; apply stable_mono; exact Hle3).
  destruct (Mul_NBit_ok b q (DivMod_NBit_Accum c) (DivMode_NBit_MulOverflow c) n st1)
    as (_ & M1); auto.
  destruct (Add_NBit_ok (DivMod_NBit_Accum c) r a (DivMode_NBit_AddOverflow c) n (snd m1))
    as (_ & M2); auto.
  { apply (old_mono st1); assumption. }
  destruct (LessThan_NBit_ok r b n (snd m2)) as (_ & M3); auto.
  fold m1 in M1. fold m2 in M2. fold m3 in M3.
  destruct (M1 Hs2) as (Hv1 & Hm1). destruct (M2 Hs3) as (Hv2 & Hm2).
  destruct (M3 Hs4) as (Hv3 & Hm3). clear M1 M2 M3.
  split.
  { apply all_vars_app; [|apply all_vars_app; [|apply all_vars_app;
      [|apply all_vars_app]]].
    - apply (all_vars_impl (old (snd m1))); [|exact Hv1].
      intros x. apply old_mono. exact (le_counters_trans _ _ _ Hle3 Hle4).
    - apply (all_vars_impl (old (snd m2))); [|exact Hv2].
      intros x. apply old_mono. exact Hle4.
    - assert (old (snd m3) (DivMode_NBit_MulOverflow c)).
      { apply (old_mono st1); [|exact OM].
        exact (le_counters_trans _ _ _ Hle2 (le_counters_trans _ _ _ Hle3 Hle4)). }
      vars_cases.
    - assert (old (snd m3) (DivMode_NBit_AddOverflow c)).
      { apply (old_mono st1); [|exact OA].
        exact (le_counters_trans _ _ _ Hle2 (le_counters_trans _ _ _ Hle3 Hle4)). }
      vars_cases.
    - exact Hv3. }
  intros s (Heq & Hlt).
  pose proof (value_range s a n) as Ra. pose proof (value_range s b n) as Rb.
  pose proof (value_range s q n) as Rq. pose proof (value_range s r n) as Rr.
  set (s0 := set_bits (DivMod_NBit_Accum c) n (value s b n * value s q n)
               (upd (upd s (DivMode_NBit_MulOverflow c) false)
                    (DivMode_NBit_AddOverflow c) false)).
  assert (Hfresh : forall y,
            (forall p suf, In (KDivMod, p) names ->
                           y <> (p ++ Pad.Z c ++ suf)%string) ->
            s0 y = s y).
  { intros y F. unfold s0. rewrite set_bits_other.
    - rewrite !upd_other; [reflexivity| |].
      + unfold_names. rewrite <- (append_nil_r (Pad.Z c)). apply F. in_names.
      + unfold_names. rewrite <- (append_nil_r (Pad.Z c)). apply F. in_names.
    - intros i _. unfold_names. rewrite append_assoc. apply F. in_names. }
  assert (R0 : forall y, old st y -> s0 y = s y).
  { intros y Hy. apply Hfresh. intros p suf Hp.
    apply (old_not_own st y KDivMod); try assumption. fold c. lia. }
  assert (Hoff0 : agree_off (owned st st1) s s0).
  { intros y Hy. apply Hfresh. intros p suf Hp ->. apply Hy.
    apply (owned_own KDivMod); [exact Hp|]. rewrite Hc1. fold c. lia. }
  assert (A0 : agree_old st s s0) by exact (agree_off_old _ _ _ _ Hs1 Hoff0).
  assert (VA : value s0 (DivMod_NBit_Accum c) n = value s b n * value s q n).
  { unfold s0. rewrite value_set_bits
      by (apply (small_le n (S n)); [lia|exact Hsn]).
    apply Z.mod_small. nia. }
  assert (VM : s0 (DivMode_NBit_MulOverflow c) = false).
  { unfold s0. rewrite set_bits_other.
    - rewrite upd_other.
      + unfold upd. now rewrite String.eqb_refl.
      + unfold_names. apply own_neq_00; try assumption; vm_compute; reflexivity.
    - intros i _. unfold_names. rewrite append_assoc.
      apply own_neq_0; try assumption; vm_compute; reflexivity. }
  assert (VO : s0 (DivMode_NBit_AddOverflow c) = false).
  { unfold s0. rewrite set_bits_other.
    - unfold upd at 1. now rewrite String.eqb_refl.
    - intros i _. unfold_names. rewrite append_assoc.
      apply own_neq_0; try assumption; vm_compute; reflexivity. }
  destruct (Hm1 s0) as (s2 & Hoff2 & Hsat2).
  { rewrite VA, !(value_agree st s s0) by assumption. split.
    - symmetry. apply Z.mod_small. nia.
    - rewrite VM. rewrite Z.div_small by nia. reflexivity. }
  assert (A2 : agree_old st1 s0 s2) by exact (agree_off_old _ _ _ _ Hs2 Hoff2).
  assert (A02 : agree_old st s s2).
  { apply (agree_old_trans st s s0 s2 A0). exact (agree_old_mono _ _ _ _ Hle1 A2). }
  destruct (Hm2 s2) as (s3 & Hoff3 & Hsat3).
  { rewrite (value_agree st1 s0 s2 (DivMod_NBit_Accum c)) by assumption.
    rewrite VA, !(value_agree st s s2) by assumption.
    rewrite (A2 _ OA), VO. cbn [Z.b2z].
    rewrite <- Heq. split.
    - symmetry. now apply Z.mod_small.
    - symmetry. now apply Z.div_small. }
  assert (A3 : agree_old (snd m1) s2 s3) by exact (agree_off_old _ _ _ _ Hs3 Hoff3).
  assert (A03 : agree_old st s s3).
  { apply (agree_old_trans st s s2 s3 A02). exact (agree_old_mono _ _ _ _ Hle12 A3). }
  destruct (Hm3 s3) as (s4 & Hoff4 & Hsat4).
  { now rewrite !(value_agree st s s3) by assumption. }
  assert (A4 : agree_old (snd m2) s3 s4) by exact (agree_off_old _ _ _ _ Hs4 Hoff4).
  exists s4. split.
  { apply (agree_off_owned_trans st (snd m2) (snd m3) s s3 s4 Hle13 Hle4); [|exact Hoff4].
    apply (agree_off_owned_trans st (snd m1) (snd m2) s s2 s3 Hle12 Hle3); [|exact Hoff3].
    exact (agree_off_owned_trans st st1 (snd m1) s s0 s2 Hle1 Hle2 Hoff0 Hoff2). }
  assert (A24 : agree_old (snd m1) s2 s4).
  { apply (agree_old_trans _ s2 s3 s4 A3). exact (agree_old_mono _ _ _ _ Hle3 A4). }
  assert (A04' : agree_old st1 s0 s4).
  { apply (agree_old_trans _ s0 s2 s4 A2). exact (agree_old_mono _ _ _ _ Hle2 A24). }
  rewrite !sat_app_true. repeat split.
  - now rewrite (sat_agree_old (snd m1) s2 s4 _ Hv1 A24).
  - now rewrite (sat_agree_old (snd m2) s3 s4 _ Hv2 A4).
  - cbn [sat forallb sat_clause existsb sat_lit]. now rewrite (A04' _ OM), VM.
  - cbn [sat forallb sat_clause existsb sat_lit]. now rewrite (A04' _ OA), VO.
  - exact Hsat4.
Qed.

(* ================================================================== *)
(** * Determinacy: the inputs fix every wire *)






(* ================================================================== *)
(** * Division: one model, and only one *)

Lemma Input_Equals_Number_vars (P : string -> Prop) x v n :
  (forall i, (i < n)%nat -> P (x # i)) -> all_vars P (Input_Equals_Number x v n).
Proof.
  intros H. unfold Input_Equals_Number. apply all_vars_for_pure. intros i Hi.
  pose proof (H i Hi).
  destruct (Z.land (Z.shiftr v (Z.of_nat i)) 1 =? 1); vars_cases.
Qed.

Lemma value_set_bits_other x y n m v s :
  x <> y -> small n -> small m ->
  value (set_bits x n v s) y m = value s y m.
Proof.
  intros Hxy Hn Hm. unfold value. apply bval_ext. intros i Hi.
  apply set_bits_other. intros j Hj. apply bit_name_neq.
  - apply (small_le i m); [lia|exact Hm].
  - apply (small_le j n); [lia|exact Hn].
  - congruence.
Qed.



(* ================================================================== *)
(** * Building models step by step *)

Lemma holds_nil st s : holds st s [].
Proof. split; [apply all_vars_nil|reflexivity]. Qed.

Lemma holds_app st s X Y : holds st s X -> holds st s Y -> holds st s (X ++ Y).
Proof.
  intros [V1 S1] [V2 S2]. split; [now apply all_vars_app|].
  apply sat_app_true. now split.
Qed.

Lemma holds_app_inv st s X Y : holds st s (X ++ Y) -> holds st s X /\ holds st s Y.
Proof.
  intros [V S]. apply all_vars_app_inv in V. apply sat_app_true in S.
  destruct V, S. now repeat split.
Qed.

Lemma holds_move st st' s s' X :
  le_counters st st' -> agree_old st s s' -> holds st s X -> holds st' s' X.
Proof.
  intros Hle Ha [V S]. split.
  - apply (all_vars_impl (old st)); [|exact V]. intros x. now apply old_mono.
  - now rewrite (sat_agree_old st s s' X V Ha).
Qed.

Lemma holds_for_pure st s n body :
  (forall i, (i < n)%nat -> holds st s (body i)) -> holds st s (for_pure n body).
Proof.
  intros H. split.
  - apply all_vars_for_pure. intros i Hi. apply H, Hi.
  - apply sat_for_pure. intros i Hi. apply H, Hi.
Qed.

Lemma holds_for_range st s lo hi body :
  (forall i, (lo <= i < hi)%nat -> holds st s (body i)) ->
  holds st s (for_range lo hi body).
Proof.
  intros H. split.
  - apply all_vars_for_range. intros i Hi. apply H, Hi.
  - apply for_range_sat. intros i Hi. apply H. lia.
Qed.

(** One call, from an assignment that meets its precondition. *)
Lemma run_step m st pre s :
  run_ok m st pre -> small_counters (snd (m st)) -> pre s ->
  exists s', agree_off (owned st (snd (m st))) s s' /\
             agree_old st s s' /\
             holds (snd (m st)) s' (fst (m st)).
Proof.
  intros (Hle & H) Hs Hp. destruct (H Hs) as (Hv & Hm).
  destruct (Hm s Hp) as (s' & Ho & Hsat).
  exists s'. split; [exact Ho|]. split; [|now split].
  apply (agree_off_old st (snd (m st))); [|exact Ho].
  exact Hs.
Qed.

(** ** Writes confined to the names of one call *)

Lemma writes_refl k c s : writes k c s s.
Proof. intros y _. reflexivity. Qed.

Lemma writes_trans k c s1 s2 s3 :
  writes k c s1 s2 -> writes k c s2 s3 -> writes k c s1 s3.
Proof. intros H1 H2 y Hy. rewrite H2, H1; auto. Qed.

Lemma made_app k c x r : made k c x -> made k c (x ++ r)%string.
Proof.
  intros (p & suf & Hin & ->). exists p, (suf ++ r)%string.
  split; [exact Hin|]. now rewrite !append_assoc.
Qed.

Lemma writes_set_fam k c name m v s s0 :
  writes k c s s0 -> (forall i, made k c (name i)) ->
  writes k c s (set_fam name m v s0).
Proof.
  intros H0 Hn y Hy. rewrite set_fam_other; [now apply H0|].
  intros i _ E.
  destruct (Hn i) as (p & suf & Hin & Ep). rewrite Ep in E.
  exact (Hy p suf Hin E).
Qed.

Lemma writes_upd k c x b s s0 :
  writes k c s s0 -> made k c x -> writes k c s (upd s0 x b).
Proof.
  intros H0 (p & suf & Hin & Ep) y Hy. rewrite upd_other; [now apply H0|].
  rewrite Ep. exact (Hy p suf Hin).
Qed.

Lemma writes_set_bits k c x n v s s0 :
  writes k c s s0 -> made k c x -> writes k c s (set_bits x n v s0).
Proof.
  intros H0 Hx. unfold set_bits. apply writes_set_fam; [exact H0|]. intros i.
  now apply made_app.
Qed.

Lemma writes_set_rows k c row m n v s s0 :
  writes k c s s0 -> (forall i, made k c (row i)) ->
  writes k c s (set_rows row m n v s0).
Proof.
  intros H0 Hr. induction m as [|m IH]; [exact H0|].
  cbn [set_rows]. apply writes_set_bits; [exact IH|apply Hr].
Qed.

Lemma writes_old k c st s s' :
  writes k c s s' -> small c -> (cnt k st < c)%nat -> agree_old st s s'.
Proof.
  intros H Hc Hlt y Hy. apply H. intros p suf Hin.
  now apply (old_not_own st y k).
Qed.

Lemma writes_off k c st st' s s' :
  writes k c s s' -> (cnt k st < c <= cnt k st')%nat ->
  agree_off (owned st st') s s'.
Proof.
  intros H Hc y Hy. apply H. intros p suf Hin ->. apply Hy.
  now apply (owned_own k).
Qed.

Lemma made_intro k p c suf : In (k, p) names -> made k c (p ++ Pad.Z c ++ suf)%string.
Proof. intros H. now exists p, suf. Qed.

Lemma made_intro_0 k p c : In (k, p) names -> made k c (p ++ Pad.Z c)%string.
Proof. intros H. exists p, EmptyString. now rewrite append_nil_r. Qed.

Lemma made_stable k c x st :
  made k c x -> small c -> (c <= cnt k st)%nat -> stable st x.
Proof. intros (p & suf & Hin & ->) Hc Hle. now apply (stable_own k). Qed.

Lemma made_neq k c x k' c' y :
  made k c x -> made k' c' y -> small c -> small c' ->
  k <> k' \/ c <> c' -> x <> y.
Proof.
  intros (p & s & Hp & ->) (q & t & Hq & ->) Hc Hc' Hn E.
  destruct (decomp_unique k p c s k' q c' t Hp Hq Hc Hc' E) as (? & _ & ? & _).
  tauto.
Qed.

Ltac unfold_all_names :=
  unfold AddNBit_carry, Mul_NBit_Accum1, Mul_NBit_Accum2, Mul_NBit_CarryOut,
    LessThan_NBit_Equals, LessThan_NBit_Less, LessThan_NBit_EqualAccum,
    LessThan_NBit_Result, DivMod_NBit_Accum, DivMode_NBit_MulOverflow,
    DivMode_NBit_AddOverflow,
    Pow_NBit_Temp1, Pow_NBit_Temp1Overflow, Pow_NBit_Temp2, Pow_NBit_PowAccum,
    Pow_NBit_PowAccumOverflow, Pow_NBit_PowAccumOverflowAccum,
    Pow_NBit_OverflowTemp, Pow_NBit_PowAccumOverflow_OR, Pow_NBit_OverflowTemp_OR,
    PowMod_NBit_Base_DoubleSize, PowMod_NBit_Exp_DoubleSize,
    PowMod_NBit_Mod_DoubleSize, PowMod_NBit_PartialResult, PowMod_NBit_CurrentPow,
    PowMod_NBit_BitFactor, PowMod_NBit_Multipled, PowMod_NBit_MultipledOverflow,
    PowMod_NBit_Div1, PowMod_NBit_SquareBase, PowMod_NBit_SquareBaseOverflow,
    PowMod_NBit_Div2, Or_Condition_literal, Sum_NBit_Accum, Sum_NBit_Overflow,
    Product_NBit_Accum, Product_NBit_Overflow, FermatTest_result,
    FermatTest3_result, FermatTest2_Prime_Minus1, FermatTest2_Prime_Minus1_Overflow,
    IsPrime_Pow, IsPrime_PowTemp,
    IsPrime_Prime, IsPrime_Pow_row, IsPrime_PowTemp_row,
    IsPrime_PowTemp_Overflow, IsPrime_Product, IsPrime_Product_Overflow,
    IsPrime_Product_Plus1, IsPrime_Product_Plus1_Overflow, IsPrime_SumPow,
    IsPrime_SumPow_Overflow, IsPrime_Prime_Minus1, IsPrime_Prime_Minus1_Overflow,
    IsPrime_Div, IsPrime_Mod, IsPrime_Generator.

(** [made k c x] for a name written out in the source's way. *)
Ltac made_tac :=
  unfold_all_names; rewrite ?append_assoc;
  lazymatch goal with
  | |- made _ _ (_ ++ Pad.Z _ ++ _)%string => apply made_intro; in_names
  | |- made _ _ (_ ++ Pad.Z _)%string => apply made_intro_0; in_names
  end.

Lemma own_neq_0r p c s q c' :
  is_name p = true -> is_name q = true -> small c -> small c' ->
  String.eqb p q = false ->
  (p ++ Pad.Z c ++ s)%string <> (q ++ Pad.Z c')%string.
Proof.
  intros Hp Hq Hc Hc' Hn. rewrite <- (append_nil_r (Pad.Z c')).
  now apply own_neq_b.
Qed.

(** Two names of the source with different literals differ. *)
Ltac name_neq :=
  unfold_all_names; rewrite ?append_assoc;
  lazymatch goal with
  | |- (_ ++ Pad.Z _ ++ _)%string <> (_ ++ Pad.Z _ ++ _)%string => apply own_neq_b
  | |- (_ ++ Pad.Z _)%string <> (_ ++ Pad.Z _ ++ _)%string => apply own_neq_0
  | |- (_ ++ Pad.Z _ ++ _)%string <> (_ ++ Pad.Z _)%string => apply own_neq_0r
  | |- (_ ++ Pad.Z _)%string <> (_ ++ Pad.Z _)%string => apply own_neq_00
  end;
  [vm_compute; reflexivity | vm_compute; reflexivity
   | assumption | assumption | vm_compute; reflexivity].

(** The run equation of a generator: its binds read off. *)
Ltac run_eq :=
  cbv zeta; cbn [fst snd cnt];
  repeat (match goal with
          | |- context [let (_, _) := ?m in _] => destruct m as [? ?]
          end; cbn [fst snd]);
  reflexivity.

(* ================================================================== *)
(** * Models: the pure gadgets *)

Lemma holds_unit_neg st (s : assignment) x :
  old st x -> s x = false -> holds st s [[Neg x]].
Proof.
  intros Ho Hx. split; [vars_cases|].
  cbn [sat forallb sat_clause existsb sat_lit]. now rewrite Hx.
Qed.

Lemma holds_unit_pos st (s : assignment) x :
  old st x -> s x = true -> holds st s [[Pos x]].
Proof.
  intros Ho Hx. split; [vars_cases|].
  cbn [sat forallb sat_clause existsb sat_lit]. now rewrite Hx.
Qed.

Lemma Equals_NBit_vars (P : string -> Prop) a b n :
  (forall i, (i < n)%nat -> P (a # i)) -> (forall i, (i < n)%nat -> P (b # i)) ->
  all_vars P (Equals_NBit a b n).
Proof.
  intros Ha Hb. unfold Equals_NBit. apply all_vars_for_pure. intros i Hi.
  pose proof (Ha i Hi). pose proof (Hb i Hi). vars_cases.
Qed.

Lemma Equals_NBit_holds st (s : assignment) a b n :
  stable st a -> stable st b -> value s a n = value s b n ->
  holds st s (Equals_NBit a b n).
Proof.
  intros Ha Hb Hv. split.
  - apply Equals_NBit_vars; intros i _; now apply stable_bit.
  - unfold Equals_NBit. apply sat_for_pure. intros i Hi.
    assert (E : s (a # i) = s (b # i))
      by exact (bval_inj (fun i => s (a # i)) (fun i => s (b # i)) n Hv i Hi).
    revert E. gate_cases.
Qed.

Lemma Input_Equals_Number_holds st (s : assignment) x v n :
  stable st x -> value s x n = v mod 2 ^ Z.of_nat n ->
  holds st s (Input_Equals_Number x v n).
Proof.
  intros Hx Hv. split.
  - apply Input_Equals_Number_vars. intros i _. now apply stable_bit.
  - apply Input_Equals_Number_bits. now apply value_bits.
Qed.

Lemma Input_Not_Equals_Number_vars (P : string -> Prop) x v n :
  (forall i, (i < n)%nat -> P (x # i)) ->
  all_vars P [Input_Not_Equals_Number x v n].
Proof.
  intros H. apply all_vars_cons; [|apply all_vars_nil].
  intros l Hl. unfold Input_Not_Equals_Number in Hl. apply in_map_iff in Hl.
  destruct Hl as (i & <- & Hi). apply in_seq in Hi.
  destruct (Z.land (Z.shiftr v (Z.of_nat i)) 1 =? 1); apply H; lia.
Qed.

Lemma Input_Not_Equals_Number_complete (s : assignment) x v n :
  value s x n <> v mod 2 ^ Z.of_nat n ->
  sat_clause s (Input_Not_Equals_Number x v n) = true.
Proof.
  intros Hv. unfold sat_clause.
  destruct (existsb (sat_lit s) (Input_Not_Equals_Number x v n)) eqn:E;
    [reflexivity|exfalso].
  apply Hv. apply bits_value. intros i Hi.
  assert (F : sat_lit s (if Z.land (Z.shiftr v (Z.of_nat i)) 1 =? 1
                         then Neg (x # i) else Pos (x # i)) = false).
  { destruct (sat_lit s _) eqn:F; [|reflexivity].
    assert (existsb (sat_lit s) (Input_Not_Equals_Number x v n) = true).
    { apply existsb_exists. eexists. split; [|exact F].
      unfold Input_Not_Equals_Number.
      apply (in_map (fun i => if Z.land (Z.shiftr v (Z.of_nat i)) 1 =? 1
                              then Neg (x # i) else Pos (x # i))).
      apply in_seq. lia. }
    congruence. }
  rewrite bit_of_value in F.
  destruct (Z.testbit v (Z.of_nat i)); cbn [sat_lit] in F.
  - now apply negb_false_iff in F.
  - exact F.
Qed.

Lemma Input_Not_Equals_Number_holds st (s : assignment) x v n :
  stable st x -> value s x n <> v mod 2 ^ Z.of_nat n ->
  holds st s [Input_Not_Equals_Number x v n].
Proof.
  intros Hx Hv. split.
  - apply Input_Not_Equals_Number_vars. intros i _. now apply stable_bit.
  - cbn [sat forallb]. rewrite andb_true_r.
    now apply Input_Not_Equals_Number_complete.
Qed.

Lemma Or_NBit_To_1Bit_vars (P : string -> Prop) a r n :
  (forall i, (i < n)%nat -> P (a # i)) -> P r ->
  all_vars P (Or_NBit_To_1Bit a r n).
Proof.
  intros Ha Hr. unfold Or_NBit_To_1Bit. apply all_vars_cons.
  - intros l [<-|Hl]; [exact Hr|].
    apply in_map_iff in Hl. destruct Hl as (i & <- & Hi). apply in_seq in Hi.
    apply Ha. lia.
  - apply all_vars_for_pure. intros i Hi. pose proof (Ha i Hi). vars_cases.
Qed.

Lemma Or_NBit_To_1Bit_holds st (s : assignment) a r n :
  stable st a -> old st r -> s r = negb (value s a n =? 0) ->
  holds st s (Or_NBit_To_1Bit a r n).
Proof.
  intros Ha Hr Hv. split.
  - apply Or_NBit_To_1Bit_vars; [intros i _; now apply stable_bit|exact Hr].
  - unfold Or_NBit_To_1Bit. apply sat_cons_true.
    destruct (or_reduce_complete s (fun i => a # i) r n Hv) as (O1 & O2).
    split; [exact O1|]. apply sat_for_pure. exact O2.
Qed.

Lemma If_Cond_A_Else_B_NBit_vars (P : string -> Prop) a b c r n :
  (forall i, (i < n)%nat -> P (a # i)) -> (forall i, (i < n)%nat -> P (b # i)) ->
  P c -> (forall i, (i < n)%nat -> P (r # i)) ->
  all_vars P (If_Cond_A_Else_B_NBit a b c r n).
Proof.
  intros Ha Hb Hc Hr. unfold If_Cond_A_Else_B_NBit.
  apply all_vars_for_pure. intros i Hi.
  apply If_Cond_A_Else_B_1Bit_vars; auto.
Qed.

Lemma If_Cond_A_Else_B_NBit_holds st (s : assignment) a b c r n :
  stable st a -> stable st b -> old st c -> stable st r ->
  value s r n = (if s c then value s a n else value s b n) ->
  holds st s (If_Cond_A_Else_B_NBit a b c r n).
Proof.
  intros Ha Hb Hc Hr Hv. split.
  - apply If_Cond_A_Else_B_NBit_vars; try (intros i _; now apply stable_bit).
    exact Hc.
  - unfold If_Cond_A_Else_B_NBit. apply sat_for_pure. intros i Hi.
    apply If_Cond_A_Else_B_1Bit_complete.
    destruct (s c).
    + exact (bval_inj (fun i => s (r # i)) (fun i => s (a # i)) n Hv i Hi).
    + exact (bval_inj (fun i => s (r # i)) (fun i => s (b # i)) n Hv i Hi).
Qed.

Lemma DoubleSize_Assign_vars (P : string -> Prop) a r n :
  (forall i, (i < n)%nat -> P (a # i)) -> (forall i, (i < n * 2)%nat -> P (r # i)) ->
  all_vars P (DoubleSize_Assign a r n).
Proof.
  intros Ha Hr. unfold DoubleSize_Assign. apply all_vars_app.
  - apply Equals_NBit_vars; [exact Ha|]. intros i Hi. apply Hr. lia.
  - apply all_vars_for_range. intros i Hi. pose proof (Hr i ltac:(lia)). vars_cases.
Qed.

Lemma DoubleSize_Assign_holds st (s : assignment) a r n :
  stable st a -> stable st r -> value s r (n * 2) = value s a n ->
  holds st s (DoubleSize_Assign a r n).
Proof.
  intros Ha Hr Hv. split.
  - apply DoubleSize_Assign_vars; intros i _; now apply stable_bit.
  - revert Hv. replace (n * 2)%nat with (n + n)%nat by lia.
    unfold value. rewrite bval_app. cbv beta. intros Hv.
    pose proof (bval_range (fun i => s (r # i)) n).
    pose proof (bval_range (fun i => s (r # (n + i))) n).
    pose proof (bval_range (fun i => s (a # i)) n).
    pose proof (pow2_pos n).
    assert (Hh : bval (fun i => s (r # (n + i))) n = 0) by nia.
    unfold DoubleSize_Assign. apply sat_app_true. split.
    + unfold Equals_NBit. apply sat_for_pure. intros i Hi.
      assert (E : s (a # i) = s (r # i)).
      { symmetry.
        apply (bval_inj (fun i => s (r # i)) (fun i => s (a # i)) n); [lia|exact Hi]. }
      revert E. gate_cases.
    + apply for_range_sat. intros i Hi.
      pose proof (bval_zero_inv _ _ Hh (i - n)%nat ltac:(lia)) as Z0.
      cbv beta in Z0. replace (n + (i - n))%nat with i in Z0 by lia.
      cbn [sat forallb sat_clause existsb sat_lit]. now rewrite Z0.
Qed.

(** ** Reading what was written *)

Lemma value_set_rows_get row m n v s k w :
  (forall j, (j < m)%nat -> row j = row k -> j = k) ->
  small n -> (k < m)%nat -> (w <= n)%nat ->
  value (set_rows row m n v s) (row k) w = v k mod 2 ^ Z.of_nat w.
Proof.
  intros Hinj Hn Hk Hw. apply bits_value. intros i Hi.
  apply set_rows_get; try assumption. lia.
Qed.

Lemma value_set_bits_get x n v s w :
  small n -> (w <= n)%nat ->
  value (set_bits x n v s) x w = v mod 2 ^ Z.of_nat w.
Proof.
  intros Hn Hw. apply bits_value. intros i Hi.
  apply set_bits_get; [exact Hn|lia].
Qed.

Lemma value_same s s' x w :
  (forall i, (i < w)%nat -> s' (x # i) = s (x # i)) -> value s' x w = value s x w.
Proof. intros H. apply bval_ext. exact H. Qed.

Lemma zsum_nonneg f k : (forall i, (i < k)%nat -> 0 <= f i) -> 0 <= zsum f k.
Proof.
  induction k as [|k IH]; intros H; cbn [zsum]; [lia|].
  specialize (IH ltac:(intros; apply H; lia)). specialize (H k ltac:(lia)). lia.
Qed.

Lemma zsum_mono f k m :
  (forall i, (i < m)%nat -> 0 <= f i) -> (k <= m)%nat -> zsum f k <= zsum f m.
Proof.
  intros H Hk. induction m as [|m IH].
  - replace k with 0%nat by lia. lia.
  - destruct (Nat.eq_dec k (S m)) as [->|]; [lia|].
    cbn [zsum]. specialize (IH ltac:(intros; apply H; lia) ltac:(lia)).
    specialize (H m ltac:(lia)). lia.
Qed.

Lemma zprod_pos_ge f k : (forall i, (i < k)%nat -> 1 <= f i) -> 1 <= zprod f k.
Proof.
  induction k as [|k IH]; intros H; cbn [zprod]; [lia|].
  specialize (IH ltac:(intros; apply H; lia)). specialize (H k ltac:(lia)). nia.
Qed.

Lemma zprod_mono f k m :
  (forall i, (i < m)%nat -> 1 <= f i) -> (k <= m)%nat -> zprod f k <= zprod f m.
Proof.
  intros H Hk. induction m as [|m IH].
  - replace k with 0%nat by lia. lia.
  - destruct (Nat.eq_dec k (S m)) as [->|]; [lia|].
    cbn [zprod]. specialize (IH ltac:(intros; apply H; lia) ltac:(lia)).
    pose proof (zprod_pos_ge f k ltac:(intros; apply H; lia)).
    specialize (H m ltac:(lia)). nia.
Qed.

(* ================================================================== *)
(** * Models: n-ary sum and product *)

Lemma tick_Sum_NBit_le st : le_counters st (snd (tick_Sum_NBit st)).
Proof. intros k. destruct k; cbn; lia. Qed.

Lemma tick_Product_NBit_le st : le_counters st (snd (tick_Product_NBit st)).
Proof. intros k. destruct k; cbn; lia. Qed.

Lemma Sum_NBit_run input output overflow m bits st :
  Sum_NBit input output overflow m bits st =
  let c := S (cnt KSum st) in
  let L := for_ m (fun i =>
             Add_NBit (input # i) (Sum_NBit_Accum c i) (Sum_NBit_Accum c (i + 1))
                      (Sum_NBit_Overflow c # i) bits) (snd (tick_Sum_NBit st)) in
  (Input_Equals_Number (Sum_NBit_Accum c 0) 0 bits ++ fst L
   ++ Equals_NBit output (Sum_NBit_Accum c m) bits
   ++ Or_NBit_To_1Bit (Sum_NBit_Overflow c) overflow m, snd L).
Proof. unfold Sum_NBit, bind, ret, tick_Sum_NBit. run_eq. Qed.

Lemma Product_NBit_run input output overflow m bits st :
  Product_NBit input output overflow m bits st =
  let c := S (cnt KProduct st) in
  let L := for_ m (fun i =>
             Mul_NBit (input # i) (Product_NBit_Accum c i)
                      (Product_NBit_Accum c (i + 1))
                      (Product_NBit_Overflow c # i) bits)
             (snd (tick_Product_NBit st)) in
  (Input_Equals_Number (Product_NBit_Accum c 0) 1 bits ++ fst L
   ++ Equals_NBit output (Product_NBit_Accum c m) bits
   ++ Or_NBit_To_1Bit (Product_NBit_Overflow c) overflow m, snd L).
Proof. unfold Product_NBit, bind, ret, tick_Product_NBit. run_eq. Qed.

Lemma Sum_NBit_grows input output overflow m bits st :
  le_counters st (snd (Sum_NBit input output overflow m bits st)).
Proof.
  rewrite Sum_NBit_run. cbv zeta. cbn [snd].
  apply (le_counters_trans _ _ _ (tick_Sum_NBit_le st)).
  apply for_from_grows. intros j st1. apply Add_NBit_grows.
Qed.

Lemma Product_NBit_grows input output overflow m bits st :
  le_counters st (snd (Product_NBit input output overflow m bits st)).
Proof.
  rewrite Product_NBit_run. cbv zeta. cbn [snd].
  apply (le_counters_trans _ _ _ (tick_Product_NBit_le st)).
  apply for_from_grows. intros j st1. apply Mul_NBit_grows.
Qed.

Lemma row_inj (p : string) c m j k :
  small m -> (j <= m)%nat -> (k <= m)%nat ->
  (p ++ Pad.Z c ++ "_" ++ Pad.Z j)%string = (p ++ Pad.Z c ++ "_" ++ Pad.Z k)%string ->
  j = k.
Proof.
  intros Hm Hj Hk. apply Mul_row_inj; apply (small_le _ m); assumption.
Qed.

Lemma Sum_NBit_ok input output overflow m bits st :
  stable st input -> stable st output -> old st overflow ->
  small (S bits) -> small (S m) ->
  run_ok (Sum_NBit input output overflow m bits) st
    (fun s => zsum (fun i => value s (input # i) bits) m < 2 ^ Z.of_nat bits /\
              value s output bits = zsum (fun i => value s (input # i) bits) m /\
              s overflow = false).
Proof.
  intros Hin Hout Hov Hb Hm.
  unfold run_ok. rewrite Sum_NBit_run. cbv zeta. cbn [fst snd].
  set (c := S (cnt KSum st)).
  pose proof (tick_Sum_NBit_le st) as Hle1.
  set (st1 := snd (tick_Sum_NBit st)) in *.
  assert (Hc1 : cnt KSum st1 = c) by reflexivity.
  set (body := fun i => Add_NBit (input # i) (Sum_NBit_Accum c i)
                 (Sum_NBit_Accum c (i + 1)) (Sum_NBit_Overflow c # i) bits).
  pose proof (for_from_grows body (fun j st => Add_NBit_grows _ _ _ _ _ st) m 0%nat st1)
    as Hle2.
  fold (for_ m body st1) in Hle2. set (L := for_ m body st1) in *.
  split; [exact (le_counters_trans _ _ _ Hle1 Hle2)|]. intros Hs.
  assert (Hs1 : small_counters st1) by exact (small_counters_le _ _ Hle2 Hs).
  assert (Hc : small c) by (rewrite <- Hc1; apply Hs1).
  assert (Hbs : small bits) by (apply (small_le _ (S bits)); [lia|exact Hb]).
  assert (Hms : small m) by (apply (small_le _ (S m)); [lia|exact Hm]).
  assert (SA : forall k, stable st1 (Sum_NBit_Accum c k)).
  { intros k. apply (made_stable KSum c); [made_tac|exact Hc|lia]. }
  assert (SO : stable st1 (Sum_NBit_Overflow c)).
  { apply (made_stable KSum c); [made_tac|exact Hc|lia]. }
  assert (St1 : forall x, stable st x -> stable st1 x)
    by (intros x; apply stable_mono; exact Hle1).
  set (pre := fun (j : nat) (s : assignment) =>
     value s (Sum_NBit_Accum c (j + 1)) bits
     = (value s (input # j) bits + value s (Sum_NBit_Accum c j) bits)
       mod 2 ^ Z.of_nat bits /\
     Z.b2z (s (Sum_NBit_Overflow c # j))
     = (value s (input # j) bits + value s (Sum_NBit_Accum c j) bits)
       / 2 ^ Z.of_nat bits).
  assert (Hloop : run_ok (for_ m body) st1 (fun s => forall j, (j < m)%nat -> pre j s)).
  { apply for_ok.
    - intros j st2 Hj Hle. subst body. cbv beta.
      apply Add_NBit_ok.
      + apply (stable_mono st1 st2 _ Hle). apply stable_app, St1, Hin.
      + apply (stable_mono st1 st2 _ Hle), SA.
      + apply (stable_mono st1 st2 _ Hle), SA.
      + apply (old_mono st1 st2 _ Hle). apply stable_bit, SO.
      + exact Hb.
    - intros j s1 s2 (P1 & P2) Hag. unfold pre.
      rewrite !(value_agree st1 s1 s2)
        by (exact Hag || apply SA || apply stable_app, St1, Hin).
      rewrite (Hag _ (stable_bit _ _ j SO)). now split. }
  fold L in Hloop.
  assert (Vinit : all_vars (old st1) (Input_Equals_Number (Sum_NBit_Accum c 0) 0 bits)).
  { apply Input_Equals_Number_vars. intros i _. apply stable_bit, SA. }
  assert (Veq : all_vars (old st1) (Equals_NBit output (Sum_NBit_Accum c m) bits)).
  { apply Equals_NBit_vars; intros i _; apply stable_bit; [apply St1, Hout|apply SA]. }
  assert (Vor : all_vars (old st1) (Or_NBit_To_1Bit (Sum_NBit_Overflow c) overflow m)).
  { apply Or_NBit_To_1Bit_vars; [intros i _; apply stable_bit, SO|].
    apply (old_mono st); assumption. }
  assert (Up : forall X, all_vars (old st1) X -> all_vars (old (snd L)) X).
  { intros X. apply all_vars_impl. intros x. now apply old_mono. }
  split.
  { destruct Hloop as (_ & Hl). destruct (Hl Hs) as (Hvadds & _).
    apply all_vars_app; [auto|]. apply all_vars_app; [exact Hvadds|].
    apply all_vars_app; auto. }
  intros s (Hlt & Hval & Hovf).
  set (v := fun i => value s (input # i) bits) in *.
  assert (Hv0 : forall i, 0 <= v i) by (intros i; apply value_range).
  set (s1 := set_rows (Sum_NBit_Accum c) (S m) bits (fun k => zsum v k)
               (set_bits (Sum_NBit_Overflow c) m 0 s)).
  assert (W : writes KSum c s s1).
  { unfold s1. apply writes_set_rows; [|intros i; made_tac].
    apply writes_set_bits; [apply writes_refl|made_tac]. }
  assert (A1 : agree_old st s s1).
  { apply (writes_old KSum c); [exact W|exact Hc|]. fold c. lia. }
  assert (Vin : forall j, value s1 (input # j) bits = v j).
  { intros j. apply (value_agree st); [apply stable_app, Hin|exact A1]. }
  assert (VAcc : forall k, (k <= m)%nat -> value s1 (Sum_NBit_Accum c k) bits = zsum v k).
  { intros k Hk. unfold s1. rewrite value_set_rows_get; try assumption; try lia.
    - apply Z.mod_small. split; [apply zsum_nonneg; auto|].
      pose proof (zsum_mono v k m ltac:(auto) Hk). lia.
    - intros j Hj. unfold_all_names. apply (row_inj _ c m); assumption || lia. }
  assert (ROv : forall j, (j < m)%nat -> s1 (Sum_NBit_Overflow c # j) = false).
  { intros j Hj. unfold s1. rewrite set_rows_other by (intros; name_neq).
    rewrite set_bits_get by assumption. apply Z.bits_0. }
  destruct (run_step _ _ _ s1 Hloop Hs) as (s2 & Hoff2 & Hag2 & Hh2).
  { intros j Hj. unfold pre. rewrite Vin, !VAcc, ROv by lia.
    rewrite Nat.add_1_r. cbn [zsum Z.b2z].
    pose proof (zsum_nonneg v j ltac:(auto)).
    pose proof (zsum_mono v (S j) m ltac:(auto) ltac:(lia)) as Hmo.
    cbn [zsum] in Hmo. pose proof (Hv0 j).
    rewrite Z.mod_small, Z.div_small by lia. split; lia. }
  exists s2. split.
  { apply (agree_off_owned_trans st st1 (snd L) s s1 s2 Hle1 Hle2); [|exact Hoff2].
    apply (writes_off KSum c); [exact W|]. rewrite Hc1. fold c. lia. }
  assert (Mv : forall X, holds st1 s1 X -> sat s2 X = true).
  { intros X HX. apply (holds_move st1 (snd L) s1 s2 X Hle2 Hag2 HX). }
  rewrite !sat_app_true. repeat split.
  - apply Mv. apply Input_Equals_Number_holds; [apply SA|].
    rewrite VAcc by lia. reflexivity.
  - apply Hh2.
  - apply Mv. apply Equals_NBit_holds; [apply St1, Hout|apply SA|].
    rewrite VAcc by lia. rewrite (value_agree st s s1 output bits Hout A1).
    exact Hval.
  - apply Mv. apply Or_NBit_To_1Bit_holds; [exact SO|apply (old_mono st); assumption|].
    rewrite (A1 _ Hov), Hovf. unfold value. rewrite bval_zero; [reflexivity|].
    intros i Hi. now apply ROv.
Qed.

Lemma Product_NBit_ok input output overflow m bits st :
  stable st input -> stable st output -> old st overflow ->
  small (bits * 2 + 1) -> small (S m) ->
  run_ok (Product_NBit input output overflow m bits) st
    (fun s => (forall i, (i < m)%nat -> 1 <= value s (input # i) bits) /\
              zprod (fun i => value s (input # i) bits) m < 2 ^ Z.of_nat bits /\
              value s output bits = zprod (fun i => value s (input # i) bits) m /\
              s overflow = false).
Proof.
  intros Hin Hout Hov Hb Hm.
  unfold run_ok. rewrite Product_NBit_run. cbv zeta. cbn [fst snd].
  set (c := S (cnt KProduct st)).
  pose proof (tick_Product_NBit_le st) as Hle1.
  set (st1 := snd (tick_Product_NBit st)) in *.
  assert (Hc1 : cnt KProduct st1 = c) by reflexivity.
  set (body := fun i => Mul_NBit (input # i) (Product_NBit_Accum c i)
                 (Product_NBit_Accum c (i + 1)) (Product_NBit_Overflow c # i) bits).
  pose proof (for_from_grows body (fun j st => Mul_NBit_grows _ _ _ _ _ st) m 0%nat st1)
    as Hle2.
  fold (for_ m body st1) in Hle2. set (L := for_ m body st1) in *.
  split; [exact (le_counters_trans _ _ _ Hle1 Hle2)|]. intros Hs.
  assert (Hs1 : small_counters st1) by exact (small_counters_le _ _ Hle2 Hs).
  assert (Hc : small c) by (rewrite <- Hc1; apply Hs1).
  assert (Hbs : small bits) by (apply (small_le _ (bits * 2 + 1)); [lia|exact Hb]).
  assert (Hms : small m) by (apply (small_le _ (S m)); [lia|exact Hm]).
  assert (SA : forall k, stable st1 (Product_NBit_Accum c k)).
  { intros k. apply (made_stable KProduct c); [made_tac|exact Hc|lia]. }
  assert (SO : stable st1 (Product_NBit_Overflow c)).
  { apply (made_stable KProduct c); [made_tac|exact Hc|lia]. }
  assert (St1 : forall x, stable st x -> stable st1 x)
    by (intros x; apply stable_mono; exact Hle1).
  set (pre := fun (j : nat) (s : assignment) =>
     value s (Product_NBit_Accum c (j + 1)) bits
     = (value s (input # j) bits * value s (Product_NBit_Accum c j) bits)
       mod 2 ^ Z.of_nat bits /\
     s (Product_NBit_Overflow c # j)
     = negb ((value s (input # j) bits * value s (Product_NBit_Accum c j) bits)
             / 2 ^ Z.of_nat bits =? 0)).
  assert (Hloop : run_ok (for_ m body) st1 (fun s => forall j, (j < m)%nat -> pre j s)).
  { apply for_ok.
    - intros j st2 Hj Hle. subst body. cbv beta.
      apply Mul_NBit_ok.
      + apply (stable_mono st1 st2 _ Hle). apply stable_app, St1, Hin.
      + apply (stable_mono st1 st2 _ Hle), SA.
      + apply (stable_mono st1 st2 _ Hle), SA.
      + apply (old_mono st1 st2 _ Hle). apply stable_bit, SO.
      + exact Hb.
    - intros j s1 s2 (P1 & P2) Hag. unfold pre.
      rewrite !(value_agree st1 s1 s2)
        by (exact Hag || apply SA || apply stable_app, St1, Hin).
      rewrite (Hag _ (stable_bit _ _ j SO)). now split. }
  fold L in Hloop.
  assert (Vinit : all_vars (old st1)
            (Input_Equals_Number (Product_NBit_Accum c 0) 1 bits)).
  { apply Input_Equals_Number_vars. intros i _. apply stable_bit, SA. }
  assert (Veq : all_vars (old st1) (Equals_NBit output (Product_NBit_Accum c m) bits)).
  { apply Equals_NBit_vars; intros i _; apply stable_bit; [apply St1, Hout|apply SA]. }
  assert (Vor : all_vars (old st1)
            (Or_NBit_To_1Bit (Product_NBit_Overflow c) overflow m)).
  { apply Or_NBit_To_1Bit_vars; [intros i _; apply stable_bit, SO|].
    apply (old_mono st); assumption. }
  assert (Up : forall X, all_vars (old st1) X -> all_vars (old (snd L)) X).
  { intros X. apply all_vars_impl. intros x. now apply old_mono. }
  split.
  { destruct Hloop as (_ & Hl). destruct (Hl Hs) as (Hvadds & _).
    apply all_vars_app; [auto|]. apply all_vars_app; [exact Hvadds|].
    apply all_vars_app; auto. }
  intros s (Hge & Hlt & Hval & Hovf).
  set (v := fun i => value s (input # i) bits) in *.
  set (s1 := set_rows (Product_NBit_Accum c) (S m) bits (fun k => zprod v k)
               (set_bits (Product_NBit_Overflow c) m 0 s)).
  assert (W : writes KProduct c s s1).
  { unfold s1. apply writes_set_rows; [|intros i; made_tac].
    apply writes_set_bits; [apply writes_refl|made_tac]. }
  assert (A1 : agree_old st s s1).
  { apply (writes_old KProduct c); [exact W|exact Hc|]. fold c. lia. }
  assert (Vin : forall j, value s1 (input # j) bits = v j).
  { intros j. apply (value_agree st); [apply stable_app, Hin|exact A1]. }
  assert (Bk : forall k, (k <= m)%nat -> 1 <= zprod v k < 2 ^ Z.of_nat bits).
  { intros k Hk. split.
    - apply zprod_pos_ge. intros i Hi. apply Hge. lia.
    - pose proof (zprod_mono v k m Hge Hk). lia. }
  assert (VAcc : forall k, (k <= m)%nat ->
            value s1 (Product_NBit_Accum c k) bits = zprod v k).
  { intros k Hk. unfold s1. rewrite value_set_rows_get; try assumption; try lia.
    - apply Z.mod_small. pose proof (Bk k Hk). lia.
    - intros j Hj. unfold_all_names. apply (row_inj _ c m); assumption || lia. }
  assert (ROv : forall j, (j < m)%nat -> s1 (Product_NBit_Overflow c # j) = false).
  { intros j Hj. unfold s1. rewrite set_rows_other by (intros; name_neq).
    rewrite set_bits_get by assumption. apply Z.bits_0. }
  destruct (run_step _ _ _ s1 Hloop Hs) as (s2 & Hoff2 & Hag2 & Hh2).
  { intros j Hj. unfold pre. rewrite Vin, !VAcc, ROv by lia.
    rewrite Nat.add_1_r. cbn [zprod].
    pose proof (Bk (S j) ltac:(lia)) as B. cbn [zprod] in B.
    rewrite (Z.mul_comm (v j)).
    rewrite Z.mod_small, Z.div_small by lia. now split. }
  exists s2. split.
  { apply (agree_off_owned_trans st st1 (snd L) s s1 s2 Hle1 Hle2); [|exact Hoff2].
    apply (writes_off KProduct c); [exact W|]. rewrite Hc1. fold c. lia. }
  assert (Mv : forall X, holds st1 s1 X -> sat s2 X = true).
  { intros X HX. apply (holds_move st1 (snd L) s1 s2 X Hle2 Hag2 HX). }
  rewrite !sat_app_true. repeat split.
  - apply Mv. apply Input_Equals_Number_holds; [apply SA|].
    rewrite VAcc by lia. cbn [zprod]. symmetry. apply Z.mod_small.
    pose proof (Bk 0%nat ltac:(lia)) as B. cbn [zprod] in B. lia.
  - apply Hh2.
  - apply Mv. apply Equals_NBit_holds; [apply St1, Hout|apply SA|].
    rewrite VAcc by lia. rewrite (value_agree st s s1 output bits Hout A1).
    exact Hval.
  - apply Mv. apply Or_NBit_To_1Bit_holds; [exact SO|apply (old_mono st); assumption|].
    rewrite (A1 _ Hov), Hovf. unfold value. rewrite bval_zero; [reflexivity|].
    intros i Hi. now apply ROv.
Qed.

(* ================================================================== *)
(** * Models: exponentiation *)

Ltac skip_layers :=
  repeat first
    [ rewrite set_rows_other by (intros; name_neq)
    | rewrite set_fam_other by (intros; name_neq)
    | rewrite set_bits_other by (intros; name_neq)
    | rewrite upd_other by name_neq ].

Lemma pow_chain_sq A N (k : nat) :
  0 < N ->
  A ^ (2 ^ Z.of_nat (k + 1)) mod N
  = ((A ^ (2 ^ Z.of_nat k) mod N) * (A ^ (2 ^ Z.of_nat k) mod N)) mod N.
Proof.
  intros HN. rewrite Nat.add_1_r, pow_two_pow_succ.
  now rewrite <- Z.mul_mod by lia.
Qed.

Lemma bval_bit_step g n k :
  (k < n)%nat ->
  bval g n mod 2 ^ Z.of_nat (k + 1)
  = bval g n mod 2 ^ Z.of_nat k + Z.b2z (g k) * 2 ^ Z.of_nat k.
Proof.
  intros Hk. rewrite !bval_mod by lia. rewrite Nat.add_1_r. reflexivity.
Qed.

Lemma bval_ge_bit g n k :
  (k < n)%nat -> g k = true -> 2 ^ Z.of_nat k <= bval g n.
Proof.
  intros Hk Hg.
  pose proof (bval_mod g n (k + 1) ltac:(lia)) as E.
  rewrite Nat.add_1_r in E. cbn [bval] in E. rewrite Hg in E. cbn [Z.b2z] in E.
  pose proof (bval_range g k). pose proof (bval_range g n).
  pose proof (pow2_pos (S k)).
  pose proof (Z.mod_le (bval g n) (2 ^ Z.of_nat (S k)) ltac:(lia) ltac:(lia)).
  lia.
Qed.

Lemma pow_acc_step A g n N k :
  1 < N -> (k < n)%nat ->
  A ^ (bval g n mod 2 ^ Z.of_nat (k + 1)) mod N
  = ((if g k then A ^ (2 ^ Z.of_nat k) mod N else 1)
     * (A ^ (bval g n mod 2 ^ Z.of_nat k) mod N)) mod N.
Proof.
  intros HN Hk. rewrite bval_bit_step by exact Hk.
  pose proof (pow2_pos k).
  pose proof (Z.mod_pos_bound (bval g n) (2 ^ Z.of_nat k) ltac:(lia)).
  destruct (g k); cbn [Z.b2z].
  - rewrite Z.mul_1_l, Z.pow_add_r by lia.
    rewrite <- Z.mul_mod by lia. f_equal. lia.
  - rewrite Z.mul_0_l, Z.add_0_r, Z.mul_1_l. now rewrite Z.mod_mod by lia.
Qed.

Lemma tick_Pow_NBit_le st : le_counters st (snd (tick_Pow_NBit st)).
Proof. intros k. destruct k; cbn; lia. Qed.

Lemma Pow_NBit_run a e r ov n st :
  Pow_NBit a e r ov n st =
  let c := S (cnt KPow st) in
  let L1 := for_ n (fun i =>
              Mul_NBit (Pow_NBit_Temp1 c i) (Pow_NBit_Temp1 c i)
                       (Pow_NBit_Temp1 c (i + 1))
                       (Pow_NBit_Temp1Overflow c i) n) (snd (tick_Pow_NBit st)) in
  let L2 := for_ n (fun i =>
              Mul_NBit (Pow_NBit_Temp2 c i) (Pow_NBit_PowAccum c i)
                       (Pow_NBit_PowAccum c (i + 1))
                       (Pow_NBit_PowAccumOverflow c # i) n) (snd L1) in
  (Equals_NBit (Pow_NBit_Temp1 c 0) a n ++ fst L1
   ++ for_pure n (fun i =>
        If_Cond_A_Else_B_NBit (Pow_NBit_Temp1 c i) (One_NBit n) (e # i)
                              (Pow_NBit_Temp2 c i) n)
   ++ Input_Equals_Number (Pow_NBit_PowAccum c 0) 1 n ++ fst L2
   ++ Equals_NBit r (Pow_NBit_PowAccum c n) n
   ++ [[Neg (Pow_NBit_PowAccumOverflowAccum c 0)]]
   ++ for_pure n (fun i =>
        Or_1Bit (Pow_NBit_PowAccumOverflowAccum c i) (Pow_NBit_Temp1Overflow c i)
                (Pow_NBit_PowAccumOverflowAccum c (i + 1)))
   ++ for_pure n (fun i =>
        If_Cond_A_Else_B_1Bit (Pow_NBit_PowAccumOverflowAccum c (i + 1)) Zero_1Bit
                              (e # (i + 1)) (Pow_NBit_OverflowTemp c # i))
   ++ Or_NBit_To_1Bit (Pow_NBit_PowAccumOverflow c)
                      (Pow_NBit_PowAccumOverflow_OR c) n
   ++ Or_NBit_To_1Bit (Pow_NBit_OverflowTemp c) (Pow_NBit_OverflowTemp_OR c) n
   ++ Or_1Bit (Pow_NBit_PowAccumOverflow_OR c) (Pow_NBit_OverflowTemp_OR c) ov,
   snd L2).
Proof. unfold Pow_NBit, bind, ret, tick_Pow_NBit. run_eq. Qed.

Lemma Pow_NBit_grows a e r ov n st : le_counters st (snd (Pow_NBit a e r ov n st)).
Proof.
  rewrite Pow_NBit_run. cbv zeta. cbn [snd].
  apply (le_counters_trans _ _ _ (tick_Pow_NBit_le st)).
  eapply le_counters_trans;
    apply for_from_grows; intros j st1; apply Mul_NBit_grows.
Qed.

Lemma existsb_seq_S (f : nat -> bool) k :
  existsb f (seq 0 (S k)) = existsb f (seq 0 k) || f k.
Proof.
  rewrite seq_S, existsb_app. cbn [existsb Nat.add]. now rewrite orb_false_r.
Qed.

Lemma Pow_NBit_ok a e r ov n st :
  stable st a -> stable st e -> stable st r -> old st ov ->
  small (n * 2 + 1) ->
  run_ok (Pow_NBit a e r ov n) st
    (fun s => 1 <= value s a n /\
              value s a n ^ value s e n < 2 ^ Z.of_nat n /\
              value s r n = value s a n ^ value s e n /\
              s ov = false /\ s (e # n) = false /\
              value s (One_NBit n) n = 1 /\ s Zero_1Bit = false).
Proof.
  intros Ha He Hr Hov Hn.
  unfold run_ok. rewrite Pow_NBit_run. cbv zeta. cbn [fst snd].
  set (c := S (cnt KPow st)).
  pose proof (tick_Pow_NBit_le st) as Hle1.
  set (st1 := snd (tick_Pow_NBit st)) in *.
  assert (Hc1 : cnt KPow st1 = c) by reflexivity.
  set (body1 := fun i => Mul_NBit (Pow_NBit_Temp1 c i) (Pow_NBit_Temp1 c i)
                  (Pow_NBit_Temp1 c (i + 1)) (Pow_NBit_Temp1Overflow c i) n).
  set (body2 := fun i => Mul_NBit (Pow_NBit_Temp2 c i) (Pow_NBit_PowAccum c i)
                  (Pow_NBit_PowAccum c (i + 1)) (Pow_NBit_PowAccumOverflow c # i) n).
  pose proof (for_from_grows body1 (fun j st => Mul_NBit_grows _ _ _ _ _ st) n 0%nat st1)
    as Hle2.
  fold (for_ n body1 st1) in Hle2. set (L1 := for_ n body1 st1) in *.
  pose proof (for_from_grows body2 (fun j st => Mul_NBit_grows _ _ _ _ _ st) n 0%nat
                (snd L1)) as Hle3.
  fold (for_ n body2 (snd L1)) in Hle3. set (L2 := for_ n body2 (snd L1)) in *.
  assert (Hle13 : le_counters st1 (snd L2)) by exact (le_counters_trans _ _ _ Hle2 Hle3).
  split; [exact (le_counters_trans _ _ _ Hle1 Hle13)|]. intros Hs.
  assert (Hs2 : small_counters (snd L1)) by exact (small_counters_le _ _ Hle3 Hs).
  assert (Hs1 : small_counters st1) by exact (small_counters_le _ _ Hle2 Hs2).
  assert (Hc : small c) by (rewrite <- Hc1; apply Hs1).
  assert (Hns : small n) by (apply (small_le _ (n * 2 + 1)); [lia|exact Hn]).
  assert (Hns' : small (S n)) by (apply (small_le _ (n * 2 + 1)); [lia|exact Hn]).
  assert (Mk : forall x, made KPow c x -> stable st1 x).
  { intros x Hx. apply (made_stable KPow c); [exact Hx|exact Hc|lia]. }
  assert (T1 : forall k, stable st1 (Pow_NBit_Temp1 c k)) by (intros; apply Mk; made_tac).
  assert (T1o : forall k, old st1 (Pow_NBit_Temp1Overflow c k))
    by (intros; apply stable_old, Mk; made_tac).
  assert (T2 : forall k, stable st1 (Pow_NBit_Temp2 c k)) by (intros; apply Mk; made_tac).
  assert (PA : forall k, stable st1 (Pow_NBit_PowAccum c k)) by (intros; apply Mk; made_tac).
  assert (PAo : stable st1 (Pow_NBit_PowAccumOverflow c)) by (apply Mk; made_tac).
  assert (OA : forall k, old st1 (Pow_NBit_PowAccumOverflowAccum c k))
    by (intros; apply stable_old, Mk; made_tac).
  assert (OT : stable st1 (Pow_NBit_OverflowTemp c)) by (apply Mk; made_tac).
  assert (OR1 : old st1 (Pow_NBit_PowAccumOverflow_OR c))
    by (apply stable_old, Mk; made_tac).
  assert (OR2 : old st1 (Pow_NBit_OverflowTemp_OR c))
    by (apply stable_old, Mk; made_tac).
  assert (St1 : forall x, stable st x -> stable st1 x)
    by (intros x; apply stable_mono; exact Hle1).
  assert (Ov1 : old st1 ov) by (apply (old_mono st); assumption).
  set (pre1 := fun (j : nat) (s : assignment) =>
     value s (Pow_NBit_Temp1 c (j + 1)) n
     = (value s (Pow_NBit_Temp1 c j) n * value s (Pow_NBit_Temp1 c j) n)
       mod 2 ^ Z.of_nat n /\
     s (Pow_NBit_Temp1Overflow c j)
     = negb ((value s (Pow_NBit_Temp1 c j) n * value s (Pow_NBit_Temp1 c j) n)
             / 2 ^ Z.of_nat n =? 0)).
  set (pre2 := fun (j : nat) (s : assignment) =>
     value s (Pow_NBit_PowAccum c (j + 1)) n
     = (value s (Pow_NBit_Temp2 c j) n * value s (Pow_NBit_PowAccum c j) n)
       mod 2 ^ Z.of_nat n /\
     s (Pow_NBit_PowAccumOverflow c # j)
     = negb ((value s (Pow_NBit_Temp2 c j) n * value s (Pow_NBit_PowAccum c j) n)
             / 2 ^ Z.of_nat n =? 0)).
  assert (Rp1 : forall j s1 s2, pre1 j s1 -> agree_old st1 s1 s2 -> pre1 j s2).
  { intros j s1 s2 (P1 & P2) Hag. unfold pre1.
    rewrite !(value_agree st1 s1 s2) by (exact Hag || apply T1).
    rewrite (Hag _ (T1o j)). now split. }
  assert (Rp2 : forall j s1 s2, pre2 j s1 -> agree_old st1 s1 s2 -> pre2 j s2).
  { intros j s1 s2 (P1 & P2) Hag. unfold pre2.
    rewrite !(value_agree st1 s1 s2) by (exact Hag || apply T2 || apply PA).
    rewrite (Hag _ (stable_bit _ _ j PAo)). now split. }
  assert (Hloop1 : run_ok (for_ n body1) st1 (fun s => forall j, (j < n)%nat -> pre1 j s)).
  { apply for_ok; [|exact Rp1].
    intros j st2 Hj Hle. subst body1. cbv beta. apply Mul_NBit_ok.
    - apply (stable_mono st1 st2 _ Hle), T1.
    - apply (stable_mono st1 st2 _ Hle), T1.
    - apply (stable_mono st1 st2 _ Hle), T1.
    - apply (old_mono st1 st2 _ Hle), T1o.
    - exact Hn. }
  assert (Hloop2 : run_ok (for_ n body2) (snd L1)
                     (fun s => forall j, (j < n)%nat -> pre2 j s)).
  { apply for_ok.
    - intros j st2 Hj Hle. subst body2. cbv beta.
      assert (Hle' : le_counters st1 st2) by exact (le_counters_trans _ _ _ Hle2 Hle).
      apply Mul_NBit_ok.
      + apply (stable_mono st1 st2 _ Hle'), T2.
      + apply (stable_mono st1 st2 _ Hle'), PA.
      + apply (stable_mono st1 st2 _ Hle'), PA.
      + apply (old_mono st1 st2 _ Hle'). apply stable_bit, PAo.
      + exact Hn.
    - intros j s1 s2 Hp Hag. apply (Rp2 j s1 s2 Hp).
      exact (agree_old_mono _ _ _ _ Hle2 Hag). }
  fold L1 in Hloop1. fold L2 in Hloop2.
  (* the clauses outside the two loops speak of old names *)
  assert (Vpure :
    all_vars (old st1) (Equals_NBit (Pow_NBit_Temp1 c 0) a n) /\
    all_vars (old st1)
      (for_pure n (fun i =>
         If_Cond_A_Else_B_NBit (Pow_NBit_Temp1 c i) (One_NBit n) (e # i)
                               (Pow_NBit_Temp2 c i) n)
       ++ Input_Equals_Number (Pow_NBit_PowAccum c 0) 1 n) /\
    all_vars (old st1)
      (Equals_NBit r (Pow_NBit_PowAccum c n) n
       ++ [[Neg (Pow_NBit_PowAccumOverflowAccum c 0)]]
       ++ for_pure n (fun i =>
            Or_1Bit (Pow_NBit_PowAccumOverflowAccum c i) (Pow_NBit_Temp1Overflow c i)
                    (Pow_NBit_PowAccumOverflowAccum c (i + 1)))
       ++ for_pure n (fun i =>
            If_Cond_A_Else_B_1Bit (Pow_NBit_PowAccumOverflowAccum c (i + 1)) Zero_1Bit
                                  (e # (i + 1)) (Pow_NBit_OverflowTemp c # i))
       ++ Or_NBit_To_1Bit (Pow_NBit_PowAccumOverflow c)
                          (Pow_NBit_PowAccumOverflow_OR c) n
       ++ Or_NBit_To_1Bit (Pow_NBit_OverflowTemp c) (Pow_NBit_OverflowTemp_OR c) n
       ++ Or_1Bit (Pow_NBit_PowAccumOverflow_OR c) (Pow_NBit_OverflowTemp_OR c) ov)).
  { split; [|split].
    - apply Equals_NBit_vars; intros i _; apply stable_bit; [apply T1|apply St1, Ha].
    - apply all_vars_app.
      + apply all_vars_for_pure. intros i Hi.
        apply If_Cond_A_Else_B_NBit_vars; try (intros j _; apply stable_bit).
        * apply T1.
        * apply stable_One_NBit.
        * apply stable_bit, St1, He.
        * apply T2.
      + apply Input_Equals_Number_vars. intros i _. apply stable_bit, PA.
    - apply all_vars_app; [|apply all_vars_app; [|apply all_vars_app;
        [|apply all_vars_app; [|apply all_vars_app; [|apply all_vars_app]]]]].
      + apply Equals_NBit_vars; intros i _; apply stable_bit; [apply St1, Hr|apply PA].
      + pose proof (OA 0%nat). vars_cases.
      + apply all_vars_for_pure. intros i Hi.
        apply Or_1Bit_vars; [apply OA|apply T1o|apply OA].
      + apply all_vars_for_pure. intros i Hi.
        apply If_Cond_A_Else_B_1Bit_vars.
        * apply OA.
        * apply old_Zero_1Bit.
        * apply stable_bit, St1, He.
        * apply stable_bit, OT.
      + apply Or_NBit_To_1Bit_vars; [intros i _; apply stable_bit, PAo|exact OR1].
      + apply Or_NBit_To_1Bit_vars; [intros i _; apply stable_bit, OT|exact OR2].
      + apply Or_1Bit_vars; assumption. }
  destruct Vpure as (Vp1 & Vp2 & Vp3).
  assert (Up1 : forall X, all_vars (old st1) X -> all_vars (old (snd L2)) X).
  { intros X. apply all_vars_impl. intros x. now apply old_mono. }
  split.
  { destruct Hloop1 as (_ & Hl1). destruct (Hl1 Hs2) as (Hv1 & _).
    destruct Hloop2 as (_ & Hl2). destruct (Hl2 Hs) as (Hv2 & _).
    apply all_vars_app; [now apply Up1|].
    apply all_vars_app.
    { apply (all_vars_impl (old (snd L1))); [|exact Hv1].
      intros x. now apply old_mono. }
    apply all_vars_app_inv in Vp2. destruct Vp2 as (Vp2a & Vp2b).
    apply all_vars_app; [now apply Up1|].
    apply all_vars_app; [now apply Up1|].
    apply all_vars_app; [exact Hv2|]. now apply Up1. }
  intros s (HA1 & Hlt & Hval & Hovf & Hen & Hone & Hzero).
  set (f := fun i => s (a # i)) in *. set (g := fun i => s (e # i)) in *.
  change (value s a n) with (bval f n) in *.
  change (value s e n) with (bval g n) in *.
  set (A := bval f n) in *. set (E := bval g n) in *.
  set (N := 2 ^ Z.of_nat n) in *.
  pose proof (bval_range g n) as RE. fold E in RE. fold N in RE.
  assert (HN : 1 < N).
  { assert (1 <= A ^ E).
    { replace 1 with (1 ^ E) by (apply Z.pow_1_l; lia).
      apply Z.pow_le_mono_l. lia. }
    lia. }
  assert (Hexact : forall x, 0 <= x <= E -> A ^ x mod N = A ^ x /\ 1 <= A ^ x < N).
  { intros x Hx.
    assert (1 <= A ^ x).
    { replace 1 with (1 ^ x) by (apply Z.pow_1_l; lia).
      apply Z.pow_le_mono_l. lia. }
    assert (A ^ x <= A ^ E) by (apply Z.pow_le_mono_r; lia).
    split; [apply Z.mod_small; lia|lia]. }
  set (t1 := fun k : nat => A ^ (2 ^ Z.of_nat k) mod N).
  set (t1ov := fun k : nat => negb (t1 k * t1 k / N =? 0)).
  set (t2 := fun k : nat => if g k then t1 k else 1).
  set (acc := fun k : nat => A ^ (E mod 2 ^ Z.of_nat k) mod N).
  set (ovacc := fun k : nat => existsb t1ov (seq 0 k)).
  set (s1 :=
    set_rows (Pow_NBit_Temp1 c) (S n) n t1
    (set_fam (Pow_NBit_Temp1Overflow c) n t1ov
    (set_rows (Pow_NBit_Temp2 c) n n t2
    (set_rows (Pow_NBit_PowAccum c) (S n) n acc
    (set_bits (Pow_NBit_PowAccumOverflow c) n 0
    (set_fam (Pow_NBit_PowAccumOverflowAccum c) (S n) ovacc
    (set_bits (Pow_NBit_OverflowTemp c) n 0
    (upd (upd s (Pow_NBit_PowAccumOverflow_OR c) false)
         (Pow_NBit_OverflowTemp_OR c) false)))))))).
  assert (W : writes KPow c s s1).
  { unfold s1.
    apply writes_set_rows; [|intros; made_tac].
    apply writes_set_fam; [|intros; made_tac].
    apply writes_set_rows; [|intros; made_tac].
    apply writes_set_rows; [|intros; made_tac].
    apply writes_set_bits; [|made_tac].
    apply writes_set_fam; [|intros; made_tac].
    apply writes_set_bits; [|made_tac].
    apply writes_upd; [|made_tac].
    apply writes_upd; [|made_tac]. apply writes_refl. }
  assert (A1 : agree_old st s s1).
  { apply (writes_old KPow c); [exact W|exact Hc|]. fold c. lia. }
  assert (Hinj : forall (p : string) j k, (j <= n)%nat -> (k <= n)%nat ->
            (p ++ Pad.Z c ++ "_" ++ Pad.Z j)%string
            = (p ++ Pad.Z c ++ "_" ++ Pad.Z k)%string -> j = k).
  { intros p j k Hj Hk. apply (row_inj p c n); assumption. }
  assert (Bt1 : forall k, 0 <= t1 k < N).
  { intros k. apply Z.mod_pos_bound. lia. }
  assert (Bacc : forall k, 0 <= acc k < N).
  { intros k. apply Z.mod_pos_bound. lia. }
  assert (Bt2 : forall k, 0 <= t2 k < N).
  { intros k. unfold t2. destruct (g k); [apply Bt1|lia]. }
  assert (V1 : forall k, (k <= n)%nat -> value s1 (Pow_NBit_Temp1 c k) n = t1 k).
  { intros k Hk. unfold s1. rewrite value_set_rows_get; try assumption; try lia.
    - apply Z.mod_small, Bt1.
    - intros j Hj. unfold_all_names. apply Hinj; lia. }
  assert (V1o : forall k, (k < n)%nat -> s1 (Pow_NBit_Temp1Overflow c k) = t1ov k).
  { intros k Hk. unfold s1. skip_layers.
    apply (set_fam_get (Pow_NBit_Temp1Overflow c) n t1ov); [|exact Hk].
    intros j Hj. unfold_all_names. apply Hinj; lia. }
  assert (V2 : forall k, (k < n)%nat -> value s1 (Pow_NBit_Temp2 c k) n = t2 k).
  { intros k Hk. rewrite (bits_value s1 _ n (t2 k)).
    - apply Z.mod_small, Bt2.
    - intros i Hi. unfold s1. skip_layers.
      apply set_rows_get; try assumption.
      intros j Hj. unfold_all_names. apply Hinj; lia. }
  assert (V3 : forall k, (k <= n)%nat -> value s1 (Pow_NBit_PowAccum c k) n = acc k).
  { intros k Hk. rewrite (bits_value s1 _ n (acc k)).
    - apply Z.mod_small, Bacc.
    - intros i Hi. unfold s1. skip_layers.
      apply set_rows_get; try assumption; try lia.
      intros j Hj. unfold_all_names. apply Hinj; lia. }
  assert (V3o : forall k, (k < n)%nat -> s1 (Pow_NBit_PowAccumOverflow c # k) = false).
  { intros k Hk. unfold s1. skip_layers.
    rewrite set_bits_get by assumption. apply Z.bits_0. }
  assert (V4 : forall k, (k <= n)%nat ->
            s1 (Pow_NBit_PowAccumOverflowAccum c k) = ovacc k).
  { intros k Hk. unfold s1. skip_layers.
    apply (set_fam_get (Pow_NBit_PowAccumOverflowAccum c) (S n) ovacc); [|lia].
    intros j Hj. unfold_all_names. apply Hinj; lia. }
  assert (V5 : forall k, (k < n)%nat -> s1 (Pow_NBit_OverflowTemp c # k) = false).
  { intros k Hk. unfold s1. skip_layers.
    rewrite set_bits_get by assumption. apply Z.bits_0. }
  assert (V6 : s1 (Pow_NBit_PowAccumOverflow_OR c) = false).
  { unfold s1. skip_layers. apply upd_same. }
  assert (V7 : s1 (Pow_NBit_OverflowTemp_OR c) = false).
  { unfold s1. skip_layers. apply upd_same. }
  (* no product that is selected overflows *)
  assert (Hbit : forall k, (k < n)%nat -> g k = true ->
            t1 k = A ^ (2 ^ Z.of_nat k) /\ 2 ^ Z.of_nat k <= E).
  { intros k Hk Hg. pose proof (bval_ge_bit g n k Hk Hg) as G. fold E in G.
    pose proof (pow2_pos k).
    split; [apply Hexact; lia|exact G]. }
  assert (Hacc : forall k, (k <= n)%nat ->
            acc k = A ^ (E mod 2 ^ Z.of_nat k) /\ 1 <= acc k).
  { intros k Hk. pose proof (pow2_pos k).
    pose proof (Z.mod_pos_bound E (2 ^ Z.of_nat k) ltac:(lia)).
    pose proof (Z.mod_le E (2 ^ Z.of_nat k) ltac:(lia) ltac:(lia)).
    unfold acc. destruct (Hexact (E mod 2 ^ Z.of_nat k)) as (X1 & X2); [lia|].
    rewrite X1. split; [reflexivity|lia]. }
  assert (Hprod : forall k, (k < n)%nat -> 0 <= t2 k * acc k < N).
  { intros k Hk. destruct (Hacc k ltac:(lia)) as (Ea & _).
    pose proof (Bacc k). unfold t2. destruct (g k) eqn:Eg; [|lia].
    destruct (Hbit k Hk Eg) as (Et & Ge). rewrite Et, Ea.
    pose proof (pow2_pos k).
    pose proof (Z.mod_pos_bound E (2 ^ Z.of_nat k) ltac:(lia)).
    rewrite <- Z.pow_add_r by lia.
    assert (Hstep := bval_bit_step g n k Hk). fold E in Hstep.
    rewrite Eg in Hstep. cbn [Z.b2z] in Hstep.
    replace (2 ^ Z.of_nat k + E mod 2 ^ Z.of_nat k)
      with (E mod 2 ^ Z.of_nat (k + 1)) by lia.
    pose proof (pow2_pos (k + 1)).
    pose proof (Z.mod_pos_bound E (2 ^ Z.of_nat (k + 1)) ltac:(lia)).
    pose proof (Z.mod_le E (2 ^ Z.of_nat (k + 1)) ltac:(lia) ltac:(lia)).
    destruct (Hexact (E mod 2 ^ Z.of_nat (k + 1))); lia. }
  assert (Hsq : forall j k, (j < k)%nat -> (k < n)%nat -> g k = true -> t1ov j = false).
  { intros j k Hj Hk Hg. destruct (Hbit k Hk Hg) as (_ & Ge).
    assert (Hjk : 2 ^ Z.of_nat (j + 1) <= 2 ^ Z.of_nat k)
      by (apply Z.pow_le_mono_r; lia).
    pose proof (pow2_pos j). pose proof (pow2_pos (j + 1)).
    assert (Lj : 2 ^ Z.of_nat j <= 2 ^ Z.of_nat (j + 1))
      by (apply Z.pow_le_mono_r; lia).
    destruct (Hexact (2 ^ Z.of_nat j)) as (X1 & _); [lia|].
    destruct (Hexact (2 ^ Z.of_nat (j + 1))) as (_ & X2); [lia|].
    unfold t1ov, t1. rewrite X1.
    rewrite Nat.add_1_r, pow_two_pow_succ in X2.
    rewrite Z.div_small by lia. reflexivity. }
  assert (Hovacc : forall k, (k < n)%nat -> g k = true -> ovacc k = false).
  { intros k Hk Hg. unfold ovacc.
    destruct (existsb t1ov (seq 0 k)) eqn:X; [|reflexivity].
    apply existsb_exists in X. destruct X as (j & Hj & X). apply in_seq in Hj.
    rewrite (Hsq j k) in X by (lia || assumption). discriminate. }
  destruct (run_step _ _ _ s1 Hloop1 Hs2) as (s2 & Hoff2 & Hag2 & Hh2).
  { intros j Hj. unfold pre1. rewrite !V1, V1o by lia. split; [|reflexivity].
    unfold t1. apply pow_chain_sq. lia. }
  assert (P2 : forall j, (j < n)%nat -> pre2 j s1).
  { intros j Hj. unfold pre2. rewrite !V3, V2, V3o by lia.
    pose proof (Hprod j Hj). rewrite Z.div_small by lia. split; [|reflexivity].
    unfold acc, t2, t1. apply pow_acc_step; assumption. }
  destruct (run_step _ _ _ s2 Hloop2 Hs) as (s3 & Hoff3 & Hag3 & Hh3).
  { intros j Hj. apply (Rp2 j s1 s2); [now apply P2|exact Hag2]. }
  assert (Hag13 : agree_old st1 s1 s3).
  { apply (agree_old_trans st1 s1 s2 s3 Hag2).
    exact (agree_old_mono _ _ _ _ Hle2 Hag3). }
  exists s3. split.
  { apply (agree_off_owned_trans st st1 (snd L2) s s1 s3 Hle1 Hle13).
    - apply (writes_off KPow c); [exact W|]. rewrite Hc1. fold c. lia.
    - exact (agree_off_owned_trans st1 (snd L1) (snd L2) s1 s2 s3 Hle2 Hle3 Hoff2 Hoff3). }
  assert (Mv : forall X, holds st1 s1 X -> sat s3 X = true).
  { intros X HX. apply (holds_move st1 (snd L2) s1 s3 X Hle13 Hag13 HX). }
  assert (Rold : forall y, old st y -> s1 y = s y) by exact A1.
  assert (VA : value s1 a n = A) by (apply (value_agree st); assumption).
  assert (Vone : value s1 (One_NBit n) n = 1).
  { rewrite (value_agree st s s1); [exact Hone|apply stable_One_NBit|exact A1]. }
  rewrite !sat_app_true. repeat split.
  - apply Mv. apply Equals_NBit_holds; [apply T1|apply St1, Ha|].
    rewrite V1, VA by lia. unfold t1. change (2 ^ Z.of_nat 0) with 1.
    rewrite Z.pow_1_r. apply Z.mod_small. subst A N. apply bval_range.
  - apply (holds_move (snd L1) (snd L2) s2 s3 _ Hle3 Hag3 Hh2).
  - apply Mv. apply holds_for_pure. intros i Hi.
    apply If_Cond_A_Else_B_NBit_holds;
      [apply T1|apply stable_One_NBit|apply stable_bit, St1, He|apply T2|].
    rewrite V2, V1, Vone by lia. rewrite (Rold _ (stable_bit _ _ i He)).
    reflexivity.
  - apply Mv. apply Input_Equals_Number_holds; [apply PA|].
    rewrite V3 by lia. unfold acc. change (2 ^ Z.of_nat 0) with 1.
    now rewrite Z.mod_1_r, Z.pow_0_r.
  - apply Hh3.
  - apply Mv. apply Equals_NBit_holds; [apply St1, Hr|apply PA|].
    rewrite V3 by lia. rewrite (value_agree st s s1 r n Hr A1), Hval.
    destruct (Hacc n (le_n n)) as (Ea & _). rewrite Ea.
    now rewrite Z.mod_small by exact RE.
  - apply Mv. apply holds_unit_neg; [apply OA|]. rewrite V4 by lia. reflexivity.
  - apply Mv. apply holds_for_pure. intros i Hi. split.
    + apply Or_1Bit_vars; [apply OA|apply T1o|apply OA].
    + apply Or_1Bit_complete. rewrite !V4, V1o by lia.
      unfold ovacc. rewrite Nat.add_1_r. apply existsb_seq_S.
  - apply Mv. apply holds_for_pure. intros i Hi. split.
    + apply If_Cond_A_Else_B_1Bit_vars;
        [apply OA|apply old_Zero_1Bit|apply stable_bit, St1, He|apply stable_bit, OT].
    + apply If_Cond_A_Else_B_1Bit_complete.
      rewrite V5, V4 by lia. rewrite (Rold _ (old_Zero_1Bit st)), Hzero.
      rewrite (Rold _ (stable_bit _ _ (i + 1) He)).
      destruct (Nat.eq_dec (i + 1) n) as [En|Hne].
      * rewrite En, Hen. reflexivity.
      * destruct (s (e # (i + 1))) eqn:Eb; [|reflexivity].
        symmetry. apply Hovacc; [lia|exact Eb].
  - apply Mv. apply Or_NBit_To_1Bit_holds; [exact PAo|exact OR1|].
    rewrite V6. unfold value. rewrite bval_zero; [reflexivity|].
    intros i Hi. now apply V3o.
  - apply Mv. apply Or_NBit_To_1Bit_holds; [exact OT|exact OR2|].
    rewrite V7. unfold value. rewrite bval_zero; [reflexivity|].
    intros i Hi. now apply V5.
  - apply Mv. split; [apply Or_1Bit_vars; assumption|].
    apply Or_1Bit_complete. rewrite V6, V7, (Rold _ Hov). exact Hovf.
Qed.

(* ================================================================== *)
(** * Models: modular exponentiation *)

(** One more call in a chain that started at [st0] with [s0]. *)
Lemma chain_step m st0 st pre s0 s X :
  le_counters st0 st -> agree_off (owned st0 st) s0 s -> agree_old st0 s0 s ->
  holds st s X ->
  run_ok m st pre -> small_counters (snd (m st)) -> pre s ->
  exists s', agree_off (owned st0 (snd (m st))) s0 s' /\
             agree_old st0 s0 s' /\
             holds (snd (m st)) s' (X ++ fst (m st)) /\
             le_counters st0 (snd (m st)).
Proof.
  intros Hle Hoff Hag HX Hok Hs Hp.
  pose proof (run_ok_grows _ _ _ Hok) as Hg.
  destruct (run_step m st pre s Hok Hs Hp) as (s' & Ho & Ha & Hh).
  exists s'. repeat split.
  - exact (agree_off_owned_trans _ _ _ _ _ _ Hle Hg Hoff Ho).
  - apply (agree_old_trans st0 s0 s s' Hag).
    exact (agree_old_mono _ _ _ _ Hle Ha).
  - apply all_vars_app; [|apply Hh].
    apply (all_vars_impl (old st)); [|apply HX]. intros x. now apply old_mono.
  - apply sat_app_true. split; [|apply Hh].
    destruct HX as [V S]. now rewrite (sat_agree_old st s s' X V Ha).
  - exact (le_counters_trans _ _ _ Hle Hg).
Qed.

Lemma PowMod_NBit_step_run n c i st :
  PowMod_NBit_step n c i st =
  let m1 := Mul_NBit (PowMod_NBit_PartialResult c i) (PowMod_NBit_BitFactor c i)
              (PowMod_NBit_Multipled c i) (PowMod_NBit_MultipledOverflow c i)
              (n * 2) st in
  let m2 := DivMod_NBit (PowMod_NBit_Multipled c i) (PowMod_NBit_Mod_DoubleSize c)
              (PowMod_NBit_Div1 c i) (PowMod_NBit_PartialResult c (i + 1))
              (n * 2) (snd m1) in
  let m3 := Mul_NBit (PowMod_NBit_CurrentPow c i) (PowMod_NBit_CurrentPow c i)
              (PowMod_NBit_SquareBase c i) (PowMod_NBit_SquareBaseOverflow c i)
              (n * 2) (snd m2) in
  let m4 := DivMod_NBit (PowMod_NBit_SquareBase c i) (PowMod_NBit_Mod_DoubleSize c)
              (PowMod_NBit_Div2 c i) (PowMod_NBit_CurrentPow c (i + 1))
              (n * 2) (snd m3) in
  (If_Cond_A_Else_B_NBit (PowMod_NBit_CurrentPow c i) (One_NBit (n * 2))
     (PowMod_NBit_Exp_DoubleSize c # i) (PowMod_NBit_BitFactor c i) (n * 2)
   ++ fst m1 ++ fst m2 ++ fst m3 ++ fst m4, snd m4).
Proof. unfold PowMod_NBit_step, bind, ret. run_eq. Qed.

Lemma PowMod_NBit_step_grows n c i st :
  le_counters st (snd (PowMod_NBit_step n c i st)).
Proof.
  rewrite PowMod_NBit_step_run. cbv zeta. cbn [snd].
  eapply le_counters_trans; [apply Mul_NBit_grows|].
  eapply le_counters_trans; [apply DivMod_NBit_grows|].
  eapply le_counters_trans; [apply Mul_NBit_grows|].
  apply DivMod_NBit_grows.
Qed.

Lemma PowMod_step_pre_agree n c i st s s' :
  small c -> (c <= cnt KPowMod st)%nat ->
  agree_old st s s' -> PowMod_step_pre n c i s -> PowMod_step_pre n c i s'.
Proof.
  intros Hc Hle Hag.
  assert (Mk : forall x, made KPowMod c x -> stable st x).
  { intros x Hx. apply (made_stable KPowMod c); assumption. }
  unfold PowMod_step_pre. cbv zeta.
  rewrite !(value_agree st s s')
    by (exact Hag || apply stable_One_NBit || (apply Mk; made_tac)).
  rewrite !(Hag (PowMod_NBit_Exp_DoubleSize c # i))
    by (apply stable_bit, Mk; made_tac).
  rewrite !(Hag (PowMod_NBit_MultipledOverflow c i))
    by (apply stable_old, Mk; made_tac).
  rewrite !(Hag (PowMod_NBit_SquareBaseOverflow c i))
    by (apply stable_old, Mk; made_tac).
  tauto.
Qed.

Lemma PowMod_NBit_step_ok n c i st :
  small c -> (c <= cnt KPowMod st)%nat -> small (n * 4 + 1) ->
  run_ok (PowMod_NBit_step n c i) st (PowMod_step_pre n c i).
Proof.
  intros Hc Hcle Hn.
  assert (Hn2 : small (n * 2 * 2 + 1))
    by (apply (small_le _ (n * 4 + 1)); [lia|exact Hn]).
  unfold run_ok. rewrite PowMod_NBit_step_run. cbv zeta. cbn [fst snd].
  assert (Mk : forall st', le_counters st st' ->
            forall x, made KPowMod c x -> stable st' x).
  { intros st' Hle x Hx. apply (made_stable KPowMod c); [exact Hx|exact Hc|].
    specialize (Hle KPowMod). lia. }
  set (m1 := Mul_NBit (PowMod_NBit_PartialResult c i) (PowMod_NBit_BitFactor c i)
              (PowMod_NBit_Multipled c i) (PowMod_NBit_MultipledOverflow c i)
              (n * 2) st).
  set (m2 := DivMod_NBit (PowMod_NBit_Multipled c i) (PowMod_NBit_Mod_DoubleSize c)
              (PowMod_NBit_Div1 c i) (PowMod_NBit_PartialResult c (i + 1))
              (n * 2) (snd m1)).
  set (m3 := Mul_NBit (PowMod_NBit_CurrentPow c i) (PowMod_NBit_CurrentPow c i)
              (PowMod_NBit_SquareBase c i) (PowMod_NBit_SquareBaseOverflow c i)
              (n * 2) (snd m2)).
  set (m4 := DivMod_NBit (PowMod_NBit_SquareBase c i) (PowMod_NBit_Mod_DoubleSize c)
              (PowMod_NBit_Div2 c i) (PowMod_NBit_CurrentPow c (i + 1))
              (n * 2) (snd m3)).
  assert (G1 : le_counters st (snd m1)) by apply Mul_NBit_grows.
  assert (G2 : le_counters (snd m1) (snd m2)) by apply DivMod_NBit_grows.
  assert (G3 : le_counters (snd m2) (snd m3)) by apply Mul_NBit_grows.
  assert (G4 : le_counters (snd m3) (snd m4)) by apply DivMod_NBit_grows.
  assert (G12 : le_counters st (snd m2)) by exact (le_counters_trans _ _ _ G1 G2).
  assert (G13 : le_counters st (snd m3)) by exact (le_counters_trans _ _ _ G12 G3).
  split; [exact (le_counters_trans _ _ _ G13 G4)|]. intros Hs4.
  assert (Hs3 : small_counters (snd m3)) by exact (small_counters_le _ _ G4 Hs4).
  assert (Hs2 : small_counters (snd m2)) by exact (small_counters_le _ _ G3 Hs3).
  assert (Hs1 : small_counters (snd m1)) by exact (small_counters_le _ _ G2 Hs2).
  pose proof (Mul_NBit_ok (PowMod_NBit_PartialResult c i)
                (PowMod_NBit_BitFactor c i) (PowMod_NBit_Multipled c i)
                (PowMod_NBit_MultipledOverflow c i) (n * 2) st
                ltac:(apply (Mk st (le_counters_refl st)); made_tac)
                ltac:(apply (Mk st (le_counters_refl st)); made_tac)
                ltac:(apply (Mk st (le_counters_refl st)); made_tac)
                ltac:(apply stable_old, (Mk st (le_counters_refl st)); made_tac)
                Hn2) as K1.
  pose proof (DivMod_NBit_ok (PowMod_NBit_Multipled c i)
                (PowMod_NBit_Mod_DoubleSize c) (PowMod_NBit_Div1 c i)
                (PowMod_NBit_PartialResult c (i + 1)) (n * 2) (snd m1)
                ltac:(apply (Mk _ G1); made_tac) ltac:(apply (Mk _ G1); made_tac)
                ltac:(apply (Mk _ G1); made_tac) ltac:(apply (Mk _ G1); made_tac)
                Hn2) as K2.
  pose proof (Mul_NBit_ok (PowMod_NBit_CurrentPow c i)
                (PowMod_NBit_CurrentPow c i) (PowMod_NBit_SquareBase c i)
                (PowMod_NBit_SquareBaseOverflow c i) (n * 2) (snd m2)
                ltac:(apply (Mk _ G12); made_tac) ltac:(apply (Mk _ G12); made_tac)
                ltac:(apply (Mk _ G12); made_tac)
                ltac:(apply stable_old, (Mk _ G12); made_tac)
                Hn2) as K3.
  pose proof (DivMod_NBit_ok (PowMod_NBit_SquareBase c i)
                (PowMod_NBit_Mod_DoubleSize c) (PowMod_NBit_Div2 c i)
                (PowMod_NBit_CurrentPow c (i + 1)) (n * 2) (snd m3)
                ltac:(apply (Mk _ G13); made_tac) ltac:(apply (Mk _ G13); made_tac)
                ltac:(apply (Mk _ G13); made_tac) ltac:(apply (Mk _ G13); made_tac)
                Hn2) as K4.
  fold m1 in K1. fold m2 in K2. fold m3 in K3. fold m4 in K4.
  assert (V0 : all_vars (old st)
            (If_Cond_A_Else_B_NBit (PowMod_NBit_CurrentPow c i) (One_NBit (n * 2))
               (PowMod_NBit_Exp_DoubleSize c # i) (PowMod_NBit_BitFactor c i) (n * 2))).
  { apply If_Cond_A_Else_B_NBit_vars; try (intros j _; apply stable_bit).
    - apply (Mk st (le_counters_refl st)); made_tac.
    - apply stable_One_NBit.
    - apply stable_bit, (Mk st (le_counters_refl st)); made_tac.
    - apply (Mk st (le_counters_refl st)); made_tac. }
  split.
  { destruct K1 as (_ & K1). destruct (K1 Hs1) as (V1 & _).
    destruct K2 as (_ & K2). destruct (K2 Hs2) as (V2 & _).
    destruct K3 as (_ & K3). destruct (K3 Hs3) as (V3 & _).
    destruct K4 as (_ & K4). destruct (K4 Hs4) as (V4 & _).
    assert (Up : forall st', le_counters st' (snd m4) ->
              forall X, all_vars (old st') X -> all_vars (old (snd m4)) X).
    { intros st' Hle X. apply all_vars_impl. intros x. now apply old_mono. }
    assert (G34 : le_counters (snd m2) (snd m4))
      by exact (le_counters_trans _ _ _ G3 G4).
    assert (G24 : le_counters (snd m1) (snd m4))
      by exact (le_counters_trans _ _ _ G2 G34).
    apply all_vars_app;
      [apply (Up st); [exact (le_counters_trans _ _ _ G13 G4)|exact V0]|].
    apply all_vars_app; [apply (Up (snd m1)); [exact G24|exact V1]|].
    apply all_vars_app; [apply (Up (snd m2)); [exact G34|exact V2]|].
    apply all_vars_app; [apply (Up (snd m3)); [exact G4|exact V3]|exact V4]. }
  intros s Hpre.
  assert (Hpre' : forall st' s', le_counters st st' -> agree_old st s s' ->
            PowMod_step_pre n c i s').
  { intros st' s' _ Hag. exact (PowMod_step_pre_agree n c i st s s' Hc Hcle Hag Hpre). }
  assert (H0 : holds st s
            (If_Cond_A_Else_B_NBit (PowMod_NBit_CurrentPow c i) (One_NBit (n * 2))
               (PowMod_NBit_Exp_DoubleSize c # i) (PowMod_NBit_BitFactor c i) (n * 2))).
  { apply If_Cond_A_Else_B_NBit_holds.
    - apply (Mk st (le_counters_refl st)); made_tac.
    - apply stable_One_NBit.
    - apply stable_bit, (Mk st (le_counters_refl st)); made_tac.
    - apply (Mk st (le_counters_refl st)); made_tac.
    - apply Hpre. }
  destruct (chain_step _ st st _ s s _ (le_counters_refl st) (agree_off_refl _ s)
              (agree_old_refl st s) H0 K1 Hs1) as (s1 & O1 & A1 & H1 & L1).
  { unfold PowMod_step_pre in Hpre. cbv zeta in Hpre. tauto. }
  fold m1 in O1, H1, L1.
  destruct (chain_step _ st (snd m1) _ s s1 _ L1 O1 A1 H1 K2 Hs2)
    as (s2 & O2 & A2 & H2 & L2).
  { pose proof (Hpre' (snd m1) s1 L1 A1) as P.
    unfold PowMod_step_pre in P. cbv zeta in P. tauto. }
  fold m2 in O2, H2, L2.
  destruct (chain_step _ st (snd m2) _ s s2 _ L2 O2 A2 H2 K3 Hs3)
    as (s3 & O3 & A3 & H3 & L3).
  { pose proof (Hpre' (snd m2) s2 L2 A2) as P.
    unfold PowMod_step_pre in P. cbv zeta in P. tauto. }
  fold m3 in O3, H3, L3.
  destruct (chain_step _ st (snd m3) _ s s3 _ L3 O3 A3 H3 K4 Hs4)
    as (s4 & O4 & A4 & H4 & L4).
  { pose proof (Hpre' (snd m3) s3 L3 A3) as P.
    unfold PowMod_step_pre in P. cbv zeta in P. tauto. }
  fold m4 in O4, H4, L4.
  exists s4. split; [exact O4|].
  destruct H4 as (_ & S4). rewrite <- !app_assoc in S4. exact S4.
Qed.

Lemma pm_cp_range B M k : 0 < M -> (0 < k)%nat -> 0 <= pm_cp B M k < M.
Proof.
  intros HM Hk. destruct k as [|k]; [lia|]. cbn [pm_cp].
  apply Z.mod_pos_bound. exact HM.
Qed.

Lemma pm_pr_range g B M k : 0 < M -> (0 < k)%nat -> 0 <= pm_pr g B M k < M.
Proof.
  intros HM Hk. destruct k as [|k]; [lia|]. cbn [pm_pr].
  apply Z.mod_pos_bound. exact HM.
Qed.

Lemma pm_cp_mod B M k : 0 < M -> pm_cp B M k mod M = B ^ (2 ^ Z.of_nat k) mod M.
Proof.
  intros HM. induction k as [|k IH].
  - cbn [pm_cp]. change (2 ^ Z.of_nat 0) with 1. now rewrite Z.pow_1_r.
  - cbn [pm_cp]. rewrite Z.mod_mod by lia.
    rewrite Z.mul_mod, IH, <- Z.mul_mod by lia.
    now rewrite pow_two_pow_succ.
Qed.

Lemma pm_pr_mod g B M k :
  0 < M -> pm_pr g B M k mod M = B ^ bval g k mod M.
Proof.
  intros HM. induction k as [|k IH].
  - reflexivity.
  - cbn [pm_pr bval]. rewrite Z.mod_mod by lia.
    rewrite Z.mul_mod, IH by lia.
    pose proof (bval_range g k). pose proof (pow2_pos k).
    destruct (g k); cbn [Z.b2z].
    + rewrite pm_cp_mod, <- Z.mul_mod by lia.
      rewrite Z.mul_1_l, Z.pow_add_r by lia. reflexivity.
    + rewrite <- Z.mul_mod by lia.
      now rewrite Z.mul_1_r, Z.mul_0_l, Z.add_0_r.
Qed.

Lemma pm_pr_final g B M n :
  0 < M -> (0 < n)%nat -> pm_pr g B M n = B ^ bval g n mod M.
Proof.
  intros HM Hn. rewrite <- pm_pr_mod by exact HM.
  symmetry. apply Z.mod_small. now apply pm_pr_range.
Qed.

Lemma tick_PowMod_NBit_le st : le_counters st (snd (tick_PowMod_NBit st)).
Proof. intros k. destruct k; cbn; lia. Qed.

Lemma PowMod_NBit_run base exp mod_ result n st :
  PowMod_NBit base exp mod_ result n st =
  let c := S (cnt KPowMod st) in
  let L := for_ n (PowMod_NBit_step n c) (snd (tick_PowMod_NBit st)) in
  (DoubleSize_Assign base (PowMod_NBit_Base_DoubleSize c) n
   ++ DoubleSize_Assign exp (PowMod_NBit_Exp_DoubleSize c) n
   ++ DoubleSize_Assign mod_ (PowMod_NBit_Mod_DoubleSize c) n
   ++ Input_Equals_Number (PowMod_NBit_PartialResult c 0) 1 (n * 2)
   ++ Equals_NBit (PowMod_NBit_CurrentPow c 0) (PowMod_NBit_Base_DoubleSize c) (n * 2)
   ++ fst L
   ++ Equals_NBit result (PowMod_NBit_PartialResult c n) n, snd L).
Proof. unfold PowMod_NBit, bind, ret, tick_PowMod_NBit. run_eq. Qed.

Lemma PowMod_NBit_grows base exp mod_ result n st :
  le_counters st (snd (PowMod_NBit base exp mod_ result n st)).
Proof.
  rewrite PowMod_NBit_run. cbv zeta. cbn [snd].
  apply (le_counters_trans _ _ _ (tick_PowMod_NBit_le st)).
  apply for_from_grows. intros j st1. apply PowMod_NBit_step_grows.
Qed.

Lemma PowMod_NBit_ok base exp mod_ result n st :
  stable st base -> stable st exp -> stable st mod_ -> stable st result ->
  small (n * 4 + 1) ->
  run_ok (PowMod_NBit base exp mod_ result n) st
    (fun s => 0 < value s mod_ n /\
              value s result n
              = value s base n ^ value s exp n mod value s mod_ n /\
              value s (One_NBit (n * 2)) (n * 2) = 1).
Proof.
  intros Hb He Hm Hr Hn.
  unfold run_ok. rewrite PowMod_NBit_run. cbv zeta. cbn [fst snd].
  set (c := S (cnt KPowMod st)).
  pose proof (tick_PowMod_NBit_le st) as Hle1.
  set (st1 := snd (tick_PowMod_NBit st)) in *.
  assert (Hc1 : cnt KPowMod st1 = c) by reflexivity.
  pose proof (for_from_grows (PowMod_NBit_step n c)
                (PowMod_NBit_step_grows n c) n 0%nat st1) as Hle2.
  fold (for_ n (PowMod_NBit_step n c) st1) in Hle2.
  set (L := for_ n (PowMod_NBit_step n c) st1) in *.
  split; [exact (le_counters_trans _ _ _ Hle1 Hle2)|]. intros Hs.
  assert (Hs1 : small_counters st1) by exact (small_counters_le _ _ Hle2 Hs).
  assert (Hc : small c) by (rewrite <- Hc1; apply Hs1).
  set (w := (n * 2)%nat) in *.
  assert (Hws : small w) by (apply (small_le _ (n * 4 + 1)); [lia|exact Hn]).
  assert (Hns : small n) by (apply (small_le _ (n * 4 + 1)); [lia|exact Hn]).
  assert (Mk : forall x, made KPowMod c x -> stable st1 x).
  { intros x Hx. apply (made_stable KPowMod c); [exact Hx|exact Hc|lia]. }
  assert (St1 : forall x, stable st x -> stable st1 x)
    by (intros x; apply stable_mono; exact Hle1).
  assert (Hloop : run_ok (for_ n (PowMod_NBit_step n c)) st1
                    (fun s => forall j, (j < n)%nat -> PowMod_step_pre n c j s)).
  { apply for_ok.
    - intros j st2 Hj Hle. apply PowMod_NBit_step_ok; [exact Hc| |exact Hn].
      specialize (Hle KPowMod). lia.
    - intros j s1 s2 Hp Hag.
      apply (PowMod_step_pre_agree n c j st1 s1 s2 Hc (Nat.le_refl _) Hag Hp). }
  fold L in Hloop.
  assert (SB : stable st1 (PowMod_NBit_Base_DoubleSize c)) by (apply Mk; made_tac).
  assert (SE : stable st1 (PowMod_NBit_Exp_DoubleSize c)) by (apply Mk; made_tac).
  assert (SM : stable st1 (PowMod_NBit_Mod_DoubleSize c)) by (apply Mk; made_tac).
  assert (SP : forall k, stable st1 (PowMod_NBit_PartialResult c k))
    by (intros; apply Mk; made_tac).
  assert (SC : forall k, stable st1 (PowMod_NBit_CurrentPow c k))
    by (intros; apply Mk; made_tac).
  assert (Vpure :
    all_vars (old st1)
      (DoubleSize_Assign base (PowMod_NBit_Base_DoubleSize c) n
       ++ DoubleSize_Assign exp (PowMod_NBit_Exp_DoubleSize c) n
       ++ DoubleSize_Assign mod_ (PowMod_NBit_Mod_DoubleSize c) n
       ++ Input_Equals_Number (PowMod_NBit_PartialResult c 0) 1 w
       ++ Equals_NBit (PowMod_NBit_CurrentPow c 0) (PowMod_NBit_Base_DoubleSize c) w) /\
    all_vars (old st1) (Equals_NBit result (PowMod_NBit_PartialResult c n) n)).
  { split.
    - apply all_vars_app; [|apply all_vars_app; [|apply all_vars_app;
        [|apply all_vars_app]]].
      + apply DoubleSize_Assign_vars; intros i _; apply stable_bit; auto.
      + apply DoubleSize_Assign_vars; intros i _; apply stable_bit; auto.
      + apply DoubleSize_Assign_vars; intros i _; apply stable_bit; auto.
      + apply Input_Equals_Number_vars. intros i _. apply stable_bit, SP.
      + apply Equals_NBit_vars; intros i _; apply stable_bit; auto.
    - apply Equals_NBit_vars; intros i _; apply stable_bit; auto. }
  destruct Vpure as (Vp1 & Vp2).
  assert (Up : forall X, all_vars (old st1) X -> all_vars (old (snd L)) X).
  { intros X. apply all_vars_impl. intros x. now apply old_mono. }
  split.
  { destruct Hloop as (_ & Hl). destruct (Hl Hs) as (Hv & _).
    apply all_vars_app_inv in Vp1. destruct Vp1 as (Q1 & Vp1).
    apply all_vars_app_inv in Vp1. destruct Vp1 as (Q2 & Vp1).
    apply all_vars_app_inv in Vp1. destruct Vp1 as (Q3 & Vp1).
    apply all_vars_app_inv in Vp1. destruct Vp1 as (Q4 & Q5).
    apply all_vars_app; [now apply Up|].
    apply all_vars_app; [now apply Up|].
    apply all_vars_app; [now apply Up|].
    apply all_vars_app; [now apply Up|].
    apply all_vars_app; [now apply Up|].
    apply all_vars_app; [exact Hv|now apply Up]. }
  intros s (HM & Hval & Hone).
  set (g := fun i => s (exp # i)) in *.
  change (value s exp n) with (bval g n) in *.
  set (B := value s base n) in *. set (E := bval g n) in *.
  set (M := value s mod_ n) in *.
  pose proof (value_range s base n) as RB. fold B in RB.
  pose proof (value_range s mod_ n) as RM. fold M in RM.
  pose proof (bval_range g n) as RE. fold E in RE.
  assert (Hn0 : (0 < n)%nat).
  { destruct (Nat.eq_dec n 0) as [E0|]; [exfalso|lia].
    rewrite E0 in RM. change (2 ^ Z.of_nat 0) with 1 in RM. lia. }
  set (N := 2 ^ Z.of_nat n) in *.
  assert (HW : 2 ^ Z.of_nat w = N * N).
  { unfold w, N. replace (n * 2)%nat with (n + n)%nat by lia. apply pow2_add. }
  assert (HN : 2 <= N).
  { unfold N. replace n with (S (n - 1)) by lia. rewrite pow2_S.
    pose proof (pow2_pos (n - 1)). lia. }
  set (PR := pm_pr g B M). set (CP := pm_cp B M).
  set (BF := fun i : nat => if g i then CP i else 1).
  set (MU := fun i : nat => PR i * BF i).
  set (D1 := fun i : nat => MU i / M).
  set (SQ := fun i : nat => CP i * CP i).
  set (D2 := fun i : nat => SQ i / M).
  assert (BPR : forall k, 0 <= PR k < N).
  { intros k. destruct k as [|k]; [cbn; lia|].
    pose proof (pm_pr_range g B M (S k) HM ltac:(lia)). fold PR in H. lia. }
  assert (BCP : forall k, 0 <= CP k < N).
  { intros k. destruct k as [|k]; [cbn; lia|].
    pose proof (pm_cp_range B M (S k) HM ltac:(lia)). fold CP in H. lia. }
  assert (BBF : forall k, 0 <= BF k < N).
  { intros k. unfold BF. destruct (g k); [apply BCP|lia]. }
  assert (BMU : forall k, 0 <= MU k < N * N).
  { intros k. unfold MU. pose proof (BPR k). pose proof (BBF k). nia. }
  assert (BSQ : forall k, 0 <= SQ k < N * N).
  { intros k. unfold SQ. pose proof (BCP k). nia. }
  assert (BD1 : forall k, 0 <= D1 k < N * N).
  { intros k. unfold D1. pose proof (BMU k). split; [apply Z.div_pos; lia|].
    apply Z.div_lt_upper_bound; nia. }
  assert (BD2 : forall k, 0 <= D2 k < N * N).
  { intros k. unfold D2. pose proof (BSQ k). split; [apply Z.div_pos; lia|].
    apply Z.div_lt_upper_bound; nia. }
  set (s1 :=
    set_bits (PowMod_NBit_Base_DoubleSize c) w B
    (set_bits (PowMod_NBit_Exp_DoubleSize c) w E
    (set_bits (PowMod_NBit_Mod_DoubleSize c) w M
    (set_rows (PowMod_NBit_PartialResult c) (S n) w PR
    (set_rows (PowMod_NBit_CurrentPow c) (S n) w CP
    (set_rows (PowMod_NBit_BitFactor c) n w BF
    (set_rows (PowMod_NBit_Multipled c) n w MU
    (set_fam (PowMod_NBit_MultipledOverflow c) n (fun _ => false)
    (set_rows (PowMod_NBit_Div1 c) n w D1
    (set_rows (PowMod_NBit_SquareBase c) n w SQ
    (set_fam (PowMod_NBit_SquareBaseOverflow c) n (fun _ => false)
    (set_rows (PowMod_NBit_Div2 c) n w D2 s)))))))))))).
  assert (W : writes KPowMod c s s1).
  { unfold s1.
    apply writes_set_bits; [|made_tac].
    apply writes_set_bits; [|made_tac].
    apply writes_set_bits; [|made_tac].
    apply writes_set_rows; [|intros; made_tac].
    apply writes_set_rows; [|intros; made_tac].
    apply writes_set_rows; [|intros; made_tac].
    apply writes_set_rows; [|intros; made_tac].
    apply writes_set_fam; [|intros; made_tac].
    apply writes_set_rows; [|intros; made_tac].
    apply writes_set_rows; [|intros; made_tac].
    apply writes_set_fam; [|intros; made_tac].
    apply writes_set_rows; [|intros; made_tac]. apply writes_refl. }
  assert (A1 : agree_old st s s1).
  { apply (writes_old KPowMod c); [exact W|exact Hc|]. fold c. lia. }
  assert (Hinj : forall (p : string) j k, (j <= n)%nat -> (k <= n)%nat ->
            (p ++ Pad.Z c ++ "_" ++ Pad.Z j)%string
            = (p ++ Pad.Z c ++ "_" ++ Pad.Z k)%string -> j = k).
  { intros p j k Hj Hk. apply (row_inj p c n); assumption. }
  assert (Rd : forall (row : nat -> string) (val : nat -> Z) k,
            (forall i, (i < w)%nat -> s1 (row k # i) = Z.testbit (val k) (Z.of_nat i)) ->
            0 <= val k < N * N -> value s1 (row k) w = val k).
  { intros row val k Hbits Hr'. rewrite (bits_value s1 _ w (val k) Hbits).
    apply Z.mod_small. lia. }
  assert (VB : value s1 (PowMod_NBit_Base_DoubleSize c) w = B).
  { unfold s1. rewrite value_set_bits_get by (exact Hws || lia).
    apply Z.mod_small. nia. }
  assert (VEb : forall i, (i < w)%nat ->
            s1 (PowMod_NBit_Exp_DoubleSize c # i) = Z.testbit E (Z.of_nat i)).
  { intros i Hi. unfold s1. skip_layers. now apply set_bits_get. }
  assert (VM : value s1 (PowMod_NBit_Mod_DoubleSize c) w = M).
  { rewrite (bits_value s1 _ w M).
    - apply Z.mod_small. nia.
    - intros i Hi. unfold s1. skip_layers. now apply set_bits_get. }
  assert (VPR : forall k, (k <= n)%nat ->
            value s1 (PowMod_NBit_PartialResult c k) w = PR k).
  { intros k Hk. apply (Rd (PowMod_NBit_PartialResult c) PR).
    - intros i Hi. unfold s1. skip_layers.
      apply set_rows_get; try assumption; try lia.
      intros j Hj. unfold_all_names. apply Hinj; lia.
    - pose proof (BPR k). nia. }
  assert (VCP : forall k, (k <= n)%nat ->
            value s1 (PowMod_NBit_CurrentPow c k) w = CP k).
  { intros k Hk. apply (Rd (PowMod_NBit_CurrentPow c) CP).
    - intros i Hi. unfold s1. skip_layers.
      apply set_rows_get; try assumption; try lia.
      intros j Hj. unfold_all_names. apply Hinj; lia.
    - pose proof (BCP k). nia. }
  assert (VBF : forall k, (k < n)%nat ->
            value s1 (PowMod_NBit_BitFactor c k) w = BF k).
  { intros k Hk. apply (Rd (PowMod_NBit_BitFactor c) BF).
    - intros i Hi. unfold s1. skip_layers.
      apply set_rows_get; try assumption; try lia.
      intros j Hj. unfold_all_names. apply Hinj; lia.
    - pose proof (BBF k). nia. }
  assert (VMU : forall k, (k < n)%nat ->
            value s1 (PowMod_NBit_Multipled c k) w = MU k).
  { intros k Hk. apply (Rd (PowMod_NBit_Multipled c) MU).
    - intros i Hi. unfold s1. skip_layers.
      apply set_rows_get; try assumption; try lia.
      intros j Hj. unfold_all_names. apply Hinj; lia.
    - apply BMU. }
  assert (VMo : forall k, (k < n)%nat ->
            s1 (PowMod_NBit_MultipledOverflow c k) = false).
  { intros k Hk. unfold s1. skip_layers.
    apply (set_fam_get (PowMod_NBit_MultipledOverflow c) n (fun _ => false));
      [|exact Hk].
    intros j Hj. unfold_all_names. apply Hinj; lia. }
  assert (VD1 : forall k, (k < n)%nat -> value s1 (PowMod_NBit_Div1 c k) w = D1 k).
  { intros k Hk. apply (Rd (PowMod_NBit_Div1 c) D1).
    - intros i Hi. unfold s1. skip_layers.
      apply set_rows_get; try assumption; try lia.
      intros j Hj. unfold_all_names. apply Hinj; lia.
    - apply BD1. }
  assert (VSQ : forall k, (k < n)%nat ->
            value s1 (PowMod_NBit_SquareBase c k) w = SQ k).
  { intros k Hk. apply (Rd (PowMod_NBit_SquareBase c) SQ).
    - intros i Hi. unfold s1. skip_layers.
      apply set_rows_get; try assumption; try lia.
      intros j Hj. unfold_all_names. apply Hinj; lia.
    - apply BSQ. }
  assert (VSo : forall k, (k < n)%nat ->
            s1 (PowMod_NBit_SquareBaseOverflow c k) = false).
  { intros k Hk. unfold s1. skip_layers.
    apply (set_fam_get (PowMod_NBit_SquareBaseOverflow c) n (fun _ => false));
      [|exact Hk].
    intros j Hj. unfold_all_names. apply Hinj; lia. }
  assert (VD2 : forall k, (k < n)%nat -> value s1 (PowMod_NBit_Div2 c k) w = D2 k).
  { intros k Hk. apply (Rd (PowMod_NBit_Div2 c) D2).
    - intros i Hi. unfold s1. skip_layers.
      apply set_rows_get; try assumption; try lia.
      intros j Hj. unfold_all_names. apply Hinj; lia.
    - apply BD2. }
  assert (Vone : value s1 (One_NBit w) w = 1).
  { rewrite (value_agree st s s1); [exact Hone|apply stable_One_NBit|exact A1]. }
  destruct (run_step _ _ _ s1 Hloop Hs) as (s2 & Hoff2 & Hag2 & Hh2).
  { intros j Hj. unfold PowMod_step_pre. cbv zeta. fold w.
    rewrite VM, !VPR, !VCP, VBF, VMU, VSQ, VD1, VD2, VMo, VSo, Vone by lia.
    rewrite (VEb j) by (unfold w; lia).
    unfold E. rewrite testbit_bval by exact Hj.
    rewrite HW.
    pose proof (BMU j). pose proof (BSQ j).
    rewrite Nat.add_1_r.
    repeat split.
    - fold (MU j). symmetry. apply Z.mod_small. lia.
    - fold (MU j). rewrite Z.div_small by lia. reflexivity.
    - change (PR (S j)) with (MU j mod M). unfold D1. apply Z.div_mod. lia.
    - change (PR (S j)) with (MU j mod M). apply Z.mod_pos_bound. exact HM.
    - fold (SQ j). symmetry. apply Z.mod_small. lia.
    - fold (SQ j). rewrite Z.div_small by lia. reflexivity.
    - change (CP (S j)) with (SQ j mod M). unfold D2. apply Z.div_mod. lia.
    - change (CP (S j)) with (SQ j mod M). apply Z.mod_pos_bound. exact HM. }
  exists s2. split.
  { apply (agree_off_owned_trans st st1 (snd L) s s1 s2 Hle1 Hle2); [|exact Hoff2].
    apply (writes_off KPowMod c); [exact W|]. rewrite Hc1. fold c. lia. }
  assert (Mv : forall X, holds st1 s1 X -> sat s2 X = true).
  { intros X HX. apply (holds_move st1 (snd L) s1 s2 X Hle2 Hag2 HX). }
  assert (VW : forall x v, value s1 x w = v -> 0 <= v < N -> value s1 x n = v).
  { intros x v Hx Hv. rewrite value_low; [exact Hx|]. fold w. rewrite Hx. apply Hv. }
  rewrite !sat_app_true. repeat split.
  - apply Mv. apply DoubleSize_Assign_holds; auto. fold w. rewrite VB.
    symmetry. apply (value_agree st); assumption.
  - apply Mv. apply DoubleSize_Assign_holds; auto. fold w.
    rewrite (bits_value s1 _ w E VEb).
    rewrite (value_agree st s s1 exp n He A1). apply Z.mod_small.
    rewrite HW. change (value s exp n) with E. nia.
  - apply Mv. apply DoubleSize_Assign_holds; auto. fold w. rewrite VM.
    symmetry. apply (value_agree st); assumption.
  - apply Mv. apply Input_Equals_Number_holds; [apply SP|].
    rewrite VPR by lia. rewrite HW. symmetry. apply Z.mod_small. cbn. nia.
  - apply Mv. apply Equals_NBit_holds; [apply SC|exact SB|].
    rewrite VCP, VB by lia. reflexivity.
  - apply Hh2.
  - apply Mv. apply Equals_NBit_holds; [apply St1, Hr|apply SP|].
    rewrite (VW _ (PR n) (VPR n (le_n n)) (BPR n)).
    rewrite (value_agree st s s1 result n Hr A1), Hval.
    symmetry. apply pm_pr_final; assumption.
Qed.

(* ================================================================== *)
(** * Models: disjunction and the Fermat tests *)

Lemma tick_Or_Condition_le st : le_counters st (snd (tick_Or_Condition st)).
Proof. intros k. destruct k; cbn; lia. Qed.

Lemma Or_Condition_grows C1 C2 st : le_counters st (snd (Or_Condition C1 C2 st)).
Proof. apply tick_Or_Condition_le. Qed.

Lemma AddLiteralToCondition_vars (P : string -> Prop) l f :
  P (lit_var l) -> all_vars P f -> all_vars P (AddLiteralToCondition l f).
Proof.
  intros Hl Hf. unfold AddLiteralToCondition.
  induction f as [|c f IH]; [apply all_vars_nil|].
  cbn [map]. apply all_vars_cons.
  - intros l' [<-|Hl']; [exact Hl|]. apply Hf.
    cbn [cnf_vars flat_map]. apply in_or_app. left.
    unfold clause_vars. now apply in_map.
  - apply IH. intros x Hx. apply Hf. cbn [cnf_vars flat_map].
    apply in_or_app. now right.
Qed.

Lemma Or_Condition_vars C1 C2 st :
  small_counters (snd (Or_Condition C1 C2 st)) ->
  all_vars (old st) C1 -> all_vars (old st) C2 ->
  all_vars (old (snd (Or_Condition C1 C2 st))) (fst (Or_Condition C1 C2 st)).
Proof.
  intros Hs H1 H2.
  pose proof (tick_Or_Condition_le st) as Hle.
  change (Or_Condition C1 C2 st)
    with (AddLiteralToCondition (Pos (Or_Condition_literal (S (cnt KOr st)))) C1
          ++ AddLiteralToCondition (Neg (Or_Condition_literal (S (cnt KOr st)))) C2,
          snd (tick_Or_Condition st)) in *.
  cbn [fst snd] in *.
  assert (Ht : old (snd (tick_Or_Condition st))
                 (Or_Condition_literal (S (cnt KOr st)))).
  { apply stable_old. apply (made_stable KOr (S (cnt KOr st))).
    - made_tac.
    - exact (Hs KOr).
    - cbn. lia. }
  apply all_vars_app; apply AddLiteralToCondition_vars; try exact Ht;
    (eapply all_vars_impl; [|eassumption]); intros x; now apply old_mono.
Qed.

Lemma Or_Condition_pick (left_ : bool) C1 C2 st s :
  small_counters (snd (Or_Condition C1 C2 st)) ->
  all_vars (old st) C1 -> all_vars (old st) C2 ->
  sat s (if left_ then C1 else C2) = true ->
  exists s', agree_off (owned st (snd (Or_Condition C1 C2 st))) s s' /\
             agree_old st s s' /\
             holds (snd (Or_Condition C1 C2 st)) s' (fst (Or_Condition C1 C2 st)).
Proof.
  intros Hs H1 H2 Hsat.
  pose proof (Or_Condition_vars C1 C2 st Hs H1 H2) as Hv.
  set (t := Or_Condition_literal (S (cnt KOr st))).
  assert (Hm : made KOr (S (cnt KOr st)) t) by (subst t; made_tac).
  assert (Hc : small (S (cnt KOr st))) by exact (Hs KOr).
  set (s' := upd s t (negb left_)).
  assert (W : writes KOr (S (cnt KOr st)) s s').
  { apply writes_upd; [apply writes_refl|exact Hm]. }
  assert (A : agree_old st s s').
  { apply (writes_old KOr (S (cnt KOr st))); [exact W|exact Hc|lia]. }
  exists s'. split; [|split; [exact A|split; [exact Hv|]]].
  - apply (writes_off KOr (S (cnt KOr st))); [exact W|]. cbn. lia.
  - change (fst (Or_Condition C1 C2 st))
      with (AddLiteralToCondition (Pos t) C1 ++ AddLiteralToCondition (Neg t) C2).
    rewrite sat_app_true, !AddLiteralToCondition_sat. cbn [sat_lit].
    unfold s' at 1 3. rewrite !upd_same.
    destruct left_; cbn [negb orb] in *.
    + split; [|apply orb_true_r || reflexivity].
      now rewrite (sat_agree_old st s s' C1 H1 A).
    + split; [reflexivity|].
      now rewrite (sat_agree_old st s s' C2 H2 A).
Qed.

Lemma tick_FermatTest_le st : le_counters st (snd (tick_FermatTest st)).
Proof. intros k. destruct k; cbn; lia. Qed.

Lemma tick_FermatTest2_le st : le_counters st (snd (tick_FermatTest2 st)).
Proof. intros k. destruct k; cbn; lia. Qed.

Lemma tick_FermatTest3_le st : le_counters st (snd (tick_FermatTest3 st)).
Proof. intros k. destruct k; cbn; lia. Qed.

Lemma FermatTest_run g pow mod_ n st :
  FermatTest g pow mod_ n st =
  let c := S (cnt KFermat st) in
  let m := PowMod_NBit g pow mod_ (FermatTest_result c) n
             (snd (tick_FermatTest st)) in
  ([Input_Not_Equals_Number g 0 n] ++ [Input_Not_Equals_Number g 1 n] ++ fst m
   ++ Input_Equals_Number (FermatTest_result c) 1 n, snd m).
Proof. unfold FermatTest, bind, ret, tick_FermatTest. run_eq. Qed.

Lemma FermatTest3_run g pow mod_ n st :
  FermatTest3 g pow mod_ n st =
  let c := S (cnt KFermat3 st) in
  let m := PowMod_NBit g pow mod_ (FermatTest3_result c) n
             (snd (tick_FermatTest3 st)) in
  ([Input_Not_Equals_Number g 0 n] ++ [Input_Not_Equals_Number g 1 n] ++ fst m
   ++ [Input_Not_Equals_Number (FermatTest3_result c) 1 n], snd m).
Proof. unfold FermatTest3, bind, ret, tick_FermatTest3. run_eq. Qed.

Lemma FermatTest2_run g prime n st :
  FermatTest2 g prime n st =
  let c := S (cnt KFermat2 st) in
  let m1 := Add_NBit (FermatTest2_Prime_Minus1 c) (One_NBit n) prime
              (FermatTest2_Prime_Minus1_Overflow c) n (snd (tick_FermatTest2 st)) in
  let m2 := FermatTest g (FermatTest2_Prime_Minus1 c) prime n (snd m1) in
  (fst m1 ++ [[Neg (FermatTest2_Prime_Minus1_Overflow c)]] ++ fst m2, snd m2).
Proof. unfold FermatTest2, bind, ret, tick_FermatTest2. run_eq. Qed.

Lemma FermatTest_grows g pow mod_ n st :
  le_counters st (snd (FermatTest g pow mod_ n st)).
Proof.
  rewrite FermatTest_run. cbv zeta. cbn [snd].
  apply (le_counters_trans _ _ _ (tick_FermatTest_le st)).
  apply PowMod_NBit_grows.
Qed.

Lemma FermatTest3_grows g pow mod_ n st :
  le_counters st (snd (FermatTest3 g pow mod_ n st)).
Proof.
  rewrite FermatTest3_run. cbv zeta. cbn [snd].
  apply (le_counters_trans _ _ _ (tick_FermatTest3_le st)).
  apply PowMod_NBit_grows.
Qed.

Lemma FermatTest2_grows g prime n st :
  le_counters st (snd (FermatTest2 g prime n st)).
Proof.
  rewrite FermatTest2_run. cbv zeta. cbn [snd].
  apply (le_counters_trans _ _ _ (tick_FermatTest2_le st)).
  eapply le_counters_trans; [apply Add_NBit_grows|apply FermatTest_grows].
Qed.

Lemma one_mod_pow2 n v : 0 < v < 2 ^ Z.of_nat n -> 1 mod 2 ^ Z.of_nat n = 1.
Proof. intros H. apply Z.mod_small. lia. Qed.

(** The two tests differ in the last clause only. *)
Lemma Fermat_core_ok (k : kind) (pfx : string) (tick : M nat)
  (last : string -> cnf) (want : Z -> Prop) g pow mod_ n st :
  In (k, pfx) names ->
  tick st = (S (cnt k st), snd (tick st)) ->
  le_counters st (snd (tick st)) -> cnt k (snd (tick st)) = S (cnt k st) ->
  (forall st' (s : assignment) r, stable st' r ->
     want (value s r n) -> (exists v, 0 < v < 2 ^ Z.of_nat n) -> holds st' s (last r)) ->
  (forall st' r, stable st' r -> all_vars (old st') (last r)) ->
  stable st g -> stable st pow -> stable st mod_ -> small (n * 4 + 1) ->
  let r := (pfx ++ Pad.Z (S (cnt k st)))%string in
  let m := PowMod_NBit g pow mod_ r n (snd (tick st)) in
  run_ok (fun st0 => ([Input_Not_Equals_Number g 0 n]
                      ++ [Input_Not_Equals_Number g 1 n] ++ fst m ++ last r, snd m))
    st
    (fun s => value s g n <> 0 /\ value s g n <> 1 /\ 0 < value s mod_ n /\
              want (value s g n ^ value s pow n mod value s mod_ n) /\
              value s (One_NBit (n * 2)) (n * 2) = 1).
Proof.
  intros Hin Htick Hle1 Hc1 Hlast Hlastv Hg Hp Hm Hn r m.
  unfold run_ok. cbn [fst snd].
  set (c := S (cnt k st)) in *. set (st1 := snd (tick st)) in *.
  pose proof (PowMod_NBit_grows g pow mod_ r n st1) as Hle2. fold m in Hle2.
  split; [exact (le_counters_trans _ _ _ Hle1 Hle2)|]. intros Hs.
  assert (Hs1 : small_counters st1) by exact (small_counters_le _ _ Hle2 Hs).
  assert (Hc : small c) by (rewrite <- Hc1; apply Hs1).
  assert (Hns : small n) by (apply (small_le _ (n * 4 + 1)); [lia|exact Hn]).
  assert (Hmade : made k c r) by (apply made_intro_0; exact Hin).
  assert (SR : stable st1 r).
  { apply (made_stable k c); [exact Hmade|exact Hc|lia]. }
  assert (St1 : forall x, stable st x -> stable st1 x)
    by (intros x; apply stable_mono; exact Hle1).
  pose proof (PowMod_NBit_ok g pow mod_ r n st1 (St1 _ Hg) (St1 _ Hp) (St1 _ Hm) SR Hn)
    as K. fold m in K.
  assert (V01 : all_vars (old st1) [Input_Not_Equals_Number g 0 n] /\
                all_vars (old st1) [Input_Not_Equals_Number g 1 n]).
  { split; apply Input_Not_Equals_Number_vars; intros i _; apply stable_bit, St1, Hg. }
  destruct V01 as (V0 & V1).
  assert (Up : forall X, all_vars (old st1) X -> all_vars (old (snd m)) X).
  { intros X. apply all_vars_impl. intros x. now apply old_mono. }
  split.
  { destruct K as (_ & K). destruct (K Hs) as (Vm & _).
    apply all_vars_app; [now apply Up|]. apply all_vars_app; [now apply Up|].
    apply all_vars_app; [exact Vm|]. apply Hlastv.
    apply (stable_mono st1); assumption. }
  intros s (G0 & G1 & HM & Hw & Hone).
  pose proof (value_range s mod_ n) as RM.
  set (v := value s g n ^ value s pow n mod value s mod_ n) in *.
  assert (Rv : 0 <= v < value s mod_ n) by (apply Z.mod_pos_bound; exact HM).
  set (s1 := set_bits r n v s).
  assert (W : writes k c s s1).
  { apply writes_set_bits; [apply writes_refl|exact Hmade]. }
  assert (A1 : agree_old st s s1).
  { apply (writes_old k c); [exact W|exact Hc|]. fold c. lia. }
  assert (VR : value s1 r n = v).
  { unfold s1. rewrite value_set_bits by exact Hns. apply Z.mod_small. lia. }
  destruct (run_step _ _ _ s1 K Hs) as (s2 & Hoff2 & Hag2 & Hh2).
  { rewrite (value_agree st s s1 g n Hg A1), (value_agree st s s1 pow n Hp A1),
      (value_agree st s s1 mod_ n Hm A1),
      (value_agree st s s1 _ _ (stable_One_NBit _ _) A1), VR.
    split; [exact HM|]. split; [reflexivity|exact Hone]. }
  exists s2. split.
  { apply (agree_off_owned_trans st st1 (snd m) s s1 s2 Hle1 Hle2); [|exact Hoff2].
    apply (writes_off k c); [exact W|]. rewrite Hc1. fold c. lia. }
  assert (Mv : forall X, holds st1 s1 X -> sat s2 X = true).
  { intros X HX. apply (holds_move st1 (snd m) s1 s2 X Hle2 Hag2 HX). }
  assert (Hgv : value s1 g n = value s g n) by exact (value_agree st s s1 g n Hg A1).
  assert (H1m : 1 mod 2 ^ Z.of_nat n = 1) by (apply (one_mod_pow2 n (value s mod_ n)); lia).
  rewrite !sat_app_true. repeat split.
  - apply Mv. apply Input_Not_Equals_Number_holds; [apply St1, Hg|].
    rewrite Hgv. now rewrite Z.mod_0_l by lia.
  - apply Mv. apply Input_Not_Equals_Number_holds; [apply St1, Hg|].
    rewrite Hgv. now rewrite H1m.
  - apply Hh2.
  - apply Mv. apply Hlast; [exact SR|now rewrite VR|].
    exists (value s mod_ n). lia.
Qed.

Lemma FermatTest_ok g pow mod_ n st :
  stable st g -> stable st pow -> stable st mod_ -> small (n * 4 + 1) ->
  run_ok (FermatTest g pow mod_ n) st
    (fun s => value s g n <> 0 /\ value s g n <> 1 /\ 0 < value s mod_ n /\
              value s g n ^ value s pow n mod value s mod_ n = 1 /\
              value s (One_NBit (n * 2)) (n * 2) = 1).
Proof.
  intros Hg Hp Hm Hn.
  pose proof (Fermat_core_ok KFermat "FermatTest_" tick_FermatTest
                (fun r => Input_Equals_Number r 1 n) (fun v => v = 1)
                g pow mod_ n st) as K.
  cbv zeta in K. unfold run_ok in *. rewrite FermatTest_run. cbv zeta.
  apply K; try assumption; try reflexivity.
  - in_names.
  - apply tick_FermatTest_le.
  - intros st' s r Hr Hv (v & Hv'). apply Input_Equals_Number_holds; [exact Hr|].
    rewrite Hv. symmetry. apply (one_mod_pow2 n v Hv').
  - intros st' r Hr. apply Input_Equals_Number_vars. intros i _.
    now apply stable_bit.
Qed.

Lemma FermatTest3_ok g pow mod_ n st :
  stable st g -> stable st pow -> stable st mod_ -> small (n * 4 + 1) ->
  run_ok (FermatTest3 g pow mod_ n) st
    (fun s => value s g n <> 0 /\ value s g n <> 1 /\ 0 < value s mod_ n /\
              value s g n ^ value s pow n mod value s mod_ n <> 1 /\
              value s (One_NBit (n * 2)) (n * 2) = 1).
Proof.
  intros Hg Hp Hm Hn.
  pose proof (Fermat_core_ok KFermat3 "FermatTest3_" tick_FermatTest3
                (fun r => [Input_Not_Equals_Number r 1 n]) (fun v => v <> 1)
                g pow mod_ n st) as K.
  cbv zeta in K. unfold run_ok in *. rewrite FermatTest3_run. cbv zeta.
  apply K; try assumption; try reflexivity.
  - in_names.
  - apply tick_FermatTest3_le.
  - intros st' s r Hr Hv (v & Hv'). apply Input_Not_Equals_Number_holds; [exact Hr|].
    now rewrite (one_mod_pow2 n v Hv').
  - intros st' r Hr. apply Input_Not_Equals_Number_vars. intros i _.
    now apply stable_bit.
Qed.

Lemma FermatTest2_ok g prime n st :
  stable st g -> stable st prime -> small (n * 4 + 1) ->
  run_ok (FermatTest2 g prime n) st
    (fun s => value s g n <> 0 /\ value s g n <> 1 /\ 0 < value s prime n /\
              value s g n ^ (value s prime n - 1) mod value s prime n = 1 /\
              value s (One_NBit n) n = 1 /\
              value s (One_NBit (n * 2)) (n * 2) = 1).
Proof.
  intros Hg Hp Hn.
  unfold run_ok. rewrite FermatTest2_run. cbv zeta. cbn [fst snd].
  set (c := S (cnt KFermat2 st)).
  pose proof (tick_FermatTest2_le st) as Hle1.
  set (st1 := snd (tick_FermatTest2 st)) in *.
  assert (Hc1 : cnt KFermat2 st1 = c) by reflexivity.
  pose proof (Add_NBit_grows (FermatTest2_Prime_Minus1 c) (One_NBit n) prime
                (FermatTest2_Prime_Minus1_Overflow c) n st1) as Hle2.
  set (m1 := Add_NBit (FermatTest2_Prime_Minus1 c) (One_NBit n) prime
               (FermatTest2_Prime_Minus1_Overflow c) n st1) in *.
  pose proof (FermatTest_grows g (FermatTest2_Prime_Minus1 c) prime n (snd m1)) as Hle3.
  set (m2 := FermatTest g (FermatTest2_Prime_Minus1 c) prime n (snd m1)) in *.
  assert (Hle12 : le_counters st (snd m1)) by exact (le_counters_trans _ _ _ Hle1 Hle2).
  split; [exact (le_counters_trans _ _ _ Hle12 Hle3)|]. intros Hs.
  assert (Hs2 : small_counters (snd m1)) by exact (small_counters_le _ _ Hle3 Hs).
  assert (Hs1 : small_counters st1) by exact (small_counters_le _ _ Hle2 Hs2).
  assert (Hc : small c) by (rewrite <- Hc1; apply Hs1).
  assert (Hns : small (S n)) by (apply (small_le _ (n * 4 + 1)); [lia|exact Hn]).
  assert (Hns' : small n) by (apply (small_le _ (S n)); [lia|exact Hns]).
  assert (Mk : forall x, made KFermat2 c x -> stable st1 x).
  { intros x Hx. apply (made_stable KFermat2 c); [exact Hx|exact Hc|lia]. }
  assert (SP : stable st1 (FermatTest2_Prime_Minus1 c)) by (apply Mk; made_tac).
  assert (SO : old st1 (FermatTest2_Prime_Minus1_Overflow c))
    by (apply stable_old, Mk; made_tac).
  assert (St1 : forall x, stable st x -> stable st1 x)
    by (intros x; apply stable_mono; exact Hle1).
  pose proof (Add_NBit_ok (FermatTest2_Prime_Minus1 c) (One_NBit n) prime
                (FermatTest2_Prime_Minus1_Overflow c) n st1 SP (stable_One_NBit _ _)
                (St1 _ Hp) SO Hns) as K1.
  pose proof (FermatTest_ok g (FermatTest2_Prime_Minus1 c) prime n (snd m1)
                (stable_mono _ _ _ Hle12 Hg) (stable_mono _ _ _ Hle2 SP)
                (stable_mono _ _ _ Hle12 Hp) Hn) as K2.
  fold m1 in K1. fold m2 in K2.
  split.
  { destruct K1 as (_ & K1). destruct (K1 Hs2) as (V1 & _).
    destruct K2 as (_ & K2). destruct (K2 Hs) as (V2 & _).
    apply all_vars_app; [|apply all_vars_app; [|exact V2]].
    - apply (all_vars_impl (old (snd m1))); [|exact V1]. intros x. now apply old_mono.
    - assert (old (snd m2) (FermatTest2_Prime_Minus1_Overflow c)).
      { apply (old_mono st1); [|exact SO]. exact (le_counters_trans _ _ _ Hle2 Hle3). }
      vars_cases. }
  intros s (G0 & G1 & HP & Hf & Hone & Hone2).
  pose proof (value_range s prime n) as RP.
  set (P := value s prime n) in *.
  set (s1 := set_bits (FermatTest2_Prime_Minus1 c) n (P - 1)
               (upd s (FermatTest2_Prime_Minus1_Overflow c) false)).
  assert (W : writes KFermat2 c s s1).
  { apply writes_set_bits; [|made_tac]. apply writes_upd; [|made_tac].
    apply writes_refl. }
  assert (A1 : agree_old st s s1).
  { apply (writes_old KFermat2 c); [exact W|exact Hc|]. fold c. lia. }
  assert (VP : value s1 (FermatTest2_Prime_Minus1 c) n = P - 1).
  { unfold s1. rewrite value_set_bits by exact Hns'. apply Z.mod_small. lia. }
  assert (VO : s1 (FermatTest2_Prime_Minus1_Overflow c) = false).
  { unfold s1. rewrite set_bits_other by (intros; name_neq). apply upd_same. }
  assert (O1 : agree_off (owned st st1) s s1).
  { apply (writes_off KFermat2 c); [exact W|]. rewrite Hc1. fold c. lia. }
  assert (Vg1 : value s1 g n = value s g n) by exact (value_agree st s s1 g n Hg A1).
  assert (Vp1 : value s1 prime n = P) by exact (value_agree st s s1 prime n Hp A1).
  assert (Vo1 : value s1 (One_NBit n) n = 1).
  { now rewrite (value_agree st s s1 _ _ (stable_One_NBit _ _) A1). }
  assert (Vt1 : value s1 (One_NBit (n * 2)) (n * 2) = 1).
  { now rewrite (value_agree st s s1 _ _ (stable_One_NBit _ _) A1). }
  destruct (run_step _ _ _ s1 K1 Hs2) as (s2 & O2 & A2 & H2).
  { rewrite VP, VO, Vo1, Vp1. replace (P - 1 + 1) with P by lia. cbn [Z.b2z].
    rewrite Z.mod_small, Z.div_small by lia. now split. }
  fold m1 in O2, A2, H2.
  destruct (run_step _ _ _ s2 K2 Hs) as (s3 & O3 & A3 & H3).
  { rewrite (value_agree st1 s1 s2 g n (St1 _ Hg) A2),
      (value_agree st1 s1 s2 _ n SP A2), (value_agree st1 s1 s2 prime n (St1 _ Hp) A2),
      (value_agree st1 s1 s2 _ _ (stable_One_NBit _ _) A2), VP, Vg1, Vp1, Vt1.
    repeat split; assumption. }
  fold m2 in O3, A3, H3.
  exists s3. split.
  { apply (agree_off_owned_trans st (snd m1) (snd m2) s s2 s3 Hle12 Hle3); [|exact O3].
    exact (agree_off_owned_trans st st1 (snd m1) s s1 s2 Hle1 Hle2 O1 O2). }
  rewrite !sat_app_true. split; [|split].
  - exact (proj2 (holds_move _ _ _ _ _ Hle3 A3 H2)).
  - assert (E3 : s3 (FermatTest2_Prime_Minus1_Overflow c) = false).
    { rewrite (A3 _ (old_mono _ _ _ Hle2 SO)), (A2 _ SO). exact VO. }
    cbn. rewrite E3. reflexivity.
  - apply H3.
Qed.

(* ================================================================== *)
(** * Models: the certificate wires *)

Lemma set_grid_other cell m k n v s y :
  (forall i j b, (i < m)%nat -> (j < k)%nat -> (b < n)%nat -> y <> cell i j # b) ->
  set_grid cell m k n v s y = s y.
Proof.
  induction m as [|m IH]; intros H; [reflexivity|].
  cbn [set_grid]. rewrite set_rows_other.
  - apply IH. intros i j b Hi Hj Hb. apply H; lia.
  - intros j b Hj Hb. apply H; lia.
Qed.

Lemma set_grid_get cell m k n v s i j b :
  (forall i' j', (i' < m)%nat -> (j' < k)%nat ->
     cell i' j' = cell i j -> i' = i /\ j' = j) ->
  small n -> (i < m)%nat -> (j < k)%nat -> (b < n)%nat ->
  set_grid cell m k n v s (cell i j # b) = Z.testbit (v i j) (Z.of_nat b).
Proof.
  intros Hinj Hn. induction m as [|m IH]; intros Hi Hj Hb; [lia|].
  cbn [set_grid]. destruct (Nat.eq_dec i m) as [->|Hne].
  - apply set_rows_get; try assumption.
    intros j' Hj' E. now destruct (Hinj m j' ltac:(lia) Hj' E).
  - rewrite set_rows_other.
    + apply IH; try assumption; try lia.
      intros i' j' Hi' Hj' E. apply Hinj; try assumption. lia.
    + intros j' b' Hj' Hb' E. apply bit_name_inj in E.
      * destruct E as [E _]. symmetry in E.
        destruct (Hinj m j' ltac:(lia) Hj' E). lia.
      * apply (small_le _ n); [lia|exact Hn].
      * apply (small_le _ n); [lia|exact Hn].
Qed.

Lemma clear_grid_other name m k s y :
  (forall i j, (i < m)%nat -> (j < k)%nat -> y <> name i j) ->
  clear_grid name m k s y = s y.
Proof.
  induction m as [|m IH]; intros H; [reflexivity|].
  cbn [clear_grid]. rewrite set_fam_other.
  - apply IH. intros i j Hi Hj. apply H; lia.
  - intros j Hj. apply H; lia.
Qed.

Lemma clear_grid_get name m k s i j :
  (forall i' j', (i' < m)%nat -> (j' < k)%nat ->
     name i' j' = name i j -> i' = i /\ j' = j) ->
  (i < m)%nat -> (j < k)%nat -> clear_grid name m k s (name i j) = false.
Proof.
  intros Hinj. induction m as [|m IH]; intros Hi Hj; [lia|].
  cbn [clear_grid]. destruct (Nat.eq_dec i m) as [->|Hne].
  - apply (set_fam_get (name m) k (fun _ => false)); [|exact Hj].
    intros j' Hj' E. now destruct (Hinj m j' ltac:(lia) Hj' E).
  - rewrite set_fam_other.
    + apply IH; try assumption; try lia.
      intros i' j' Hi' Hj' E. apply Hinj; try assumption. lia.
    + intros j' Hj' E. symmetry in E.
      destruct (Hinj m j' ltac:(lia) Hj' E). lia.
Qed.

Lemma writes_set_grid k c cell m w n v s s0 :
  writes k c s s0 -> (forall i j, made k c (cell i j)) ->
  writes k c s (set_grid cell m w n v s0).
Proof.
  intros H0 Hr. induction m as [|m IH]; [exact H0|].
  cbn [set_grid]. apply writes_set_rows; [exact IH|apply Hr].
Qed.

Lemma writes_clear_grid k c name m w s s0 :
  writes k c s s0 -> (forall i j, made k c (name i j)) ->
  writes k c s (clear_grid name m w s0).
Proof.
  intros H0 Hr. induction m as [|m IH]; [exact H0|].
  cbn [clear_grid]. apply writes_set_fam; [exact IH|apply Hr].
Qed.

Lemma cell_inj (p : string) c i j i' j' :
  small i -> small j -> small i' -> small j' ->
  (p ++ Pad.Z c ++ "_" ++ Pad.Z i' ++ "_" ++ Pad.Z j')%string
  = (p ++ Pad.Z c ++ "_" ++ Pad.Z i ++ "_" ++ Pad.Z j)%string ->
  i' = i /\ j' = j.
Proof.
  intros Hi Hj Hi' Hj' H. do 3 apply append_inv_head in H.
  apply Z_split in H; [|assumption|assumption]. destruct H as [-> H].
  apply append_inv_head in H. apply Z_inj in H; [|assumption|assumption].
  now split.
Qed.

(* ================================================================== *)
(** * Models: the three loop bodies of [IsPrime] *)

(** One disjunction, chained after what was built so far. *)
Lemma Or_step (left_ : bool) C1 C2 st0 st s0 s :
  le_counters st0 st -> agree_off (owned st0 st) s0 s -> agree_old st0 s0 s ->
  small_counters (snd (Or_Condition C1 C2 st)) ->
  all_vars (old st) C1 -> all_vars (old st) C2 ->
  sat s (if left_ then C1 else C2) = true ->
  exists s', agree_off (owned st0 (snd (Or_Condition C1 C2 st))) s0 s' /\
             agree_old st0 s0 s' /\
             holds (snd (Or_Condition C1 C2 st)) s' (fst (Or_Condition C1 C2 st)) /\
             le_counters st0 (snd (Or_Condition C1 C2 st)).
Proof.
  intros Hle Hoff Hag Hs V1 V2 Hsat.
  pose proof (Or_Condition_grows C1 C2 st) as Hg.
  destruct (Or_Condition_pick left_ C1 C2 st s Hs V1 V2 Hsat) as (s' & Ho & Ha & Hh).
  exists s'. split; [|split; [|split]].
  - exact (agree_off_owned_trans _ _ _ _ _ _ Hle Hg Hoff Ho).
  - apply (agree_old_trans st0 s0 s s' Hag).
    exact (agree_old_mono _ _ _ _ Hle Ha).
  - exact Hh.
  - exact (le_counters_trans _ _ _ Hle Hg).
Qed.

Lemma all_vars_up st st' X :
  le_counters st st' -> all_vars (old st) X -> all_vars (old st') X.
Proof. intros Hle. apply all_vars_impl. intros x. now apply old_mono. Qed.

Lemma run_ok_vars m st pre :
  run_ok m st pre -> small_counters (snd (m st)) ->
  all_vars (old (snd (m st))) (fst (m st)).
Proof. intros (_ & H) Hs. now destruct (H Hs). Qed.

Lemma two_mod_pow2 n : (2 <= n)%nat -> 2 mod 2 ^ Z.of_nat n = 2.
Proof.
  intros H. apply Z.mod_small.
  pose proof (Z.pow_le_mono_r 2 2 (Z.of_nat n) ltac:(lia) ltac:(lia)). lia.
Qed.

Lemma three_mod_pow2 n : (2 <= n)%nat -> 3 mod 2 ^ Z.of_nat n = 3.
Proof.
  intros H. apply Z.mod_small.
  pose proof (Z.pow_le_mono_r 2 2 (Z.of_nat n) ltac:(lia) ltac:(lia)). lia.
Qed.

Lemma base_sat st (s : assignment) x n :
  (2 <= n)%nat -> stable st x -> value s x n = 2 \/ value s x n = 3 ->
  exists left_ : bool,
    sat s (if left_ then Input_Equals_Number x 2 n else Input_Equals_Number x 3 n)
    = true.
Proof.
  intros Hn Hx [H|H]; [exists true|exists false];
    apply (Input_Equals_Number_holds st); try exact Hx.
  - now rewrite two_mod_pow2.
  - now rewrite three_mod_pow2.
Qed.

Lemma IsPrime_base_or_factored_run n c i st :
  IsPrime_base_or_factored n c i st =
  let m1 := LessThan_NBit (One_NBit n) (IsPrime_SumPow c i) n st in
  let m2 := Or_Condition (Input_Equals_Number (IsPrime_Prime c i) 2 n)
              (Input_Equals_Number (IsPrime_Prime c i) 3 n) (snd m1) in
  Or_Condition (fst m2)
    (And_Condition (fst m1)
       (Equals_NBit (IsPrime_Product_Plus1 c i) (IsPrime_Prime c i) n)) (snd m2).
Proof.
  unfold IsPrime_base_or_factored, bind. cbv zeta.
  destruct (LessThan_NBit _ _ n st) as [c1 st1]. cbn [fst snd].
  destruct (Or_Condition _ _ st1) as [c2 st2]. reflexivity.
Qed.

Lemma IsPrime_base_or_factored_ok n c i st :
  (2 <= n)%nat -> small (S n) ->
  stable st (IsPrime_Prime c i) -> stable st (IsPrime_SumPow c i) ->
  stable st (IsPrime_Product_Plus1 c i) ->
  run_ok (IsPrime_base_or_factored n c i) st
    (fun s =>
       (value s (IsPrime_Prime c i) n = 2 \/ value s (IsPrime_Prime c i) n = 3) \/
       (value s (One_NBit n) n < value s (IsPrime_SumPow c i) n /\
        value s (IsPrime_Product_Plus1 c i) n = value s (IsPrime_Prime c i) n)).
Proof.
  intros Hn Hsn SP SS SQ.
  unfold run_ok. rewrite IsPrime_base_or_factored_run. cbv zeta.
  pose proof (LessThan_NBit_ok (One_NBit n) (IsPrime_SumPow c i) n st
                (stable_One_NBit _ _) SS Hsn) as K1.
  pose proof (run_ok_grows _ _ _ K1) as G1.
  set (m1 := LessThan_NBit (One_NBit n) (IsPrime_SumPow c i) n st) in *.
  set (eq2 := Input_Equals_Number (IsPrime_Prime c i) 2 n).
  set (eq3 := Input_Equals_Number (IsPrime_Prime c i) 3 n).
  pose proof (Or_Condition_grows eq2 eq3 (snd m1)) as G2.
  set (m2 := Or_Condition eq2 eq3 (snd m1)) in *.
  set (eqs := Equals_NBit (IsPrime_Product_Plus1 c i) (IsPrime_Prime c i) n).
  pose proof (Or_Condition_grows (fst m2) (And_Condition (fst m1) eqs) (snd m2)) as G3.
  set (m3 := Or_Condition (fst m2) (And_Condition (fst m1) eqs) (snd m2)) in *.
  assert (G12 : le_counters st (snd m2)) by exact (le_counters_trans _ _ _ G1 G2).
  split; [exact (le_counters_trans _ _ _ G12 G3)|]. intros Hs3.
  assert (Hs2 : small_counters (snd m2)) by exact (small_counters_le _ _ G3 Hs3).
  assert (Hs1 : small_counters (snd m1)) by exact (small_counters_le _ _ G2 Hs2).
  pose proof (run_ok_vars _ _ _ K1 Hs1) as V1. fold m1 in V1.
  assert (SP1 : stable (snd m1) (IsPrime_Prime c i)) by exact (stable_mono _ _ _ G1 SP).
  assert (SQ1 : stable (snd m1) (IsPrime_Product_Plus1 c i))
    by exact (stable_mono _ _ _ G1 SQ).
  assert (Ve2 : all_vars (old (snd m1)) eq2).
  { apply Input_Equals_Number_vars. intros k _. now apply stable_bit. }
  assert (Ve3 : all_vars (old (snd m1)) eq3).
  { apply Input_Equals_Number_vars. intros k _. now apply stable_bit. }
  assert (Vq : all_vars (old (snd m1)) eqs).
  { apply Equals_NBit_vars; intros k _; now apply stable_bit. }
  pose proof (Or_Condition_vars eq2 eq3 (snd m1) Hs2 Ve2 Ve3) as V2. fold m2 in V2.
  assert (Vr : all_vars (old (snd m2)) (And_Condition (fst m1) eqs)).
  { apply (all_vars_up (snd m1)); [exact G2|]. now apply all_vars_app. }
  split; [exact (Or_Condition_vars _ _ (snd m2) Hs3 V2 Vr)|].
  intros s [Hb|[Hlt Heq]].
  - destruct (base_sat (snd m1) s _ n Hn SP1 Hb) as (l & Hl).
    destruct (Or_step l eq2 eq3 st (snd m1) s s G1 (agree_off_refl _ _)
                (agree_old_refl _ _) Hs2 Ve2 Ve3 Hl) as (s2 & O2 & A2 & H2 & L2).
    fold m2 in O2, H2, L2.
    destruct (Or_step true (fst m2) (And_Condition (fst m1) eqs) st (snd m2) s s2
                L2 O2 A2 Hs3 V2 Vr (proj2 H2)) as (s3 & O3 & _ & H3 & _).
    exists s3. split; [exact O3|apply H3].
  - destruct (run_step _ _ _ s K1 Hs1 Hlt) as (s1 & O1 & A1 & H1). fold m1 in O1, H1.
    assert (Hr : sat s1 (And_Condition (fst m1) eqs) = true).
    { apply sat_app_true. split; [apply H1|].
      apply (Equals_NBit_holds (snd m1)); try assumption.
      now rewrite !(value_agree st s s1) by assumption. }
    assert (Hr2 : holds (snd m2) s1 (And_Condition (fst m1) eqs)) by (split; assumption).
    assert (O12 : agree_off (owned st (snd m2)) s s1).
    { intros x Hx. apply O1. intros Ho. apply Hx.
      exact (owned_weaken _ _ _ _ _ (le_counters_refl st) G2 Ho). }
    destruct (Or_step false (fst m2) (And_Condition (fst m1) eqs) st (snd m2) s s1
                G12 O12 A1 Hs3 V2 Vr Hr) as (s3 & O3 & _ & H3 & _).
    exists s3. split; [exact O3|apply H3].
Qed.

Lemma sat_pick (s : assignment) C1 C2 :
  sat s C1 = true \/ sat s C2 = true ->
  exists l : bool, sat s (if l then C1 else C2) = true.
Proof. intros [H|H]; [now exists true|now exists false]. Qed.

(** Two disjunctions made one after the other, one of which has a
    satisfied side. *)
Lemma Or_pair Ca Cb Cc Cd st :
  let X := Or_Condition Ca Cb st in
  let Y := Or_Condition Cc Cd (snd X) in
  small_counters (snd Y) ->
  all_vars (old st) Ca -> all_vars (old st) Cb ->
  all_vars (old st) Cc -> all_vars (old st) Cd ->
  all_vars (old (snd Y)) (fst X) /\ all_vars (old (snd Y)) (fst Y) /\
  le_counters st (snd Y) /\
  forall s,
    (sat s Ca = true \/ sat s Cb = true) \/ (sat s Cc = true \/ sat s Cd = true) ->
    exists s' (first : bool),
      agree_off (owned st (snd Y)) s s' /\ agree_old st s s' /\
      sat s' (if first then fst X else fst Y) = true.
Proof.
  intros X Y Hs Va Vb Vc Vd.
  pose proof (Or_Condition_grows Ca Cb st) as G1. fold X in G1.
  pose proof (Or_Condition_grows Cc Cd (snd X)) as G2. fold Y in G2.
  assert (Hs1 : small_counters (snd X)) by exact (small_counters_le _ _ G2 Hs).
  pose proof (Or_Condition_vars Ca Cb st Hs1 Va Vb) as VX. fold X in VX.
  assert (Vc1 : all_vars (old (snd X)) Cc) by exact (all_vars_up _ _ _ G1 Vc).
  assert (Vd1 : all_vars (old (snd X)) Cd) by exact (all_vars_up _ _ _ G1 Vd).
  pose proof (Or_Condition_vars Cc Cd (snd X) Hs Vc1 Vd1) as VY. fold Y in VY.
  assert (VX2 : all_vars (old (snd Y)) (fst X)) by exact (all_vars_up _ _ _ G2 VX).
  split; [exact VX2|]. split; [exact VY|].
  split; [exact (le_counters_trans _ _ _ G1 G2)|].
  intros s [H|H]; destruct (sat_pick s _ _ H) as (l & Hl).
  - destruct (Or_step l Ca Cb st st s s (le_counters_refl _) (agree_off_refl _ _)
                (agree_old_refl _ _) Hs1 Va Vb Hl) as (s1 & O1 & A1 & H1 & _).
    fold X in O1, H1. exists s1, true. split; [|split; [exact A1|apply H1]].
    intros x Hx. apply O1. intros Ho. apply Hx.
    exact (owned_weaken _ _ _ _ _ (le_counters_refl st) G2 Ho).
  - destruct (Or_step l Cc Cd st (snd X) s s G1 (agree_off_refl _ _)
                (agree_old_refl _ _) Hs Vc1 Vd1 Hl) as (s1 & O1 & A1 & H1 & _).
    fold Y in O1, H1. exists s1, false. split; [exact O1|split; [exact A1|apply H1]].
Qed.

(** The disjunction of two disjunctions whose operands are evaluated in
    either order. *)
Lemma Or_tree_ok o C1 C2 C3 C4 st :
  let m := (inners <- eval_args o (Or_Condition C1 C2) (Or_Condition C3 C4) ;;
            Or_Condition (fst inners) (snd inners)) st in
  le_counters st (snd m) /\
  (small_counters (snd m) ->
   all_vars (old st) C1 -> all_vars (old st) C2 ->
   all_vars (old st) C3 -> all_vars (old st) C4 ->
   all_vars (old (snd m)) (fst m) /\
   forall s,
     (sat s C1 = true \/ sat s C2 = true) \/ (sat s C3 = true \/ sat s C4 = true) ->
     exists s', agree_off (owned st (snd m)) s s' /\ agree_old st s s' /\
                sat s' (fst m) = true).
Proof.
  destruct o.
  - (* the left operand first *)
    assert (E : (inners <- eval_args LeftToRight (Or_Condition C1 C2) (Or_Condition C3 C4) ;;
                 Or_Condition (fst inners) (snd inners)) st
                = let X := Or_Condition C1 C2 st in
                  let Y := Or_Condition C3 C4 (snd X) in
                  Or_Condition (fst X) (fst Y) (snd Y)).
    { unfold eval_args, bind, ret. cbv zeta.
      destruct (Or_Condition C1 C2 st) as [a st1]. cbn [fst snd].
      destruct (Or_Condition C3 C4 st1) as [b st2]. reflexivity. }
    cbv zeta. rewrite E. clear E. cbv zeta.
    set (X := Or_Condition C1 C2 st). set (Y := Or_Condition C3 C4 (snd X)).
    pose proof (Or_Condition_grows C1 C2 st) as G1. fold X in G1.
    pose proof (Or_Condition_grows C3 C4 (snd X)) as G2. fold Y in G2.
    pose proof (Or_Condition_grows (fst X) (fst Y) (snd Y)) as G3.
    assert (G12 : le_counters st (snd Y)) by exact (le_counters_trans _ _ _ G1 G2).
    split; [exact (le_counters_trans _ _ _ G12 G3)|].
    intros Hs V1 V2 V3 V4.
    assert (Hs2 : small_counters (snd Y)) by exact (small_counters_le _ _ G3 Hs).
    destruct (Or_pair C1 C2 C3 C4 st Hs2 V1 V2 V3 V4) as (VX & VY & _ & Hm).
    fold X in VX, Hm. fold Y in VY, Hm.
    split; [exact (Or_Condition_vars _ _ (snd Y) Hs VX VY)|].
    intros s H. destruct (Hm s H) as (s1 & first & O1 & A1 & S1).
    destruct (Or_step first (fst X) (fst Y) st (snd Y) s s1 G12 O1 A1 Hs VX VY S1)
      as (s2 & O2 & A2 & H2 & _).
    exists s2. split; [exact O2|split; [exact A2|apply H2]].
  - (* the right operand first *)
    assert (E : (inners <- eval_args RightToLeft (Or_Condition C1 C2) (Or_Condition C3 C4) ;;
                 Or_Condition (fst inners) (snd inners)) st
                = let X := Or_Condition C3 C4 st in
                  let Y := Or_Condition C1 C2 (snd X) in
                  Or_Condition (fst Y) (fst X) (snd Y)).
    { unfold eval_args, bind, ret. cbv zeta.
      destruct (Or_Condition C3 C4 st) as [a st1]. cbn [fst snd].
      destruct (Or_Condition C1 C2 st1) as [b st2]. reflexivity. }
    cbv zeta. rewrite E. clear E. cbv zeta.
    set (X := Or_Condition C3 C4 st). set (Y := Or_Condition C1 C2 (snd X)).
    pose proof (Or_Condition_grows C3 C4 st) as G1. fold X in G1.
    pose proof (Or_Condition_grows C1 C2 (snd X)) as G2. fold Y in G2.
    pose proof (Or_Condition_grows (fst Y) (fst X) (snd Y)) as G3.
    assert (G12 : le_counters st (snd Y)) by exact (le_counters_trans _ _ _ G1 G2).
    split; [exact (le_counters_trans _ _ _ G12 G3)|].
    intros Hs V1 V2 V3 V4.
    assert (Hs2 : small_counters (snd Y)) by exact (small_counters_le _ _ G3 Hs).
    destruct (Or_pair C3 C4 C1 C2 st Hs2 V3 V4 V1 V2) as (VX & VY & _ & Hm).
    fold X in VX, Hm. fold Y in VY, Hm.
    split; [exact (Or_Condition_vars _ _ (snd Y) Hs VY VX)|].
    intros s H. destruct (Hm s ltac:(tauto)) as (s1 & first & O1 & A1 & S1).
    assert (S1' : sat s1 (if negb first then fst Y else fst X) = true)
      by (destruct first; exact S1).
    destruct (Or_step (negb first) (fst Y) (fst X) st (snd Y) s s1 G12 O1 A1 Hs VY VX S1')
      as (s2 & O2 & A2 & H2 & _).
    exists s2. split; [exact O2|split; [exact A2|apply H2]].
Qed.

Lemma IsPrime_factor_test_run o n c i j st :
  IsPrime_factor_test o n c i j st =
  let m1 := FermatTest3 (IsPrime_Generator c i) (IsPrime_Div c i j)
              (IsPrime_Prime c i) n st in
  (inners <- eval_args o
     (Or_Condition (fst m1) (Input_Equals_Number (IsPrime_Pow c i j) 0 n))
     (Or_Condition (Input_Equals_Number (IsPrime_Prime c i) 2 n)
        (Input_Equals_Number (IsPrime_Prime c i) 3 n)) ;;
   Or_Condition (fst inners) (snd inners)) (snd m1).
Proof.
  unfold IsPrime_factor_test. unfold bind at 1. cbv zeta.
  destruct (FermatTest3 _ _ _ n st) as [c1 st1]. reflexivity.
Qed.

Lemma IsPrime_factor_test_ok o n c i j st :
  (2 <= n)%nat -> small (n * 4 + 1) ->
  stable st (IsPrime_Prime c i) -> stable st (IsPrime_Generator c i) ->
  stable st (IsPrime_Div c i j) -> stable st (IsPrime_Pow c i j) ->
  run_ok (IsPrime_factor_test o n c i j) st
    (fun s =>
       (value s (IsPrime_Generator c i) n <> 0 /\
        value s (IsPrime_Generator c i) n <> 1 /\
        0 < value s (IsPrime_Prime c i) n /\
        value s (IsPrime_Generator c i) n ^ value s (IsPrime_Div c i j) n
          mod value s (IsPrime_Prime c i) n <> 1 /\
        value s (One_NBit (n * 2)) (n * 2) = 1) \/
       value s (IsPrime_Pow c i j) n = 0 \/
       (value s (IsPrime_Prime c i) n = 2 \/ value s (IsPrime_Prime c i) n = 3)).
Proof.
  intros Hn Hsn SP SG SD SE.
  unfold run_ok. rewrite IsPrime_factor_test_run. cbv zeta.
  pose proof (FermatTest3_ok (IsPrime_Generator c i) (IsPrime_Div c i j)
                (IsPrime_Prime c i) n st SG SD SP Hsn) as K1.
  pose proof (run_ok_grows _ _ _ K1) as G1.
  set (m1 := FermatTest3 (IsPrime_Generator c i) (IsPrime_Div c i j)
               (IsPrime_Prime c i) n st) in *.
  set (pz := Input_Equals_Number (IsPrime_Pow c i j) 0 n).
  set (eq2 := Input_Equals_Number (IsPrime_Prime c i) 2 n).
  set (eq3 := Input_Equals_Number (IsPrime_Prime c i) 3 n).
  destruct (Or_tree_ok o (fst m1) pz eq2 eq3 (snd m1)) as (G2 & K2).
  set (m2 := (inners <- eval_args o (Or_Condition (fst m1) pz) (Or_Condition eq2 eq3) ;;
              Or_Condition (fst inners) (snd inners)) (snd m1)) in *.
  split; [exact (le_counters_trans _ _ _ G1 G2)|]. intros Hs2.
  assert (Hs1 : small_counters (snd m1)) by exact (small_counters_le _ _ G2 Hs2).
  pose proof (run_ok_vars _ _ _ K1 Hs1) as V1. fold m1 in V1.
  assert (SP1 : stable (snd m1) (IsPrime_Prime c i)) by exact (stable_mono _ _ _ G1 SP).
  assert (SE1 : stable (snd m1) (IsPrime_Pow c i j)) by exact (stable_mono _ _ _ G1 SE).
  assert (Vz : all_vars (old (snd m1)) pz).
  { apply Input_Equals_Number_vars. intros k _. now apply stable_bit. }
  assert (Ve2 : all_vars (old (snd m1)) eq2).
  { apply Input_Equals_Number_vars. intros k _. now apply stable_bit. }
  assert (Ve3 : all_vars (old (snd m1)) eq3).
  { apply Input_Equals_Number_vars. intros k _. now apply stable_bit. }
  destruct (K2 Hs2 V1 Vz Ve2 Ve3) as (V2 & Hm). split; [exact V2|].
  assert (Fin : forall s s1, agree_off (owned st (snd m1)) s s1 ->
            (sat s1 (fst m1) = true \/ sat s1 pz = true) \/
            (sat s1 eq2 = true \/ sat s1 eq3 = true) ->
            exists s', agree_off (owned st (snd m2)) s s' /\ sat s' (fst m2) = true).
  { intros s s1 O1 H. destruct (Hm s1 H) as (s2 & O2 & _ & S2).
    exists s2. split; [|exact S2].
    exact (agree_off_owned_trans _ _ _ _ _ _ G1 G2 O1 O2). }
  intros s [Hf|[Hz|Hb]].
  - destruct (run_step _ _ _ s K1 Hs1 Hf) as (s1 & O1 & A1 & H1). fold m1 in O1, H1.
    apply (Fin s s1 O1). left. left. apply H1.
  - apply (Fin s s (agree_off_refl _ _)). left. right.
    apply (Input_Equals_Number_holds (snd m1)); [exact SE1|].
    rewrite Hz. symmetry. apply Z.mod_0_l. lia.
  - apply (Fin s s (agree_off_refl _ _)). right.
    destruct Hb as [Hb|Hb]; [left|right];
      apply (Input_Equals_Number_holds (snd m1)); try exact SP1.
    + now rewrite two_mod_pow2.
    + now rewrite three_mod_pow2.
Qed.

Lemma IsPrime_full_test_run n c i st :
  IsPrime_full_test n c i st =
  let m1 := FermatTest2 (IsPrime_Generator c i) (IsPrime_Prime c i) n st in
  let m2 := Or_Condition (Input_Equals_Number (IsPrime_Prime c i) 2 n)
              (Input_Equals_Number (IsPrime_Prime c i) 3 n) (snd m1) in
  Or_Condition (fst m1) (fst m2) (snd m2).
Proof.
  unfold IsPrime_full_test, bind. cbv zeta.
  destruct (FermatTest2 _ _ n st) as [c1 st1]. cbn [fst snd].
  destruct (Or_Condition _ _ st1) as [c2 st2]. reflexivity.
Qed.

Lemma IsPrime_full_test_ok n c i st :
  (2 <= n)%nat -> small (n * 4 + 1) ->
  stable st (IsPrime_Prime c i) -> stable st (IsPrime_Generator c i) ->
  run_ok (IsPrime_full_test n c i) st
    (fun s =>
       (value s (IsPrime_Generator c i) n <> 0 /\
        value s (IsPrime_Generator c i) n <> 1 /\
        0 < value s (IsPrime_Prime c i) n /\
        value s (IsPrime_Generator c i) n ^ (value s (IsPrime_Prime c i) n - 1)
          mod value s (IsPrime_Prime c i) n = 1 /\
        value s (One_NBit n) n = 1 /\
        value s (One_NBit (n * 2)) (n * 2) = 1) \/
       (value s (IsPrime_Prime c i) n = 2 \/ value s (IsPrime_Prime c i) n = 3)).
Proof.
  intros Hn Hsn SP SG.
  unfold run_ok. rewrite IsPrime_full_test_run. cbv zeta.
  pose proof (FermatTest2_ok (IsPrime_Generator c i) (IsPrime_Prime c i) n st
                SG SP Hsn) as K1.
  pose proof (run_ok_grows _ _ _ K1) as G1.
  set (m1 := FermatTest2 (IsPrime_Generator c i) (IsPrime_Prime c i) n st) in *.
  set (eq2 := Input_Equals_Number (IsPrime_Prime c i) 2 n).
  set (eq3 := Input_Equals_Number (IsPrime_Prime c i) 3 n).
  pose proof (Or_Condition_grows eq2 eq3 (snd m1)) as G2.
  set (m2 := Or_Condition eq2 eq3 (snd m1)) in *.
  pose proof (Or_Condition_grows (fst m1) (fst m2) (snd m2)) as G3.
  set (m3 := Or_Condition (fst m1) (fst m2) (snd m2)) in *.
  assert (G12 : le_counters st (snd m2)) by exact (le_counters_trans _ _ _ G1 G2).
  split; [exact (le_counters_trans _ _ _ G12 G3)|]. intros Hs3.
  assert (Hs2 : small_counters (snd m2)) by exact (small_counters_le _ _ G3 Hs3).
  assert (Hs1 : small_counters (snd m1)) by exact (small_counters_le _ _ G2 Hs2).
  pose proof (run_ok_vars _ _ _ K1 Hs1) as V1. fold m1 in V1.
  assert (SP1 : stable (snd m1) (IsPrime_Prime c i)) by exact (stable_mono _ _ _ G1 SP).
  assert (Ve2 : all_vars (old (snd m1)) eq2).
  { apply Input_Equals_Number_vars. intros k _. now apply stable_bit. }
  assert (Ve3 : all_vars (old (snd m1)) eq3).
  { apply Input_Equals_Number_vars. intros k _. now apply stable_bit. }
  pose proof (Or_Condition_vars eq2 eq3 (snd m1) Hs2 Ve2 Ve3) as V2. fold m2 in V2.
  assert (V12 : all_vars (old (snd m2)) (fst m1)) by exact (all_vars_up _ _ _ G2 V1).
  split; [exact (Or_Condition_vars _ _ (snd m2) Hs3 V12 V2)|].
  intros s [Hf|Hb].
  - destruct (run_step _ _ _ s K1 Hs1 Hf) as (s1 & O1 & A1 & H1). fold m1 in O1, H1.
    assert (O12 : agree_off (owned st (snd m2)) s s1).
    { intros x Hx. apply O1. intros Ho. apply Hx.
      exact (owned_weaken _ _ _ _ _ (le_counters_refl st) G2 Ho). }
    destruct (Or_step true (fst m1) (fst m2) st (snd m2) s s1 G12 O12 A1 Hs3 V12 V2
                (proj2 H1)) as (s3 & O3 & _ & H3 & _).
    exists s3. split; [exact O3|apply H3].
  - destruct (base_sat (snd m1) s _ n Hn SP1 Hb) as (l & Hl).
    destruct (Or_step l eq2 eq3 st (snd m1) s s G1 (agree_off_refl _ _)
                (agree_old_refl _ _) Hs2 Ve2 Ve3 Hl) as (s2 & O2 & A2 & H2 & L2).
    fold m2 in O2, H2, L2.
    destruct (Or_step false (fst m1) (fst m2) st (snd m2) s s2 L2 O2 A2 Hs3 V12 V2
                (proj2 H2)) as (s3 & O3 & _ & H3 & _).
    exists s3. split; [exact O3|apply H3].
Qed.

(* ================================================================== *)
(** * Models: the certificate written on the wires of [IsPrime] *)

Ltac skip_model_layers :=
  repeat first
    [ rewrite set_rows_other by (intros; name_neq)
    | rewrite set_grid_other by (intros; name_neq)
    | rewrite clear_grid_other by (intros; name_neq)
    | rewrite set_fam_other by (intros; name_neq) ].

Lemma row_inj' (p : string) c n j k :
  small n -> (j < n)%nat -> (k < n)%nat ->
  (p ++ Pad.Z c ++ "_" ++ Pad.Z j)%string = (p ++ Pad.Z c ++ "_" ++ Pad.Z k)%string ->
  j = k.
Proof. intros Hn Hj Hk. apply (row_inj p c n); try assumption; lia. Qed.

Lemma cell_inj' (p : string) c n i j i' j' :
  small n -> (i < n)%nat -> (j < n)%nat -> (i' < n)%nat -> (j' < n)%nat ->
  (p ++ Pad.Z c ++ "_" ++ Pad.Z i' ++ "_" ++ Pad.Z j')%string
  = (p ++ Pad.Z c ++ "_" ++ Pad.Z i ++ "_" ++ Pad.Z j)%string ->
  i' = i /\ j' = j.
Proof.
  intros Hn Hi Hj Hi' Hj'.
  apply cell_inj; apply (small_le _ n); assumption || lia.
Qed.

Section Model.
Variables (c n : nat) (C : certificate) (s : assignment).
Hypothesis Hc : small c.
Hypothesis Hn : small (S n).

Ltac row_side :=
  first [ exact Hn | assumption | lia
        | (apply (small_le _ (S n)); [lia|exact Hn])
        | (intros ? ?; unfold_all_names; apply (row_inj' _ c (S n)); assumption || lia)
        | (intros ? ? ? ?; unfold_all_names; rewrite ?append_assoc;
           apply (cell_inj' _ c (S n)); assumption || lia) ].

Ltac read_row :=
  intros; unfold IsPrime_model; skip_model_layers;
  first [ apply set_rows_get | apply set_grid_get
        | apply (set_fam_get _ _ (fun _ => false)) | apply clear_grid_get ];
  row_side.

Lemma model_Prime i b : (i < n)%nat -> (b < n)%nat ->
  IsPrime_model c n C s (IsPrime_Prime c i # b) = Z.testbit (cert_P C i) (Z.of_nat b).
Proof. read_row. Qed.

Lemma model_Pow i j b : (i < n)%nat -> (j < n)%nat -> (b < S n)%nat ->
  IsPrime_model c n C s (IsPrime_Pow c i j # b) = Z.testbit (cert_E C i j) (Z.of_nat b).
Proof. read_row. Qed.

Lemma model_PowTemp i j b : (i < n)%nat -> (j < n)%nat -> (b < n)%nat ->
  IsPrime_model c n C s (IsPrime_PowTemp c i j # b)
  = Z.testbit (cert_power C i j) (Z.of_nat b).
Proof. read_row. Qed.

Lemma model_PowTemp_Overflow i j : (i < n)%nat -> (j < n)%nat ->
  IsPrime_model c n C s (IsPrime_PowTemp_Overflow c i j) = false.
Proof. read_row. Qed.

Lemma model_Product i b : (i < n)%nat -> (b < n)%nat ->
  IsPrime_model c n C s (IsPrime_Product c i # b)
  = Z.testbit (cert_product C n i) (Z.of_nat b).
Proof. read_row. Qed.

Lemma model_Product_Overflow i : (i < n)%nat ->
  IsPrime_model c n C s (IsPrime_Product_Overflow c i) = false.
Proof. read_row. Qed.

Lemma model_Product_Plus1 i b : (i < n)%nat -> (b < n)%nat ->
  IsPrime_model c n C s (IsPrime_Product_Plus1 c i # b)
  = Z.testbit (cert_product C n i + 1) (Z.of_nat b).
Proof. read_row. Qed.

Lemma model_Product_Plus1_Overflow i : (i < n)%nat ->
  IsPrime_model c n C s (IsPrime_Product_Plus1_Overflow c i) = false.
Proof. read_row. Qed.

Lemma model_SumPow i b : (i < n)%nat -> (b < n)%nat ->
  IsPrime_model c n C s (IsPrime_SumPow c i # b)
  = Z.testbit (cert_sum C n i) (Z.of_nat b).
Proof. read_row. Qed.

Lemma model_SumPow_Overflow i : (i < n)%nat ->
  IsPrime_model c n C s (IsPrime_SumPow_Overflow c i) = false.
Proof. read_row. Qed.

Lemma model_Prime_Minus1 i b : (i < n)%nat -> (b < n)%nat ->
  IsPrime_model c n C s (IsPrime_Prime_Minus1 c i # b)
  = Z.testbit (cert_P C i - 1) (Z.of_nat b).
Proof. read_row. Qed.

Lemma model_Prime_Minus1_Overflow i : (i < n)%nat ->
  IsPrime_model c n C s (IsPrime_Prime_Minus1_Overflow c i) = false.
Proof. read_row. Qed.

Lemma model_Div i j b : (i < n)%nat -> (j < n)%nat -> (b < n)%nat ->
  IsPrime_model c n C s (IsPrime_Div c i j # b)
  = Z.testbit ((cert_P C i - 1) / cert_P C j) (Z.of_nat b).
Proof. read_row. Qed.

Lemma model_Mod i j b : (i < n)%nat -> (j < n)%nat -> (b < n)%nat ->
  IsPrime_model c n C s (IsPrime_Mod c i j # b)
  = Z.testbit ((cert_P C i - 1) mod cert_P C j) (Z.of_nat b).
Proof. read_row. Qed.

Lemma model_Generator i b : (i < n)%nat -> (b < n)%nat ->
  IsPrime_model c n C s (IsPrime_Generator c i # b)
  = Z.testbit (cert_G C i) (Z.of_nat b).
Proof. read_row. Qed.

Lemma writes_IsPrime_model : writes KIsPrime c s (IsPrime_model c n C s).
Proof.
  unfold IsPrime_model.
  repeat first
    [ apply writes_set_rows; [|intros; made_tac]
    | apply writes_set_grid; [|intros; made_tac]
    | apply writes_clear_grid; [|intros; made_tac]
    | apply writes_set_fam; [|intros; made_tac] ].
  apply writes_refl.
Qed.

End Model.

Lemma cert_power_pos n C i j :
  cert_ok n C -> (i < n)%nat -> (j < n)%nat -> 1 <= cert_power C i j.
Proof.
  intros (H1 & H2) Hi Hj. destruct (H1 j Hj) as (HP & _).
  destruct (H2 i j Hi Hj) as (HE & _). unfold cert_power.
  pose proof (Z.pow_pos_nonneg (cert_P C j) (cert_E C i j) ltac:(lia) ltac:(lia)). lia.
Qed.

Lemma cert_product_pos n C i : cert_ok n C -> (i < n)%nat -> 1 <= cert_product C n i.
Proof.
  intros H Hi. unfold cert_product. apply zprod_pos_ge. intros j Hj.
  now apply (cert_power_pos n).
Qed.

Lemma cert_sum_nonneg n C i : cert_ok n C -> (i < n)%nat -> 0 <= cert_sum C n i.
Proof.
  intros (_ & H2) Hi. unfold cert_sum. apply zsum_nonneg. intros j Hj.
  destruct (H2 i j Hi Hj) as (HE & _). lia.
Qed.

Lemma model_facts_model c n C s st :
  small c -> small (S n) -> (cnt KIsPrime st < c)%nat -> cert_ok n C ->
  value s (One_NBit n) n = 1 -> value s (One_NBit (n * 2)) (n * 2) = 1 ->
  s Zero_1Bit = false ->
  model_facts c n C (IsPrime_model c n C s).
Proof.
  intros Hc Hn Hlt HC V1 V2 VZ.
  pose proof (writes_old KIsPrime c st _ _ (writes_IsPrime_model c n C s) Hc Hlt) as A.
  pose proof HC as (H1 & H2).
  split; [|split].
  - rewrite (value_agree st s _ (One_NBit n) n (stable_One_NBit _ _) A),
      (value_agree st s _ (One_NBit (n * 2)) (n * 2) (stable_One_NBit _ _) A).
    rewrite (A _ (old_Zero_1Bit st)). split; [exact V1|split; [exact V2|exact VZ]].
  - intros i Hi. destruct (H1 i Hi) as (HP & HG & HPR & HS & _).
    pose proof (cert_product_pos n C i HC Hi).
    pose proof (cert_sum_nonneg n C i HC Hi).
    repeat split.
    + rewrite (bits_value _ _ _ (cert_P C i)); [apply Z.mod_small; lia|].
      intros b Hb. now apply model_Prime.
    + rewrite (bits_value _ _ _ (cert_G C i)); [apply Z.mod_small; lia|].
      intros b Hb. now apply model_Generator.
    + rewrite (bits_value _ _ _ (cert_product C n i)); [apply Z.mod_small; lia|].
      intros b Hb. now apply model_Product.
    + now apply model_Product_Overflow.
    + rewrite (bits_value _ _ _ (cert_product C n i + 1)); [apply Z.mod_small; lia|].
      intros b Hb. now apply model_Product_Plus1.
    + now apply model_Product_Plus1_Overflow.
    + rewrite (bits_value _ _ _ (cert_sum C n i)); [apply Z.mod_small; lia|].
      intros b Hb. now apply model_SumPow.
    + now apply model_SumPow_Overflow.
    + rewrite (bits_value _ _ _ (cert_P C i - 1)); [apply Z.mod_small; lia|].
      intros b Hb. now apply model_Prime_Minus1.
    + now apply model_Prime_Minus1_Overflow.
  - intros i j Hi Hj. destruct (H1 i Hi) as (HPi & _). destruct (H1 j Hj) as (HPj & _).
    destruct (H2 i j Hi Hj) as (HE & HPW & _).
    pose proof (cert_power_pos n C i j HC Hi Hj).
    repeat split.
    + rewrite (bits_value _ _ _ (cert_E C i j)); [apply Z.mod_small; lia|].
      intros b Hb. apply model_Pow; try assumption. lia.
    + rewrite model_Pow by (assumption || lia). now apply (testbit_high _ n).
    + rewrite (bits_value _ _ _ (cert_power C i j)); [apply Z.mod_small; lia|].
      intros b Hb. now apply model_PowTemp.
    + now apply model_PowTemp_Overflow.
    + rewrite (bits_value _ _ _ ((cert_P C i - 1) / cert_P C j)).
      * apply Z.mod_small. split; [apply Z.div_pos; lia|].
        apply Z.div_lt_upper_bound; [lia|]. nia.
      * intros b Hb. now apply model_Div.
    + rewrite (bits_value _ _ _ ((cert_P C i - 1) mod cert_P C j)).
      * apply Z.mod_small.
        pose proof (Z.mod_pos_bound (cert_P C i - 1) (cert_P C j) ltac:(lia)). lia.
      * intros b Hb. now apply model_Mod.
Qed.

Lemma model_facts_agree c n C st s1 s2 :
  small c -> (c <= cnt KIsPrime st)%nat ->
  model_facts c n C s1 -> agree_old st s1 s2 -> model_facts c n C s2.
Proof.
  intros Hc Hle (F0 & F1 & F2) A.
  assert (St : forall x, made KIsPrime c x -> stable st x).
  { intros x Hx. now apply (made_stable KIsPrime c). }
  assert (V : forall x w, made KIsPrime c x -> value s2 x w = value s1 x w).
  { intros x w Hx. apply (value_agree st); [now apply St|exact A]. }
  assert (B : forall x, made KIsPrime c x -> s2 x = s1 x).
  { intros x Hx. apply A. now apply stable_old, St. }
  split; [|split].
  - rewrite (value_agree st s1 s2 (One_NBit n) n (stable_One_NBit _ _) A),
      (value_agree st s1 s2 (One_NBit (n * 2)) (n * 2) (stable_One_NBit _ _) A).
    rewrite (A _ (old_Zero_1Bit st)). exact F0.
  - intros i Hi. specialize (F1 i Hi).
    rewrite !V by made_tac. rewrite !B by made_tac. exact F1.
  - intros i j Hi Hj. specialize (F2 i j Hi Hj).
    rewrite !V by made_tac. rewrite !B by made_tac. exact F2.
Qed.

Lemma run_ok_weaken m st (pre pre' : assignment -> Prop) :
  run_ok m st pre -> (forall s, pre' s -> pre s) -> run_ok m st pre'.
Proof.
  intros (Hg & H) Hw. split; [exact Hg|]. intros Hs.
  destruct (H Hs) as (Hv & Hm). split; [exact Hv|]. intros s Hp. apply Hm, Hw, Hp.
Qed.

(* ================================================================== *)
(** * Models: [IsPrime] from a certificate *)

Lemma zsum_ext f g k :
  (forall j, (j < k)%nat -> f j = g j) -> zsum f k = zsum g k.
Proof.
  induction k as [|k IH]; intros H; cbn [zsum]; [reflexivity|].
  rewrite IH, H by (intros; try apply H; lia). reflexivity.
Qed.

Lemma tick_IsPrime_le st : le_counters st (snd (tick_IsPrime st)).
Proof. intros k. destruct k; cbn; lia. Qed.

Lemma all_vars_map_clauses (P : string -> Prop) (f : nat -> clause) k :
  (forall i, (i < k)%nat -> all_vars P [f i]) -> all_vars P (map f (seq 0 k)).
Proof.
  intros H x Hx. unfold cnf_vars in Hx. apply in_flat_map in Hx.
  destruct Hx as (cl & Hcl & Hx). apply in_map_iff in Hcl.
  destruct Hcl as (i & <- & Hi). apply in_seq in Hi.
  apply (H i ltac:(lia)). unfold cnf_vars. cbn [flat_map]. rewrite app_nil_r. exact Hx.
Qed.

Lemma holds_map_clauses st s (f : nat -> clause) k :
  (forall i, (i < k)%nat -> holds st s [f i]) -> holds st s (map f (seq 0 k)).
Proof.
  intros H. split.
  - apply all_vars_map_clauses. intros i Hi. apply H, Hi.
  - apply sat_forall. intros cl Hcl. apply in_map_iff in Hcl.
    destruct Hcl as (i & <- & Hi). apply in_seq in Hi.
    destruct (H i ltac:(lia)) as (_ & Hs). cbn [sat forallb] in Hs.
    now rewrite andb_true_r in Hs.
Qed.

Lemma IsPrime_run o target n st :
  IsPrime o target n (Z.of_nat n) st =
  let c := S (cnt KIsPrime st) in
  let m1 := for_ n (fun i => for_ n (fun j =>
              Pow_NBit (IsPrime_Prime c j) (IsPrime_Pow c i j) (IsPrime_PowTemp c i j)
                       (IsPrime_PowTemp_Overflow c i j) n)) (snd (tick_IsPrime st)) in
  let m2 := for_ n (fun i =>
              Product_NBit (IsPrime_PowTemp_row c i) (IsPrime_Product c i)
                           (IsPrime_Product_Overflow c i) n n) (snd m1) in
  let m3 := for_ n (fun i =>
              Add_NBit (IsPrime_Product c i) (One_NBit n) (IsPrime_Product_Plus1 c i)
                       (IsPrime_Product_Plus1_Overflow c i) n) (snd m2) in
  let m4 := for_ n (fun i =>
              Sum_NBit (IsPrime_Pow_row c i) (IsPrime_SumPow c i)
                       (IsPrime_SumPow_Overflow c i) n n) (snd m3) in
  let m5 := for_ n (IsPrime_base_or_factored n c) (snd m4) in
  let m6 := for_ n (fun i =>
              Add_NBit (IsPrime_Prime_Minus1 c i) (One_NBit n) (IsPrime_Prime c i)
                       (IsPrime_Prime_Minus1_Overflow c i) n) (snd m5) in
  let m7 := for_ n (fun i => for_ n (fun j =>
              DivMod_NBit (IsPrime_Prime_Minus1 c i) (IsPrime_Prime c j)
                          (IsPrime_Div c i j) (IsPrime_Mod c i j) n)) (snd m6) in
  let m8 := for_ n (fun i => for_ n (fun j => IsPrime_factor_test o n c i j)) (snd m7) in
  let m9 := for_ n (IsPrime_full_test n c) (snd m8) in
  (map (fun i => Input_Not_Equals_Number (IsPrime_Prime c i) 0 n) (seq 0 n)
   ++ map (fun i => Input_Not_Equals_Number (IsPrime_Prime c i) 1 n) (seq 0 n)
   ++ fst m1
   ++ for_pure n (fun i => for_pure n (fun j =>
        [[Neg (IsPrime_PowTemp_Overflow c i j)]]))
   ++ fst m2
   ++ for_pure n (fun i => [[Neg (IsPrime_Product_Overflow c i)]])
   ++ fst m3
   ++ for_pure n (fun i => [[Neg (IsPrime_Product_Plus1_Overflow c i)]])
   ++ fst m4
   ++ for_pure n (fun i => [[Neg (IsPrime_SumPow_Overflow c i)]])
   ++ fst m5
   ++ fst m6
   ++ for_pure n (fun i => [[Neg (IsPrime_Prime_Minus1_Overflow c i)]])
   ++ fst m7 ++ fst m8 ++ fst m9
   ++ Equals_NBit target (IsPrime_Prime c 0) n,
   snd m9).
Proof.
  assert (E : (if Z.of_nat n =? -1 then n else Z.to_nat (Z.of_nat n)) = n).
  { destruct (Z.eqb_spec (Z.of_nat n) (-1)); [lia|apply Nat2Z.id]. }
  unfold IsPrime. cbv zeta. rewrite E. clear E.
  unfold bind, ret, tick_IsPrime. run_eq.
Qed.

Section IsPrimeLoops.
Variables (o : arg_order) (n c : nat) (C : certificate) (st1 : counters).
Hypothesis Hn2 : (2 <= n)%nat.
Hypothesis Hsn : small (n * 4 + 1).
Hypothesis Hc : small c.
Hypothesis Hc1 : (c <= cnt KIsPrime st1)%nat.
Hypothesis HC : cert_ok n C.

Lemma IsPrime_wire_stable x st' :
  le_counters st1 st' -> made KIsPrime c x -> stable st' x.
Proof.
  intros Hle Hx. apply (made_stable KIsPrime c); [exact Hx|exact Hc|].
  specialize (Hle KIsPrime). lia.
Qed.

Lemma facts_loop body :
  (forall i st', (i < n)%nat -> le_counters st1 st' ->
     run_ok (body i) st' (model_facts c n C)) ->
  forall st', le_counters st1 st' ->
  run_ok (for_ n body) st' (fun s => forall i, (i < n)%nat -> model_facts c n C s).
Proof.
  intros Hb st' Hle.
  apply (for_ok n body (fun _ => model_facts c n C)).
  - intros i st2 Hi Hle2. apply Hb; [exact Hi|].
    exact (le_counters_trans _ _ _ Hle Hle2).
  - intros _ s1 s2 F A. apply (model_facts_agree c n C st' s1 s2); try assumption.
    specialize (Hle KIsPrime). lia.
Qed.

Lemma facts_loop2 body :
  (forall i j st', (i < n)%nat -> (j < n)%nat -> le_counters st1 st' ->
     run_ok (body i j) st' (model_facts c n C)) ->
  forall st', le_counters st1 st' ->
  run_ok (for_ n (fun i => for_ n (body i))) st'
    (fun s => forall i, (i < n)%nat -> forall j, (j < n)%nat -> model_facts c n C s).
Proof.
  intros Hb st' Hle.
  apply (for_ok n (fun i => for_ n (body i))
           (fun _ s => forall j, (j < n)%nat -> model_facts c n C s)).
  - intros i st2 Hi Hle2. apply (facts_loop (body i)).
    + intros j st3 Hj Hle3. exact (Hb i j st3 Hi Hj Hle3).
    + exact (le_counters_trans _ _ _ Hle Hle2).
  - intros _ s1 s2 F A j Hj.
    apply (model_facts_agree c n C st' s1 s2); try assumption.
    + specialize (Hle KIsPrime). lia.
    + exact (F j Hj).
Qed.

Ltac wire := apply IsPrime_wire_stable; [assumption|made_tac].
Ltac small_n := apply (small_le _ (n * 4 + 1)); [lia|exact Hsn].

Lemma body_pows i j st' :
  (i < n)%nat -> (j < n)%nat -> le_counters st1 st' ->
  run_ok (Pow_NBit (IsPrime_Prime c j) (IsPrime_Pow c i j) (IsPrime_PowTemp c i j)
            (IsPrime_PowTemp_Overflow c i j) n) st' (model_facts c n C).
Proof.
  intros Hi Hj Hle.
  eapply run_ok_weaken;
    [apply Pow_NBit_ok; [wire|wire|wire|apply stable_old; wire|small_n]|].
  intros s ((V1 & V2 & VZ) & F1 & F2). cbv beta.
  destruct (F1 j Hj) as (EP & _). destruct (F2 i j Hi Hj) as (EE & EB & ET & EO & _).
  destruct HC as (H1 & H2). destruct (H1 j Hj) as (HP & _).
  destruct (H2 i j Hi Hj) as (_ & HPW & _). unfold cert_power in *.
  rewrite EP, EE, ET. repeat split; try assumption; lia.
Qed.

Lemma body_products i st' :
  (i < n)%nat -> le_counters st1 st' ->
  run_ok (Product_NBit (IsPrime_PowTemp_row c i) (IsPrime_Product c i)
            (IsPrime_Product_Overflow c i) n n) st' (model_facts c n C).
Proof.
  intros Hi Hle.
  eapply run_ok_weaken;
    [apply Product_NBit_ok; [wire|wire|apply stable_old; wire|small_n|small_n]|].
  intros s (_ & F1 & F2). cbv beta.
  destruct (F1 i Hi) as (_ & _ & EPR & EPO & _).
  assert (EV : forall j, (j < n)%nat ->
            value s (IsPrime_PowTemp_row c i # j) n = cert_power C i j).
  { intros j Hj. now destruct (F2 i j Hi Hj) as (_ & _ & ET & _). }
  destruct HC as (H1 & H2). destruct (H1 i Hi) as (_ & _ & HPR & _).
  pose proof (cert_product_pos n C i (conj H1 H2) Hi) as Hpos.
  rewrite (zprod_ext _ (cert_power C i) n EV). fold (cert_product C n i).
  split; [|split; [lia|split; assumption]].
  intros j Hj. rewrite (EV j Hj). now apply (cert_power_pos n C i j (conj H1 H2)).
Qed.

Lemma body_plus1 i st' :
  (i < n)%nat -> le_counters st1 st' ->
  run_ok (Add_NBit (IsPrime_Product c i) (One_NBit n) (IsPrime_Product_Plus1 c i)
            (IsPrime_Product_Plus1_Overflow c i) n) st' (model_facts c n C).
Proof.
  intros Hi Hle.
  eapply run_ok_weaken;
    [apply Add_NBit_ok;
       [wire|apply stable_One_NBit|wire|apply stable_old; wire|small_n]|].
  intros s ((V1 & _) & F1 & _). cbv beta.
  destruct (F1 i Hi) as (_ & _ & EPR & _ & EPP & EPO & _).
  destruct HC as (H1 & H2). destruct (H1 i Hi) as (_ & _ & HPR & _).
  pose proof (cert_product_pos n C i (conj H1 H2) Hi) as Hpos.
  rewrite EPR, EPP, EPO, V1. cbn [Z.b2z].
  rewrite Z.mod_small, Z.div_small by lia. now split.
Qed.

Lemma body_sums i st' :
  (i < n)%nat -> le_counters st1 st' ->
  run_ok (Sum_NBit (IsPrime_Pow_row c i) (IsPrime_SumPow c i)
            (IsPrime_SumPow_Overflow c i) n n) st' (model_facts c n C).
Proof.
  intros Hi Hle.
  eapply run_ok_weaken;
    [apply Sum_NBit_ok; [wire|wire|apply stable_old; wire|small_n|small_n]|].
  intros s (_ & F1 & F2). cbv beta.
  destruct (F1 i Hi) as (_ & _ & _ & _ & _ & _ & ES & ESO & _).
  assert (EV : forall j, (j < n)%nat ->
            value s (IsPrime_Pow_row c i # j) n = cert_E C i j).
  { intros j Hj. now destruct (F2 i j Hi Hj) as (EE & _). }
  destruct HC as (H1 & H2). destruct (H1 i Hi) as (_ & _ & _ & HS & _).
  rewrite (zsum_ext _ (cert_E C i) n EV). fold (cert_sum C n i).
  split; [exact HS|split; assumption].
Qed.

Lemma body_base i st' :
  (i < n)%nat -> le_counters st1 st' ->
  run_ok (IsPrime_base_or_factored n c i) st' (model_facts c n C).
Proof.
  intros Hi Hle.
  eapply run_ok_weaken;
    [apply IsPrime_base_or_factored_ok; [exact Hn2|small_n|wire|wire|wire]|].
  intros s ((V1 & _) & F1 & _). cbv beta.
  destruct (F1 i Hi) as (EP & _ & _ & _ & EPP & _ & ES & _).
  destruct HC as (H1 & H2). destruct (H1 i Hi) as (_ & _ & _ & _ & HB & _).
  rewrite EP, EPP, ES, V1. unfold cert_base in HB. tauto.
Qed.

Lemma body_minus1 i st' :
  (i < n)%nat -> le_counters st1 st' ->
  run_ok (Add_NBit (IsPrime_Prime_Minus1 c i) (One_NBit n) (IsPrime_Prime c i)
            (IsPrime_Prime_Minus1_Overflow c i) n) st' (model_facts c n C).
Proof.
  intros Hi Hle.
  eapply run_ok_weaken;
    [apply Add_NBit_ok;
       [wire|apply stable_One_NBit|wire|apply stable_old; wire|small_n]|].
  intros s ((V1 & _) & F1 & _). cbv beta.
  destruct (F1 i Hi) as (EP & _ & _ & _ & _ & _ & _ & _ & EM & EMO).
  destruct HC as (H1 & H2). destruct (H1 i Hi) as (HP & _).
  rewrite EP, EM, EMO, V1. cbn [Z.b2z]. replace (cert_P C i - 1 + 1) with (cert_P C i) by lia.
  rewrite Z.mod_small, Z.div_small by lia. now split.
Qed.

Lemma body_divmods i j st' :
  (i < n)%nat -> (j < n)%nat -> le_counters st1 st' ->
  run_ok (DivMod_NBit (IsPrime_Prime_Minus1 c i) (IsPrime_Prime c j)
            (IsPrime_Div c i j) (IsPrime_Mod c i j) n) st' (model_facts c n C).
Proof.
  intros Hi Hj Hle.
  eapply run_ok_weaken;
    [apply DivMod_NBit_ok; [wire|wire|wire|wire|small_n]|].
  intros s (_ & F1 & F2). cbv beta.
  destruct (F1 i Hi) as (_ & _ & _ & _ & _ & _ & _ & _ & EM & _).
  destruct (F1 j Hj) as (EP & _).
  destruct (F2 i j Hi Hj) as (_ & _ & _ & _ & ED & EO).
  destruct HC as (H1 & H2). destruct (H1 j Hj) as (HP & _).
  rewrite EP, EM, ED, EO. split.
  - apply Z.div_mod. lia.
  - apply Z.mod_pos_bound. lia.
Qed.

Lemma body_factor_tests i j st' :
  (i < n)%nat -> (j < n)%nat -> le_counters st1 st' ->
  run_ok (IsPrime_factor_test o n c i j) st' (model_facts c n C).
Proof.
  intros Hi Hj Hle.
  eapply run_ok_weaken;
    [apply IsPrime_factor_test_ok; [exact Hn2|exact Hsn|wire|wire|wire|wire]|].
  intros s ((_ & V2 & _) & F1 & F2). cbv beta.
  destruct (F1 i Hi) as (EP & EG & _).
  destruct (F2 i j Hi Hj) as (EE & _ & _ & _ & ED & _).
  destruct HC as (H1 & H2). destruct (H1 i Hi) as (HP & _).
  destruct (H2 i j Hi Hj) as (_ & _ & HT).
  rewrite EP, EG, ED, EE, V2. unfold cert_base in HT.
  destruct HT as [(G0 & G1 & HF)|[HE|HB]]; [left|right; left|right; right];
    try assumption.
  repeat split; try assumption. lia.
Qed.

Lemma body_full_tests i st' :
  (i < n)%nat -> le_counters st1 st' ->
  run_ok (IsPrime_full_test n c i) st' (model_facts c n C).
Proof.
  intros Hi Hle.
  eapply run_ok_weaken;
    [apply IsPrime_full_test_ok; [exact Hn2|exact Hsn|wire|wire]|].
  intros s ((V1 & V2 & _) & F1 & _). cbv beta.
  destruct (F1 i Hi) as (EP & EG & _).
  destruct HC as (H1 & H2). destruct (H1 i Hi) as (HP & _ & _ & _ & _ & HT).
  rewrite EP, EG, V1, V2. unfold cert_base in HT.
  destruct HT as [(G0 & G1 & HF)|HB]; [left|right]; try assumption.
  repeat split; try assumption. lia.
Qed.

Lemma IsPrime_loops_ok target :
  stable st1 target ->
  let m1 := for_ n (fun i => for_ n (fun j =>
              Pow_NBit (IsPrime_Prime c j) (IsPrime_Pow c i j) (IsPrime_PowTemp c i j)
                       (IsPrime_PowTemp_Overflow c i j) n)) st1 in
  let m2 := for_ n (fun i =>
              Product_NBit (IsPrime_PowTemp_row c i) (IsPrime_Product c i)
                           (IsPrime_Product_Overflow c i) n n) (snd m1) in
  let m3 := for_ n (fun i =>
              Add_NBit (IsPrime_Product c i) (One_NBit n) (IsPrime_Product_Plus1 c i)
                       (IsPrime_Product_Plus1_Overflow c i) n) (snd m2) in
  let m4 := for_ n (fun i =>
              Sum_NBit (IsPrime_Pow_row c i) (IsPrime_SumPow c i)
                       (IsPrime_SumPow_Overflow c i) n n) (snd m3) in
  let m5 := for_ n (IsPrime_base_or_factored n c) (snd m4) in
  let m6 := for_ n (fun i =>
              Add_NBit (IsPrime_Prime_Minus1 c i) (One_NBit n) (IsPrime_Prime c i)
                       (IsPrime_Prime_Minus1_Overflow c i) n) (snd m5) in
  let m7 := for_ n (fun i => for_ n (fun j =>
              DivMod_NBit (IsPrime_Prime_Minus1 c i) (IsPrime_Prime c j)
                          (IsPrime_Div c i j) (IsPrime_Mod c i j) n)) (snd m6) in
  let m8 := for_ n (fun i => for_ n (fun j => IsPrime_factor_test o n c i j)) (snd m7) in
  let m9 := for_ n (IsPrime_full_test n c) (snd m8) in
  let cl :=
    map (fun i => Input_Not_Equals_Number (IsPrime_Prime c i) 0 n) (seq 0 n)
    ++ map (fun i => Input_Not_Equals_Number (IsPrime_Prime c i) 1 n) (seq 0 n)
    ++ fst m1
    ++ for_pure n (fun i => for_pure n (fun j =>
         [[Neg (IsPrime_PowTemp_Overflow c i j)]]))
    ++ fst m2
    ++ for_pure n (fun i => [[Neg (IsPrime_Product_Overflow c i)]])
    ++ fst m3
    ++ for_pure n (fun i => [[Neg (IsPrime_Product_Plus1_Overflow c i)]])
    ++ fst m4
    ++ for_pure n (fun i => [[Neg (IsPrime_SumPow_Overflow c i)]])
    ++ fst m5
    ++ fst m6
    ++ for_pure n (fun i => [[Neg (IsPrime_Prime_Minus1_Overflow c i)]])
    ++ fst m7 ++ fst m8 ++ fst m9
    ++ Equals_NBit target (IsPrime_Prime c 0) n in
  le_counters st1 (snd m9) /\
  (small_counters (snd m9) ->
   all_vars (old (snd m9)) cl /\
   forall s1, model_facts c n C s1 -> value s1 target n = cert_P C 0 ->
     exists s', agree_off (owned st1 (snd m9)) s1 s' /\ sat s' cl = true).
Proof.
  intros Ht.
  pose proof (facts_loop2 _ body_pows st1 (le_counters_refl _)) as K1.
  pose proof (run_ok_grows _ _ _ K1) as T1.
  pose proof (facts_loop _ body_products _ T1) as K2.
  pose proof (run_ok_grows _ _ _ K2) as G2.
  pose proof (le_counters_trans _ _ _ T1 G2) as T2.
  pose proof (facts_loop _ body_plus1 _ T2) as K3.
  pose proof (run_ok_grows _ _ _ K3) as G3.
  pose proof (le_counters_trans _ _ _ T2 G3) as T3.
  pose proof (facts_loop _ body_sums _ T3) as K4.
  pose proof (run_ok_grows _ _ _ K4) as G4.
  pose proof (le_counters_trans _ _ _ T3 G4) as T4.
  pose proof (facts_loop _ body_base _ T4) as K5.
  pose proof (run_ok_grows _ _ _ K5) as G5.
  pose proof (le_counters_trans _ _ _ T4 G5) as T5.
  pose proof (facts_loop _ body_minus1 _ T5) as K6.
  pose proof (run_ok_grows _ _ _ K6) as G6.
  pose proof (le_counters_trans _ _ _ T5 G6) as T6.
  pose proof (facts_loop2 _ body_divmods _ T6) as K7.
  pose proof (run_ok_grows _ _ _ K7) as G7.
  pose proof (le_counters_trans _ _ _ T6 G7) as T7.
  pose proof (facts_loop2 _ body_factor_tests _ T7) as K8.
  pose proof (run_ok_grows _ _ _ K8) as G8.
  pose proof (le_counters_trans _ _ _ T7 G8) as T8.
  pose proof (facts_loop _ body_full_tests _ T8) as K9.
  pose proof (run_ok_grows _ _ _ K9) as G9.
  pose proof (le_counters_trans _ _ _ T8 G9) as T9.
  cbv zeta.
  set (m1 := for_ n _ st1) in *.
  set (m2 := for_ n _ (snd m1)) in *.
  set (m3 := for_ n _ (snd m2)) in *.
  set (m4 := for_ n _ (snd m3)) in *.
  set (m5 := for_ n _ (snd m4)) in *.
  set (m6 := for_ n _ (snd m5)) in *.
  set (m7 := for_ n _ (snd m6)) in *.
  set (m8 := for_ n _ (snd m7)) in *.
  set (m9 := for_ n _ (snd m8)) in *.
  split; [exact T9|]. intros Hs9.
  assert (Hs8 : small_counters (snd m8)) by exact (small_counters_le _ _ G9 Hs9).
  assert (Hs7 : small_counters (snd m7)) by exact (small_counters_le _ _ G8 Hs8).
  assert (Hs6 : small_counters (snd m6)) by exact (small_counters_le _ _ G7 Hs7).
  assert (Hs5 : small_counters (snd m5)) by exact (small_counters_le _ _ G6 Hs6).
  assert (Hs4 : small_counters (snd m4)) by exact (small_counters_le _ _ G5 Hs5).
  assert (Hs3 : small_counters (snd m3)) by exact (small_counters_le _ _ G4 Hs4).
  assert (Hs2 : small_counters (snd m2)) by exact (small_counters_le _ _ G3 Hs3).
  assert (Hs1 : small_counters (snd m1)) by exact (small_counters_le _ _ G2 Hs2).
  assert (L8 : le_counters (snd m8) (snd m9)) by exact G9.
  assert (L7 : le_counters (snd m7) (snd m9)) by exact (le_counters_trans _ _ _ G8 L8).
  assert (L6 : le_counters (snd m6) (snd m9)) by exact (le_counters_trans _ _ _ G7 L7).
  assert (L5 : le_counters (snd m5) (snd m9)) by exact (le_counters_trans _ _ _ G6 L6).
  assert (L4 : le_counters (snd m4) (snd m9)) by exact (le_counters_trans _ _ _ G5 L5).
  assert (L3 : le_counters (snd m3) (snd m9)) by exact (le_counters_trans _ _ _ G4 L4).
  assert (L2 : le_counters (snd m2) (snd m9)) by exact (le_counters_trans _ _ _ G3 L3).
  assert (L1 : le_counters (snd m1) (snd m9)) by exact (le_counters_trans _ _ _ G2 L2).
  assert (W : forall x, made KIsPrime c x -> stable st1 x).
  { intros x Hx. apply IsPrime_wire_stable; [apply le_counters_refl|exact Hx]. }
  assert (Wo : forall x, made KIsPrime c x -> old (snd m9) x).
  { intros x Hx. apply (old_mono st1); [exact T9|]. apply stable_old, W, Hx. }
  assert (Wb : forall x k, made KIsPrime c x -> old (snd m9) (x # k)).
  { intros x k Hx. apply (old_mono st1); [exact T9|]. apply stable_bit, W, Hx. }
  split.
  { apply all_vars_app.
    { apply all_vars_map_clauses. intros i _.
      apply Input_Not_Equals_Number_vars. intros k _. apply Wb. made_tac. }
    apply all_vars_app.
    { apply all_vars_map_clauses. intros i _.
      apply Input_Not_Equals_Number_vars. intros k _. apply Wb. made_tac. }
    apply all_vars_app.
    { exact (all_vars_up _ _ _ L1 (run_ok_vars _ _ _ K1 Hs1)). }
    apply all_vars_app.
    { apply all_vars_for_pure. intros i _. apply all_vars_for_pure. intros j _.
      assert (old (snd m9) (IsPrime_PowTemp_Overflow c i j)) by (apply Wo; made_tac).
      vars_cases. }
    apply all_vars_app.
    { exact (all_vars_up _ _ _ L2 (run_ok_vars _ _ _ K2 Hs2)). }
    apply all_vars_app.
    { apply all_vars_for_pure. intros i _.
      assert (old (snd m9) (IsPrime_Product_Overflow c i)) by (apply Wo; made_tac).
      vars_cases. }
    apply all_vars_app.
    { exact (all_vars_up _ _ _ L3 (run_ok_vars _ _ _ K3 Hs3)). }
    apply all_vars_app.
    { apply all_vars_for_pure. intros i _.
      assert (old (snd m9) (IsPrime_Product_Plus1_Overflow c i)) by (apply Wo; made_tac).
      vars_cases. }
    apply all_vars_app.
    { exact (all_vars_up _ _ _ L4 (run_ok_vars _ _ _ K4 Hs4)). }
    apply all_vars_app.
    { apply all_vars_for_pure. intros i _.
      assert (old (snd m9) (IsPrime_SumPow_Overflow c i)) by (apply Wo; made_tac).
      vars_cases. }
    apply all_vars_app.
    { exact (all_vars_up _ _ _ L5 (run_ok_vars _ _ _ K5 Hs5)). }
    apply all_vars_app.
    { exact (all_vars_up _ _ _ L6 (run_ok_vars _ _ _ K6 Hs6)). }
    apply all_vars_app.
    { apply all_vars_for_pure. intros i _.
      assert (old (snd m9) (IsPrime_Prime_Minus1_Overflow c i)) by (apply Wo; made_tac).
      vars_cases. }
    apply all_vars_app.
    { exact (all_vars_up _ _ _ L7 (run_ok_vars _ _ _ K7 Hs7)). }
    apply all_vars_app.
    { exact (all_vars_up _ _ _ L8 (run_ok_vars _ _ _ K8 Hs8)). }
    apply all_vars_app.
    { exact (run_ok_vars _ _ _ K9 Hs9). }
    apply Equals_NBit_vars; intros k _.
    - apply (old_mono st1); [exact T9|]. apply stable_bit, Ht.
    - apply Wb. made_tac. }
  intros s1 F Htv.
  assert (Fa : forall st' s', le_counters st1 st' -> agree_old st1 s1 s' ->
            model_facts c n C s').
  { intros st' s' _ A. exact (model_facts_agree c n C st1 s1 s' Hc Hc1 F A). }
  destruct (chain_step _ st1 st1 _ s1 s1 [] (le_counters_refl _) (agree_off_refl _ _)
              (agree_old_refl _ _) (holds_nil _ _) K1 Hs1 (fun i _ j _ => F))
    as (s2 & O2 & A2 & H2 & _). fold m1 in O2, H2.
  destruct (chain_step _ st1 _ _ s1 s2 _ T1 O2 A2 H2 K2 Hs2
              (fun i _ => Fa _ s2 T1 A2)) as (s3 & O3 & A3 & H3 & _).
  fold m2 in O3, H3.
  destruct (chain_step _ st1 _ _ s1 s3 _ T2 O3 A3 H3 K3 Hs3
              (fun i _ => Fa _ s3 T2 A3)) as (s4 & O4 & A4 & H4 & _).
  fold m3 in O4, H4.
  destruct (chain_step _ st1 _ _ s1 s4 _ T3 O4 A4 H4 K4 Hs4
              (fun i _ => Fa _ s4 T3 A4)) as (s5 & O5 & A5 & H5 & _).
  fold m4 in O5, H5.
  destruct (chain_step _ st1 _ _ s1 s5 _ T4 O5 A5 H5 K5 Hs5
              (fun i _ => Fa _ s5 T4 A5)) as (s6 & O6 & A6 & H6 & _).
  fold m5 in O6, H6.
  destruct (chain_step _ st1 _ _ s1 s6 _ T5 O6 A6 H6 K6 Hs6
              (fun i _ => Fa _ s6 T5 A6)) as (s7 & O7 & A7 & H7 & _).
  fold m6 in O7, H7.
  destruct (chain_step _ st1 _ _ s1 s7 _ T6 O7 A7 H7 K7 Hs7
              (fun i _ j _ => Fa _ s7 T6 A7)) as (s8 & O8 & A8 & H8 & _).
  fold m7 in O8, H8.
  destruct (chain_step _ st1 _ _ s1 s8 _ T7 O8 A8 H8 K8 Hs8
              (fun i _ j _ => Fa _ s8 T7 A8)) as (s9 & O9 & A9 & H9 & _).
  fold m8 in O9, H9.
  destruct (chain_step _ st1 _ _ s1 s9 _ T8 O9 A9 H9 K9 Hs9
              (fun i _ => Fa _ s9 T8 A9)) as (s10 & O10 & A10 & H10 & _).
  fold m9 in O10, H10.
  exists s10. split; [exact O10|].
  destruct H10 as (_ & S). rewrite !sat_app_true in S.
  destruct S as (((((((((_ & S1) & S2) & S3) & S4) & S5) & S6) & S7) & S8) & S9).
  assert (Mv : forall X, holds st1 s1 X -> sat s10 X = true).
  { intros X HX. exact (proj2 (holds_move st1 (snd m9) s1 s10 X T9 A10 HX)). }
  destruct F as ((V1 & V2 & VZ) & F1 & F2).
  pose proof HC as (C1 & C2).
  assert (P2 : forall i, (i < n)%nat -> 2 <= cert_P C i < 2 ^ Z.of_nat n).
  { intros i Hi. now destruct (C1 i Hi). }
  rewrite !sat_app_true. repeat apply conj; try assumption.
  - apply Mv. apply holds_map_clauses. intros i Hi.
    apply Input_Not_Equals_Number_holds; [apply W; made_tac|].
    destruct (F1 i Hi) as (EP & _). rewrite EP, Z.mod_0_l by lia.
    specialize (P2 i Hi). lia.
  - apply Mv. apply holds_map_clauses. intros i Hi.
    apply Input_Not_Equals_Number_holds; [apply W; made_tac|].
    destruct (F1 i Hi) as (EP & _). rewrite EP.
    specialize (P2 i Hi). rewrite (one_mod_pow2 n (cert_P C i)) by lia. lia.
  - apply Mv. apply holds_for_pure. intros i Hi. apply holds_for_pure. intros j Hj.
    apply holds_unit_neg; [apply stable_old, W; made_tac|].
    now destruct (F2 i j Hi Hj) as (_ & _ & _ & EO & _).
  - apply Mv. apply holds_for_pure. intros i Hi.
    apply holds_unit_neg; [apply stable_old, W; made_tac|].
    now destruct (F1 i Hi) as (_ & _ & _ & EO & _).
  - apply Mv. apply holds_for_pure. intros i Hi.
    apply holds_unit_neg; [apply stable_old, W; made_tac|].
    now destruct (F1 i Hi) as (_ & _ & _ & _ & _ & EO & _).
  - apply Mv. apply holds_for_pure. intros i Hi.
    apply holds_unit_neg; [apply stable_old, W; made_tac|].
    now destruct (F1 i Hi) as (_ & _ & _ & _ & _ & _ & _ & EO & _).
  - apply Mv. apply holds_for_pure. intros i Hi.
    apply holds_unit_neg; [apply stable_old, W; made_tac|].
    now destruct (F1 i Hi) as (_ & _ & _ & _ & _ & _ & _ & _ & _ & EO).
  - apply Mv. apply Equals_NBit_holds; [exact Ht|apply W; made_tac|].
    destruct (F1 0%nat ltac:(lia)) as (EP & _). now rewrite EP.
Qed.

End IsPrimeLoops.

Lemma for_grows n body :
  (forall j st, le_counters st (snd (body j st))) ->
  forall st, le_counters st (snd (for_ n body st)).
Proof. intros Hb st. exact (for_from_grows body Hb n 0%nat st). Qed.

Lemma IsPrime_base_or_factored_grows n c i st :
  le_counters st (snd (IsPrime_base_or_factored n c i st)).
Proof.
  rewrite IsPrime_base_or_factored_run. cbv zeta.
  eapply le_counters_trans; [apply LessThan_NBit_grows|].
  eapply le_counters_trans; apply Or_Condition_grows.
Qed.

Lemma IsPrime_factor_test_grows o n c i j st :
  le_counters st (snd (IsPrime_factor_test o n c i j st)).
Proof.
  rewrite IsPrime_factor_test_run. cbv zeta.
  eapply le_counters_trans; [apply FermatTest3_grows|].
  apply (Or_tree_ok o).
Qed.

Lemma IsPrime_full_test_grows n c i st :
  le_counters st (snd (IsPrime_full_test n c i st)).
Proof.
  rewrite IsPrime_full_test_run. cbv zeta.
  eapply le_counters_trans; [apply FermatTest2_grows|].
  eapply le_counters_trans; apply Or_Condition_grows.
Qed.

Lemma IsPrime_grows_tick o target n st :
  le_counters (snd (tick_IsPrime st)) (snd (IsPrime o target n (Z.of_nat n) st)).
Proof.
  rewrite IsPrime_run. cbv zeta. cbn [snd].
  eapply le_counters_trans;
    [apply for_grows; intros; apply for_grows; intros; apply Pow_NBit_grows|].
  eapply le_counters_trans; [apply for_grows; intros; apply Product_NBit_grows|].
  eapply le_counters_trans; [apply for_grows; intros; apply Add_NBit_grows|].
  eapply le_counters_trans; [apply for_grows; intros; apply Sum_NBit_grows|].
  eapply le_counters_trans;
    [apply for_grows; intros; apply IsPrime_base_or_factored_grows|].
  eapply le_counters_trans; [apply for_grows; intros; apply Add_NBit_grows|].
  eapply le_counters_trans;
    [apply for_grows; intros; apply for_grows; intros; apply DivMod_NBit_grows|].
  eapply le_counters_trans;
    [apply for_grows; intros; apply for_grows; intros;
     apply IsPrime_factor_test_grows|].
  apply for_grows; intros; apply IsPrime_full_test_grows.
Qed.

Lemma IsPrime_grows o target n st :
  le_counters st (snd (IsPrime o target n (Z.of_nat n) st)).
Proof.
  exact (le_counters_trans _ _ _ (tick_IsPrime_le st) (IsPrime_grows_tick o target n st)).
Qed.

Lemma IsPrime_ok o target n C st :
  (2 <= n)%nat -> small (n * 4 + 1) -> stable st target -> cert_ok n C ->
  run_ok (IsPrime o target n (Z.of_nat n)) st
    (fun s => value s target n = cert_P C 0 /\ value s (One_NBit n) n = 1 /\
              value s (One_NBit (n * 2)) (n * 2) = 1 /\ s Zero_1Bit = false).
Proof.
  intros Hn2 Hsn Ht HC. split; [apply IsPrime_grows|].
  pose proof (IsPrime_grows_tick o target n st) as Hg. revert Hg.
  rewrite IsPrime_run. cbv zeta.
  set (c := S (cnt KIsPrime st)).
  pose proof (tick_IsPrime_le st) as Hle1.
  set (st1 := snd (tick_IsPrime st)) in *.
  assert (Hc1 : cnt KIsPrime st1 = c) by reflexivity.
  assert (Ht1 : stable st1 target) by exact (stable_mono _ _ _ Hle1 Ht).
  cbn [fst snd]. intros Hg Hs.
  assert (Hc : small c).
  { rewrite <- Hc1. exact (small_counters_le _ _ Hg Hs KIsPrime). }
  assert (Hc1' : (c <= cnt KIsPrime st1)%nat) by lia.
  destruct (IsPrime_loops_ok o n c C st1 Hn2 Hsn Hc Hc1' HC target Ht1) as (T9 & K).
  cbv zeta in K. destruct (K Hs) as (V & Hm). split; [exact V|].
  intros s (Hv & V1 & V2 & VZ).
  assert (Hsn1 : small (S n)) by (apply (small_le _ (n * 4 + 1)); [lia|exact Hsn]).
  assert (Hlt : (cnt KIsPrime st < c)%nat) by (subst c; lia).
  pose proof (writes_IsPrime_model c n C s) as W.
  pose proof (writes_old KIsPrime c st _ _ W Hc Hlt) as A.
  pose proof (model_facts_model c n C s st Hc Hsn1 Hlt HC V1 V2 VZ) as F.
  destruct (Hm _ F) as (s' & O & Hsat).
  { rewrite (value_agree st s _ target n Ht A). exact Hv. }
  exists s'. split; [|exact Hsat].
  apply (agree_off_owned_trans st st1 _ s (IsPrime_model c n C s) s' Hle1 T9);
    [|exact O].
  apply (writes_off KIsPrime c); [exact W|]. lia.
Qed.

(* ================================================================== *)
(** * Models: the clause list of the front end *)

Lemma is_prime_conditions_run o p n st :
  is_prime_conditions o p n st =
  (fst (IsPrime o "target" n (Z.of_nat n) st)
   ++ Input_Equals_Number "target" p n
   ++ Input_Equals_Number (One_NBit n) 1 n
   ++ Input_Equals_Number (One_NBit (n * 2)) 1 (n * 2)
   ++ [[Neg Zero_1Bit]],
   snd (IsPrime o "target" n (Z.of_nat n) st)).
Proof.
  unfold is_prime_conditions, bind, ret.
  destruct (IsPrime o "target" n (Z.of_nat n) st) as [cs st1]. reflexivity.
Qed.

Lemma base_model_values p n :
  (2 <= n)%nat -> small (n * 2) -> 0 <= p < 2 ^ Z.of_nat n ->
  value (base_model p n) "target" n = p /\
  value (base_model p n) (One_NBit n) n = 1 /\
  value (base_model p n) (One_NBit (n * 2)) (n * 2) = 1 /\
  base_model p n Zero_1Bit = false.
Proof.
  intros Hn Hs Hp.
  assert (Hsn : small n) by (apply (small_le _ (n * 2)); [lia|exact Hs]).
  assert (N1 : "target" <> One_NBit n) by (unfold One_NBit; discriminate).
  assert (N2 : "target" <> One_NBit (n * 2)) by (unfold One_NBit; discriminate).
  assert (N3 : One_NBit n <> One_NBit (n * 2)).
  { unfold One_NBit. intros E. apply append_inv_head in E.
    apply Z_inj in E; [lia|assumption|assumption]. }
  unfold base_model. split; [|split; [|split]].
  - rewrite value_set_bits by exact Hsn. apply Z.mod_small. exact Hp.
  - rewrite value_set_bits_other by assumption.
    rewrite value_set_bits by exact Hsn. apply (one_mod_pow2 n 1).
    pose proof (Z.pow_le_mono_r 2 1 (Z.of_nat n) ltac:(lia) ltac:(lia)). lia.
  - rewrite value_set_bits_other by assumption.
    rewrite value_set_bits_other by assumption.
    rewrite value_set_bits by exact Hs. apply (one_mod_pow2 (n * 2) 1).
    pose proof (Z.pow_le_mono_r 2 1 (Z.of_nat (n * 2)) ltac:(lia) ltac:(lia)). lia.
  - rewrite !set_bits_other; [reflexivity| | |];
      intros i _; unfold Zero_1Bit, One_NBit; discriminate.
Qed.

Lemma is_prime_conditions_model o p n C st :
  (2 <= n)%nat -> small (n * 4 + 1) ->
  small_counters (snd (is_prime_conditions o p n st)) ->
  cert_ok n C -> cert_P C 0 = p ->
  satisfiable (fst (is_prime_conditions o p n st)).
Proof.
  intros Hn Hsn Hs HC HP. rewrite is_prime_conditions_run in *. cbn [fst snd] in *.
  assert (Ht : stable st "target") by (apply stable_user; reflexivity).
  pose proof (IsPrime_ok o "target" n C st Hn Hsn Ht HC) as K.
  assert (Hp : 0 <= p < 2 ^ Z.of_nat n).
  { destruct HC as (H1 & _). destruct (H1 0%nat ltac:(lia)) as (H & _). lia. }
  assert (Hs2 : small (n * 2)) by (apply (small_le _ (n * 4 + 1)); [lia|exact Hsn]).
  assert (Hs1 : small n) by (apply (small_le _ (n * 4 + 1)); [lia|exact Hsn]).
  destruct (base_model_values p n Hn Hs2 Hp) as (B1 & B2 & B3 & B4).
  destruct (run_step _ _ _ (base_model p n) K Hs) as (s' & _ & A & H).
  { rewrite HP. now repeat split. }
  exists s'. rewrite !sat_app_true. split; [apply H|].
  split; [|split; [|split]].
  - apply (Input_Equals_Number_holds st); [exact Ht|].
    rewrite (value_agree st _ s' "target" n Ht A), B1. symmetry. now apply Z.mod_small.
  - apply (Input_Equals_Number_holds st); [apply stable_One_NBit|].
    rewrite (value_agree st _ s' _ n (stable_One_NBit _ _) A), B2. symmetry.
    apply (one_mod_pow2 n p). destruct HC as (H1 & _).
    destruct (H1 0%nat ltac:(lia)) as (H0 & _). lia.
  - apply (Input_Equals_Number_holds st); [apply stable_One_NBit|].
    rewrite (value_agree st _ s' _ (n * 2) (stable_One_NBit _ _) A), B3. symmetry.
    apply (one_mod_pow2 (n * 2) 1).
    pose proof (Z.pow_le_mono_r 2 1 (Z.of_nat (n * 2)) ltac:(lia) ltac:(lia)). lia.
  - apply (holds_unit_neg st); [apply old_Zero_1Bit|].
    now rewrite (A _ (old_Zero_1Bit st)).
Qed.

(* ================================================================== *)
(** * Arithmetic: roots of polynomials modulo a prime *)

Lemma fermat_little p a : Z.prime p -> ~ (p | a) -> a ^ (p - 1) mod p = 1.
Proof.
  intros Hp Ha. pose proof (Z.prime_ge_2 p Hp) as H2.
  pose proof (ZmodInv.Z.fermat p a Hp) as F.
  assert (E : a ^ p = a * a ^ (p - 1)).
  { replace p with (1 + (p - 1)) at 1 by lia.
    rewrite Z.pow_add_r, Z.pow_1_r by lia. reflexivity. }
  rewrite E in F.
  assert (D : (p | a * (a ^ (p - 1) - 1))).
  { apply Z.mod_divide; [lia|].
    rewrite Z.mul_sub_distr_l, Z.mul_1_r, Zminus_mod, F, Z.sub_diag.
    apply Z.mod_0_l. lia. }
  apply Z.divide_prime_mul in D; [|exact Hp]. destruct D as [D|[k Hk]]; [contradiction|].
  replace (a ^ (p - 1)) with (1 + k * p) by lia.
  rewrite Z_mod_plus_full. apply Z.mod_1_l. lia.
Qed.

Lemma pquot_spec l r x :
  peval l x - peval l r = (x - r) * peval (pquot l r) x.
Proof.
  induction l as [|a l IH]; [cbn; ring|].
  destruct l as [|b l]; [cbn; ring|].
  change (pquot (a :: b :: l) r) with (peval (b :: l) r :: pquot (b :: l) r).
  change (peval (a :: b :: l) x) with (a + x * peval (b :: l) x).
  change (peval (a :: b :: l) r) with (a + r * peval (b :: l) r).
  change (peval (peval (b :: l) r :: pquot (b :: l) r) x)
    with (peval (b :: l) r + x * peval (pquot (b :: l) r) x).
  set (Lx := peval (b :: l) x) in *. set (Lr := peval (b :: l) r) in *.
  set (Q := peval (pquot (b :: l) r) x) in *.
  transitivity ((x - r) * Lr + x * ((x - r) * Q)); [rewrite <- IH; ring|ring].
Qed.

Lemma pquot_length l r : List.length (pquot l r) = pred (List.length l).
Proof.
  induction l as [|a l IH]; [reflexivity|].
  destruct l as [|b l]; [reflexivity|].
  change (pquot (a :: b :: l) r) with (peval (b :: l) r :: pquot (b :: l) r).
  cbn [List.length pred] in *. now rewrite IH.
Qed.

Lemma pquot_last l r : (2 <= List.length l)%nat -> last (pquot l r) 0 = last l 0.
Proof.
  induction l as [|a l IH]; intros Hl; [cbn in Hl; lia|].
  destruct l as [|b l]; [cbn in Hl; lia|].
  change (pquot (a :: b :: l) r) with (peval (b :: l) r :: pquot (b :: l) r).
  destruct l as [|c l].
  - cbn. ring.
  - change (last (a :: b :: c :: l) 0) with (last (b :: c :: l) 0).
    rewrite <- IH by (cbn; lia).
    change (pquot (b :: c :: l) r) with (peval (c :: l) r :: pquot (c :: l) r).
    reflexivity.
Qed.

Lemma small_not_divide p a : 0 < a < p -> ~ (p | a).
Proof. intros H D. apply Z.divide_pos_le in D; lia. Qed.

(** A polynomial of degree [d] whose leading coefficient is a unit has
    at most [d] roots modulo a prime. *)
Lemma roots_bound p : Z.prime p ->
  forall d l, List.length l = S d -> ~ (p | last l 0) ->
  forall rs, NoDup rs -> (forall r, In r rs -> 0 <= r < p /\ (p | peval l r)) ->
  (List.length rs <= d)%nat.
Proof.
  intros Hp. pose proof (Z.prime_ge_2 p Hp) as H2.
  induction d as [|d IH]; intros l Hl Hlead rs Hnd Hr.
  - destruct l as [|a [|b l]]; try discriminate Hl.
    destruct rs as [|r rs]; [cbn; lia|]. exfalso.
    destruct (Hr r (or_introl eq_refl)) as (_ & Hd). cbn in Hd, Hlead.
    apply Hlead. now replace (a + r * 0) with a in Hd by ring.
  - destruct rs as [|r rs]; [cbn; lia|]. cbn [List.length]. apply le_n_S.
    inversion Hnd as [|? ? Hnin Hnd']; subst.
    destruct (Hr r (or_introl eq_refl)) as (Hr0 & Hdr).
    apply (IH (pquot l r)).
    + rewrite pquot_length, Hl. reflexivity.
    + rewrite pquot_last by lia. exact Hlead.
    + exact Hnd'.
    + intros r' Hin. destruct (Hr r' (or_intror Hin)) as (Hr'0 & Hdr').
      split; [exact Hr'0|].
      assert (D : (p | (r' - r) * peval (pquot l r) r')).
      { rewrite <- pquot_spec. now apply Z.divide_sub_r. }
      apply Z.divide_prime_mul in D; [|exact Hp]. destruct D as [D|D]; [|exact D].
      exfalso. assert (r' <> r) by (intros ->; contradiction).
      destruct (Z.lt_ge_cases r r').
      * apply (small_not_divide p (r' - r)); [lia|exact D].
      * apply (small_not_divide p (r - r')); [lia|].
        apply Z.divide_opp_r in D. now replace (- (r' - r)) with (r - r') in D by ring.
Qed.

Lemma peval_monomial k x : peval (repeat 0 k ++ [1]) x = x ^ Z.of_nat k.
Proof.
  induction k as [|k IH].
  - cbn [repeat app peval Z.of_nat]. rewrite Z.pow_0_r. ring.
  - cbn [repeat app peval]. rewrite IH, Nat2Z.inj_succ, Z.pow_succ_r by lia. ring.
Qed.

Lemma peval_xd_minus_1 k x : peval (xd_minus_1 k) x = x ^ Z.of_nat (S k) - 1.
Proof.
  unfold xd_minus_1. cbn [peval]. rewrite peval_monomial.
  rewrite Nat2Z.inj_succ, Z.pow_succ_r by lia. ring.
Qed.

Lemma upto_spec k a : In a (upto k) <-> 1 <= a <= Z.of_nat k.
Proof.
  unfold upto. rewrite in_map_iff. split.
  - intros (i & <- & Hi). apply in_seq in Hi. lia.
  - intros H. exists (Z.to_nat a). split; [lia|]. apply in_seq. lia.
Qed.

Lemma upto_NoDup k : NoDup (upto k).
Proof.
  unfold upto. apply NoDup_map_on; [apply seq_NoDup|].
  intros x y _ _ H. lia.
Qed.

Lemma upto_length k : List.length (upto k) = k.
Proof. unfold upto. now rewrite length_map, length_seq. Qed.

Lemma all_or_not (Q : Z -> Prop) :
  (forall a, Q a \/ ~ Q a) ->
  forall k : nat,
    (forall a, 1 <= a <= Z.of_nat k -> Q a) \/
    (exists a, 1 <= a <= Z.of_nat k /\ ~ Q a).
Proof.
  intros Hdec. induction k as [|k [IH|(a & Ha & Hn)]].
  - left. intros a Ha. lia.
  - destruct (Hdec (Z.of_nat (S k))) as [H|H].
    + left. intros a Ha. destruct (Z.eq_dec a (Z.of_nat (S k))) as [->|]; [exact H|].
      apply IH. lia.
    + right. exists (Z.of_nat (S k)). split; [lia|exact H].
  - right. exists a. split; [lia|exact Hn].
Qed.

(** Fewer than [p - 1] as exponent: some unit is not a root of one. *)
Lemma exists_nonroot p d : Z.prime p -> 0 < d < p - 1 ->
  exists a, 1 <= a < p /\ a ^ d mod p <> 1.
Proof.
  intros Hp Hd. pose proof (Z.prime_ge_2 p Hp) as H2.
  assert (Hdec : forall a, a ^ d mod p = 1 \/ a ^ d mod p <> 1).
  { intros a. destruct (Z.eq_dec (a ^ d mod p) 1); [now left|now right]. }
  destruct (all_or_not (fun a => a ^ d mod p = 1) Hdec (Z.to_nat (p - 1)))
    as [Hall|(a & Ha & Hn)].
  - exfalso.
    assert (B : (List.length (upto (Z.to_nat (p - 1))) <= Z.to_nat d)%nat).
    { apply (roots_bound p Hp (Z.to_nat d) (xd_minus_1 (Z.to_nat d - 1))).
      - unfold xd_minus_1. cbn [List.length]. rewrite length_app, repeat_length.
        cbn [List.length]. lia.
      - unfold xd_minus_1. change ((-1) :: repeat 0 (Z.to_nat d - 1) ++ [1])
          with (((-1) :: repeat 0 (Z.to_nat d - 1)) ++ [1]).
        rewrite last_last. apply small_not_divide. lia.
      - apply upto_NoDup.
      - intros r Hr. apply upto_spec in Hr. split; [lia|].
        rewrite peval_xd_minus_1.
        replace (Z.of_nat (S (Z.to_nat d - 1))) with d by lia.
        apply Z.mod_divide; [lia|].
        rewrite Zminus_mod, (Hall r Hr), Z.mod_1_l by lia. reflexivity. }
    rewrite upto_length in B. lia.
  - exists a. split; [lia|exact Hn].
Qed.

(* ================================================================== *)
(** * Arithmetic: a generator of the units modulo a prime *)

Lemma coprime_exponents p c a b :
  1 < p -> 0 < a -> 0 < b -> Z.gcd a b = 1 ->
  c ^ a mod p = 1 -> c ^ b mod p = 1 -> c mod p = 1.
Proof.
  intros Hp Ha Hb Hg H1 H2.
  destruct (least_one_exists p c a Ha H1) as (d & _ & Hd).
  pose proof (least_one_divides p c Hp d a Hd ltac:(lia) H1) as Da.
  pose proof (least_one_divides p c Hp d b Hd ltac:(lia) H2) as Db.
  pose proof (Z.gcd_greatest a b d Da Db) as D1. rewrite Hg in D1.
  destruct Hd as (Hd0 & Hd1 & _).
  apply Z.divide_1_r_nonneg in D1; [|lia]. subst d.
  unfold power_is_one in Hd1. now rewrite Z.pow_1_r in Hd1.
Qed.

(** Splitting off the power of [q] in [m]. *)
Lemma mult_split q : 2 <= q ->
  forall m, 1 <= m ->
  exists e m', 0 <= e /\ 1 <= m' /\ m = q ^ e * m' /\ ~ (q | m').
Proof.
  intros Hq m. pattern m. apply (well_founded_ind (Z.lt_wf 0)). clear m.
  intros m IH Hm.
  destruct (Z.eq_dec (m mod q) 0) as [E0|Hn0].
  - apply Z.mod_divide in E0; [|lia]. destruct E0 as [k Hk].
    assert (Hk1 : 1 <= k < m) by (clear - Hq Hm Hk; nia).
    destruct (IH k ltac:(lia) ltac:(lia)) as (e & m' & He & Hm' & E & Hn).
    exists (e + 1), m'. repeat split; try assumption; try lia.
    rewrite Z.pow_add_r, Z.pow_1_r by lia. rewrite Hk, E. ring.
  - exists 0, m. repeat split; try assumption; try lia.
    intros D. apply Hn0. apply Z.mod_divide; [lia|exact D].
Qed.

Lemma pow_mod_one_mul p x a b :
  1 < p -> 0 <= a -> 0 <= b -> x ^ a mod p = 1 -> x ^ (a * b) mod p = 1.
Proof. intros Hp Ha Hb H. now apply (is1_mul p x Hp a b). Qed.

Lemma pow_mod_base p x k : 1 < p -> (x mod p) ^ k mod p = x ^ k mod p.
Proof. intros Hp. symmetry. apply Zpower_mod. lia. Qed.

Lemma pow_mod_pow p x a b :
  1 < p -> 0 <= a -> 0 <= b -> (x ^ a mod p) ^ b mod p = x ^ (a * b) mod p.
Proof. intros Hp Ha Hb. rewrite pow_mod_base, Z.pow_mul_r by lia. reflexivity. Qed.

Lemma coprime_divisor m m' c :
  (m' | m) -> Z.gcd m c = 1 -> Z.gcd m' c = 1.
Proof.
  intros D H.
  assert (D1 : (Z.gcd m' c | 1)).
  { rewrite <- H. apply Z.gcd_greatest.
    - eapply Z.divide_trans; [apply Z.gcd_divide_l|exact D].
    - apply Z.gcd_divide_r. }
  apply Z.divide_1_r_nonneg in D1; [exact D1|apply Z.gcd_nonneg].
Qed.

Section Generator.
Variable p : Z.
Hypothesis Hp : Z.prime p.

Lemma unit_exists_of_order :
  forall m, 1 <= m -> forall c, p - 1 = m * c -> Z.gcd m c = 1 ->
  exists g, 1 <= g < p /\ g ^ m mod p = 1 /\
            forall q, Z.prime q -> (q | m) -> g ^ (m / q) mod p <> 1.
Proof.
  pose proof (Z.prime_ge_2 p Hp) as H2.
  intros m. pattern m. apply (well_founded_ind (Z.lt_wf 0)). clear m.
  intros m IH Hm c Hc Hg.
  destruct (Z.eq_dec m 1) as [->|Hm1].
  - exists 1. split; [lia|]. split; [rewrite Z.pow_1_r; apply Z.mod_1_l; lia|].
    intros q Hq Hd. apply Z.divide_1_r_nonneg in Hd; pose proof (Z.prime_ge_2 q Hq); lia.
  - destruct (prime_factor_exists m ltac:(lia)) as (q & Hq & Hqm).
    pose proof (Z.prime_ge_2 q Hq) as Hq2.
    destruct (mult_split q Hq2 m Hm) as (e & m' & He & Hm' & E & Hn).
    assert (He1 : 1 <= e).
    { destruct (Z.eq_dec e 0) as [->|]; [|lia]. exfalso. apply Hn.
      rewrite Z.pow_0_r, Z.mul_1_l in E. now rewrite <- E. }
    assert (Hc1 : 1 <= c) by (clear - H2 Hm Hc; nia).
    set (Q := q ^ e) in *.
    assert (HQ : Q = q * q ^ (e - 1)).
    { unfold Q. replace e with (1 + (e - 1)) at 1 by lia.
      rewrite Z.pow_add_r, Z.pow_1_r by lia. reflexivity. }
    assert (HQ1 : 1 <= q ^ (e - 1)) by (apply Z.lt_pred_le, Z.pow_pos_nonneg; lia).
    assert (HQ2 : 2 <= Q) by (clear - HQ HQ1 Hq2; nia).
    (* an element outside the roots of x^((p-1)/q) - 1 *)
    assert (HX : 1 <= q ^ (e - 1) * m' * c).
    { assert (1 <= q ^ (e - 1) * m') by (clear - HQ1 Hm'; nia).
      clear - H Hc1. nia. }
    assert (HpX : p - 1 = q * (q ^ (e - 1) * m' * c)) by (rewrite Hc, E, HQ; ring).
    destruct (exists_nonroot p (q ^ (e - 1) * m' * c) Hp) as (a & Ha & Hna).
    { split; [lia|]. rewrite HpX. clear - HX Hq2. nia. }
    set (b := a ^ (m' * c) mod p).
    assert (HbQ : b ^ Q mod p = 1).
    { unfold b. rewrite pow_mod_pow by lia.
      replace (m' * c * Q) with (p - 1) by (rewrite Hc, E; ring).
      apply fermat_little; [exact Hp|]. apply small_not_divide. lia. }
    assert (Hbq : b ^ (q ^ (e - 1)) mod p <> 1).
    { unfold b. rewrite pow_mod_pow by lia.
      replace (m' * c * q ^ (e - 1)) with (q ^ (e - 1) * m' * c) by ring. exact Hna. }
    (* the rest of [m] *)
    assert (Gm'Q : Z.gcd m' Q = 1).
    { apply Z.coprime_pow_r; [lia|]. unfold Z.coprime. rewrite Z.gcd_comm.
      now apply Z.coprime_prime_l. }
    assert (Gm'c : Z.gcd m' c = 1).
    { apply (coprime_divisor m); [|exact Hg]. exists Q. rewrite E. ring. }
    assert (Hm'm : 0 <= m' < m) by (clear - E HQ2 Hm'; nia).
    destruct (IH m' Hm'm Hm' (Q * c)) as (g' & Hg' & Hg'1 & Hg'2).
    { rewrite Hc, E. ring. }
    { now apply Z.coprime_mul_r. }
    set (g := (g' * b) mod p).
    assert (Pg : forall k, 0 <= k -> g ^ k mod p = (g' ^ k mod p * (b ^ k mod p)) mod p).
    { intros k Hk. unfold g. rewrite pow_mod_base by lia.
      rewrite Z.pow_mul_l. apply Z.mul_mod. lia. }
    assert (Hgm : g ^ m mod p = 1).
    { rewrite Pg by lia. rewrite E.
      rewrite (Z.mul_comm Q m') at 1.
      rewrite (pow_mod_one_mul p g' m' Q) by (lia || assumption).
      rewrite (pow_mod_one_mul p b Q m') by (lia || assumption).
      apply Z.mod_1_l. lia. }
    exists g. split; [|split; [exact Hgm|]].
    + pose proof (Z.mod_pos_bound (g' * b) p ltac:(lia)) as Hr. fold g in Hr.
      destruct (Z.eq_dec g 0) as [G0|]; [|lia]. exfalso.
      rewrite G0, Z.pow_0_l, Z.mod_0_l in Hgm by lia. discriminate Hgm.
    + intros r Hr Hrm. pose proof (Z.prime_ge_2 r Hr) as Hr2.
      destruct (Z.eq_dec r q) as [->|Hrq].
      * (* m / q = q^(e-1) * m' *)
        assert (Em : m / q = q ^ (e - 1) * m').
        { rewrite E, HQ. rewrite <- Z.mul_assoc, (Z.mul_comm q), Z.div_mul by lia.
          reflexivity. }
        rewrite Em, Pg by (clear - HQ1 Hm'; nia).
        rewrite (Z.mul_comm (q ^ (e - 1)) m') at 1.
        rewrite (pow_mod_one_mul p g' m' (q ^ (e - 1))) by (lia || assumption).
        rewrite Z.mul_1_l, Z.mod_mod by lia.
        rewrite <- pow_mod_pow by lia. intros H1.
        apply Hbq. rewrite <- (Z.mod_mod _ p) by lia.
        assert (Gq : Z.gcd m' q = 1).
        { rewrite Z.gcd_comm. now apply Z.coprime_prime_l. }
        assert (Hq1 : (b ^ q ^ (e - 1) mod p) ^ q mod p = 1).
        { rewrite pow_mod_pow by lia. rewrite Z.mul_comm, <- HQ. exact HbQ. }
        exact (coprime_exponents p _ m' q ltac:(lia) ltac:(lia) ltac:(lia) Gq H1 Hq1).
      * assert (Hrm' : (r | m')).
        { rewrite E in Hrm. apply Z.divide_prime_mul in Hrm; [|exact Hr].
          destruct Hrm as [D|D]; [|exact D]. exfalso. apply Hrq.
          apply (Z.divide_prime_pp r q e); assumption || lia. }
        destruct Hrm' as [k Hk].
        assert (Hk1 : 1 <= k) by (clear - Hk Hm' Hr2; nia).
        assert (Em : m / r = Q * k).
        { rewrite E, Hk, Z.mul_assoc, Z.div_mul by lia. reflexivity. }
        assert (Em' : m' / r = k) by (rewrite Hk, Z.div_mul by lia; reflexivity).
        specialize (Hg'2 r Hr (ex_intro _ k Hk)). rewrite Em' in Hg'2.
        rewrite Em, Pg by (clear - HQ2 Hk1; nia).
        rewrite (pow_mod_one_mul p b Q k) by (lia || assumption).
        rewrite Z.mul_1_r, Z.mod_mod by lia.
        rewrite (Z.mul_comm Q k), <- pow_mod_pow by lia. intros H1.
        apply Hg'2. rewrite <- (Z.mod_mod _ p) by lia.
        assert (Gq : Z.gcd Q r = 1).
        { rewrite Z.gcd_comm. apply Z.coprime_pow_r; [lia|].
          apply Z.coprime_prime_l; [exact Hr|]. intros D. apply Hrq.
          now apply (Z.divide_prime_prime r q). }
        assert (Hr1 : (g' ^ k mod p) ^ r mod p = 1).
        { rewrite pow_mod_pow by lia. rewrite <- Hk. exact Hg'1. }
        exact (coprime_exponents p _ Q r ltac:(lia) ltac:(lia) ltac:(lia) Gq H1 Hr1).
Qed.

(** A generator: of order [p - 1] and no less. *)
Lemma primitive_root_exists :
  exists g, 1 <= g < p /\ g ^ (p - 1) mod p = 1 /\
            forall q, Z.prime q -> (q | p - 1) -> g ^ ((p - 1) / q) mod p <> 1.
Proof.
  pose proof (Z.prime_ge_2 p Hp) as H2.
  destruct (Z.eq_dec p 2) as [E|Hne].
  - exists 1. rewrite E. split; [lia|]. split; [reflexivity|].
    intros q Hq Hd. change (2 - 1) with 1 in Hd.
    apply Z.divide_1_r_nonneg in Hd; pose proof (Z.prime_ge_2 q Hq); lia.
  - apply (unit_exists_of_order (p - 1) ltac:(lia) 1); [ring|].
    apply Z.gcd_1_r.
Qed.

End Generator.

(* ================================================================== *)
(** * The front ends: widths and composite numbers *)

Lemma bits_value_exact s x n v :
  0 <= v < 2 ^ Z.of_nat n ->
  (forall i, (i < n)%nat -> s (x # i) = Z.testbit v (Z.of_nat i)) ->
  value s x n = v.
Proof. intros Hv H. rewrite (bits_value s x n v H). now apply Z.mod_small. Qed.

Lemma bit_len_loop_spec : forall fuel t len,
  0 <= t < 2 ^ Z.of_nat fuel ->
  let r := bit_len_loop fuel t len in
  (len <= r)%nat /\
  t < 2 ^ Z.of_nat (r - len) /\
  (0 < t -> 2 ^ (Z.of_nat (r - len) - 1) <= t) /\
  (t = 0 -> r = len).
Proof.
  induction fuel as [|k IH]; intros t len Ht r.
  - cbn in Ht. assert (t = 0) by lia. subst t. subst r. cbn [bit_len_loop].
    rewrite Nat.sub_diag. cbn. repeat split; lia.
  - subst r. cbn [bit_len_loop]. destruct (Z.ltb_spec 0 t) as [Hpos|Hz].
    + rewrite Z.shiftr_div_pow2, Z.pow_1_r by lia.
      rewrite pow2_S in Ht.
      assert (Hh : 0 <= t / 2 < 2 ^ Z.of_nat k).
      { split; [apply Z.div_pos; lia|apply Z.div_lt_upper_bound; lia]. }
      specialize (IH (t / 2) (S len) Hh). cbv zeta in IH.
      set (r := bit_len_loop k (t / 2) (S len)) in *.
      destruct IH as (Hle & Hlt & Hge & Hzero).
      pose proof (Z.div_mod t 2 ltac:(lia)) as Hdm.
      pose proof (Z.mod_pos_bound t 2 ltac:(lia)) as Hm.
      replace (r - len)%nat with (S (r - S len)) by lia.
      rewrite pow2_S. split; [lia|]. split; [lia|]. split; [|lia].
      intros _. replace (Z.of_nat (S (r - S len)) - 1) with (Z.of_nat (r - S len)) by lia.
      destruct (Z.eq_dec (t / 2) 0) as [E0|Hn0].
      * rewrite (Hzero E0), Nat.sub_diag. cbn. lia.
      * specialize (Hge ltac:(lia)).
        replace (r - S len)%nat with (S (r - S len - 1)) by
          (destruct (Nat.eq_dec r (S len)) as [E|]; [|lia]; exfalso;
           rewrite E, Nat.sub_diag in Hlt; cbn in Hlt; lia).
        rewrite pow2_S.
        replace (Z.of_nat (r - S len) - 1) with (Z.of_nat (r - S len - 1)) in Hge
          by (destruct (Nat.eq_dec r (S len)) as [E|]; [|lia]; exfalso;
              rewrite E, Nat.sub_diag in Hlt; cbn in Hlt; lia).
        lia.
    + assert (t = 0) by lia. subst t. rewrite Nat.sub_diag. cbn. repeat split; lia.
Qed.

Lemma bit_len_bounds v :
  0 <= v < 2 ^ 31 ->
  v < 2 ^ Z.of_nat (bit_len v) /\
  (0 < v -> 2 ^ (Z.of_nat (bit_len v) - 1) <= v) /\
  (v = 0 -> bit_len v = 0%nat) /\
  (bit_len v <= 31)%nat.
Proof.
  intros Hv. unfold bit_len.
  destruct (bit_len_loop_spec 32 v 0) as (_ & Hlt & Hge & Hz).
  { change (Z.of_nat 32) with 32. lia. }
  rewrite Nat.sub_0_r in *. split; [exact Hlt|]. split; [exact Hge|]. split; [exact Hz|].
  destruct (Z.eq_dec v 0) as [E|Hn]; [rewrite (Hz E); lia|].
  specialize (Hge ltac:(lia)).
  set (r := bit_len_loop 32 v 0) in *.
  destruct (Nat.le_gt_cases r 31) as [|Hgt]; [assumption|exfalso].
  assert (2 ^ 31 <= 2 ^ (Z.of_nat r - 1)) by (apply Z.pow_le_mono_r; lia).
  lia.
Qed.

Lemma product_not_prime a b : 2 <= a -> 2 <= b -> ~ Z.prime (a * b).
Proof.
  intros Ha Hb Hp.
  destruct (Z.divide_prime_r a (a * b) Hp) as [H|[H|[H|H]]]; try nia.
  exists b. ring.
Qed.

Lemma tick_IsComposite_le st : le_counters st (snd (tick_IsComposite st)).
Proof. intros k. destruct k; cbn; lia. Qed.

Lemma IsComposite_run target n st :
  IsComposite target n st =
  let c := S (cnt KIsComposite st) in
  let m := Mul_NBit (IsComposite_fact1 c) (IsComposite_fact2 c) target
             (IsComposite_Overflow c) n (snd (tick_IsComposite st)) in
  (fst m
   ++ [Input_Not_Equals_Number (IsComposite_fact1 c) 0 n]
   ++ [Input_Not_Equals_Number (IsComposite_fact2 c) 0 n]
   ++ [Input_Not_Equals_Number (IsComposite_fact1 c) 1 n]
   ++ [Input_Not_Equals_Number (IsComposite_fact2 c) 1 n]
   ++ [[Neg (IsComposite_Overflow c)]], snd m).
Proof. unfold IsComposite, bind, ret, tick_IsComposite. run_eq. Qed.

Lemma sat_single s cl : sat s [cl] = sat_clause s cl.
Proof. cbn [sat forallb]. apply andb_true_r. Qed.

Lemma IsComposite_sound s target n st :
  sat s (fst (IsComposite target n st)) = true ->
  exists a b, 2 <= a < 2 ^ Z.of_nat n /\ 2 <= b < 2 ^ Z.of_nat n /\
              value s target n = a * b.
Proof.
  rewrite IsComposite_run. cbv zeta. cbn [fst].
  rewrite !sat_app_true, !sat_single. intros (Hm & A0 & B0 & A1 & B1 & Ho).
  apply Input_Not_Equals_Number_sound in A0, B0, A1, B1.
  rewrite <- sat_single in Ho. apply unit_neg_sound in Ho.
  apply Mul_NBit_no_overflow in Hm; [|exact Ho].
  set (c := S (cnt KIsComposite st)) in *.
  pose proof (value_range s (IsComposite_fact1 c) n).
  pose proof (value_range s (IsComposite_fact2 c) n).
  exists (value s (IsComposite_fact1 c) n), (value s (IsComposite_fact2 c) n).
  split; [lia|]. split; [lia|exact Hm].
Qed.

Lemma IsComposite_grows target n st : le_counters st (snd (IsComposite target n st)).
Proof.
  rewrite IsComposite_run. cbv zeta. cbn [snd].
  apply (le_counters_trans _ _ _ (tick_IsComposite_le st)). apply Mul_NBit_grows.
Qed.

Ltac comp_names := unfold IsComposite_fact1, IsComposite_fact2, IsComposite_Overflow.
Ltac comp_made := comp_names; made_tac.
Ltac comp_neq := comp_names; name_neq.

Lemma IsComposite_ok target n st :
  stable st target -> small (n * 2 + 1) ->
  run_ok (IsComposite target n) st
    (fun s => exists a b, 2 <= a /\ 2 <= b /\ a * b < 2 ^ Z.of_nat n /\
                          value s target n = a * b).
Proof.
  intros Ht Hn. split; [apply IsComposite_grows|].
  rewrite IsComposite_run. cbv zeta. cbn [fst snd].
  set (c := S (cnt KIsComposite st)).
  pose proof (tick_IsComposite_le st) as Hle1.
  set (st1 := snd (tick_IsComposite st)) in *.
  assert (Hc1 : cnt KIsComposite st1 = c) by reflexivity.
  pose proof (Mul_NBit_grows (IsComposite_fact1 c) (IsComposite_fact2 c) target
                (IsComposite_Overflow c) n st1) as Hle2.
  intros Hs.
  assert (Hs1 : small_counters st1) by exact (small_counters_le _ _ Hle2 Hs).
  assert (Hc : small c) by (rewrite <- Hc1; apply Hs1).
  assert (Hns : small n) by (apply (small_le _ (n * 2 + 1)); [lia|exact Hn]).
  assert (Mk : forall x, made KIsComposite c x -> stable st1 x).
  { intros x Hx. apply (made_stable KIsComposite c); [exact Hx|exact Hc|lia]. }
  assert (S1 : stable st1 (IsComposite_fact1 c)) by (apply Mk; comp_made).
  assert (S2 : stable st1 (IsComposite_fact2 c)) by (apply Mk; comp_made).
  assert (SO : stable st1 (IsComposite_Overflow c)) by (apply Mk; comp_made).
  assert (Ht1 : stable st1 target) by exact (stable_mono _ _ _ Hle1 Ht).
  pose proof (Mul_NBit_ok (IsComposite_fact1 c) (IsComposite_fact2 c) target
                (IsComposite_Overflow c) n st1 S1 S2 Ht1 (stable_old _ _ SO) Hn) as K.
  set (m := Mul_NBit (IsComposite_fact1 c) (IsComposite_fact2 c) target
              (IsComposite_Overflow c) n st1) in *.
  assert (Up : forall x, stable st1 x -> forall i, old (snd m) (x # i)).
  { intros x Hx i. apply (old_mono st1); [exact Hle2|]. now apply stable_bit. }
  split.
  { pose proof (run_ok_vars _ _ _ K Hs) as V.
    apply all_vars_app; [exact V|].
    repeat (apply all_vars_app;
            [apply Input_Not_Equals_Number_vars; intros i _; now apply Up|]).
    assert (old (snd m) (IsComposite_Overflow c)).
    { apply (old_mono st1); [exact Hle2|]. now apply stable_old. }
    vars_cases. }
  intros s (a & b & Ha & Hb & Hab & Hv).
  assert (Ra : 0 <= a < 2 ^ Z.of_nat n) by nia.
  assert (Rb : 0 <= b < 2 ^ Z.of_nat n) by nia.
  set (s1 := set_bits (IsComposite_fact1 c) n a
               (set_bits (IsComposite_fact2 c) n b
                  (upd s (IsComposite_Overflow c) false))).
  assert (W : writes KIsComposite c s s1).
  { repeat (apply writes_set_bits; [|comp_made]).
    apply writes_upd; [apply writes_refl|comp_made]. }
  assert (A1 : agree_old st s s1).
  { apply (writes_old KIsComposite c); [exact W|exact Hc|]. fold c. lia. }
  assert (Va : value s1 (IsComposite_fact1 c) n = a).
  { unfold s1. rewrite value_set_bits by exact Hns. now apply Z.mod_small. }
  assert (Vb : value s1 (IsComposite_fact2 c) n = b).
  { apply bits_value_exact; [exact Rb|]. intros i Hi. unfold s1.
    rewrite set_bits_other by (intros; comp_neq).
    now apply set_bits_get. }
  assert (Vo : s1 (IsComposite_Overflow c) = false).
  { unfold s1. rewrite !set_bits_other by (intros; comp_neq). apply upd_same. }
  assert (Vt : value s1 target n = a * b).
  { now rewrite (value_agree st s s1 target n Ht A1). }
  destruct (run_step _ _ _ s1 K Hs) as (s2 & O2 & A2 & H2).
  { rewrite Va, Vb, Vt, Vo. rewrite Z.mod_small, Z.div_small by nia. now split. }
  fold m in O2, H2.
  exists s2. split.
  { apply (agree_off_owned_trans st st1 (snd m) s s1 s2 Hle1 Hle2); [|exact O2].
    apply (writes_off KIsComposite c); [exact W|]. rewrite Hc1. fold c. lia. }
  assert (Mv : forall X, holds st1 s1 X -> sat s2 X = true).
  { intros X HX. exact (proj2 (holds_move st1 (snd m) s1 s2 X Hle2 A2 HX)). }
  assert (P2 : 4 <= 2 ^ Z.of_nat n) by nia.
  rewrite !sat_app_true. repeat apply conj.
  - apply H2.
  - apply Mv. apply Input_Not_Equals_Number_holds; [exact S1|].
    rewrite Va, Z.mod_0_l by lia. lia.
  - apply Mv. apply Input_Not_Equals_Number_holds; [exact S2|].
    rewrite Vb, Z.mod_0_l by lia. lia.
  - apply Mv. apply Input_Not_Equals_Number_holds; [exact S1|].
    rewrite Va, Z.mod_small by lia. lia.
  - apply Mv. apply Input_Not_Equals_Number_holds; [exact S2|].
    rewrite Vb, Z.mod_small by lia. lia.
  - apply Mv. apply holds_unit_neg; [now apply stable_old|exact Vo].
Qed.

(* ================================================================== *)
(** * The front ends: what their clause lists say *)

(** X1. The width loop shared by the front ends
    ([while (t > 0) { ++len; t >>= 1; }]) computes the bit length of a
    non-negative [int]: the value fits in [len] bits, a positive value
    needs all of them, and the width of 0 is 0. *)
Theorem bit_len_is_bit_length (v : Z) :
  0 <= v < 2 ^ 31 ->
  v < 2 ^ Z.of_nat (bit_len v) /\
  (0 < v -> 2 ^ (Z.of_nat (bit_len v) - 1) <= v) /\
  (v = 0 -> bit_len v = 0%nat).
Proof.
  intros Hv. destruct (bit_len_bounds v Hv) as (H1 & H2 & H3 & _). now repeat split.
Qed.

Lemma bit_len_is_bit_length_witness :
  5 < 2 ^ Z.of_nat (bit_len 5) /\
  (0 < 5 -> 2 ^ (Z.of_nat (bit_len 5) - 1) <= 5) /\
  (5 = 0 -> bit_len 5 = 0%nat).
Proof. apply (bit_len_is_bit_length 5). lia. Defined.

Lemma tautology_conditions_run o n st :
  tautology_conditions o n st =
  let m1 := IsPrime o "target" n (Z.of_nat n) st in
  let m2 := IsComposite "target" n (snd m1) in
  (fst m1 ++ fst m2
   ++ Input_Equals_Number (One_NBit n) 1 n
   ++ Input_Equals_Number (One_NBit (n * 2)) 1 (n * 2)
   ++ [[Neg Zero_1Bit]], snd m2).
Proof.
  unfold tautology_conditions, bind, ret.
  destruct (IsPrime o "target" n (Z.of_nat n) st) as [c1 st1]. cbn [fst snd].
  destruct (IsComposite "target" n st1) as [c2 st2]. reflexivity.
Qed.

(** X2. The clause list of [prime_and_composite_tautology] is
    unsatisfiable at every bit width from 2 to 16: no [target] carries
    both a primality certificate and two factors greater than 1.  Up to
    16 every pin of the list, the widest of [2n] bits, shifts its [int]
    by less than 32. *)
Theorem tautology_conditions_unsatisfiable (o : arg_order) (n : nat) (st : counters) :
  (2 <= n <= 16)%nat ->
  forall s, sat s (fst (tautology_conditions o n st)) = false.
Proof.
  intros [Hn Hn16] s. destruct (sat s (fst (tautology_conditions o n st))) eqn:E; [|reflexivity].
  exfalso. rewrite tautology_conditions_run in E. cbv zeta in E. cbn [fst] in E.
  rewrite !sat_app_true in E. destruct E as (Hp & Hc & H1 & H2 & Hz).
  apply Input_Equals_Number_value in H1;
    [|pose proof (one_lt_pow2 n ltac:(lia)); lia].
  apply Input_Equals_Number_value in H2;
    [|pose proof (one_lt_pow2 (n * 2) ltac:(lia)); lia].
  apply unit_neg_sound in Hz.
  pose proof (IsPrime_sound s o "target" n st Hp Hn H1 H2 Hz) as Hprime.
  destruct (IsComposite_sound s "target" n _ Hc) as (a & b & Ha & Hb & Hab).
  rewrite Hab in Hprime. apply (product_not_prime a b); [lia|lia|exact Hprime].
Qed.

Lemma tautology_conditions_unsatisfiable_witness :
  sat (fun _ => true) (fst (tautology_conditions LeftToRight 2 counters0)) = false.
Proof.
  apply (tautology_conditions_unsatisfiable LeftToRight 2 counters0). lia.
Defined.

(** X3. [IsComposite] of at most 32 bits on a pinned target: the
    clauses are satisfiable exactly when the target is a product of two
    numbers greater than 1.  Up to 32 bits the clauses that keep the
    factors off 0 and 1 shift their [int] by less than 32. *)
Theorem IsComposite_characterisation (target : string) (n : nat) (t : Z)
  (st : counters) :
  user_name target = true ->
  (n <= 32)%nat ->
  small_counters (snd (IsComposite target n st)) ->
  0 <= t < 2 ^ Z.of_nat n ->
  satisfiable (Input_Equals_Number target t n ++ fst (IsComposite target n st))
  <-> exists a b, 2 <= a /\ 2 <= b /\ t = a * b.
Proof.
  intros Hu Hn32 Hs Ht.
  assert (Hn : small (n * 2 + 1)) by (unfold small; lia).
  assert (St : stable st target) by now apply stable_user.
  assert (Hns : small n) by (apply (small_le _ (n * 2 + 1)); [lia|exact Hn]).
  split.
  - intros (s & Hsat). rewrite sat_app_true in Hsat. destruct Hsat as (Hpin & Hc).
    apply Input_Equals_Number_value in Hpin; [|exact Ht].
    destruct (IsComposite_sound s target n st Hc) as (a & b & Ha & Hb & Hab).
    exists a, b. repeat split; try lia.
  - intros (a & b & Ha & Hb & Hab).
    pose proof (IsComposite_ok target n st St Hn) as K.
    set (s0 := set_bits target n t (fun _ => false)).
    assert (V0 : value s0 target n = t).
    { unfold s0. rewrite value_set_bits by exact Hns. now apply Z.mod_small. }
    destruct (run_step _ _ _ s0 K Hs) as (s & _ & A & H).
    { exists a, b. rewrite V0. repeat split; lia. }
    exists s. apply sat_app_true. split; [|apply H].
    apply (Input_Equals_Number_holds st); [exact St|].
    rewrite (value_agree st s0 s target n St A), V0. symmetry. now apply Z.mod_small.
Qed.

Lemma IsComposite_characterisation_witness :
  satisfiable (Input_Equals_Number "t" 6 3 ++ fst (IsComposite "t" 3 counters0))
  <-> exists a b, 2 <= a /\ 2 <= b /\ 6 = a * b.
Proof.
  apply (IsComposite_characterisation "t" 3 6 counters0).
  - reflexivity.
  - lia.
  - intros k. destruct k; reflexivity.
  - cbn. lia.
Defined.

Lemma prime_factoring_conditions_run target st :
  prime_factoring_conditions target st =
  let len := bit_len target in
  let m := Mul_NBit "factor1" "factor2" "target" "overflow" len st in
  (fst m
   ++ [Input_Not_Equals_Number "factor1" target len]
   ++ [Input_Not_Equals_Number "factor2" target len]
   ++ Input_Equals_Number "target" target len
   ++ [[Neg "overflow"]]
   ++ Input_Equals_Number (One_NBit len) 1 len
   ++ Input_Equals_Number (One_NBit (len * 2)) 1 (len * 2)
   ++ [[Neg Zero_1Bit]], snd m).
Proof.
  unfold prime_factoring_conditions, bind, ret. cbv zeta.
  destruct (Mul_NBit _ _ _ _ _ st) as [c1 st1]. reflexivity.
Qed.

Lemma small_31 n : (n <= 31)%nat -> small (n * 4 + 1).
Proof. intros H. unfold small. lia. Qed.

(** X4. The clause list of [prime_factoring_cnf] for a target below
    [2 ^ 16] is satisfiable exactly when the target is a product of two
    non-negative numbers both different from it.  For 0 (width 0, an
    empty clause) and for 1 it is unsatisfiable.  Below [2 ^ 16] the
    width is 16 at most, and the pin of [One_NBit_<2 len>], the widest,
    shifts its [int] by less than 32. *)
Theorem prime_factoring_conditions_satisfiable_iff (target : Z) (st : counters) :
  0 <= target < 2 ^ 16 ->
  small_counters (snd (prime_factoring_conditions target st)) ->
  satisfiable (fst (prime_factoring_conditions target st))
  <-> exists a b, 0 <= a /\ 0 <= b /\ a * b = target /\ a <> target /\ b <> target.
Proof.
  intros Ht16 Hs.
  assert (Ht : 0 <= target < 2 ^ 31) by lia. rewrite prime_factoring_conditions_run in *. cbv zeta in *.
  cbn [fst snd] in *.
  destruct (bit_len_bounds target Ht) as (Hlt & Hge & Hz & H31).
  set (len := bit_len target) in *.
  split.
  - intros (s & Hsat). rewrite !sat_app_true, !sat_single in Hsat.
    destruct Hsat as (Hm & N1 & N2 & Hpin & Ho & _).
    apply Input_Not_Equals_Number_sound in N1, N2.
    apply Input_Equals_Number_value in Hpin; [|lia].
    rewrite <- sat_single in Ho. apply unit_neg_sound in Ho.
    apply Mul_NBit_no_overflow in Hm; [|exact Ho].
    exists (value s "factor1" len), (value s "factor2" len).
    pose proof (value_range s "factor1" len). pose proof (value_range s "factor2" len).
    repeat split; try lia.
  - intros (a & b & Ha & Hb & Hab & Hna & Hnb).
    assert (Ha2 : 2 <= a).
    { destruct (Z.eq_dec a 0) as [->|]; [exfalso; lia|].
      destruct (Z.eq_dec a 1) as [->|]; [exfalso; lia|]. lia. }
    assert (Hb2 : 2 <= b).
    { destruct (Z.eq_dec b 0) as [->|]; [exfalso; lia|].
      destruct (Z.eq_dec b 1) as [->|]; [exfalso; lia|]. lia. }
    assert (Hat : a < target) by (clear - Ha2 Hb2 Hab; nia).
    assert (Hbt : b < target) by (clear - Ha2 Hb2 Hab; nia).
    assert (Hl2 : (2 <= len)%nat).
    { destruct len as [|[|l]]; [cbn in Hlt; lia|cbn in Hlt; lia|lia]. }
    assert (Hs4 : small (len * 4 + 1)) by now apply small_31.
    assert (Hs2 : small (len * 2)) by (apply (small_le _ (len * 4 + 1)); [lia|exact Hs4]).
    assert (Hs2' : small (len * 2 + 1))
      by (apply (small_le _ (len * 4 + 1)); [lia|exact Hs4]).
    assert (Hs1 : small len) by (apply (small_le _ (len * 4 + 1)); [lia|exact Hs4]).
    destruct (base_model_values target len Hl2 Hs2 ltac:(lia)) as (B1 & B2 & B3 & B4).
    set (s0 := set_bits "factor1" len a (set_bits "factor2" len b (base_model target len))).
    assert (U : forall x, user_name x = true -> stable st x) by (intros; now apply stable_user).
    assert (V1 : value s0 "factor1" len = a).
    { unfold s0. rewrite value_set_bits by exact Hs1. apply Z.mod_small. lia. }
    assert (V2 : value s0 "factor2" len = b).
    { unfold s0. rewrite value_set_bits_other by (assumption || discriminate).
      rewrite value_set_bits by exact Hs1. apply Z.mod_small. lia. }
    assert (Sk : forall y w, y <> "factor1" -> y <> "factor2" -> small w ->
               value s0 y w = value (base_model target len) y w).
    { intros y w Y1 Y2 Hw. unfold s0.
      rewrite !value_set_bits_other by (assumption || congruence). reflexivity. }
    assert (V3 : value s0 "target" len = target).
    { rewrite Sk by (assumption || discriminate). exact B1. }
    assert (V4 : value s0 (One_NBit len) len = 1).
    { rewrite Sk by (assumption || (unfold One_NBit; discriminate)). exact B2. }
    assert (V5 : value s0 (One_NBit (len * 2)) (len * 2) = 1).
    { rewrite Sk by (assumption || (unfold One_NBit; discriminate)). exact B3. }
    assert (V6 : s0 "overflow" = false).
    { unfold s0, base_model. rewrite !set_bits_other; [reflexivity|..];
        intros i _; unfold One_NBit; discriminate. }
    assert (V7 : s0 Zero_1Bit = false).
    { unfold s0. rewrite !set_bits_other; [exact B4|..];
        intros i _; unfold Zero_1Bit; discriminate. }
    pose proof (U "factor1" eq_refl) as SF1. pose proof (U "factor2" eq_refl) as SF2.
    pose proof (U "target" eq_refl) as ST. pose proof (U "overflow" eq_refl) as SO.
    pose proof (Mul_NBit_ok "factor1" "factor2" "target" "overflow" len st
                  SF1 SF2 ST (stable_old _ _ SO) Hs2') as K.
    destruct (run_step _ _ _ s0 K Hs) as (s & _ & A & H).
    { rewrite V1, V2, V3, V6, Hab. rewrite Z.mod_small, Z.div_small by lia. now split. }
    assert (P1 : 1 mod 2 ^ Z.of_nat len = 1) by (apply (one_mod_pow2 len target); lia).
    assert (P2 : 1 mod 2 ^ Z.of_nat (len * 2) = 1).
    { apply (one_mod_pow2 (len * 2) 1).
      pose proof (Z.pow_le_mono_r 2 1 (Z.of_nat (len * 2)) ltac:(lia) ltac:(lia)). lia. }
    exists s. rewrite !sat_app_true. repeat apply conj.
    + apply H.
    + apply (Input_Not_Equals_Number_holds st); [exact SF1|].
      rewrite (value_agree st s0 s _ _ SF1 A), V1, Z.mod_small by lia. lia.
    + apply (Input_Not_Equals_Number_holds st); [exact SF2|].
      rewrite (value_agree st s0 s _ _ SF2 A), V2, Z.mod_small by lia. lia.
    + apply (Input_Equals_Number_holds st); [exact ST|].
      rewrite (value_agree st s0 s _ _ ST A), V3, Z.mod_small by lia.
      reflexivity.
    + apply (holds_unit_neg st); [now apply stable_old|].
      rewrite (A _ (stable_old _ _ SO)). exact V6.
    + apply (Input_Equals_Number_holds st); [apply stable_One_NBit|].
      now rewrite (value_agree st s0 s _ _ (stable_One_NBit _ _) A), V4, P1.
    + apply (Input_Equals_Number_holds st); [apply stable_One_NBit|].
      now rewrite (value_agree st s0 s _ _ (stable_One_NBit _ _) A), V5, P2.
    + apply (holds_unit_neg st); [apply old_Zero_1Bit|].
      rewrite (A _ (old_Zero_1Bit st)). exact V7.
Qed.

Lemma prime_factoring_conditions_satisfiable_iff_witness :
  satisfiable (fst (prime_factoring_conditions 6 counters0))
  <-> exists a b, 0 <= a /\ 0 <= b /\ a * b = 6 /\ a <> 6 /\ b <> 6.
Proof.
  apply (prime_factoring_conditions_satisfiable_iff 6 counters0).
  - lia.
  - intros k. destruct k; reflexivity.
Defined.

Lemma add_cnf_conditions_run num1 num2 st :
  add_cnf_conditions num1 num2 st =
  let final_len :=
    Nat.max (bit_len (Z.max num1 num2) + 1) (bit_len (num1 + num2)) in
  let m := Add_NBit "input1" "input2" "result" "overflow" final_len st in
  (fst m
   ++ Input_Equals_Number "input1" num1 final_len
   ++ Input_Equals_Number "input2" num2 final_len
   ++ [[Neg "overflow"]]
   ++ Input_Equals_Number (One_NBit final_len) 1 final_len
   ++ [[Neg Zero_1Bit]], snd m).
Proof.
  unfold add_cnf_conditions, bind, ret. cbv zeta.
  destruct (Add_NBit _ _ _ _ _ st) as [c1 st1]. reflexivity.
Qed.

(** X5. The clause list of [add_cnf] for two numbers whose sum is an
    [int] is satisfiable, and in every satisfying assignment the bits of
    [result], at the width the front end chose, spell the sum. *)
Theorem add_cnf_conditions_result (num1 num2 : Z) (st : counters) :
  0 <= num1 -> 0 <= num2 -> num1 + num2 < 2 ^ 31 ->
  small_counters (snd (add_cnf_conditions num1 num2 st)) ->
  let final_len :=
    Nat.max (bit_len (Z.max num1 num2) + 1) (bit_len (num1 + num2)) in
  satisfiable (fst (add_cnf_conditions num1 num2 st)) /\
  forall s, sat s (fst (add_cnf_conditions num1 num2 st)) = true ->
            value s "result" final_len = num1 + num2.
Proof.
  intros H1 H2 Hsum Hs L. rewrite add_cnf_conditions_run in *. cbv zeta in *.
  fold L in Hs |- *. cbn [fst snd] in *.
  destruct (bit_len_bounds (Z.max num1 num2) ltac:(lia)) as (Mlt & _ & _ & M31).
  destruct (bit_len_bounds (num1 + num2) ltac:(lia)) as (Slt & _ & _ & S31).
  assert (HL : (1 <= L <= 32)%nat) by (unfold L; lia).
  assert (PM : 2 ^ Z.of_nat (bit_len (Z.max num1 num2)) <= 2 ^ Z.of_nat L)
    by (apply Z.pow_le_mono_r; unfold L; lia).
  assert (PS : 2 ^ Z.of_nat (bit_len (num1 + num2)) <= 2 ^ Z.of_nat L)
    by (apply Z.pow_le_mono_r; unfold L; lia).
  assert (R1 : 0 <= num1 < 2 ^ Z.of_nat L) by lia.
  assert (R2 : 0 <= num2 < 2 ^ Z.of_nat L) by lia.
  assert (R3 : 0 <= num1 + num2 < 2 ^ Z.of_nat L) by lia.
  pose proof (one_lt_pow2 L ltac:(lia)) as HP1.
  assert (HsL : small (S L)) by (unfold small; lia).
  assert (HsL' : small L) by (unfold small; lia).
  split.
  - pose proof (stable_user st "input1" eq_refl) as S1.
    pose proof (stable_user st "input2" eq_refl) as S2.
    pose proof (stable_user st "result" eq_refl) as S3.
    pose proof (stable_user st "overflow" eq_refl) as S4.
    set (s0 := set_bits "input1" L num1 (set_bits "input2" L num2
                 (set_bits "result" L (num1 + num2)
                    (set_bits (One_NBit L) L 1 (fun _ => false))))).
    assert (V1 : value s0 "input1" L = num1).
    { unfold s0. rewrite value_set_bits by exact HsL'. now apply Z.mod_small. }
    assert (V2 : value s0 "input2" L = num2).
    { unfold s0. rewrite value_set_bits_other by (assumption || discriminate).
      rewrite value_set_bits by exact HsL'. now apply Z.mod_small. }
    assert (V3 : value s0 "result" L = num1 + num2).
    { unfold s0. rewrite !value_set_bits_other by (assumption || discriminate).
      rewrite value_set_bits by exact HsL'. now apply Z.mod_small. }
    assert (V4 : value s0 (One_NBit L) L = 1).
    { unfold s0.
      rewrite !value_set_bits_other by (assumption || (unfold One_NBit; discriminate)).
      rewrite value_set_bits by exact HsL'. apply Z.mod_small. lia. }
    assert (V5 : s0 "overflow" = false).
    { unfold s0. rewrite !set_bits_other; [reflexivity|..];
        intros i _; unfold One_NBit; discriminate. }
    assert (V6 : s0 Zero_1Bit = false).
    { unfold s0. rewrite !set_bits_other; [reflexivity|..];
        intros i _; unfold Zero_1Bit, One_NBit; discriminate. }
    pose proof (Add_NBit_ok "input1" "input2" "result" "overflow" L st
                  S1 S2 S3 (stable_old _ _ S4) HsL) as K.
    destruct (run_step _ _ _ s0 K Hs) as (s & _ & A & H).
    { rewrite V1, V2, V3, V5. cbn [Z.b2z].
      rewrite Z.mod_small, Z.div_small by lia. now split. }
    exists s. rewrite !sat_app_true. repeat apply conj.
    + apply H.
    + apply (Input_Equals_Number_holds st); [exact S1|].
      rewrite (value_agree st s0 s _ _ S1 A), V1, Z.mod_small by lia. reflexivity.
    + apply (Input_Equals_Number_holds st); [exact S2|].
      rewrite (value_agree st s0 s _ _ S2 A), V2, Z.mod_small by lia. reflexivity.
    + apply (holds_unit_neg st); [now apply stable_old|].
      rewrite (A _ (stable_old _ _ S4)). exact V5.
    + apply (Input_Equals_Number_holds st); [apply stable_One_NBit|].
      rewrite (value_agree st s0 s _ _ (stable_One_NBit _ _) A), V4, Z.mod_small by lia.
      reflexivity.
    + apply (holds_unit_neg st); [apply old_Zero_1Bit|].
      rewrite (A _ (old_Zero_1Bit st)). exact V6.
  - intros s Hsat. rewrite !sat_app_true in Hsat.
    destruct Hsat as (Ha & P1 & P2 & Ho & _).
    apply Input_Equals_Number_value in P1; [|exact R1].
    apply Input_Equals_Number_value in P2; [|exact R2].
    apply unit_neg_sound in Ho.
    apply Add_NBit_sound in Ha. rewrite P1, P2, Ho in Ha. cbn [Z.b2z] in Ha. lia.
Qed.

Lemma add_cnf_conditions_result_witness :
  let final_len := Nat.max (bit_len (Z.max 5 3) + 1) (bit_len (5 + 3)) in
  satisfiable (fst (add_cnf_conditions 5 3 counters0)) /\
  forall s, sat s (fst (add_cnf_conditions 5 3 counters0)) = true ->
            value s "result" final_len = 5 + 3.
Proof.
  apply (add_cnf_conditions_result 5 3 counters0).
  - lia.
  - lia.
  - lia.
  - intros k. destruct k; reflexivity.
Defined.

(* ================================================================== *)
(** * Generators on pinned operands *)

Lemma value_upd_other s y b x n :
  (forall i, (i < n)%nat -> x # i <> y) -> value (upd s y b) x n = value s x n.
Proof.
  intros H. unfold value. apply bval_ext. intros i Hi. apply upd_other. now apply H.
Qed.

Lemma pin_holds st (s0 s : assignment) x v n :
  stable st x -> agree_old st s0 s -> value s0 x n = v -> 0 <= v < 2 ^ Z.of_nat n ->
  sat s (Input_Equals_Number x v n) = true.
Proof.
  intros Sx A V R. apply (Input_Equals_Number_holds st); [exact Sx|].
  rewrite (value_agree st s0 s x n Sx A), V. symmetry. now apply Z.mod_small.
Qed.

Lemma mul_decompose a b r h n :
  0 <= a -> 0 <= b -> 0 <= r < 2 ^ Z.of_nat n -> 0 <= h ->
  a * b = r + 2 ^ Z.of_nat n * h ->
  r = (a * b) mod 2 ^ Z.of_nat n /\ h = (a * b) / 2 ^ Z.of_nat n.
Proof.
  intros Ha Hb Hr Hh E. pose proof (pow2_pos n) as Hp.
  rewrite E, (Z.mul_comm (2 ^ Z.of_nat n) h), Z.mod_add, Z.div_add by lia.
  rewrite Z.mod_small, Z.div_small by lia. split; lia.
Qed.

(** X6. [Mul_NBit] on pinned operands: the clauses are satisfiable, and
    every satisfying assignment has the low [n] bits of the product on
    [result] and the overflow flag set exactly when the product does not
    fit in [n] bits. *)
Theorem Mul_NBit_characterisation (n : nat) (a b : Z)
  (in_a in_b result over_flow : string) (st : counters) :
  user_name in_a = true -> user_name in_b = true ->
  user_name result = true -> user_name over_flow = true ->
  NoDup [in_a; in_b; result] ->
  (forall x i, In x [in_a; in_b; result] -> x # i <> over_flow) ->
  small (n * 2 + 1) ->
  small_counters (snd (Mul_NBit in_a in_b result over_flow n st)) ->
  0 <= a < 2 ^ Z.of_nat n -> 0 <= b < 2 ^ Z.of_nat n ->
  let cs := Input_Equals_Number in_a a n ++ Input_Equals_Number in_b b n
            ++ fst (Mul_NBit in_a in_b result over_flow n st) in
  satisfiable cs /\
  forall s, sat s cs = true ->
    value s result n = (a * b) mod 2 ^ Z.of_nat n /\
    s over_flow = negb (a * b <? 2 ^ Z.of_nat n).
Proof.
  intros Ua Ub Ur Uo Hnd Hov Hn Hs Ra Rb cs.
  assert (Sa : stable st in_a) by now apply stable_user.
  assert (Sb : stable st in_b) by now apply stable_user.
  assert (Sr : stable st result) by now apply stable_user.
  assert (So : stable st over_flow) by now apply stable_user.
  assert (Hns : small n) by (apply (small_le _ (n * 2 + 1)); [lia|exact Hn]).
  pose proof (pow2_pos n) as Hp.
  assert (Nab : in_a <> in_b /\ in_a <> result /\ in_b <> result).
  { inversion Hnd as [|? ? N1 Hnd1]; subst. inversion Hnd1 as [|? ? N2 _]; subst.
    cbn [In] in N1, N2.
    split; [intros E; apply N1; left; now symmetry|].
    split; [intros E; apply N1; right; left; now symmetry|].
    intros E; apply N2; left; now symmetry. }
  destruct Nab as (Nab & Nar & Nbr).
  split.
  - set (r := (a * b) mod 2 ^ Z.of_nat n).
    set (ov := negb (a * b / 2 ^ Z.of_nat n =? 0)).
    assert (Rr : 0 <= r < 2 ^ Z.of_nat n) by (apply Z.mod_pos_bound; lia).
    set (s0 := upd (set_bits in_a n a (set_bits in_b n b
                 (set_bits result n r (fun _ => false)))) over_flow ov).
    assert (Va : value s0 in_a n = a).
    { unfold s0. rewrite value_upd_other by (intros; apply Hov; cbn; tauto).
      rewrite value_set_bits by exact Hns. now apply Z.mod_small. }
    assert (Vb : value s0 in_b n = b).
    { unfold s0. rewrite value_upd_other by (intros; apply Hov; cbn; tauto).
      rewrite value_set_bits_other by assumption.
      rewrite value_set_bits by exact Hns. now apply Z.mod_small. }
    assert (Vr : value s0 result n = r).
    { unfold s0. rewrite value_upd_other by (intros; apply Hov; cbn; tauto).
      rewrite !value_set_bits_other by assumption.
      rewrite value_set_bits by exact Hns. now apply Z.mod_small. }
    assert (Vo : s0 over_flow = ov) by apply upd_same.
    pose proof (Mul_NBit_ok in_a in_b result over_flow n st Sa Sb Sr
                  (stable_old _ _ So) Hn) as K.
    destruct (run_step _ _ _ s0 K Hs) as (s & _ & A & H).
    { rewrite Va, Vb, Vr, Vo. now split. }
    exists s. unfold cs. rewrite !sat_app_true. split; [|split; [|apply H]].
    + exact (pin_holds st s0 s in_a a n Sa A Va Ra).
    + exact (pin_holds st s0 s in_b b n Sb A Vb Rb).
  - intros s Hsat. unfold cs in Hsat. rewrite !sat_app_true in Hsat.
    destruct Hsat as (Pa & Pb & Hm).
    apply Input_Equals_Number_value in Pa; [|exact Ra].
    apply Input_Equals_Number_value in Pb; [|exact Rb].
    destruct (Mul_NBit_sound s in_a in_b result over_flow n st Hm) as (h & Hh & E & Eo).
    rewrite Pa, Pb in E.
    destruct (mul_decompose a b _ h n ltac:(lia) ltac:(lia)
                (value_range s result n) Hh E) as (Er & Eh).
    split; [exact Er|]. rewrite Eo, Eh. f_equal.
    destruct (Z.ltb_spec (a * b) (2 ^ Z.of_nat n)) as [Hlt|Hge].
    + rewrite Z.div_small by nia. reflexivity.
    + apply Z.eqb_neq. intros E0.
      pose proof (Z.div_mod (a * b) (2 ^ Z.of_nat n) ltac:(lia)) as Hdm.
      pose proof (Z.mod_pos_bound (a * b) (2 ^ Z.of_nat n) Hp). rewrite E0 in Hdm. lia.
Qed.

Lemma Mul_NBit_characterisation_witness :
  let cs := Input_Equals_Number "a" 3 2 ++ Input_Equals_Number "b" 2 2
            ++ fst (Mul_NBit "a" "b" "r" "ov" 2 counters0) in
  satisfiable cs /\
  forall s, sat s cs = true ->
    value s "r" 2 = (3 * 2) mod 2 ^ Z.of_nat 2 /\
    s "ov" = negb (3 * 2 <? 2 ^ Z.of_nat 2).
Proof.
  apply (Mul_NBit_characterisation 2 3 2 "a" "b" "r" "ov" counters0).
  - reflexivity.
  - reflexivity.
  - reflexivity.
  - reflexivity.
  - repeat constructor; cbn [In]; intuition discriminate.
  - intros x i [<-|[<-|[<-|[]]]]; discriminate.
  - reflexivity.
  - intros k. destruct k; reflexivity.
  - cbn. lia.
  - cbn. lia.
Defined.

(** X7. [LessThan_NBit] on pinned operands: the clauses are satisfiable
    exactly when the first number is below the second. *)
Theorem LessThan_NBit_satisfiable_iff (n : nat) (a b : Z) (in_a in_b : string)
  (st : counters) :
  user_name in_a = true -> user_name in_b = true -> in_a <> in_b ->
  small (S n) ->
  small_counters (snd (LessThan_NBit in_a in_b n st)) ->
  0 <= a < 2 ^ Z.of_nat n -> 0 <= b < 2 ^ Z.of_nat n ->
  satisfiable (Input_Equals_Number in_a a n ++ Input_Equals_Number in_b b n
               ++ fst (LessThan_NBit in_a in_b n st))
  <-> a < b.
Proof.
  intros Ua Ub Nab Hn Hs Ra Rb.
  assert (Sa : stable st in_a) by now apply stable_user.
  assert (Sb : stable st in_b) by now apply stable_user.
  assert (Hns : small n) by (apply (small_le _ (S n)); [lia|exact Hn]).
  split.
  - intros (s & Hsat). rewrite !sat_app_true in Hsat. destruct Hsat as (Pa & Pb & Hl).
    apply Input_Equals_Number_value in Pa; [|exact Ra].
    apply Input_Equals_Number_value in Pb; [|exact Rb].
    apply LessThan_NBit_sound in Hl. lia.
  - intros Hab.
    set (s0 := set_bits in_a n a (set_bits in_b n b (fun _ => false))).
    assert (Va : value s0 in_a n = a).
    { unfold s0. rewrite value_set_bits by exact Hns. now apply Z.mod_small. }
    assert (Vb : value s0 in_b n = b).
    { unfold s0. rewrite value_set_bits_other by assumption.
      rewrite value_set_bits by exact Hns. now apply Z.mod_small. }
    pose proof (LessThan_NBit_ok in_a in_b n st Sa Sb Hn) as K.
    destruct (run_step _ _ _ s0 K Hs) as (s & _ & A & H).
    { rewrite Va, Vb. exact Hab. }
    exists s. rewrite !sat_app_true. split; [|split; [|apply H]].
    + exact (pin_holds st s0 s in_a a n Sa A Va Ra).
    + exact (pin_holds st s0 s in_b b n Sb A Vb Rb).
Qed.

Lemma LessThan_NBit_satisfiable_iff_witness :
  satisfiable (Input_Equals_Number "a" 2 3 ++ Input_Equals_Number "b" 5 3
               ++ fst (LessThan_NBit "a" "b" 3 counters0))
  <-> 2 < 5.
Proof.
  apply (LessThan_NBit_satisfiable_iff 3 2 5 "a" "b" counters0).
  - reflexivity.
  - reflexivity.
  - discriminate.
  - reflexivity.
  - intros k. destruct k; reflexivity.
  - cbn. lia.
  - cbn. lia.
Defined.

Lemma rows_base_values (input output : string) (m bits : nat) (v : nat -> Z) (r : Z) :
  small bits -> small m ->
  (forall i, input # i <> output) ->
  (forall i, (i < m)%nat -> 0 <= v i < 2 ^ Z.of_nat bits) ->
  0 <= r < 2 ^ Z.of_nat bits ->
  let s0 := set_rows (fun i => input # i) m bits v
              (set_bits output bits r (fun _ => false)) in
  (forall i, (i < m)%nat -> value s0 (input # i) bits = v i) /\
  value s0 output bits = r /\
  (forall y, (forall x i, x = output \/ (exists j, x = input # j) -> x # i <> y) ->
             s0 y = false).
Proof.
  intros Hb Hm Hio Hv Hr s0. split; [|split].
  - intros i Hi. unfold s0.
    rewrite (value_set_rows_get (fun i => input # i) m bits v _ i bits);
      try assumption; try lia.
    + apply Z.mod_small. now apply Hv.
    + intros j Hj E. apply bit_name_inj in E; [tauto| |];
        apply (small_le _ m); assumption || lia.
  - apply bits_value_exact; [exact Hr|]. intros i Hi. unfold s0.
    rewrite set_rows_other.
    + now apply set_bits_get.
    + intros k b Hk Hb' E. apply bit_name_inj in E.
      * destruct E as [E _]. symmetry in E. now apply Hio in E.
      * apply (small_le _ bits); assumption || lia.
      * apply (small_le _ bits); assumption || lia.
  - intros y Hy. unfold s0. rewrite set_rows_other.
    + rewrite set_bits_other; [reflexivity|]. intros i _ E. symmetry in E.
      revert E. apply Hy. now left.
    + intros k i _ _ E. symmetry in E. revert E. apply Hy. right. now exists k.
Qed.

Lemma rows_pins_value (s : assignment) input m bits (v : nat -> Z) :
  (forall i, (i < m)%nat -> 0 <= v i < 2 ^ Z.of_nat bits) ->
  sat s (for_pure m (fun i => Input_Equals_Number (input # i) (v i) bits)) = true ->
  forall i, (i < m)%nat -> value s (input # i) bits = v i.
Proof.
  intros Hv H i Hi. rewrite sat_for_pure in H.
  apply Input_Equals_Number_value; [now apply Hv|now apply H].
Qed.

Lemma rows_pins_hold st (s0 s : assignment) input m bits (v : nat -> Z) :
  stable st input -> agree_old st s0 s ->
  (forall i, (i < m)%nat -> 0 <= v i < 2 ^ Z.of_nat bits) ->
  (forall i, (i < m)%nat -> value s0 (input # i) bits = v i) ->
  sat s (for_pure m (fun i => Input_Equals_Number (input # i) (v i) bits)) = true.
Proof.
  intros Si A Hv V. apply sat_for_pure. intros i Hi.
  apply (pin_holds st s0 s); [now apply stable_app|exact A|now apply V|now apply Hv].
Qed.

(** X8. [Sum_NBit] on pinned inputs with the overflow flag forced low:
    the clauses are satisfiable exactly when the sum of the inputs fits
    in [bits] bits, and every satisfying assignment has the sum on
    [output]. *)
Theorem Sum_NBit_characterisation (m bits : nat) (v : nat -> Z)
  (input output overflow : string) (st : counters) :
  user_name input = true -> user_name output = true -> user_name overflow = true ->
  (forall i, input # i <> output) ->
  (forall x i, x = output \/ (exists j, x = input # j) -> x # i <> overflow) ->
  small (S bits) -> small (S m) ->
  small_counters (snd (Sum_NBit input output overflow m bits st)) ->
  (forall i, (i < m)%nat -> 0 <= v i < 2 ^ Z.of_nat bits) ->
  let cs := for_pure m (fun i => Input_Equals_Number (input # i) (v i) bits)
            ++ [[Neg overflow]]
            ++ fst (Sum_NBit input output overflow m bits st) in
  (satisfiable cs <-> zsum v m < 2 ^ Z.of_nat bits) /\
  forall s, sat s cs = true -> value s output bits = zsum v m.
Proof.
  intros Ui Uo Uv Hio Hov Hb Hm Hs Hv cs.
  assert (Si : stable st input) by now apply stable_user.
  assert (So : stable st output) by now apply stable_user.
  assert (Sv : stable st overflow) by now apply stable_user.
  assert (Hbs : small bits) by (apply (small_le _ (S bits)); [lia|exact Hb]).
  assert (Hms : small m) by (apply (small_le _ (S m)); [lia|exact Hm]).
  assert (Sound : forall s, sat s cs = true -> value s output bits = zsum v m).
  { intros s Hsat. unfold cs in Hsat. rewrite !sat_app_true in Hsat.
    destruct Hsat as (Hp & Ho & Hsum). apply unit_neg_sound in Ho.
    rewrite (Sum_NBit_sound s input output overflow m bits st Hsum Ho).
    apply zsum_ext. intros j Hj. now apply (rows_pins_value s input m bits v). }
  split; [|exact Sound]. split.
  - intros (s & Hsat). rewrite <- (Sound s Hsat). apply value_range.
  - intros Hlt.
    assert (Hr : 0 <= zsum v m < 2 ^ Z.of_nat bits).
    { split; [|exact Hlt]. apply zsum_nonneg. intros i Hi. now apply Hv. }
    destruct (rows_base_values input output m bits v (zsum v m) Hbs Hms Hio Hv Hr)
      as (V1 & V2 & V3).
    set (s0 := set_rows (fun i => input # i) m bits v
                 (set_bits output bits (zsum v m) (fun _ => false))) in *.
    pose proof (Sum_NBit_ok input output overflow m bits st Si So
                  (stable_old _ _ Sv) Hb Hm) as K.
    destruct (run_step _ _ _ s0 K Hs) as (s & _ & A & H).
    { rewrite (zsum_ext _ v m V1), V2, (V3 overflow Hov). now repeat split. }
    exists s. unfold cs. rewrite !sat_app_true. split; [|split; [|apply H]].
    + exact (rows_pins_hold st s0 s input m bits v Si A Hv V1).
    + apply (holds_unit_neg st); [now apply stable_old|].
      rewrite (A _ (stable_old _ _ Sv)). now apply V3.
Qed.

Lemma Sum_NBit_characterisation_witness :
  let v := fun i : nat => if Nat.eqb i 0 then 3 else 2 in
  let cs := for_pure 2 (fun i => Input_Equals_Number ("x" # i) (v i) 3)
            ++ [[Neg "ov"]] ++ fst (Sum_NBit "x" "y" "ov" 2 3 counters0) in
  (satisfiable cs <-> zsum v 2 < 2 ^ Z.of_nat 3) /\
  forall s, sat s cs = true -> value s "y" 3 = zsum v 2.
Proof.
  apply (Sum_NBit_characterisation 2 3 (fun i : nat => if Nat.eqb i 0 then 3 else 2)
           "x" "y" "ov" counters0).
  - reflexivity.
  - reflexivity.
  - reflexivity.
  - intros i. discriminate.
  - intros x i [->|[j ->]]; discriminate.
  - reflexivity.
  - reflexivity.
  - intros k. destruct k; reflexivity.
  - intros i Hi. destruct i as [|[|i]]; cbn; lia.
Defined.

(** X9. [Product_NBit] of at most 32 bits on pinned positive inputs
    with the overflow flag forced low: the clauses are satisfiable
    exactly when the product of the inputs fits in [bits] bits, and
    every satisfying assignment has the product on [output].  Up to 32
    bits the pin of the first accumulator to 1 shifts its [int] by less
    than 32. *)
Theorem Product_NBit_characterisation (m bits : nat) (v : nat -> Z)
  (input output overflow : string) (st : counters) :
  user_name input = true -> user_name output = true -> user_name overflow = true ->
  (forall i, input # i <> output) ->
  (forall x i, x = output \/ (exists j, x = input # j) -> x # i <> overflow) ->
  (0 < bits <= 32)%nat -> small (S m) ->
  small_counters (snd (Product_NBit input output overflow m bits st)) ->
  (forall i, (i < m)%nat -> 1 <= v i < 2 ^ Z.of_nat bits) ->
  let cs := for_pure m (fun i => Input_Equals_Number (input # i) (v i) bits)
            ++ [[Neg overflow]]
            ++ fst (Product_NBit input output overflow m bits st) in
  (satisfiable cs <-> zprod v m < 2 ^ Z.of_nat bits) /\
  forall s, sat s cs = true -> value s output bits = zprod v m.
Proof.
  intros Ui Uo Uv Hio Hov [Hb0 Hb32] Hm Hs Hv cs.
  assert (Hb : small (bits * 2 + 1)) by (unfold small; lia).
  assert (Si : stable st input) by now apply stable_user.
  assert (So : stable st output) by now apply stable_user.
  assert (Sv : stable st overflow) by now apply stable_user.
  assert (Hbs : small bits) by (apply (small_le _ (bits * 2 + 1)); [lia|exact Hb]).
  assert (Hms : small m) by (apply (small_le _ (S m)); [lia|exact Hm]).
  assert (Hv0 : forall i, (i < m)%nat -> 0 <= v i < 2 ^ Z.of_nat bits).
  { intros i Hi. specialize (Hv i Hi). lia. }
  assert (Sound : forall s, sat s cs = true -> value s output bits = zprod v m).
  { intros s Hsat. unfold cs in Hsat. rewrite !sat_app_true in Hsat.
    destruct Hsat as (Hp & Ho & Hprod). apply unit_neg_sound in Ho.
    rewrite (Product_NBit_sound s input output overflow m bits st Hprod Hb0 Ho).
    apply zprod_ext. intros j Hj. now apply (rows_pins_value s input m bits v). }
  split; [|exact Sound]. split.
  - intros (s & Hsat). rewrite <- (Sound s Hsat). apply value_range.
  - intros Hlt.
    assert (Hr : 0 <= zprod v m < 2 ^ Z.of_nat bits).
    { split; [|exact Hlt].
      pose proof (zprod_pos_ge v m ltac:(intros i Hi; now apply Hv)). lia. }
    destruct (rows_base_values input output m bits v (zprod v m) Hbs Hms Hio Hv0 Hr)
      as (V1 & V2 & V3).
    set (s0 := set_rows (fun i => input # i) m bits v
                 (set_bits output bits (zprod v m) (fun _ => false))) in *.
    pose proof (Product_NBit_ok input output overflow m bits st Si So
                  (stable_old _ _ Sv) Hb Hm) as K.
    destruct (run_step _ _ _ s0 K Hs) as (s & _ & A & H).
    { rewrite (zprod_ext _ v m V1), V2, (V3 overflow Hov).
      split; [|now repeat split]. intros i Hi. rewrite (V1 i Hi). now apply Hv. }
    exists s. unfold cs. rewrite !sat_app_true. split; [|split; [|apply H]].
    + exact (rows_pins_hold st s0 s input m bits v Si A Hv0 V1).
    + apply (holds_unit_neg st); [now apply stable_old|].
      rewrite (A _ (stable_old _ _ Sv)). now apply V3.
Qed.

Lemma Product_NBit_characterisation_witness :
  let v := fun i : nat => if Nat.eqb i 0 then 3 else 2 in
  let cs := for_pure 2 (fun i => Input_Equals_Number ("x" # i) (v i) 3)
            ++ [[Neg "ov"]] ++ fst (Product_NBit "x" "y" "ov" 2 3 counters0) in
  (satisfiable cs <-> zprod v 2 < 2 ^ Z.of_nat 3) /\
  forall s, sat s cs = true -> value s "y" 3 = zprod v 2.
Proof.
  apply (Product_NBit_characterisation 2 3
           (fun i : nat => if Nat.eqb i 0 then 3 else 2) "x" "y" "ov" counters0).
  - reflexivity.
  - reflexivity.
  - reflexivity.
  - intros i. discriminate.
  - intros x i [->|[j ->]]; discriminate.
  - lia.
  - reflexivity.
  - intros k. destruct k; reflexivity.
  - intros i Hi. destruct i as [|[|i]]; cbn; lia.
Defined.

(* ================================================================== *)
(** * Exponentiation and the Fermat tests on pinned operands *)

Lemma user_app_neq x r y :
  user_name x = true -> user_name y = false -> (x ++ r)%string <> y.
Proof.
  intros Hx Hy E. subst y. destruct x as [|c x]; [discriminate Hx|].
  change (is_lower c = true) in Hx. change (is_lower c = false) in Hy.
  rewrite Hx in Hy. discriminate Hy.
Qed.

Lemma user_neq_One x k : user_name x = true -> x <> One_NBit k.
Proof.
  intros Hx E. rewrite <- (append_nil_r x) in E. revert E.
  now apply user_app_neq.
Qed.

Lemma NoDup3_neq (a b c : string) :
  NoDup [a; b; c] -> a <> b /\ a <> c /\ b <> c.
Proof.
  intros H. inversion H as [|? ? N1 H1]; subst. inversion H1 as [|? ? N2 _]; subst.
  cbn [In] in N1, N2. repeat split; intros E; subst; tauto.
Qed.

Lemma NoDup4_neq (a b c d : string) :
  NoDup [a; b; c; d] ->
  a <> b /\ a <> c /\ a <> d /\ b <> c /\ b <> d /\ c <> d.
Proof.
  intros H. inversion H as [|? ? N1 H1]; subst.
  destruct (NoDup3_neq _ _ _ H1) as (? & ? & ?).
  cbn [In] in N1. repeat split; try assumption; intros E; subst; tauto.
Qed.

Lemma One_NBit_neq n : (0 < n)%nat -> small (n * 2) -> One_NBit n <> One_NBit (n * 2).
Proof.
  intros Hn Hs. unfold One_NBit. intros E. apply append_inv_head in E.
  apply Z_inj in E; [lia| |exact Hs]. apply (small_le _ (n * 2)); [lia|exact Hs].
Qed.

Lemma value_One_set n w : small w -> (0 < w)%nat -> forall s,
  value (set_bits (One_NBit n) w 1 s) (One_NBit n) w = 1.
Proof.
  intros Hs Hw s. rewrite value_set_bits by exact Hs. apply (one_mod_pow2 w 1).
  pose proof (Z.pow_le_mono_r 2 1 (Z.of_nat w) ltac:(lia) ltac:(lia)). lia.
Qed.

Lemma pin_One_holds st (s0 s : assignment) k w :
  agree_old st s0 s -> value s0 (One_NBit k) w = 1 -> (0 < w)%nat ->
  sat s (Input_Equals_Number (One_NBit k) 1 w) = true.
Proof.
  intros A V Hw. apply (pin_holds st s0 s); [apply stable_One_NBit|exact A|exact V|].
  pose proof (Z.pow_le_mono_r 2 1 (Z.of_nat w) ltac:(lia) ltac:(lia)). lia.
Qed.

Lemma pin_One_value s k w :
  (0 < w)%nat -> sat s (Input_Equals_Number (One_NBit k) 1 w) = true ->
  value s (One_NBit k) w = 1.
Proof.
  intros Hw H. apply Input_Equals_Number_value; [|exact H].
  pose proof (Z.pow_le_mono_r 2 1 (Z.of_nat w) ltac:(lia) ltac:(lia)). lia.
Qed.

Ltac peel_layers :=
  repeat (rewrite value_set_bits_other
            by first [assumption | now apply user_neq_One | now apply One_NBit_neq]).

(** X10. [PowMod_NBit] of 1 to 16 bits on operands pinned to [b], [e],
    [m] with the constant [One_NBit_<2n>] pinned to 1: the clauses are
    satisfiable exactly when the modulus is not 0, and every satisfying
    assignment has [b ^ e mod m] on [result].  Up to 16 bits the pin of
    the first partial result, of [2n] bits, shifts its [int] by less
    than 32. *)
Theorem PowMod_NBit_characterisation (n : nat) (b e m : Z)
  (base exp mod_ result : string) (st : counters) :
  user_name base = true -> user_name exp = true ->
  user_name mod_ = true -> user_name result = true ->
  NoDup [base; exp; mod_; result] ->
  (0 < n <= 16)%nat ->
  small_counters (snd (PowMod_NBit base exp mod_ result n st)) ->
  0 <= b < 2 ^ Z.of_nat n -> 0 <= e < 2 ^ Z.of_nat n -> 0 <= m < 2 ^ Z.of_nat n ->
  let cs := Input_Equals_Number base b n ++ Input_Equals_Number exp e n
            ++ Input_Equals_Number mod_ m n
            ++ Input_Equals_Number (One_NBit (n * 2)) 1 (n * 2)
            ++ fst (PowMod_NBit base exp mod_ result n st) in
  (satisfiable cs <-> 0 < m) /\
  forall s, sat s cs = true -> value s result n = b ^ e mod m.
Proof.
  intros Ub Ue Um Ur Hnd [Hn Hn16] Hs Rb Re Rm cs.
  assert (Hs4 : small (n * 4 + 1)) by (unfold small; lia).
  assert (Sb : stable st base) by now apply stable_user.
  assert (Se : stable st exp) by now apply stable_user.
  assert (Sm : stable st mod_) by now apply stable_user.
  assert (Sr : stable st result) by now apply stable_user.
  assert (Hs1 : small n) by (apply (small_le _ (n * 4 + 1)); [lia|exact Hs4]).
  assert (Hs2 : small (n * 2)) by (apply (small_le _ (n * 4 + 1)); [lia|exact Hs4]).
  destruct (NoDup4_neq _ _ _ _ Hnd) as (Nbe & Nbm & Nbr & Nem & Ner & Nmr).
  assert (Sound : forall s, sat s cs = true ->
            0 < m /\ value s result n = b ^ e mod m).
  { intros s Hsat. unfold cs in Hsat. rewrite !sat_app_true in Hsat.
    destruct Hsat as (Pb & Pe & Pm & P1 & Hp).
    apply Input_Equals_Number_value in Pb; [|exact Rb].
    apply Input_Equals_Number_value in Pe; [|exact Re].
    apply Input_Equals_Number_value in Pm; [|exact Rm].
    apply pin_One_value in P1; [|lia].
    destruct (PowMod_NBit_sound s base exp mod_ result n st Hp P1 Hn) as (H0 & Hr).
    rewrite Pb, Pe, Pm in *. now split. }
  split; [|intros s Hsat; apply (Sound s Hsat)]. split.
  - intros (s & Hsat). apply (Sound s Hsat).
  - intros Hm.
    assert (Rr : 0 <= b ^ e mod m < 2 ^ Z.of_nat n).
    { pose proof (Z.mod_pos_bound (b ^ e) m Hm). lia. }
    set (s0 := set_bits base n b (set_bits exp n e (set_bits mod_ n m
                 (set_bits result n (b ^ e mod m)
                   (set_bits (One_NBit (n * 2)) (n * 2) 1 (fun _ => false)))))).
    assert (Vb : value s0 base n = b).
    { unfold s0. rewrite value_set_bits by exact Hs1. now apply Z.mod_small. }
    assert (Ve : value s0 exp n = e).
    { unfold s0. peel_layers. rewrite value_set_bits by exact Hs1. now apply Z.mod_small. }
    assert (Vm : value s0 mod_ n = m).
    { unfold s0. peel_layers. rewrite value_set_bits by exact Hs1. now apply Z.mod_small. }
    assert (Vr : value s0 result n = b ^ e mod m).
    { unfold s0. peel_layers. rewrite value_set_bits by exact Hs1. now apply Z.mod_small. }
    assert (V1 : value s0 (One_NBit (n * 2)) (n * 2) = 1).
    { unfold s0. peel_layers. apply value_One_set; [exact Hs2|lia]. }
    pose proof (PowMod_NBit_ok base exp mod_ result n st Sb Se Sm Sr Hs4) as K.
    destruct (run_step _ _ _ s0 K Hs) as (s & _ & A & H).
    { rewrite Vb, Ve, Vm, Vr, V1. now repeat split. }
    exists s. unfold cs. rewrite !sat_app_true. repeat apply conj.
    + exact (pin_holds st s0 s base b n Sb A Vb Rb).
    + exact (pin_holds st s0 s exp e n Se A Ve Re).
    + exact (pin_holds st s0 s mod_ m n Sm A Vm Rm).
    + apply (pin_One_holds st s0 s); [exact A|exact V1|lia].
    + apply H.
Qed.

Lemma PowMod_NBit_characterisation_witness :
  let cs := Input_Equals_Number "b" 3 2 ++ Input_Equals_Number "e" 2 2
            ++ Input_Equals_Number "m" 2 2
            ++ Input_Equals_Number (One_NBit (2 * 2)) 1 (2 * 2)
            ++ fst (PowMod_NBit "b" "e" "m" "r" 2 counters0) in
  (satisfiable cs <-> 0 < 2) /\
  forall s, sat s cs = true -> value s "r" 2 = 3 ^ 2 mod 2.
Proof.
  apply (PowMod_NBit_characterisation 2 3 2 2 "b" "e" "m" "r" counters0).
  - reflexivity.
  - reflexivity.
  - reflexivity.
  - reflexivity.
  - repeat constructor; cbn [In]; intuition discriminate.
  - lia.
  - intros k. destruct k; reflexivity.
  - cbn. lia.
  - cbn. lia.
  - cbn. lia.
Defined.

Section FermatPinned.
Variables (n : nat) (g e m : Z) (gen pow mod_ : string) (st : counters).
Hypothesis Ug : user_name gen = true.
Hypothesis Ue : user_name pow = true.
Hypothesis Um : user_name mod_ = true.
Hypothesis Hnd : NoDup [gen; pow; mod_].
Hypothesis Hn : (0 < n)%nat.
Hypothesis Hs4 : small (n * 4 + 1).
Hypothesis Rg : 0 <= g < 2 ^ Z.of_nat n.
Hypothesis Re : 0 <= e < 2 ^ Z.of_nat n.
Hypothesis Rm : 0 <= m < 2 ^ Z.of_nat n.

Lemma fermat_pins_values s :
  sat s (Input_Equals_Number gen g n ++ Input_Equals_Number pow e n
         ++ Input_Equals_Number mod_ m n
         ++ Input_Equals_Number (One_NBit (n * 2)) 1 (n * 2)) = true ->
  value s gen n = g /\ value s pow n = e /\ value s mod_ n = m /\
  value s (One_NBit (n * 2)) (n * 2) = 1.
Proof.
  rewrite !sat_app_true. intros (Pg & Pe & Pm & P1).
  apply Input_Equals_Number_value in Pg; [|exact Rg].
  apply Input_Equals_Number_value in Pe; [|exact Re].
  apply Input_Equals_Number_value in Pm; [|exact Rm].
  apply pin_One_value in P1; [|lia]. now repeat split.
Qed.

Lemma fermat_pins_model :
  exists s0, value s0 gen n = g /\ value s0 pow n = e /\ value s0 mod_ n = m /\
             value s0 (One_NBit (n * 2)) (n * 2) = 1.
Proof.
  assert (Hs1 : small n) by (apply (small_le _ (n * 4 + 1)); [lia|exact Hs4]).
  assert (Hs2 : small (n * 2)) by (apply (small_le _ (n * 4 + 1)); [lia|exact Hs4]).
  destruct (NoDup3_neq _ _ _ Hnd) as (Nge & Ngm & Nem).
  exists (set_bits gen n g (set_bits pow n e (set_bits mod_ n m
            (set_bits (One_NBit (n * 2)) (n * 2) 1 (fun _ => false))))).
  repeat apply conj.
  - rewrite value_set_bits by exact Hs1. now apply Z.mod_small.
  - peel_layers. rewrite value_set_bits by exact Hs1. now apply Z.mod_small.
  - peel_layers. rewrite value_set_bits by exact Hs1. now apply Z.mod_small.
  - peel_layers. apply value_One_set; [exact Hs2|lia].
Qed.

Lemma fermat_pins_hold (s0 s : assignment) :
  agree_old st s0 s ->
  value s0 gen n = g -> value s0 pow n = e -> value s0 mod_ n = m ->
  value s0 (One_NBit (n * 2)) (n * 2) = 1 ->
  sat s (Input_Equals_Number gen g n ++ Input_Equals_Number pow e n
         ++ Input_Equals_Number mod_ m n
         ++ Input_Equals_Number (One_NBit (n * 2)) 1 (n * 2)) = true.
Proof.
  intros A Vg Ve Vm V1. rewrite !sat_app_true. repeat apply conj.
  - apply (pin_holds st s0 s); [now apply stable_user|exact A|exact Vg|exact Rg].
  - apply (pin_holds st s0 s); [now apply stable_user|exact A|exact Ve|exact Re].
  - apply (pin_holds st s0 s); [now apply stable_user|exact A|exact Vm|exact Rm].
  - apply (pin_One_holds st s0 s); [exact A|exact V1|lia].
Qed.

End FermatPinned.

(** X11. [FermatTest] of 1 to 16 bits on a generator, an exponent and a
    modulus pinned to [g], [e], [m] (with [One_NBit_<2n>] pinned to 1)
    is satisfiable exactly when [g] is neither 0 nor 1, [m] is not 0 and
    [g ^ e mod m = 1].  The width is one at which the pins of
    [PowMod_NBit] shift their [int] by less than 32. *)
Theorem FermatTest_satisfiable_iff (n : nat) (g e m : Z)
  (gen pow mod_ : string) (st : counters) :
  user_name gen = true -> user_name pow = true -> user_name mod_ = true ->
  NoDup [gen; pow; mod_] ->
  (0 < n <= 16)%nat ->
  small_counters (snd (FermatTest gen pow mod_ n st)) ->
  0 <= g < 2 ^ Z.of_nat n -> 0 <= e < 2 ^ Z.of_nat n -> 0 <= m < 2 ^ Z.of_nat n ->
  satisfiable ((Input_Equals_Number gen g n ++ Input_Equals_Number pow e n
                ++ Input_Equals_Number mod_ m n
                ++ Input_Equals_Number (One_NBit (n * 2)) 1 (n * 2))
               ++ fst (FermatTest gen pow mod_ n st))
  <-> g <> 0 /\ g <> 1 /\ 0 < m /\ g ^ e mod m = 1.
Proof.
  intros Ug Ue Um Hnd [Hn Hn16] Hs Rg Re Rm.
  assert (Hs4 : small (n * 4 + 1)) by (unfold small; lia).
  split.
  - intros (s & Hsat). rewrite sat_app_true in Hsat. destruct Hsat as (Hp & Hf).
    destruct (fermat_pins_values n g e m gen pow mod_ Hn Rg Re Rm s Hp)
      as (Vg & Ve & Vm & V1).
    pose proof (FermatTest_sound s gen pow mod_ n st Hf V1 Hn) as H.
    now rewrite Vg, Ve, Vm in H.
  - intros (G0 & G1 & M0 & HF).
    destruct (fermat_pins_model n g e m gen pow mod_ Ug Ue Um Hnd Hn Hs4 Rg Re Rm)
      as (s0 & Vg & Ve & Vm & V1).
    pose proof (FermatTest_ok gen pow mod_ n st (stable_user _ _ Ug)
                  (stable_user _ _ Ue) (stable_user _ _ Um) Hs4) as K.
    destruct (run_step _ _ _ s0 K Hs) as (s & _ & A & H).
    { rewrite Vg, Ve, Vm, V1. now repeat split. }
    exists s. rewrite sat_app_true. split; [|apply H].
    now apply (fermat_pins_hold n g e m gen pow mod_ st Ug Ue Um Hn Rg Re Rm s0 s).
Qed.

Lemma FermatTest_satisfiable_iff_witness :
  satisfiable ((Input_Equals_Number "g" 2 2 ++ Input_Equals_Number "e" 2 2
                ++ Input_Equals_Number "m" 3 2
                ++ Input_Equals_Number (One_NBit (2 * 2)) 1 (2 * 2))
               ++ fst (FermatTest "g" "e" "m" 2 counters0))
  <-> 2 <> 0 /\ 2 <> 1 /\ 0 < 3 /\ 2 ^ 2 mod 3 = 1.
Proof.
  apply (FermatTest_satisfiable_iff 2 2 2 3 "g" "e" "m" counters0).
  - reflexivity.
  - reflexivity.
  - reflexivity.
  - repeat constructor; cbn [In]; intuition discriminate.
  - lia.
  - intros k. destruct k; reflexivity.
  - cbn. lia.
  - cbn. lia.
  - cbn. lia.
Defined.

(** X12. [FermatTest3], the negative test, of 1 to 16 bits on a
    generator, an exponent and a modulus pinned to [g], [e], [m] (with
    [One_NBit_<2n>] pinned to 1) is satisfiable exactly when [g] is
    neither 0 nor 1, [m] is not 0 and [g ^ e mod m] is not 1.  The
    width is one at which the pins of [PowMod_NBit] shift their [int]
    by less than 32. *)
Theorem FermatTest3_satisfiable_iff (n : nat) (g e m : Z)
  (gen pow mod_ : string) (st : counters) :
  user_name gen = true -> user_name pow = true -> user_name mod_ = true ->
  NoDup [gen; pow; mod_] ->
  (0 < n <= 16)%nat ->
  small_counters (snd (FermatTest3 gen pow mod_ n st)) ->
  0 <= g < 2 ^ Z.of_nat n -> 0 <= e < 2 ^ Z.of_nat n -> 0 <= m < 2 ^ Z.of_nat n ->
  satisfiable ((Input_Equals_Number gen g n ++ Input_Equals_Number pow e n
                ++ Input_Equals_Number mod_ m n
                ++ Input_Equals_Number (One_NBit (n * 2)) 1 (n * 2))
               ++ fst (FermatTest3 gen pow mod_ n st))
  <-> g <> 0 /\ g <> 1 /\ 0 < m /\ g ^ e mod m <> 1.
Proof.
  intros Ug Ue Um Hnd [Hn Hn16] Hs Rg Re Rm.
  assert (Hs4 : small (n * 4 + 1)) by (unfold small; lia).
  split.
  - intros (s & Hsat). rewrite sat_app_true in Hsat. destruct Hsat as (Hp & Hf).
    destruct (fermat_pins_values n g e m gen pow mod_ Hn Rg Re Rm s Hp)
      as (Vg & Ve & Vm & V1).
    pose proof (FermatTest3_sound s gen pow mod_ n st Hf V1 Hn) as H.
    now rewrite Vg, Ve, Vm in H.
  - intros (G0 & G1 & M0 & HF).
    destruct (fermat_pins_model n g e m gen pow mod_ Ug Ue Um Hnd Hn Hs4 Rg Re Rm)
      as (s0 & Vg & Ve & Vm & V1).
    pose proof (FermatTest3_ok gen pow mod_ n st (stable_user _ _ Ug)
                  (stable_user _ _ Ue) (stable_user _ _ Um) Hs4) as K.
    destruct (run_step _ _ _ s0 K Hs) as (s & _ & A & H).
    { rewrite Vg, Ve, Vm, V1. now repeat split. }
    exists s. rewrite sat_app_true. split; [|apply H].
    now apply (fermat_pins_hold n g e m gen pow mod_ st Ug Ue Um Hn Rg Re Rm s0 s).
Qed.

Lemma FermatTest3_satisfiable_iff_witness :
  satisfiable ((Input_Equals_Number "g" 2 2 ++ Input_Equals_Number "e" 1 2
                ++ Input_Equals_Number "m" 3 2
                ++ Input_Equals_Number (One_NBit (2 * 2)) 1 (2 * 2))
               ++ fst (FermatTest3 "g" "e" "m" 2 counters0))
  <-> 2 <> 0 /\ 2 <> 1 /\ 0 < 3 /\ 2 ^ 1 mod 3 <> 1.
Proof.
  apply (FermatTest3_satisfiable_iff 2 2 1 3 "g" "e" "m" counters0).
  - reflexivity.
  - reflexivity.
  - reflexivity.
  - repeat constructor; cbn [In]; intuition discriminate.
  - lia.
  - intros k. destruct k; reflexivity.
  - cbn. lia.
  - cbn. lia.
  - cbn. lia.
Defined.

(** X13. [FermatTest2], the test with exponent [p - 1], of 1 to 16 bits
    on a generator and a modulus pinned to [g] and [p] (with
    [One_NBit_<n>] and [One_NBit_<2n>] pinned to 1) is satisfiable
    exactly when [g] is neither 0 nor 1, [p] is not 0 and
    [g ^ (p - 1) mod p = 1].  The width is one at which the pins of
    [PowMod_NBit] shift their [int] by less than 32. *)
Theorem FermatTest2_satisfiable_iff (n : nat) (g p : Z)
  (gen prime : string) (st : counters) :
  user_name gen = true -> user_name prime = true -> gen <> prime ->
  (0 < n <= 16)%nat ->
  small_counters (snd (FermatTest2 gen prime n st)) ->
  0 <= g < 2 ^ Z.of_nat n -> 0 <= p < 2 ^ Z.of_nat n ->
  satisfiable (Input_Equals_Number gen g n ++ Input_Equals_Number prime p n
               ++ Input_Equals_Number (One_NBit n) 1 n
               ++ Input_Equals_Number (One_NBit (n * 2)) 1 (n * 2)
               ++ fst (FermatTest2 gen prime n st))
  <-> g <> 0 /\ g <> 1 /\ 0 < p /\ g ^ (p - 1) mod p = 1.
Proof.
  intros Ug Up Ngp [Hn Hn16] Hs Rg Rp.
  assert (Hs4 : small (n * 4 + 1)) by (unfold small; lia).
  assert (Sg : stable st gen) by now apply stable_user.
  assert (Sp : stable st prime) by now apply stable_user.
  assert (Hs1 : small n) by (apply (small_le _ (n * 4 + 1)); [lia|exact Hs4]).
  assert (Hs2 : small (n * 2)) by (apply (small_le _ (n * 4 + 1)); [lia|exact Hs4]).
  split.
  - intros (s & Hsat). rewrite !sat_app_true in Hsat.
    destruct Hsat as (Pg & Pp & P1 & P2 & Hf).
    apply Input_Equals_Number_value in Pg; [|exact Rg].
    apply Input_Equals_Number_value in Pp; [|exact Rp].
    apply pin_One_value in P1; [|lia]. apply pin_One_value in P2; [|lia].
    pose proof (FermatTest2_sound s gen prime n st Hf P2 P1 Hn) as H.
    now rewrite Pg, Pp in H.
  - intros (G0 & G1 & P0 & HF).
    set (s0 := set_bits gen n g (set_bits prime n p
                 (set_bits (One_NBit n) n 1
                   (set_bits (One_NBit (n * 2)) (n * 2) 1 (fun _ => false))))).
    assert (Vg : value s0 gen n = g).
    { unfold s0. rewrite value_set_bits by exact Hs1. now apply Z.mod_small. }
    assert (Vp : value s0 prime n = p).
    { unfold s0. peel_layers. rewrite value_set_bits by exact Hs1. now apply Z.mod_small. }
    assert (V1 : value s0 (One_NBit n) n = 1).
    { unfold s0. peel_layers. apply value_One_set; [exact Hs1|lia]. }
    assert (V2 : value s0 (One_NBit (n * 2)) (n * 2) = 1).
    { unfold s0. peel_layers. apply value_One_set; [exact Hs2|lia]. }
    pose proof (FermatTest2_ok gen prime n st Sg Sp Hs4) as K.
    destruct (run_step _ _ _ s0 K Hs) as (s & _ & A & H).
    { rewrite Vg, Vp, V1, V2. now repeat split. }
    exists s. rewrite !sat_app_true. repeat apply conj.
    + exact (pin_holds st s0 s gen g n Sg A Vg Rg).
    + exact (pin_holds st s0 s prime p n Sp A Vp Rp).
    + apply (pin_One_holds st s0 s); [exact A|exact V1|lia].
    + apply (pin_One_holds st s0 s); [exact A|exact V2|lia].
    + apply H.
Qed.

Lemma FermatTest2_satisfiable_iff_witness :
  satisfiable (Input_Equals_Number "g" 2 2 ++ Input_Equals_Number "p" 3 2
               ++ Input_Equals_Number (One_NBit 2) 1 2
               ++ Input_Equals_Number (One_NBit (2 * 2)) 1 (2 * 2)
               ++ fst (FermatTest2 "g" "p" 2 counters0))
  <-> 2 <> 0 /\ 2 <> 1 /\ 0 < 3 /\ 2 ^ (3 - 1) mod 3 = 1.
Proof.
  apply (FermatTest2_satisfiable_iff 2 2 3 "g" "p" counters0).
  - reflexivity.
  - reflexivity.
  - discriminate.
  - lia.
  - intros k. destruct k; reflexivity.
  - cbn. lia.
  - cbn. lia.
Defined.

(* ================================================================== *)
(** * Powers on pinned operands *)

(** X14. [Pow_NBit] of at most 32 bits on a base pinned to [a >= 1] and
    an exponent pinned to [e], with the overflow flag and the exponent
    bit [n] (read by the overflow logic) forced low and the constants
    pinned: the clauses are satisfiable exactly when [a ^ e] fits in [n]
    bits, and every satisfying assignment has [a ^ e] on [result].  Up
    to 32 bits the pin of the first accumulator to 1 shifts its [int]
    by less than 32. *)
Theorem Pow_NBit_characterisation (n : nat) (a e : Z)
  (in_a in_b result over_flow : string) (st : counters) :
  user_name in_a = true -> user_name in_b = true ->
  user_name result = true -> user_name over_flow = true ->
  NoDup [in_a; in_b; result] ->
  (forall x i, In x [in_a; in_b; result] -> x # i <> over_flow) ->
  (n <= 32)%nat ->
  small_counters (snd (Pow_NBit in_a in_b result over_flow n st)) ->
  1 <= a < 2 ^ Z.of_nat n -> 0 <= e < 2 ^ Z.of_nat n ->
  let cs := Input_Equals_Number in_a a n ++ Input_Equals_Number in_b e n
            ++ [[Neg (in_b # n)]] ++ [[Neg over_flow]]
            ++ Input_Equals_Number (One_NBit n) 1 n ++ [[Neg Zero_1Bit]]
            ++ fst (Pow_NBit in_a in_b result over_flow n st) in
  (satisfiable cs <-> a ^ e < 2 ^ Z.of_nat n) /\
  forall s, sat s cs = true -> value s result n = a ^ e.
Proof.
  intros Ua Ub Ur Uo Hnd Hov Hn32 Hs Ra Re cs.
  assert (Hn : small (n * 2 + 1)) by (unfold small; lia).
  assert (Sa : stable st in_a) by now apply stable_user.
  assert (Sb : stable st in_b) by now apply stable_user.
  assert (Sr : stable st result) by now apply stable_user.
  assert (So : stable st over_flow) by now apply stable_user.
  assert (Hns : small n) by (apply (small_le _ (n * 2 + 1)); [lia|exact Hn]).
  assert (Hn0 : (0 < n)%nat).
  { destruct n; [cbn in Ra; lia|lia]. }
  destruct (NoDup3_neq _ _ _ Hnd) as (Nab & Nar & Nbr).
  assert (Sound : forall s, sat s cs = true -> value s result n = a ^ e).
  { intros s Hsat. unfold cs in Hsat. rewrite !sat_app_true in Hsat.
    destruct Hsat as (Pa & Pb & _ & Po & P1 & Pz & Hp).
    apply Input_Equals_Number_value in Pa; [|lia].
    apply Input_Equals_Number_value in Pb; [|exact Re].
    apply unit_neg_sound in Po, Pz. apply pin_One_value in P1; [|exact Hn0].
    rewrite (Pow_NBit_sound s in_a in_b result over_flow n st Hp P1 Pz Po).
    now rewrite Pa, Pb. }
  split; [|exact Sound]. split.
  - intros (s & Hsat). rewrite <- (Sound s Hsat). apply value_range.
  - intros Hlt.
    assert (Rr : 0 <= a ^ e < 2 ^ Z.of_nat n).
    { split; [apply Z.pow_nonneg; lia|exact Hlt]. }
    set (s0 := set_bits in_a n a (set_bits in_b n e (set_bits result n (a ^ e)
                 (set_bits (One_NBit n) n 1 (fun _ => false))))).
    assert (Va : value s0 in_a n = a).
    { unfold s0. rewrite value_set_bits by exact Hns. apply Z.mod_small. lia. }
    assert (Vb : value s0 in_b n = e).
    { unfold s0. peel_layers. rewrite value_set_bits by exact Hns. now apply Z.mod_small. }
    assert (Vr : value s0 result n = a ^ e).
    { unfold s0. peel_layers. rewrite value_set_bits by exact Hns. now apply Z.mod_small. }
    assert (V1 : value s0 (One_NBit n) n = 1).
    { unfold s0. peel_layers. apply value_One_set; [exact Hns|exact Hn0]. }
    assert (Vo : s0 over_flow = false).
    { unfold s0. rewrite !set_bits_other; [reflexivity|..]; intros i _ E;
        symmetry in E; revert E;
        try (apply Hov; cbn [In]; tauto).
      rewrite <- (append_nil_r over_flow). intros E. symmetry in E. revert E.
      now apply user_app_neq. }
    assert (Vn : s0 (in_b # n) = false).
    { unfold s0. rewrite !set_bits_other; [reflexivity|..]; intros i Hi E.
      - revert E. now apply user_app_neq.
      - apply bit_name_inj in E;
          [destruct E as [E _]; now apply Nbr in E|exact Hns|].
        apply (small_le _ n); [lia|exact Hns].
      - apply bit_name_inj in E; [lia|exact Hns|].
        apply (small_le _ n); [lia|exact Hns].
      - apply bit_name_inj in E;
          [destruct E as [E _]; symmetry in E; now apply Nab in E|exact Hns|].
        apply (small_le _ n); [lia|exact Hns]. }
    assert (Vz : s0 Zero_1Bit = false).
    { unfold s0. rewrite !set_bits_other; [reflexivity|..]; intros i _ E;
        symmetry in E; revert E; try (now apply user_app_neq).
      unfold One_NBit, Zero_1Bit. discriminate. }
    pose proof (Pow_NBit_ok in_a in_b result over_flow n st Sa Sb Sr
                  (stable_old _ _ So) Hn) as K.
    destruct (run_step _ _ _ s0 K Hs) as (s & _ & A & H).
    { rewrite Va, Vb, Vr, V1, Vo, Vn, Vz. repeat split; try lia; assumption. }
    exists s. unfold cs. rewrite !sat_app_true. repeat apply conj.
    + apply (pin_holds st s0 s in_a a n Sa A Va). lia.
    + exact (pin_holds st s0 s in_b e n Sb A Vb Re).
    + apply (holds_unit_neg st); [now apply stable_bit|].
      rewrite (A _ (stable_bit _ _ _ Sb)). exact Vn.
    + apply (holds_unit_neg st); [now apply stable_old|].
      rewrite (A _ (stable_old _ _ So)). exact Vo.
    + apply (pin_One_holds st s0 s); [exact A|exact V1|exact Hn0].
    + apply (holds_unit_neg st); [apply old_Zero_1Bit|].
      rewrite (A _ (old_Zero_1Bit st)). exact Vz.
    + apply H.
Qed.

Lemma Pow_NBit_characterisation_witness :
  let cs := Input_Equals_Number "a" 2 3 ++ Input_Equals_Number "e" 2 3
            ++ [[Neg ("e" # 3)]] ++ [[Neg "ov"]]
            ++ Input_Equals_Number (One_NBit 3) 1 3 ++ [[Neg Zero_1Bit]]
            ++ fst (Pow_NBit "a" "e" "r" "ov" 3 counters0) in
  (satisfiable cs <-> 2 ^ 2 < 2 ^ Z.of_nat 3) /\
  forall s, sat s cs = true -> value s "r" 3 = 2 ^ 2.
Proof.
  apply (Pow_NBit_characterisation 3 2 2 "a" "e" "r" "ov" counters0).
  - reflexivity.
  - reflexivity.
  - reflexivity.
  - reflexivity.
  - repeat constructor; cbn [In]; intuition discriminate.
  - intros x i [<-|[<-|[<-|[]]]]; discriminate.
  - lia.
  - intros k. destruct k; reflexivity.
  - cbn. lia.
  - cbn. lia.
Defined.

(* ================================================================== *)
(** * Arithmetic: a certificate for every prime *)

Lemma fin_choice (A : Type) (d : A) (R : nat -> A -> Prop) n :
  (forall i, (i < n)%nat -> exists a, R i a) ->
  exists f, forall i, (i < n)%nat -> R i (f i).
Proof.
  induction n as [|n IH]; intros H.
  - exists (fun _ => d). intros i Hi. lia.
  - destruct IH as [f Hf]; [intros i Hi; apply H; lia|].
    destruct (H n ltac:(lia)) as [a Ha].
    exists (fun i => if Nat.eqb i n then a else f i).
    intros i Hi. destruct (Nat.eqb_spec i n) as [->|Hne]; [exact Ha|apply Hf; lia].
Qed.

Lemma zprod_ones f k : (forall j, (j < k)%nat -> f j = 1) -> zprod f k = 1.
Proof.
  induction k as [|k IH]; intros H; cbn [zprod]; [reflexivity|].
  rewrite IH, H by (intros; try apply H; lia). reflexivity.
Qed.

Lemma zprod_bump (P : nat -> Z) (e : nat -> Z) j0 k :
  (forall j, 0 <= e j) ->
  zprod (fun j => P j ^ bump e j0 j) k =
  (if (j0 <? k)%nat then P j0 else 1) * zprod (fun j => P j ^ e j) k.
Proof.
  intros He. induction k as [|k IH]; [cbn; lia|].
  cbn [zprod]. rewrite IH. unfold bump.
  destruct (Nat.eqb_spec k j0) as [->|Hne].
  - rewrite Nat.ltb_irrefl. replace (j0 <? S j0)%nat with true
      by (symmetry; apply Nat.ltb_lt; lia).
    rewrite Z.pow_add_r, Z.pow_1_r by (try apply He; lia). ring.
  - destruct (Nat.ltb_spec j0 k) as [Hlt|Hge].
    + replace (j0 <? S k)%nat with true by (symmetry; apply Nat.ltb_lt; lia). ring.
    + replace (j0 <? S k)%nat with false by (symmetry; apply Nat.ltb_ge; lia). ring.
Qed.

(** Every number whose prime factors are among the [P j] is a product of
    powers of them, with an exponent for each index. *)
Lemma factor_index (P : nat -> Z) (n : nat) :
  forall m, 1 <= m ->
  (forall q, Z.prime q -> (q | m) -> exists j, (j < n)%nat /\ P j = q) ->
  exists e : nat -> Z,
    (forall j, 0 <= e j) /\ zprod (fun j => P j ^ e j) n = m /\
    (forall j, (j < n)%nat -> e j <> 0 -> (P j | m)).
Proof.
  intros m. pattern m. apply (well_founded_ind (Z.lt_wf 0)). clear m.
  intros m IH Hm Hidx.
  destruct (Z.eq_dec m 1) as [->|Hm1].
  - exists (fun _ => 0). split; [intros; lia|]. split.
    + apply zprod_ones. intros j _. apply Z.pow_0_r.
    + intros j _ H. now contradiction H.
  - destruct (prime_factor_exists m ltac:(lia)) as (q & Hq & Hqm).
    pose proof (Z.prime_ge_2 q Hq) as Hq2.
    destruct (Hidx q Hq Hqm) as (j0 & Hj0 & Pj0).
    destruct Hqm as [k Hk].
    assert (Hk1 : 1 <= k < m) by (clear - Hk Hm Hq2; nia).
    destruct (IH k ltac:(lia) ltac:(lia)) as (e & He & Hprod & Hdiv).
    { intros r Hr Hrk. apply Hidx; [exact Hr|].
      rewrite Hk. now apply Z.divide_mul_l. }
    exists (bump e j0). split; [|split].
    + intros j. unfold bump. specialize (He j). destruct (Nat.eqb j j0); lia.
    + rewrite zprod_bump by exact He.
      replace (j0 <? n)%nat with true by (symmetry; apply Nat.ltb_lt; lia).
      rewrite Hprod, Pj0, Hk. ring.
    + intros j Hj Hne. unfold bump in Hne.
      destruct (Nat.eqb_spec j j0) as [->|Hjj].
      * rewrite Pj0, Hk. exists k. reflexivity.
      * rewrite Hk. apply Z.divide_mul_l. now apply Hdiv.
Qed.

Lemma zprod_factor_le f k j :
  (forall i, (i < k)%nat -> 1 <= f i) -> (j < k)%nat -> f j <= zprod f k.
Proof.
  intros H Hj. induction k as [|k IH]; [lia|]. cbn [zprod].
  pose proof (zprod_pos_ge f k ltac:(intros; apply H; lia)) as Hp.
  pose proof (H k ltac:(lia)) as Hk.
  destruct (Nat.eq_dec j k) as [->|Hne].
  - clear - Hp Hk. nia.
  - specialize (IH ltac:(intros; apply H; lia) ltac:(lia)). clear - IH Hp Hk. nia.
Qed.

Lemma pow2_zsum_le (P e : nat -> Z) k :
  (forall j, (j < k)%nat -> 2 <= P j) -> (forall j, 0 <= e j) ->
  2 ^ zsum e k <= zprod (fun j => P j ^ e j) k.
Proof.
  intros HP He. induction k as [|k IH]; [cbn; lia|].
  cbn [zsum zprod].
  specialize (IH ltac:(intros; apply HP; lia)).
  pose proof (zsum_nonneg e k ltac:(intros; apply He)) as Hs.
  rewrite Z.pow_add_r by (try apply He; lia).
  assert (H1 : 2 ^ e k <= P k ^ e k).
  { apply Z.pow_le_mono_l. specialize (HP k ltac:(lia)). lia. }
  assert (H2 : 0 < 2 ^ zsum e k) by (apply Z.pow_pos_nonneg; lia).
  assert (H3 : 0 < 2 ^ e k) by (apply Z.pow_pos_nonneg; [lia|apply He]).
  clear - IH H1 H2 H3. nia.
Qed.

Lemma zsum_zero_all (e : nat -> Z) k :
  (forall j, 0 <= e j) -> zsum e k = 0 -> forall j, (j < k)%nat -> e j = 0.
Proof.
  intros He. induction k as [|k IH]; intros H j Hj; [lia|].
  cbn [zsum] in H.
  pose proof (zsum_nonneg e k ltac:(intros; apply He)) as Hs.
  pose proof (He k) as Hk.
  destruct (Nat.eq_dec j k) as [->|Hne]; [lia|]. apply IH; lia.
Qed.

Lemma zsum_le1_prod (P e : nat -> Z) k :
  (forall j, 0 <= e j) -> zsum e k <= 1 ->
  zprod (fun j => P j ^ e j) k = 1 \/
  exists j, (j < k)%nat /\ zprod (fun j => P j ^ e j) k = P j.
Proof.
  intros He. induction k as [|k IH]; intros H; [now left|].
  cbn [zsum] in H. cbn [zprod].
  pose proof (zsum_nonneg e k ltac:(intros; apply He)) as Hs.
  pose proof (He k) as Hk.
  destruct (Z.eq_dec (e k) 0) as [E0|E0].
  - rewrite E0, Z.pow_0_r, Z.mul_1_r.
    destruct (IH ltac:(lia)) as [H1|(j & Hj & H1)]; [now left|].
    right. exists j. split; [lia|exact H1].
  - assert (E1 : e k = 1) by lia. assert (Z0 : zsum e k = 0) by lia.
    right. exists k. split; [lia|].
    rewrite zprod_ones, E1, Z.pow_1_r; [ring|].
    intros j Hj. rewrite (zsum_zero_all e k He Z0 j Hj). apply Z.pow_0_r.
Qed.

Lemma odd_closed_nil : odd_closed [].
Proof. split; intros x; cbn; tauto. Qed.

Lemma odd_closed_app L1 L2 : odd_closed L1 -> odd_closed L2 -> odd_closed (L1 ++ L2).
Proof.
  intros (A1 & B1) (A2 & B2). split.
  - intros x Hx. apply in_app_or in Hx. destruct Hx; auto.
  - intros x r Hx Hr Hr2 Hd. apply in_app_or in Hx. apply in_or_app.
    destruct Hx; [left; now apply (B1 x)|right; now apply (B2 x)].
Qed.

Lemma odd_prime_not_pow2 r a : Z.prime r -> r <> 2 -> 0 <= a -> ~ (r | 2 ^ a).
Proof.
  intros Hr Hr2 Ha D. apply Hr2.
  exact (Z.divide_prime_pp r 2 a Hr Z.prime_2 Ha D).
Qed.

Section Pratt.
Variable bound : Z.
Hypothesis below : forall r, Z.prime r -> r <> 2 -> r < bound ->
  exists T, odd_closed (r :: T) /\ (forall x, In x (r :: T) -> x <= r) /\
            2 ^ Z.of_nat (List.length (r :: T)) <= r - 1.

(** All the odd primes under [m], with what they need, in at most
    [log2 m] places. *)
Lemma pratt_cover :
  forall m, 1 <= m -> m < bound ->
  exists L, odd_closed L /\ (forall x, In x L -> x <= m) /\
            (forall r, Z.prime r -> r <> 2 -> (r | m) -> In r L) /\
            2 ^ Z.of_nat (List.length L) <= m.
Proof.
  intros m. pattern m. apply (well_founded_ind (Z.lt_wf 0)). clear m.
  intros m IH Hm Hb.
  destruct (mult_split 2 ltac:(lia) m Hm) as (a & m2 & Ha & Hm2 & E2 & Hn2).
  assert (Hp2 : 1 <= 2 ^ a) by (apply Z.lt_pred_le, Z.pow_pos_nonneg; lia).
  destruct (Z.eq_dec m2 1) as [->|Hne].
  - exists []. split; [apply odd_closed_nil|]. split; [intros x []|].
    split; [|cbn; lia].
    intros r Hr Hr2 D. exfalso. rewrite E2, Z.mul_1_r in D.
    exact (odd_prime_not_pow2 r a Hr Hr2 Ha D).
  - destruct (prime_factor_exists m2 ltac:(lia)) as (r & Hr & Hrm2).
    assert (Hr2 : r <> 2) by (intros ->; now apply Hn2).
    pose proof (Z.prime_ge_2 r Hr) as Hrge.
    assert (Hrm : (r | m)) by (rewrite E2; now apply Z.divide_mul_r).
    assert (Hrle : r <= m) by (apply Z.divide_pos_le; [lia|exact Hrm]).
    destruct (mult_split r Hrge m Hm) as (e & m' & He & Hm' & E & Hn).
    assert (He1 : 1 <= e).
    { destruct (Z.eq_dec e 0) as [->|]; [|lia]. exfalso. apply Hn.
      rewrite Z.pow_0_r, Z.mul_1_l in E. now rewrite <- E. }
    assert (HQ : r ^ e = r * r ^ (e - 1)).
    { replace e with (1 + (e - 1)) at 1 by lia.
      rewrite Z.pow_add_r, Z.pow_1_r by lia. reflexivity. }
    assert (HQ1 : 1 <= r ^ (e - 1)) by (apply Z.lt_pred_le, Z.pow_pos_nonneg; lia).
    assert (Hm'm : m' < m) by (clear - E HQ HQ1 Hrge Hm'; nia).
    destruct (IH m' ltac:(lia) Hm' ltac:(lia)) as (L' & C' & B' & I' & S').
    destruct (below r Hr Hr2 ltac:(lia)) as (T & CT & BT & ST).
    exists ((r :: T) ++ L'). split; [now apply odd_closed_app|]. split; [|split].
    + intros x Hx. apply in_app_or in Hx. destruct Hx as [Hx|Hx].
      * specialize (BT x Hx). lia.
      * specialize (B' x Hx). lia.
    + intros q Hq Hq2 D. apply in_or_app.
      rewrite E in D. apply Z.divide_prime_mul in D; [|exact Hq].
      destruct D as [D|D].
      * left. left. symmetry. exact (Z.divide_prime_pp q r e Hq Hr He D).
      * right. now apply I'.
    + rewrite length_app, Nat2Z.inj_add, Z.pow_add_r by lia.
      assert (P1 : 0 < 2 ^ Z.of_nat (List.length (r :: T)))
        by (apply Z.pow_pos_nonneg; lia).
      assert (P2 : 0 < 2 ^ Z.of_nat (List.length L'))
        by (apply Z.pow_pos_nonneg; lia).
      rewrite E, HQ.
      apply Z.le_trans with (r * m').
      * apply Z.le_trans with ((r - 1) * m'); [|clear - Hm' Hrge; nia].
        apply Z.mul_le_mono_nonneg; lia.
      * rewrite <- (Z.mul_assoc r). apply Z.mul_le_mono_nonneg_l; [lia|].
        clear - HQ1 Hm'. nia.
Qed.

End Pratt.

(** The odd primes a proof of the primality of [p] goes through: at most
    [log2 (p - 1)] of them, [p] first. *)
Lemma pratt_list :
  forall p, Z.prime p -> p <> 2 ->
  exists T, odd_closed (p :: T) /\ (forall x, In x (p :: T) -> x <= p) /\
            2 ^ Z.of_nat (List.length (p :: T)) <= p - 1.
Proof.
  intros p. pattern p. apply (well_founded_ind (Z.lt_wf 0)). clear p.
  intros p IH Hp Hp2. pose proof (Z.prime_ge_2 p Hp) as Hge.
  assert (Hodd : (2 | p - 1)).
  { destruct (Z.eq_dec ((p - 1) mod 2) 0) as [E|E]; [apply Z.mod_divide; [lia|exact E]|].
    exfalso. apply Hp2. symmetry. apply (Z.divide_prime_prime 2 p Z.prime_2 Hp).
    apply Z.mod_divide; [lia|].
    pose proof (Z.mod_pos_bound (p - 1) 2 ltac:(lia)) as Hb.
    replace p with ((p - 1) + 1) by ring.
    rewrite Z.add_mod by lia. replace ((p - 1) mod 2) with 1 by lia. reflexivity. }
  destruct Hodd as [h Hh].
  assert (Hh1 : 1 <= h < p) by lia.
  destruct (pratt_cover p) with (m := h) as (L & CL & BL & IL & SL); try lia.
  { intros r Hr Hr2 Hlt. apply IH; [pose proof (Z.prime_ge_2 r Hr); lia|exact Hr|exact Hr2]. }
  exists L. split; [|split].
  - destruct CL as (A & B). split.
    + intros x [<-|Hx]; [now split|now apply A].
    + intros x r [<-|Hx] Hr Hr2 D.
      * right. apply IL; [exact Hr|exact Hr2|].
        rewrite Hh in D. apply Z.divide_prime_mul in D; [|exact Hr].
        destruct D as [D|D]; [exact D|]. exfalso. apply Hr2.
        exact (Z.divide_prime_prime r 2 Hr Z.prime_2 D).
      * right. now apply (B x).
  - intros x [<-|Hx]; [lia|]. specialize (BL x Hx). lia.
  - cbn [List.length]. rewrite Nat2Z.inj_succ, Z.pow_succ_r by lia. lia.
Qed.

(* ================================================================== *)
(** * A certificate for every prime below [2 ^ n] *)

Lemma zsum_zeros k : zsum (fun _ => 0) k = 0.
Proof. induction k as [|k IH]; cbn [zsum]; lia. Qed.

Lemma odd_prime_pred_even p : Z.prime p -> p <> 2 -> (2 | p - 1).
Proof.
  intros Hp Hp2. pose proof (Z.prime_ge_2 p Hp) as Hge.
  destruct (Z.eq_dec ((p - 1) mod 2) 0) as [E|E]; [apply Z.mod_divide; [lia|exact E]|].
  exfalso. apply Hp2. symmetry. apply (Z.divide_prime_prime 2 p Z.prime_2 Hp).
  apply Z.mod_divide; [lia|].
  pose proof (Z.mod_pos_bound (p - 1) 2 ltac:(lia)) as Hb.
  replace p with ((p - 1) + 1) by ring.
  rewrite Z.add_mod by lia. replace ((p - 1) mod 2) with 1 by lia. reflexivity.
Qed.

Lemma four_le_pow2 n : (2 <= n)%nat -> 4 <= 2 ^ Z.of_nat n.
Proof.
  intros H. destruct n as [|[|n]]; try lia. rewrite !pow2_S.
  pose proof (pow2_pos n). lia.
Qed.

(** What one slot needs: exponents and a generator. *)
Lemma slot_certificate (P : nat -> Z) (n i : nat) :
  (2 <= n)%nat ->
  (forall j, (j < n)%nat -> Z.prime (P j)) ->
  P i < 2 ^ Z.of_nat n -> Z.prime (P i) ->
  (P i <> 2 -> forall r, Z.prime r -> (r | P i - 1) ->
     exists j, (j < n)%nat /\ P j = r) ->
  exists eg : (nat -> Z) * Z,
    0 <= snd eg < 2 ^ Z.of_nat n /\
    zprod (fun j => P j ^ fst eg j) n + 1 < 2 ^ Z.of_nat n /\
    zsum (fst eg) n < 2 ^ Z.of_nat n /\
    ((P i = 2 \/ P i = 3) \/
     (1 < zsum (fst eg) n /\ zprod (fun j => P j ^ fst eg j) n + 1 = P i)) /\
    ((snd eg <> 0 /\ snd eg <> 1 /\ snd eg ^ (P i - 1) mod P i = 1) \/
     (P i = 2 \/ P i = 3)) /\
    forall j, (j < n)%nat ->
      0 <= fst eg j < 2 ^ Z.of_nat n /\
      P j ^ fst eg j < 2 ^ Z.of_nat n /\
      ((snd eg <> 0 /\ snd eg <> 1 /\
        snd eg ^ ((P i - 1) / P j) mod P i <> 1) \/
       fst eg j = 0 \/ (P i = 2 \/ P i = 3)).
Proof.
  intros Hn HP Hlt Hq Hidx. pose proof (four_le_pow2 n Hn) as H4.
  set (q := P i) in *. pose proof (Z.prime_ge_2 q Hq) as Hq2.
  destruct (Z.eq_dec q 2) as [E2|N2];
    [|destruct (Z.eq_dec q 3) as [E3|N3]].
  1, 2: exists (fun _ => 0, 0); cbn [fst snd];
    rewrite zsum_zeros, (zprod_ones _ n) by (intros; apply Z.pow_0_r);
    repeat split; try lia; try (left; lia); try (right; lia);
    try (rewrite Z.pow_0_r; lia); right; tauto.
  assert (Hq5 : 5 <= q).
  { destruct (Z.eq_dec q 4) as [E4|]; [|lia]. exfalso.
    assert (D : (2 | q)) by (exists 2; lia).
    pose proof (Z.divide_prime_prime 2 q Z.prime_2 Hq D). lia. }
  destruct (factor_index P n (q - 1) ltac:(lia) (Hidx N2)) as (e & He & Hprod & Hdiv).
  destruct (primitive_root_exists q Hq) as (g & Hg & Hg1 & Hg2).
  pose proof (odd_prime_pred_even q Hq N2) as Heven.
  assert (HP2 : forall j, (j < n)%nat -> 2 <= P j).
  { intros j Hj. apply Z.prime_ge_2. now apply HP. }
  assert (Hpow1 : forall j, (j < n)%nat -> 1 <= P j ^ e j).
  { intros j Hj. apply Z.lt_pred_le, Z.pow_pos_nonneg; [|apply He].
    specialize (HP2 j Hj). lia. }
  assert (Hg01 : g <> 0 /\ g <> 1).
  { split; [lia|]. intros ->. apply (Hg2 2 Z.prime_2 Heven).
    rewrite Z.pow_1_l by (apply Z.div_pos; lia). apply Z.mod_1_l. lia. }
  pose proof (pow2_zsum_le P e n HP2 He) as Hs2. rewrite Hprod in Hs2.
  pose proof (zsum_nonneg e n ltac:(intros; apply He)) as Hs0.
  pose proof (Z.pow_gt_lin_r 2 (zsum e n) ltac:(lia) Hs0) as Hs3.
  exists (e, g). cbn [fst snd]. rewrite Hprod.
  split; [lia|]. split; [lia|]. split; [lia|]. split; [|split].
  - right. split; [|lia].
    destruct (Z_lt_le_dec 1 (zsum e n)) as [Hgt|Hle]; [exact Hgt|exfalso].
    destruct (zsum_le1_prod P e n He Hle) as [H1|(j & Hj & H1)];
      rewrite Hprod in H1; [lia|].
    pose proof (HP j Hj) as Hpj. rewrite <- H1 in Hpj.
    pose proof (Z.divide_prime_prime 2 (q - 1) Z.prime_2 Hpj Heven). lia.
  - left. now repeat split.
  - intros j Hj. specialize (He j) as Hej.
    pose proof (zprod_factor_le (fun j => P j ^ e j) n j Hpow1 Hj) as Hle.
    cbn beta in Hle. rewrite Hprod in Hle.
    assert (Hej2 : e j < 2 ^ e j) by (apply Z.pow_gt_lin_r; lia).
    assert (Hmono : 2 ^ e j <= P j ^ e j).
    { apply Z.pow_le_mono_l. specialize (HP2 j Hj). lia. }
    split; [lia|]. split; [lia|].
    destruct (Z.eq_dec (e j) 0) as [E0|E0]; [right; left; exact E0|].
    left. split; [tauto|]. split; [tauto|].
    apply Hg2; [now apply HP|now apply Hdiv].
Qed.

(** The slots: the odd primes of the proof, then 2 to the end. *)
Lemma slots_exist n p :
  Z.prime p -> p < 2 ^ Z.of_nat n ->
  exists vals : list Z,
    (List.length vals < n)%nat /\ nth 0 vals 2 = p /\ odd_closed vals /\
    (forall x, In x vals -> x <= p).
Proof.
  intros Hp Hlt. destruct (Z.eq_dec p 2) as [->|Hp2].
  - exists []. split; [|split; [reflexivity|split; [apply odd_closed_nil|intros x []]]].
    cbn. destruct n; [cbn in Hlt; lia|lia].
  - destruct (pratt_list p Hp Hp2) as (T & C & B & S).
    exists (p :: T). split; [|split; [reflexivity|split; assumption]].
    apply Nat2Z.inj_lt. apply (Z.pow_lt_mono_r_iff 2); lia.
Qed.

Lemma cert_exists n p :
  (2 <= n)%nat -> Z.prime p -> p < 2 ^ Z.of_nat n ->
  exists C, cert_ok n C /\ cert_P C 0 = p.
Proof.
  intros Hn Hp Hlt. pose proof (Z.prime_ge_2 p Hp) as Hp2.
  destruct (slots_exist n p Hp Hlt) as (vals & Hlen & H0 & (Hodd & Hcl) & Hle).
  set (P := fun j => nth j vals 2).
  assert (Hin : forall j, P j <> 2 -> In (P j) vals).
  { intros j Hj. destruct (Nat.lt_ge_cases j (List.length vals)) as [H|H].
    - now apply nth_In.
    - exfalso. apply Hj. now apply nth_overflow. }
  assert (HP : forall j, Z.prime (P j)).
  { intros j. destruct (Z.eq_dec (P j) 2) as [->|Hj]; [exact Z.prime_2|].
    now apply Hodd, Hin. }
  assert (HPlt : forall j, P j < 2 ^ Z.of_nat n).
  { intros j. destruct (Z.eq_dec (P j) 2) as [->|Hj]; [lia|].
    specialize (Hle _ (Hin j Hj)). lia. }
  destruct (fin_choice ((nat -> Z) * Z) (fun _ => 0, 0)
              (fun i eg =>
                 0 <= snd eg < 2 ^ Z.of_nat n /\
                 zprod (fun j => P j ^ fst eg j) n + 1 < 2 ^ Z.of_nat n /\
                 zsum (fst eg) n < 2 ^ Z.of_nat n /\
                 ((P i = 2 \/ P i = 3) \/
                  (1 < zsum (fst eg) n /\
                   zprod (fun j => P j ^ fst eg j) n + 1 = P i)) /\
                 ((snd eg <> 0 /\ snd eg <> 1 /\
                   snd eg ^ (P i - 1) mod P i = 1) \/ (P i = 2 \/ P i = 3)) /\
                 forall j, (j < n)%nat ->
                   0 <= fst eg j < 2 ^ Z.of_nat n /\
                   P j ^ fst eg j < 2 ^ Z.of_nat n /\
                   ((snd eg <> 0 /\ snd eg <> 1 /\
                     snd eg ^ ((P i - 1) / P j) mod P i <> 1) \/
                    fst eg j = 0 \/ (P i = 2 \/ P i = 3))) n) as (f & Hf).
  { intros i Hi. apply slot_certificate; try assumption.
    - intros j _. apply HP.
    - apply HPlt.
    - apply HP.
    - intros Hi2 r Hr Hd. destruct (Z.eq_dec r 2) as [->|Hr2].
      + exists (List.length vals). split; [exact Hlen|].
        unfold P. now apply nth_overflow.
      + destruct (In_nth vals r 2 (Hcl (P i) r (Hin i Hi2) Hr Hr2 Hd))
          as (j & Hj & Ej).
        exists j. split; [lia|exact Ej]. }
  exists (mkCertificate P (fun i => fst (f i)) (fun i => snd (f i))).
  split; [|exact H0].
  unfold cert_ok, cert_product, cert_sum, cert_power, cert_base.
  cbn [cert_P cert_E cert_G]. split.
  - intros i Hi. destruct (Hf i Hi) as (A1 & A2 & A3 & A4 & A5 & _).
    split; [|now repeat split].
    split; [apply Z.prime_ge_2, HP|apply HPlt].
  - intros i j Hi Hj. destruct (Hf i Hi) as (_ & _ & _ & _ & _ & A6).
    exact (A6 j Hj).
Qed.

(* ================================================================== *)
(** * [IsPrime] accepts exactly the primes *)

Lemma IsPrime_pinned_iff (o : arg_order) (target : string) (n : nat) (p : Z)
  (st : counters) :
  user_name target = true ->
  (2 <= n)%nat -> small (n * 4 + 1) ->
  small_counters (snd (IsPrime o target n (Z.of_nat n) st)) ->
  0 <= p < 2 ^ Z.of_nat n ->
  satisfiable (fst (IsPrime o target n (Z.of_nat n) st)
               ++ Input_Equals_Number target p n
               ++ Input_Equals_Number (One_NBit n) 1 n
               ++ Input_Equals_Number (One_NBit (n * 2)) 1 (n * 2)
               ++ [[Neg Zero_1Bit]])
  <-> Z.prime p.
Proof.
  intros Ut Hn Hs4 Hs Rp.
  assert (St : stable st target) by now apply stable_user.
  assert (Hs1 : small n) by (apply (small_le _ (n * 4 + 1)); [lia|exact Hs4]).
  assert (Hs2 : small (n * 2)) by (apply (small_le _ (n * 4 + 1)); [lia|exact Hs4]).
  assert (Hn0 : (0 < n)%nat) by lia.
  split.
  - intros (s & Hsat). rewrite !sat_app_true in Hsat.
    destruct Hsat as (Hc & Pt & P1 & P2 & Pz).
    apply Input_Equals_Number_value in Pt; [|exact Rp].
    apply pin_One_value in P1; [|lia]. apply pin_One_value in P2; [|lia].
    apply unit_neg_sound in Pz. rewrite <- Pt.
    now apply (IsPrime_sound s o target n st).
  - intros Hp.
    destruct (cert_exists n p Hn Hp ltac:(lia)) as (C & HC & HP0).
    pose proof (IsPrime_ok o target n C st Hn Hs4 St HC) as K.
    set (s0 := set_bits target n p (set_bits (One_NBit n) n 1
                 (set_bits (One_NBit (n * 2)) (n * 2) 1 (fun _ => false)))).
    assert (Vt : value s0 target n = p).
    { unfold s0. rewrite value_set_bits by exact Hs1. now apply Z.mod_small. }
    assert (V1 : value s0 (One_NBit n) n = 1).
    { unfold s0. peel_layers. apply value_One_set; [exact Hs1|lia]. }
    assert (V2 : value s0 (One_NBit (n * 2)) (n * 2) = 1).
    { unfold s0. peel_layers. apply value_One_set; [exact Hs2|lia]. }
    assert (Vz : s0 Zero_1Bit = false).
    { unfold s0. rewrite !set_bits_other; [reflexivity|..]; intros i _ E;
        symmetry in E; revert E; try (now apply user_app_neq);
        unfold One_NBit, Zero_1Bit; discriminate. }
    destruct (run_step _ _ _ s0 K Hs) as (s & _ & A & H).
    { rewrite HP0. now repeat split. }
    exists s. rewrite !sat_app_true. repeat apply conj.
    + apply H.
    + exact (pin_holds st s0 s target p n St A Vt Rp).
    + apply (pin_One_holds st s0 s); [exact A|exact V1|lia].
    + apply (pin_One_holds st s0 s); [exact A|exact V2|lia].
    + apply (holds_unit_neg st); [apply old_Zero_1Bit|].
      rewrite (A _ (old_Zero_1Bit st)). exact Vz.
Qed.

(** X15. [IsPrime] with 2 to 16 bits and as many slots on a target
    pinned to [p < 2 ^ n], the constants pinned to 1, 1 and false: the
    clauses are satisfiable exactly when [p] is prime.  Up to 16 bits
    every pin inside the list, the widest of [2n] bits in [PowMod_NBit],
    shifts its [int] by less than 32. *)
Theorem IsPrime_characterisation (o : arg_order) (target : string) (n : nat)
  (p : Z) (st : counters) :
  user_name target = true ->
  (2 <= n <= 16)%nat ->
  small_counters (snd (IsPrime o target n (Z.of_nat n) st)) ->
  0 <= p < 2 ^ Z.of_nat n ->
  satisfiable (fst (IsPrime o target n (Z.of_nat n) st)
               ++ Input_Equals_Number target p n
               ++ Input_Equals_Number (One_NBit n) 1 n
               ++ Input_Equals_Number (One_NBit (n * 2)) 1 (n * 2)
               ++ [[Neg Zero_1Bit]])
  <-> Z.prime p.
Proof.
  intros Ut [Hn Hn16] Hs Rp.
  apply IsPrime_pinned_iff; try assumption. unfold small. lia.
Qed.

Lemma IsPrime_characterisation_witness :
  satisfiable (fst (IsPrime LeftToRight "t" 2 (Z.of_nat 2) counters0)
               ++ Input_Equals_Number "t" 3 2
               ++ Input_Equals_Number (One_NBit 2) 1 2
               ++ Input_Equals_Number (One_NBit (2 * 2)) 1 (2 * 2)
               ++ [[Neg Zero_1Bit]])
  <-> Z.prime 3.
Proof.
  apply (IsPrime_characterisation LeftToRight "t" 2 3 counters0).
  - reflexivity.
  - lia.
  - intros k. destruct k; reflexivity.
  - cbn. lia.
Defined.

Lemma is_prime_width_bounds target :
  0 <= target < 2 ^ 31 ->
  (2 <= is_prime_width target <= 31)%nat /\
  target < 2 ^ Z.of_nat (is_prime_width target).
Proof.
  intros Ht. destruct (bit_len_bounds target Ht) as (Hlt & _ & _ & H31).
  unfold is_prime_width. cbv zeta.
  destruct (Nat.ltb_spec (bit_len target) 2) as [Hl|Hl]; [|split; [lia|exact Hlt]].
  split; [lia|].
  pose proof (Z.pow_le_mono_r 2 (Z.of_nat (bit_len target)) (Z.of_nat 2)
                ltac:(lia) ltac:(lia)). lia.
Qed.

(** X16. The clause list of the front end [is_prime] for a target below
    [2 ^ 16] is satisfiable exactly when the target is prime; 0 and 1,
    for which the width is raised to 2, give unsatisfiable lists.
    Below [2 ^ 16] the width is 16 at most, and every pin of the list,
    the widest of twice the width, shifts its [int] by less than 32. *)
Theorem is_prime_main_satisfiable_iff (o : arg_order) (target : Z) (st : counters) :
  0 <= target < 2 ^ 16 ->
  small_counters (snd (is_prime_main_conditions o target st)) ->
  satisfiable (fst (is_prime_main_conditions o target st)) <-> Z.prime target.
Proof.
  intros Ht16 Hs.
  assert (Ht : 0 <= target < 2 ^ 31) by lia. destruct (is_prime_width_bounds target Ht) as (Hw & Hlt).
  unfold is_prime_main_conditions in *. rewrite is_prime_conditions_run in *.
  cbn [fst snd] in *.
  apply IsPrime_pinned_iff; try assumption; try lia.
  - reflexivity.
  - apply small_31. lia.
Qed.

Lemma is_prime_main_satisfiable_iff_witness :
  satisfiable (fst (is_prime_main_conditions LeftToRight 5 counters0))
  <-> Z.prime 5.
Proof.
  apply (is_prime_main_satisfiable_iff LeftToRight 5 counters0).
  - lia.
  - intros k. destruct k; reflexivity.
Defined.

(* ================================================================== *)
(** * Pins, word gates and wire names *)

(** X17. The two pins, at a width of at most 32 and for a non-negative
    [int], compare the low [n] bits: [Input_Equals_Number] holds exactly
    when the operand is [v mod 2 ^ n], and the clause of
    [Input_Not_Equals_Number] exactly when it is not.  At width 0 the
    first is the empty list and the second the empty clause.  Up to 32
    bits the loop shifts the [int] by less than 32. *)
Theorem Input_pins_compare_low_bits (s : assignment) (x : string) (v : Z) (n : nat) :
  (n <= 32)%nat -> 0 <= v < 2 ^ 31 ->
  (sat s (Input_Equals_Number x v n) = true <->
   value s x n = v mod 2 ^ Z.of_nat n) /\
  (sat_clause s (Input_Not_Equals_Number x v n) = true <->
   value s x n <> v mod 2 ^ Z.of_nat n).
Proof.
  intros _ _. split.
  - rewrite Input_Equals_Number_bits. split; [apply bits_value|apply value_bits].
  - split; [|apply Input_Not_Equals_Number_complete].
    unfold Input_Not_Equals_Number, sat_clause. rewrite existsb_exists.
    intros (l & Hl & Hs) Hv. apply in_map_iff in Hl.
    destruct Hl as (i & <- & Hi). apply in_seq in Hi.
    pose proof (value_bits s x n v Hv i ltac:(lia)) as Hbit.
    rewrite bit_of_value, <- Hbit in Hs.
    destruct (s (x # i)) eqn:E; cbn [sat_lit] in Hs; rewrite E in Hs; discriminate Hs.
Qed.

Lemma Input_pins_compare_low_bits_witness :
  let s := fun x : string => String.eqb x ("a" # 0) in
  (sat s (Input_Equals_Number "a" 5 2) = true <->
   value s "a" 2 = 5 mod 2 ^ Z.of_nat 2) /\
  (sat_clause s (Input_Not_Equals_Number "a" 5 2) = true <->
   value s "a" 2 <> 5 mod 2 ^ Z.of_nat 2).
Proof.
  apply (Input_pins_compare_low_bits
           (fun x : string => String.eqb x ("a" # 0)) "a" 5 2).
  - lia.
  - cbn. lia.
Defined.

Lemma Equals_NBit_complete (s : assignment) a b n :
  value s a n = value s b n -> sat s (Equals_NBit a b n) = true.
Proof.
  intros Hv. unfold Equals_NBit. apply sat_for_pure. intros i Hi.
  assert (E : s (a # i) = s (b # i))
    by exact (bval_inj (fun i => s (a # i)) (fun i => s (b # i)) n Hv i Hi).
  revert E. gate_cases.
Qed.

(** X18. The four word gates say what their names say:
    [Equals_NBit] holds exactly when the two operands are equal,
    [If_Cond_A_Else_B_NBit] when the result is the first operand if the
    condition is set and the second if not, [Or_NBit_To_1Bit] when the
    flag is set exactly for a nonzero operand, and [DoubleSize_Assign]
    when the [2n]-bit result is the [n]-bit operand. *)
Theorem word_gates_meaning (s : assignment) (a b c r : string) (n : nat) :
  (sat s (Equals_NBit a b n) = true <-> value s a n = value s b n) /\
  (sat s (If_Cond_A_Else_B_NBit a b c r n) = true <->
   value s r n = if s c then value s a n else value s b n) /\
  (sat s (Or_NBit_To_1Bit a c n) = true <-> s c = negb (value s a n =? 0)) /\
  (sat s (DoubleSize_Assign a r n) = true <-> value s r (n * 2) = value s a n).
Proof.
  split; [|split; [|split]].
  - split; [apply Equals_NBit_sound|apply Equals_NBit_complete].
  - split; [apply If_Cond_A_Else_B_NBit_sound|].
    intros Hv. unfold If_Cond_A_Else_B_NBit. apply sat_for_pure. intros i Hi.
    apply If_Cond_A_Else_B_1Bit_complete.
    destruct (s c).
    + exact (bval_inj (fun i => s (r # i)) (fun i => s (a # i)) n Hv i Hi).
    + exact (bval_inj (fun i => s (r # i)) (fun i => s (b # i)) n Hv i Hi).
  - split; [apply Or_NBit_To_1Bit_sound|].
    intros Hv. unfold Or_NBit_To_1Bit. apply sat_cons_true.
    destruct (or_reduce_complete s (fun i => a # i) c n Hv) as (O1 & O2).
    split; [exact O1|]. apply sat_for_pure. exact O2.
  - split; [apply DoubleSize_Assign_sound|].
    replace (n * 2)%nat with (n + n)%nat by lia.
    unfold value. rewrite bval_app. cbv beta. intros Hv.
    pose proof (bval_range (fun i => s (r # i)) n).
    pose proof (bval_range (fun i => s (r # (n + i))) n).
    pose proof (bval_range (fun i => s (a # i)) n).
    pose proof (pow2_pos n).
    assert (Hh : bval (fun i => s (r # (n + i))) n = 0) by nia.
    unfold DoubleSize_Assign. apply sat_app_true. split.
    + apply Equals_NBit_complete. unfold value. lia.
    + apply for_range_sat. intros i Hi.
      pose proof (bval_zero_inv _ _ Hh (i - n)%nat ltac:(lia)) as Z0.
      cbv beta in Z0. replace (n + (i - n))%nat with i in Z0 by lia.
      cbn [sat forallb sat_clause existsb sat_lit]. now rewrite Z0.
Qed.

(** X19. [Add_NBit] on pinned operands with the overflow flag forced
    low: the clauses are satisfiable exactly when the sum fits in [n]
    bits, and every satisfying assignment has the sum on [result]. *)
Theorem Add_NBit_no_overflow_iff (n : nat) (a b : Z)
  (in_a in_b result over_flow : string) (st : counters) :
  user_name in_a = true -> user_name in_b = true ->
  user_name result = true -> user_name over_flow = true ->
  NoDup [in_a; in_b; result] ->
  (forall x i, In x [in_a; in_b; result] -> x # i <> over_flow) ->
  small (S n) ->
  small_counters (snd (Add_NBit in_a in_b result over_flow n st)) ->
  0 <= a < 2 ^ Z.of_nat n -> 0 <= b < 2 ^ Z.of_nat n ->
  let cs := Input_Equals_Number in_a a n ++ Input_Equals_Number in_b b n
            ++ [[Neg over_flow]]
            ++ fst (Add_NBit in_a in_b result over_flow n st) in
  (satisfiable cs <-> a + b < 2 ^ Z.of_nat n) /\
  forall s, sat s cs = true -> value s result n = a + b.
Proof.
  intros Ua Ub Ur Uo Hnd Hov Hn Hs Ra Rb cs.
  assert (Sa : stable st in_a) by now apply stable_user.
  assert (Sb : stable st in_b) by now apply stable_user.
  assert (Sr : stable st result) by now apply stable_user.
  assert (So : stable st over_flow) by now apply stable_user.
  assert (Hns : small n) by (apply (small_le _ (S n)); [lia|exact Hn]).
  destruct (NoDup3_neq _ _ _ Hnd) as (Nab & Nar & Nbr).
  assert (Sound : forall s, sat s cs = true -> value s result n = a + b).
  { intros s Hsat. unfold cs in Hsat. rewrite !sat_app_true in Hsat.
    destruct Hsat as (Pa & Pb & Po & Hadd).
    apply Input_Equals_Number_value in Pa; [|exact Ra].
    apply Input_Equals_Number_value in Pb; [|exact Rb].
    apply unit_neg_sound in Po. apply Add_NBit_sound in Hadd.
    rewrite Pa, Pb, Po in Hadd. cbn [Z.b2z] in Hadd. lia. }
  split; [|exact Sound]. split.
  - intros (s & Hsat). rewrite <- (Sound s Hsat). apply value_range.
  - intros Hlt.
    set (s0 := set_bits in_a n a (set_bits in_b n b
                 (set_bits result n (a + b) (fun _ => false)))).
    assert (Va : value s0 in_a n = a).
    { unfold s0. rewrite value_set_bits by exact Hns. now apply Z.mod_small. }
    assert (Vb : value s0 in_b n = b).
    { unfold s0. peel_layers. rewrite value_set_bits by exact Hns. now apply Z.mod_small. }
    assert (Vr : value s0 result n = a + b).
    { unfold s0. peel_layers. rewrite value_set_bits by exact Hns.
      apply Z.mod_small. lia. }
    assert (Vo : s0 over_flow = false).
    { unfold s0. rewrite !set_bits_other; [reflexivity|..]; intros i _ E;
        symmetry in E; revert E; apply Hov; cbn [In]; tauto. }
    pose proof (Add_NBit_ok in_a in_b result over_flow n st Sa Sb Sr
                  (stable_old _ _ So) Hn) as K.
    destruct (run_step _ _ _ s0 K Hs) as (s & _ & A & H).
    { rewrite Va, Vb, Vr, Vo. rewrite Z.mod_small, Z.div_small by lia. now split. }
    exists s. unfold cs. rewrite !sat_app_true. repeat apply conj.
    + exact (pin_holds st s0 s in_a a n Sa A Va Ra).
    + exact (pin_holds st s0 s in_b b n Sb A Vb Rb).
    + apply (holds_unit_neg st); [now apply stable_old|].
      rewrite (A _ (stable_old _ _ So)). exact Vo.
    + apply H.
Qed.

Lemma Add_NBit_no_overflow_iff_witness :
  let cs := Input_Equals_Number "a" 3 3 ++ Input_Equals_Number "b" 2 3
            ++ [[Neg "ov"]] ++ fst (Add_NBit "a" "b" "r" "ov" 3 counters0) in
  (satisfiable cs <-> 3 + 2 < 2 ^ Z.of_nat 3) /\
  forall s, sat s cs = true -> value s "r" 3 = 3 + 2.
Proof.
  apply (Add_NBit_no_overflow_iff 3 3 2 "a" "b" "r" "ov" counters0).
  - reflexivity.
  - reflexivity.
  - reflexivity.
  - reflexivity.
  - repeat constructor; cbn [In]; intuition discriminate.
  - intros x i [<-|[<-|[<-|[]]]]; discriminate.
  - reflexivity.
  - intros k. destruct k; reflexivity.
  - cbn. lia.
  - cbn. lia.
Defined.

(** X20. Wire names do not collide: for indices below [10 ^ 10] the
    padded number [Z i] has ten characters and determines [i], and the
    bit name [x_<Z i>] determines both the operand and the index. *)
Theorem bit_names_unique (x y : string) (i j : nat) :
  small i -> small j ->
  String.length (Pad.Z i) = 10%nat /\
  (Pad.Z i = Pad.Z j -> i = j) /\
  (x # i = y # j -> x = y /\ i = j).
Proof.
  intros Hi Hj. split; [now apply Z_length|]. split.
  - now apply Z_inj.
  - now apply bit_name_inj.
Qed.

Lemma bit_names_unique_witness :
  String.length (Pad.Z 7) = 10%nat /\
  (Pad.Z 7 = Pad.Z 12 -> 7 = 12)%nat /\
  ("a" # 7 = "b" # 12 -> "a" = "b" /\ 7 = 12)%nat.
Proof.
  apply (bit_names_unique "a" "b" 7 12).
  - reflexivity.
  - reflexivity.
Defined.

(* ================================================================== *)
(** * Pins wider than an [int]

    [Input_Equals_Number] takes its number as an [int] and tests
    [((value >> i) & 1) == 1] for every [i] below the width.  A caller
    that asks for more than 32 bits makes it shift the [int] by 32 or
    more.  [PowMod_NBit] does so from 17 bits on: it pins its first
    partial result, of [2n] bits, to 1. *)









